(** * ramulator cache hierarchy and request scheduler

    A shallow embedding of [Cache_example.cpp] (the set-associative
    write-back cache with MSHRs and the [CacheSystem] tick driver) and of
    [Scheduler.h] (the request scheduler and the row policy), followed by
    the properties proved about them.

    Conventions.
    - [long] and [int] values are integers in [Z]; signed overflow is
      undefined in C++ and the simulator's clock and addresses stay far
      from the 64-bit limits, so no wrap-around is written out.
    - A [std::list] iterator is a stable pointer to a list node.  Scheduler
      queues are never mutated by the code under study, so an iterator
      there is the pair of the position and the element it points to.  In
      the cache, where lines are pushed and erased while MSHR entries keep
      iterators to them, every node carries the identity it was allocated
      with.
    - [assert] is modelled as a fault of the call, not as a no-op.
    - [Cache.h], [Request.h] and [Controller.h] are not among the sources.
      The types they declare are given with the members the two source
      files use; the helpers of [Cache.h] the source calls are modelled
      from the specification, each marked as such; the controller's
      predicates and the latency tables are parameters. *)

From stdpp Require Import gmap list.

Local Open Scope Z_scope.

(* ===================================================================== *)
(** * Requests *)
(* ===================================================================== *)

Module Request.

(** Modelled from the spec: [Request::Type] of [Request.h], which is not
    among the sources.  "type (READ/WRITE)"; the cache asserts that it
    meets no other. *)
Inductive Type_ := READ | WRITE.

#[global] Instance Type_eq_dec : EqDecision Type_.
Proof. solve_decision. Defined.

(** Modelled from the spec: [Request] of [Request.h], which is not among
    the sources.  "value carrying address, type (READ/WRITE), owning core
    id, arrival timestamp, decomposed address vector, and a completion
    continuation"; the members bear the names the two source files use.
    [callback] is a [std::function]; the model keeps a token naming the
    continuation and leaves its effect to the front end that owns it. *)
Record t := mk {
  addr : Z;
  addr_vec : list Z;
  coreid : Z;
  type : Type_;
  arrive : Z;
  callback : nat
}.

#[global] Instance t_eq_dec : EqDecision t.
Proof. solve_decision. Defined.

(** Modelled from the spec: the constructor [Request(addr, type)] of
    [Request.h], which is not among the sources; [Cache::evict] builds
    its write-back with it ("inject a WRITE Request").  The members it
    is not given take inert defaults. *)
Definition new (a : Z) (ty : Type_) : t :=
  mk a [] 0 ty (-1) 0.

Definition with_type (r : t) (ty : Type_) : t :=
  mk (addr r) (addr_vec r) (coreid r) ty (arrive r) (callback r).

End Request.

(* ===================================================================== *)
(** * Scheduler.h: the request scheduler *)
(* ===================================================================== *)

(** [Scheduler::Type] without the [MAX] sentinel, which only sizes the
    comparator table. *)
Inductive SchedType := FCFS | FCFSBank | FRFCFS | BLISS | Custom.

(** [list<Request>::iterator] into the queue handed to [get_head]: the
    position together with the request found there. *)
Definition ReqIter : Type := nat * Request.t.

Section Scheduler.

(** The controller surface the scheduler calls back into; it is read-only
    during one [get_head]. *)
Variable is_ready : Request.t -> bool.
Variable is_row_hit : Request.t -> bool.
Variable is_row_open : Request.t -> bool.
(** [int(ctrl->channel->spec->scope[int(T::Command::PRE)])] *)
Variable pre_scope : Z.

Definition by_arrival (req1 req2 : ReqIter) : ReqIter :=
  if Request.arrive req1.2 <=? Request.arrive req2.2 then req1 else req2.

(** The comparator table [compare[int(type)]]. *)
Definition compare (ty : SchedType) (req1 req2 : ReqIter) : ReqIter :=
  match ty with
  | FCFS => by_arrival req1 req2
  | FCFSBank =>
      let ready1 := is_ready req1.2 in
      let ready2 := is_ready req2.2 in
      if xorb ready1 ready2 then (if ready1 then req1 else req2)
      else by_arrival req1 req2
  | FRFCFS =>
      let ready1 := is_ready req1.2 && is_row_hit req1.2 in
      let ready2 := is_ready req2.2 && is_row_hit req2.2 in
      if xorb ready1 ready2 then (if ready1 then req1 else req2)
      else by_arrival req1 req2
  | BLISS =>
      let ready1 := is_ready req1.2 && is_row_hit req1.2 in
      let ready2 := is_ready req2.2 && is_row_hit req2.2 in
      if xorb ready1 ready2 then (if ready1 then req1 else req2)
      else by_arrival req1 req2
  | Custom =>
      let ready1 := is_ready req1.2 && is_row_hit req1.2 in
      let ready2 := is_ready req2.2 && is_row_hit req2.2 in
      if xorb ready1 ready2 then (if ready1 then req1 else req2)
      else by_arrival req1 req2
  end.

(** The iterators [q.begin() + k], [q.begin() + k + 1], ... of a queue. *)
Fixpoint iters_from (k : nat) (q : list Request.t) : list ReqIter :=
  match q with
  | [] => []
  | r :: q' => (k, r) :: iters_from (S k) q'
  end.

Definition iters (q : list Request.t) : list ReqIter := iters_from 0 q.

(** [head = q.begin(); for (itr = next(q.begin()); ...) head = compare(head, itr)] *)
Definition scan (ty : SchedType) (q : list Request.t) : option ReqIter :=
  match iters q with
  | [] => None
  | head :: rest => Some (fold_left (compare ty) rest head)
  end.

(** [vector<int> rowgroup(begin, begin + scope[PRE] + 1)] *)
Definition rowgroup (r : Request.t) : list Z :=
  take (Z.to_nat (pre_scope + 1)) (Request.addr_vec r).

(** The rowgroups of the queued row hits. *)
Definition hit_reqs (q : list Request.t) : list (list Z) :=
  rowgroup <$> filter (λ r, is_row_hit r = true) q.

Definition violate_hit (hits : list (list Z)) (r : Request.t) : bool :=
  negb (is_row_hit r) && is_row_open r &&
  bool_decide (rowgroup r ∈ hits).

(** One round of the second loop of [get_head]; [None] is [q.end()]. *)
Definition rescan_step (hits : list (list Z))
    (head : option ReqIter) (itr : ReqIter) : option ReqIter :=
  if violate_hit hits itr.2 then head
  else match head with
       | None => Some itr
       | Some h => Some (compare FCFSBank h itr)
       end.

Definition rescan (q : list Request.t) : option ReqIter :=
  fold_left (rescan_step (hit_reqs q)) (iters q) None.

(** [Scheduler::get_head]; [None] is [q.end()]. *)
Definition get_head (ty : SchedType) (q : list Request.t) : option ReqIter :=
  match ty with
  | FCFS | FCFSBank => scan ty q
  | _ =>
      match scan ty q with
      | None => None
      | Some head =>
          if is_ready head.2 && is_row_hit head.2 then Some head
          else rescan q
      end
  end.

(** ** Notions used to state the scheduler's properties *)

(** Ready in the sense of the FRFCFS comparator: bank idle and row hit. *)
Definition ready_hit (r : Request.t) : bool := is_ready r && is_row_hit r.

(** [h] is at least as good a choice as [x] whenever [x] is a ready row
    hit: then [h] is one too, arrived no later, and on equal arrival
    stands no later in the queue. *)
Definition leads (h x : ReqIter) : Prop :=
  ready_hit x.2 = true ->
  ready_hit h.2 = true /\
  Request.arrive h.2 <= Request.arrive x.2 /\
  (Request.arrive x.2 = Request.arrive h.2 -> (h.1 <= x.1)%nat).

End Scheduler.

(** A controller state for the scenarios: address vectors are [bank; row],
    bank 0 has row 7 open, and [PRE] is scoped at the bank (level 0). *)
Module SchedulerScenario.
Definition request (bank row arrive : Z) : Request.t :=
  Request.mk 0 [bank; row] 0 Request.READ arrive 0.
Definition is_row_hit (r : Request.t) : bool :=
  bool_decide (Request.addr_vec r = [0; 7]).
Definition is_row_open (r : Request.t) : bool :=
  bool_decide (take 1 (Request.addr_vec r) = [0]).
Definition all_ready (r : Request.t) : bool := true.
Definition none_ready (r : Request.t) : bool := false.
Definition pre_scope : Z := 0.
(** Scenario 6: A and B are ready row hits, C is ready but misses the row. *)
Definition A := request 0 7 10.
Definition B := request 0 7 5.
Definition C := request 0 3 1.
(** Scenario 7: X hits the open row, the older Y wants another row of the
    same bank. *)
Definition X := request 0 7 20.
Definition Y := request 0 9 1.
End SchedulerScenario.

(* ===================================================================== *)
(** * Scheduler.h: the row policy *)
(* ===================================================================== *)

Inductive RowPolicyType := Closed | ClosedAP | Opened | Timeout.

Module RowTable.
(** [RowTable::Entry] *)
Record Entry := mkEntry { row : Z; hits : Z; timestamp : Z }.
End RowTable.

Module RowPolicy.
Record t := mk { type : RowPolicyType; timeout : Z }.
(** The member initialisers: [type = Type::Timeout], [timeout = 50]. *)
Definition new : t := mk Timeout 50.
End RowPolicy.

Section RowPolicyDefs.

(** [T::Command] of the DRAM standard. *)
Variable Command : Type.
(** [ctrl->is_ready(cmd, rowgroup)] *)
Variable is_ready_cmd : Command -> list Z -> bool.
(** [ctrl->clk] *)
Variable clk : Z.
(** [ctrl->rowtable->table], a [std::map], in the order its iteration
    visits the entries (ascending keys). *)
Variable table : list (list Z * RowTable.Entry).

(** The loop of the Closed and ClosedAP policies. *)
Fixpoint closed_loop (cmd : Command) (tbl : list (list Z * RowTable.Entry))
    : list Z :=
  match tbl with
  | [] => []
  | kv :: tbl' =>
      if negb (is_ready_cmd cmd kv.1) then closed_loop cmd tbl'
      else kv.1
  end.

(** The loop of the Timeout policy. *)
Fixpoint timeout_loop (timeout : Z) (cmd : Command)
    (tbl : list (list Z * RowTable.Entry)) : list Z :=
  match tbl with
  | [] => []
  | kv :: tbl' =>
      if clk - RowTable.timestamp kv.2 <? timeout
      then timeout_loop timeout cmd tbl'
      else if negb (is_ready_cmd cmd kv.1) then timeout_loop timeout cmd tbl'
      else kv.1
  end.

(** [RowPolicy::get_victim]: dispatch through [policy[int(type)]]. *)
Definition get_victim (p : RowPolicy.t) (cmd : Command) : list Z :=
  match RowPolicy.type p with
  | Closed => closed_loop cmd table
  | ClosedAP => closed_loop cmd table
  | Opened => []
  | Timeout => timeout_loop (RowPolicy.timeout p) cmd table
  end.

(** ** Notions used to state the row policy's properties *)

(** The entry has been idle for at least [timeout] cycles and its
    rowgroup can take [cmd] now. *)
Definition timed_out_ready (timeout : Z) (cmd : Command)
    (kv : list Z * RowTable.Entry) : bool :=
  (timeout <=? clk - RowTable.timestamp kv.2) && is_ready_cmd cmd kv.1.

(** The key of the first entry of the table that satisfies [P], or the
    empty vector. *)
Definition first_key (P : list Z * RowTable.Entry -> bool) : list Z :=
  match List.find P table with
  | Some kv => kv.1
  | None => []
  end.

End RowPolicyDefs.

(* ===================================================================== *)
(** * Cache_example.cpp: data *)
(* ===================================================================== *)

(** [CacheLevel], as the constructor of [Cache] distinguishes it. *)
Inductive CacheLevel := L1 | L2 | L3.

(** [int(level)], the index into the latency tables. *)
Definition level_index (l : CacheLevel) : nat :=
  match l with L1 => 0 | L2 => 1 | L3 => 2 end.

Module Line.
(** Modelled from the spec: [Line] of [Cache.h], which is not among the
    sources.  "Fields: addr (block-aligned), tag, lock (true while a fill
    is outstanding), dirty." *)
Record t := mk { addr : Z; tag : Z; lock : bool; dirty : bool }.

(** Modelled from the spec: the two-argument constructor [Line(addr, tag)]
    of [Cache.h], which is not among the sources.  "Newly allocated lines
    start lock=true, dirty=false." *)
Definition new (a tg : Z) : t := mk a tg true false.

Definition set_lock (b : bool) (l : t) : t := mk (addr l) (tag l) b (dirty l).
Definition set_dirty (b : bool) (l : t) : t := mk (addr l) (tag l) (lock l) b.
End Line.

(** A node of a [std::list<Line>]: the line and the identity of the node,
    which is what an iterator to it denotes. *)
Record Node := mkNode { node_id : nat; line : Line.t }.

(** [std::list<Line>::iterator] kept across calls (in an MSHR entry): the
    set whose list holds the node, and the node. *)
Definition Handle : Type := Z * nat.

(** The statistics counters registered by the constructor. *)
Inductive Counter :=
| cache_read_miss | cache_write_miss | cache_total_miss | cache_eviction
| cache_read_access | cache_write_access | cache_total_access
| cache_mshr_hit | cache_mshr_unavailable | cache_set_unavailable.

#[global] Instance Counter_eq_dec : EqDecision Counter.
Proof. solve_decision. Defined.

Module Stats.

(** The values of the ten counters of one cache. *)
Record t := mk {
  read_miss : Z;
  write_miss : Z;
  total_miss : Z;
  eviction : Z;
  read_access : Z;
  write_access : Z;
  total_access : Z;
  mshr_hit : Z;
  mshr_unavailable : Z;
  set_unavailable : Z
}.

Definition zero : t := mk 0 0 0 0 0 0 0 0 0 0.

Definition get (s : t) (k : Counter) : Z :=
  match k with
  | cache_read_miss => read_miss s
  | cache_write_miss => write_miss s
  | cache_total_miss => total_miss s
  | cache_eviction => eviction s
  | cache_read_access => read_access s
  | cache_write_access => write_access s
  | cache_total_access => total_access s
  | cache_mshr_hit => mshr_hit s
  | cache_mshr_unavailable => mshr_unavailable s
  | cache_set_unavailable => set_unavailable s
  end.

Definition set (k : Counter) (v : Z) (s : t) : t :=
  match k with
  | cache_read_miss =>
      mk v (write_miss s) (total_miss s) (eviction s) (read_access s)
        (write_access s) (total_access s) (mshr_hit s) (mshr_unavailable s)
        (set_unavailable s)
  | cache_write_miss =>
      mk (read_miss s) v (total_miss s) (eviction s) (read_access s)
        (write_access s) (total_access s) (mshr_hit s) (mshr_unavailable s)
        (set_unavailable s)
  | cache_total_miss =>
      mk (read_miss s) (write_miss s) v (eviction s) (read_access s)
        (write_access s) (total_access s) (mshr_hit s) (mshr_unavailable s)
        (set_unavailable s)
  | cache_eviction =>
      mk (read_miss s) (write_miss s) (total_miss s) v (read_access s)
        (write_access s) (total_access s) (mshr_hit s) (mshr_unavailable s)
        (set_unavailable s)
  | cache_read_access =>
      mk (read_miss s) (write_miss s) (total_miss s) (eviction s) v
        (write_access s) (total_access s) (mshr_hit s) (mshr_unavailable s)
        (set_unavailable s)
  | cache_write_access =>
      mk (read_miss s) (write_miss s) (total_miss s) (eviction s) (read_access s)
        v (total_access s) (mshr_hit s) (mshr_unavailable s)
        (set_unavailable s)
  | cache_total_access =>
      mk (read_miss s) (write_miss s) (total_miss s) (eviction s) (read_access s)
        (write_access s) v (mshr_hit s) (mshr_unavailable s)
        (set_unavailable s)
  | cache_mshr_hit =>
      mk (read_miss s) (write_miss s) (total_miss s) (eviction s) (read_access s)
        (write_access s) (total_access s) v (mshr_unavailable s)
        (set_unavailable s)
  | cache_mshr_unavailable =>
      mk (read_miss s) (write_miss s) (total_miss s) (eviction s) (read_access s)
        (write_access s) (total_access s) (mshr_hit s) v
        (set_unavailable s)
  | cache_set_unavailable =>
      mk (read_miss s) (write_miss s) (total_miss s) (eviction s) (read_access s)
        (write_access s) (total_access s) (mshr_hit s) (mshr_unavailable s)
        v
  end.

(** [counter++] *)
Definition incr (k : Counter) (s : t) : t := set k (get s k + 1) s.

End Stats.

Module Cache.

(** The members of [Cache] (declared in [Cache.h]) that the constructor
    and [concatlower] fix, under the names [Cache_example.cpp] uses. *)
Record Config := mkConfig {
  level : CacheLevel;
  is_first_level : bool;
  is_last_level : bool;
  higher_cache : list nat;
  lower_cache : option nat;
  size : Z;
  assoc : Z;
  block_size : Z;
  mshr_entry_num : Z;
  set_num : Z;
  index_mask : Z;
  index_offset : Z;
  tag_offset : Z
}.

(** The members of [Cache] the methods change: the sets, the MSHR table,
    the retry list and the counters. *)
Record t := mk {
  cfg : Config;
  cache_lines : gmap Z (list Node);
  mshr_entries : list (Z * Handle);
  retry_list : list Request.t;
  (** the identity the next allocated list node receives *)
  next_node : nat;
  counters : Stats.t
}.

(** The value of one counter. *)
Definition stats (c : t) (k : Counter) : Z := Stats.get (counters c) k.

Definition with_cfg (g : Config) (c : t) : t :=
  mk g (cache_lines c) (mshr_entries c) (retry_list c) (next_node c) (counters c).
Definition with_lines (m : gmap Z (list Node)) (c : t) : t :=
  mk (cfg c) m (mshr_entries c) (retry_list c) (next_node c) (counters c).
Definition with_mshr (e : list (Z * Handle)) (c : t) : t :=
  mk (cfg c) (cache_lines c) e (retry_list c) (next_node c) (counters c).
Definition with_retry (r : list Request.t) (c : t) : t :=
  mk (cfg c) (cache_lines c) (mshr_entries c) r (next_node c) (counters c).
Definition with_next (n : nat) (c : t) : t :=
  mk (cfg c) (cache_lines c) (mshr_entries c) (retry_list c) n (counters c).
Definition with_counters (s : Stats.t) (c : t) : t :=
  mk (cfg c) (cache_lines c) (mshr_entries c) (retry_list c) (next_node c) s.

(** [counter++] *)
Definition count (k : Counter) (c : t) : t :=
  with_counters (Stats.incr k (counters c)) c.

(** Modelled from the spec: [calc_log2] of [Cache.h], which is not among
    the sources; the constructor applies it to powers of two. *)
Definition calc_log2 (v : Z) : Z := Z.log2 v.

(** [Cache::Cache]: the geometry derived by the constructor.  The two
    level flags are members whose initialisation lives in [Cache.h]; they
    are arguments here. *)
Definition new (size assoc block_size mshr_entry_num : Z)
    (level : CacheLevel) (first last : bool) : t :=
  let set_num := size / (block_size * assoc) in
  let index_offset := calc_log2 block_size in
  mk (mkConfig level first last [] None size assoc block_size mshr_entry_num
        set_num (set_num - 1) index_offset (calc_log2 set_num + index_offset))
     ∅ [] [] 0 Stats.zero.

(** Modelled from the spec: [get_index] of [Cache.h], which is not among
    the sources.  "index(a) = (a >> index_offset) & index_mask". *)
Definition get_index (c : t) (a : Z) : Z :=
  Z.land (Z.shiftr a (index_offset (cfg c))) (index_mask (cfg c)).

(** Modelled from the spec: [get_tag] of [Cache.h], which is not among
    the sources.  "tag(a) = a >> tag_offset". *)
Definition get_tag (c : t) (a : Z) : Z :=
  Z.shiftr a (tag_offset (cfg c)).

(** Modelled from the spec: [align] of [Cache.h], which is not among the
    sources.  "align(a) = a & ~(block_size − 1)". *)
Definition align (c : t) (a : Z) : Z :=
  Z.land a (Z.lnot (block_size (cfg c) - 1)).

(** The list of a set; a set that was never touched has no list yet. *)
Definition lines_at (c : t) (idx : Z) : list Node :=
  default [] (cache_lines c !! idx).

End Cache.

Module CacheSystem.
(** Modelled from the spec: [CacheSystem] of [Cache.h], which is not
    among the sources.  "Monotonic clock clk; hit_list ... of hits
    awaiting completion; wait_list ... of misses waiting to enter
    memory; a bridge send_memory(req) → bool", the bridge living
    outside. *)
Record t := mk {
  clk : Z;
  hit_list : list (Z * Request.t);
  wait_list : list (Z * Request.t)
}.
End CacheSystem.

(** The store: the shared [CacheSystem] and the [Cache] objects, a
    [Cache*] being the position of the object. *)
Record Sys := mkSys {
  cachesys : CacheSystem.t;
  caches : list Cache.t
}.

(** ** Operations on one set's list *)

Definition size_ {A} (l : list A) : Z := Z.of_nat (length l).

(** [find_if(lines.begin(), lines.end(), [..](Line l){ return l.tag == tg; })] *)
Definition find_tag (tg : Z) (lines : list Node) : option Node :=
  List.find (λ n, Line.tag (line n) =? tg) lines.

(** [lines.erase(it)] for the iterator denoting node [i]. *)
Fixpoint erase_node (i : nat) (lines : list Node) : list Node :=
  match lines with
  | [] => []
  | n :: rest => if Nat.eqb (node_id n) i then rest else n :: erase_node i rest
  end.

(** [*it] for the iterator denoting node [i]. *)
Definition find_node (i : nat) (lines : list Node) : option Node :=
  List.find (λ n, Nat.eqb (node_id n) i) lines.

(** Assignment through the iterator denoting node [i]. *)
Fixpoint update_node (i : nat) (f : Line.t -> Line.t) (lines : list Node)
    : list Node :=
  match lines with
  | [] => []
  | n :: rest =>
      if Nat.eqb (node_id n) i then mkNode (node_id n) (f (line n)) :: rest
      else n :: update_node i f rest
  end.

(** ** Faults and the state monad of the hierarchy *)

Inductive Assertion :=
| A_need_eviction      (* assert(false) in need_eviction *)
| A_refresh_set        (* assert(line_list != cache_lines.end()) *)
| A_refresh_line       (* assert(line != lines.end()) *)
| A_invalidate_lock    (* assert(!line->lock) *)
| A_lower_nonnull.     (* assert(lower_cache != nullptr) *)

Inductive fault :=
| AssertFail (a : Assertion)
| Undefined          (* a dangling iterator or pointer is dereferenced *)
| OutOfFuel.         (* the model's recursion bound was reached *)

Inductive result (A : Type) :=
| Ok (a : A)
| Fault (f : fault).
Arguments Ok {A} a.
Arguments Fault {A} f.

Definition M (A : Type) : Type := Sys -> result (A * Sys).

#[global] Instance M_ret : MRet M := λ A a s, Ok (a, s).
#[global] Instance M_bind : MBind M := λ A B f m s,
  match m s with
  | Ok (a, s') => f a s'
  | Fault e => Fault e
  end.

Definition fail {A} (e : fault) : M A := λ _, Fault e.
Definition get_sys : M Sys := λ s, Ok (s, s).

(** [*c] for a [Cache* c]. *)
Definition the_cache (c : nat) : M Cache.t := λ s,
  match caches s !! c with
  | Some C => Ok (C, s)
  | None => Fault Undefined
  end.

Definition modify_cache (c : nat) (f : Cache.t -> Cache.t) : M unit := λ s,
  match caches s !! c with
  | Some C => Ok (tt, mkSys (cachesys s) (<[c := f C]> (caches s)))
  | None => Fault Undefined
  end.

Definition modify_cachesys (f : CacheSystem.t -> CacheSystem.t) : M unit :=
  λ s, Ok (tt, mkSys (f (cachesys s)) (caches s)).

Definition the_clk : M Z := λ s, Ok (CacheSystem.clk (cachesys s), s).

Definition push_hit (e : Z * Request.t) : M unit :=
  modify_cachesys (λ cs, CacheSystem.mk (CacheSystem.clk cs)
                          (CacheSystem.hit_list cs ++ [e]) (CacheSystem.wait_list cs)).

Definition push_wait (e : Z * Request.t) : M unit :=
  modify_cachesys (λ cs, CacheSystem.mk (CacheSystem.clk cs)
                          (CacheSystem.hit_list cs) (CacheSystem.wait_list cs ++ [e])).

Fixpoint foldM {A B} (f : B -> A -> M B) (b : B) (l : list A) : M B :=
  match l with
  | [] => mret b
  | a :: l' => b' ← f b a; foldM f b' l'
  end.

(** ** Set lists inside the store *)

Definition count (c : nat) (k : Counter) : M unit :=
  modify_cache c (Cache.count k).

(** Modelled from the spec: [get_lines] of [Cache.h], which is not among
    the sources.  "Look up lines = sets[index(req.addr)], allocating an
    empty set if absent."  The reference it returns is the set index. *)
Definition get_lines (c : nat) (a : Z) : M Z :=
  C ← the_cache c;
  let idx := Cache.get_index C a in
  match Cache.cache_lines C !! idx with
  | Some _ => mret idx
  | None =>
      modify_cache c (λ C, Cache.with_lines (<[idx := []]> (Cache.cache_lines C)) C);;
      mret idx
  end.

Definition lines_of (c : nat) (idx : Z) : M (list Node) :=
  C ← the_cache c; mret (Cache.lines_at C idx).

Definition set_lines (idx : Z) (l : list Node) (C : Cache.t) : Cache.t :=
  Cache.with_lines (<[idx := l]> (Cache.cache_lines C)) C.

(** [lines.push_back(l)]; the result is the iterator to the new node. *)
Definition push_back (c : nat) (idx : Z) (l : Line.t) : M Handle :=
  C ← the_cache c;
  let i := Cache.next_node C in
  modify_cache c (λ C, Cache.with_next (S i)
                         (set_lines idx (Cache.lines_at C idx ++ [mkNode i l]) C));;
  mret (idx, i).

(** [lines.erase(it)] *)
Definition erase (c : nat) (idx : Z) (i : nat) : M unit :=
  modify_cache c (λ C, set_lines idx (erase_node i (Cache.lines_at C idx)) C).

(** Reading and writing the line an iterator points to. *)
Definition deref (c : nat) (h : Handle) : M Line.t :=
  C ← the_cache c;
  match find_node h.2 (Cache.lines_at C h.1) with
  | Some n => mret (line n)
  | None => fail Undefined
  end.

Definition assign (c : nat) (h : Handle) (f : Line.t -> Line.t) : M unit :=
  _ ← deref c h;
  modify_cache c (λ C, set_lines h.1 (update_node h.2 f (Cache.lines_at C h.1)) C).

(** ** Notions used to state the properties of single steps *)

(** The store with the cache at [c] replaced. *)
Definition put_cache (s : Sys) (c : nat) (C : Cache.t) : Sys :=
  mkSys (cachesys s) (<[c := C]> (caches s)).

(** What [get_lines] leaves of a cache: the set is there, empty if new. *)
Definition ensure_set (idx : Z) (C : Cache.t) : Cache.t :=
  match Cache.cache_lines C !! idx with
  | Some _ => C
  | None => Cache.with_lines (<[idx := []]> (Cache.cache_lines C)) C
  end.

(** A cache that differs from [C] at most in its counters and in sets that
    hold no line. *)
Definition same_contents (C C' : Cache.t) : Prop :=
  Cache.cfg C' = Cache.cfg C /\
  Cache.mshr_entries C' = Cache.mshr_entries C /\
  forall idx, Cache.lines_at C' idx = Cache.lines_at C idx.

(** A call leaves the stores it returns from related by [R] to the stores
    it started from. *)
Definition pres (R : Sys -> Sys -> Prop) {A} (m : M A) : Prop :=
  forall s a s', m s = Ok (a, s') -> R s s'.

(** The wiring and geometry of all the caches of a store. *)
Definition cfgs (s : Sys) : list Cache.Config := Cache.cfg <$> caches s.

(** Every cache stands at a strictly smaller level than the cache it sits
    above (L1 above L2 above L3), and every [higher_cache] pointer is live. *)
Definition levels_descend (g : list Cache.Config) : bool :=
  forallb
    (λ G, forallb
            (λ hc, match g !! hc with
                   | Some H => bool_decide (level_index (Cache.level H)
                                            < level_index (Cache.level G))%nat
                   | None => false
                   end)
            (Cache.higher_cache G))
    g.

(** The caches standing at a level greater than [L] are untouched, and no
    cache is rewired. *)
Definition below_untouched (L : nat) (s s' : Sys) : Prop :=
  cfgs s' = cfgs s /\
  forall c C, caches s !! c = Some C ->
    (L < level_index (Cache.level (Cache.cfg C)))%nat ->
    caches s' !! c = Some C.

(** The clock and the delivery queues are what they were. *)
Definition same_cachesys (s s' : Sys) : Prop := cachesys s' = cachesys s.

(** The value a call returns, if it returns. *)
Definition value_of {A} (r : result (A * Sys)) : option A :=
  match r with
  | Ok (a, _) => Some a
  | Fault _ => None
  end.

(** The store a call leaves, if it returns. *)
Definition store_of {A} (r : result (A * Sys)) : option Sys :=
  match r with
  | Ok (_, s) => Some s
  | Fault _ => None
  end.

(* ===================================================================== *)
(** * Cache_example.cpp: the methods of [Cache] *)
(* ===================================================================== *)

(** [Cache::is_hit]: the position of the first line with the tag of [a],
    and whether it is a hit (found and not locked). *)
Definition is_hit (C : Cache.t) (lines : list Node) (a : Z)
    : bool * option Node :=
  let pos := find_tag (Cache.get_tag C a) lines in
  match pos with
  | None => (false, pos)
  | Some n => (negb (Line.lock (line n)), pos)
  end.

(** The [find_if] of [Cache::callback] over [mshr_entries]: the first entry
    whose block-aligned address is that of [a], with its position. *)
Definition find_mshr (C : Cache.t) (a : Z) : option (nat * (Z * Handle)) :=
  list_find (λ e : Z * Handle, Cache.align C e.1 = Cache.align C a)
            (Cache.mshr_entries C).

(** Modelled from the spec: [hit_mshr] of [Cache.h], which is not among the
    sources.  "If a matching MSHR entry exists", the entry sought being the
    one [Cache::callback] looks for, "whose block-aligned address equals
    align(req.addr)". *)
Definition hit_mshr (C : Cache.t) (a : Z) : option (nat * (Z * Handle)) :=
  find_mshr C a.

(** Modelled from the spec: [all_sets_locked] of [Cache.h], which is not
    among the sources.  "If every line in the set is locked and the set is
    full". *)
Definition all_sets_locked (C : Cache.t) (lines : list Node) : bool :=
  negb (size_ lines <? Cache.assoc (Cache.cfg C)) &&
  forallb (λ n, Line.lock (line n)) lines.

(** Modelled from the spec: [check_unlock] of [Cache.h], which is not among
    the sources.  "(the higher cache either lacks the block or holds it
    unlocked)".  [hc] is a member of some [higher_cache] vector, which
    [concatlower] fills with live caches only. *)
Definition check_unlock (s : Sys) (hc : nat) (a : Z) : bool :=
  match caches s !! hc with
  | None => true
  | Some H =>
      match find_tag (Cache.get_tag H a) (Cache.lines_at H (Cache.get_index H a)) with
      | None => true
      | Some n => negb (Line.lock (line n))
      end
  end.

(** [Cache::need_eviction] *)
Definition need_eviction (C : Cache.t) (lines : list Node) (a : Z) : M bool :=
  match find_tag (Cache.get_tag C a) lines with
  | Some _ => fail (AssertFail A_need_eviction)
  | None => mret (negb (size_ lines <? Cache.assoc (Cache.cfg C)))
  end.

(** The predicate [allocate_line] hands to [find_if] to pick a victim. *)
Definition victim_ok (s : Sys) (C : Cache.t) (n : Node) : bool :=
  let check := negb (Line.lock (line n)) in
  if negb (Cache.is_first_level (Cache.cfg C))
  then fold_left (λ check hc, check && check_unlock s hc (Line.addr (line n)))
                 (Cache.higher_cache (Cache.cfg C)) check
  else check.

Definition find_victim (s : Sys) (C : Cache.t) (lines : list Node)
    : option Node :=
  List.find (victim_ok s C) lines.

(** [Cache::concatlower] *)
Definition concatlower (c lower : nat) : M unit :=
  modify_cache c (λ C,
    let g := Cache.cfg C in
    Cache.with_cfg
      (Cache.mkConfig (Cache.level g) (Cache.is_first_level g)
         (Cache.is_last_level g) (Cache.higher_cache g) (Some lower)
         (Cache.size g) (Cache.assoc g) (Cache.block_size g)
         (Cache.mshr_entry_num g) (Cache.set_num g) (Cache.index_mask g)
         (Cache.index_offset g) (Cache.tag_offset g)) C);;
  modify_cache lower (λ C,
    let g := Cache.cfg C in
    Cache.with_cfg
      (Cache.mkConfig (Cache.level g) (Cache.is_first_level g)
         (Cache.is_last_level g) (Cache.higher_cache g ++ [c])
         (Cache.lower_cache g)
         (Cache.size g) (Cache.assoc g) (Cache.block_size g)
         (Cache.mshr_entry_num g) (Cache.set_num g) (Cache.index_mask g)
         (Cache.index_offset g) (Cache.tag_offset g)) C).

Section Hierarchy.

(** The per-level latency tables [latency[]] and [latency_each[]] of
    [Cache.h], which is not among the sources. *)
Variable latency : CacheLevel -> Z.
Variable latency_each : CacheLevel -> Z.

(** [Cache::refresh_lru_lower] *)
Definition refresh_lru_lower (c : nat) (a : Z) (dirty : bool) : M unit :=
  C ← the_cache c;
  let idx := Cache.get_index C a in
  match Cache.cache_lines C !! idx with
  | None => fail (AssertFail A_refresh_set)
  | Some lines =>
      match find_tag (Cache.get_tag C a) lines with
      | None => fail (AssertFail A_refresh_line)
      | Some l =>
          push_back c idx
            (Line.mk a (Cache.get_tag C a) false (dirty || Line.dirty (line l)));;
          erase c idx (node_id l)
      end
  end.

(** [line->dirty] in [Cache::invalidate]: both reads come after
    [lines.erase(line)], which destroys the node [line] points to; the
    iterator dangles. *)
Definition erased_line_dirty : M bool := fail Undefined.

(** One round of the loop of [Cache::invalidate] over the higher caches,
    given the result of the recursive call.  In
    [dirty = dirty || line->dirty || result.second] the line is read
    unless [dirty] is set already. *)
Definition invalidate_round (delay : Z) (acc : Z * bool) (r : Z * bool)
    : M (Z * bool) :=
  let max_delay :=
    if r.2 then Z.max acc.1 (delay + r.1 * 2) else Z.max acc.1 (delay + r.1) in
  if acc.2 then mret (max_delay, true)
  else line_dirty ← erased_line_dirty; mret (max_delay, line_dirty || r.2).

(** [Cache::invalidate] *)
Fixpoint invalidate (fuel : nat) (c : nat) (a : Z) : M (Z * bool) :=
  match fuel with
  | O => fail OutOfFuel
  | S fuel' =>
      C ← the_cache c;
      let delay := latency_each (Cache.level (Cache.cfg C)) in
      idx ← get_lines c a;
      lines ← lines_of c idx;
      if size_ lines =? 0 then mret (0, false)
      else
        match find_tag (Cache.get_tag C a) lines with
        | None => mret (delay, false)
        | Some l =>
            if Line.lock (line l) then fail (AssertFail A_invalidate_lock)
            else
              erase c idx (node_id l);;
              match Cache.higher_cache (Cache.cfg C) with
              | [] => line_dirty ← erased_line_dirty; mret (delay, line_dirty)
              | hcs =>
                  foldM (λ acc hc,
                           r ← invalidate fuel' hc a;
                           invalidate_round delay acc r)
                        (delay, false) hcs
              end
        end
  end.

(** One round of the loop of [Cache::evict] over the higher caches. *)
Definition evict_acc (C : Cache.t) (victim : Line.t)
    (acc : Z * bool) (r : Z * bool) : Z * bool :=
  (Z.max acc.1
     (r.1 + (if r.2 then latency_each (Cache.level (Cache.cfg C)) else 0)),
   acc.2 || r.2 || Line.dirty victim).

(** The first half of [Cache::evict]: invalidate the victim's block in the
    higher caches; the result is [(invalidate_time, dirty)].  The higher
    caches never reach back down, so [*victim] is what it was on entry. *)
Definition evict_invalidate (fuel : nat) (C : Cache.t) (victim : Line.t)
    : M (Z * bool) :=
  foldM (λ acc hc,
           r ← invalidate fuel hc (Line.addr victim);
           mret (evict_acc C victim acc r))
        (0, Line.dirty victim) (Cache.higher_cache (Cache.cfg C)).

(** [Cache::evict]; [victim] denotes a node of the set [idx]. *)
Definition evict (fuel : nat) (c : nat) (idx : Z) (victim : nat) : M unit :=
  C ← the_cache c;
  count c cache_eviction;;
  v ← deref c (idx, victim);
  let a := Line.addr v in
  '(invalidate_time, dirty) ← evict_invalidate fuel C v;
  (if negb (Cache.is_last_level (Cache.cfg C)) then
     match Cache.lower_cache (Cache.cfg C) with
     | None => fail (AssertFail A_lower_nonnull)
     | Some lower => refresh_lru_lower lower a dirty
     end
   else if dirty then
     clk ← the_clk;
     push_wait (clk + invalidate_time + latency (Cache.level (Cache.cfg C)),
                Request.new a Request.WRITE)
   else mret tt);;
  erase c idx victim.

(** ** Notions used to state the properties of [evict] *)

(** The results of invalidating the block of [a] in the caches [hcs], one
    after the other. *)
Fixpoint invalidate_all (fuel : nat) (hcs : list nat) (a : Z)
    : M (list (Z * bool)) :=
  match hcs with
  | [] => mret []
  | hc :: hcs' =>
      r ← invalidate fuel hc a;
      rs ← invalidate_all fuel hcs' a;
      mret (r :: rs)
  end.

(** The longest walk among the results, a dirty one paying this level's
    latency on top. *)
Definition invalidate_time (C : Cache.t) (rs : list (Z * bool)) : Z :=
  fold_left
    (λ t r, Z.max t (r.1 + (if r.2 : bool
                            then latency_each (Cache.level (Cache.cfg C))
                            else 0)))
    rs 0.

(** Some higher cache held the block dirty. *)
Definition any_dirty (rs : list (Z * bool)) : bool := existsb snd rs.

(** [Cache::allocate_line]; [None] is [lines.end()]. *)
Definition allocate_line (fuel : nat) (c : nat) (idx : Z) (a : Z)
    : M (option Handle) :=
  C ← the_cache c;
  lines ← lines_of c idx;
  ne ← need_eviction C lines a;
  go ← (if ne : bool then
          s ← get_sys;
          match find_victim s C lines with
          | None => mret false
          | Some victim => evict fuel c idx (node_id victim);; mret true
          end
        else mret true);
  if go : bool then
    h ← push_back c idx (Line.new a (Cache.get_tag C a));
    mret (Some h)
  else mret None.

Definition is_write (req : Request.t) : bool :=
  bool_decide (Request.type req = Request.WRITE).

(** [Cache::send], the hit branch: [line] is the line found. *)
Definition send_hit (c : nat) (C : Cache.t) (idx : Z) (l : Node)
    (req : Request.t) : M bool :=
  push_back c idx
    (Line.mk (Request.addr req) (Cache.get_tag C (Request.addr req))
       false (Line.dirty (line l) || is_write req));;
  erase c idx (node_id l);;
  clk ← the_clk;
  push_hit (clk + latency (Cache.level (Cache.cfg C)), req);;
  mret true.

(** [Cache::send], "Send the request to next level"; [send_lower] is
    [lower_cache->send]. *)
Definition send_forward (send_lower : nat -> Request.t -> M bool)
    (c : nat) (C : Cache.t) (req : Request.t) : M unit :=
  if negb (Cache.is_last_level (Cache.cfg C)) then
    match Cache.lower_cache (Cache.cfg C) with
    | None => fail Undefined
    | Some lower =>
        ok ← send_lower lower req;
        if ok : bool then mret tt
        else modify_cache c (λ C, Cache.with_retry (Cache.retry_list C ++ [req]) C)
    end
  else
    clk ← the_clk;
    push_wait (clk + latency (Cache.level (Cache.cfg C)), req).

(** [Cache::send], the miss branch from the MSHR lookup on; [req] has
    been turned into a read and [dirty] tells whether it was a write. *)
Definition send_miss (fuel : nat) (send_lower : nat -> Request.t -> M bool)
    (c : nat) (idx : Z) (lines : list Node) (dirty : bool)
    (req : Request.t) : M bool :=
  C ← the_cache c;
  match hit_mshr C (Request.addr req) with
  | Some (_, (_, h)) =>
      count c cache_mshr_hit;;
      assign c h (λ l, Line.set_dirty (dirty || Line.dirty l) l);;
      mret true
  | None =>
      if size_ (Cache.mshr_entries C) =? Cache.mshr_entry_num (Cache.cfg C)
      then count c cache_mshr_unavailable;; mret false
      else if all_sets_locked C lines
      then count c cache_set_unavailable;; mret false
      else
        newline ← allocate_line fuel c idx (Request.addr req);
        match newline with
        | None => mret false
        | Some h =>
            assign c h (Line.set_dirty dirty);;
            modify_cache c (λ C, Cache.with_mshr
              (Cache.mshr_entries C ++ [(Request.addr req, h)]) C);;
            send_forward send_lower c C req;;
            mret true
        end
  end.

(** [Cache::send] *)
Fixpoint send (fuel : nat) (c : nat) (req : Request.t) : M bool :=
  match fuel with
  | O => fail OutOfFuel
  | S fuel' =>
      C ← the_cache c;
      count c cache_total_access;;
      count c (if is_write req then cache_write_access else cache_read_access);;
      idx ← get_lines c (Request.addr req);
      lines ← lines_of c idx;
      match is_hit C lines (Request.addr req) with
      | (true, Some l) => send_hit c C idx l req
      | _ =>
          count c cache_total_miss;;
          count c (if is_write req then cache_write_miss else cache_read_miss);;
          send_miss fuel' (send fuel') c idx lines (is_write req)
            (Request.with_type req Request.READ)
      end
  end.

(** ** Notions used to state the properties of [send] *)

(** The cache after the bookkeeping every [send] starts with: the access
    counters, and the set of the address looked up. *)
Definition touched (C : Cache.t) (req : Request.t) : Cache.t :=
  ensure_set (Cache.get_index C (Request.addr req))
    (Cache.count (if is_write req then cache_write_access else cache_read_access)
       (Cache.count cache_total_access C)).

(** The cache after the miss counters have been added as well. *)
Definition missed (C : Cache.t) (req : Request.t) : Cache.t :=
  Cache.count (if is_write req then cache_write_miss else cache_read_miss)
    (Cache.count cache_total_miss (touched C req)).

Definition set_of (C : Cache.t) (req : Request.t) : list Node :=
  Cache.lines_at C (Cache.get_index C (Request.addr req)).

(** The request finds its line, unlocked. *)
Definition hits (C : Cache.t) (req : Request.t) : bool :=
  (is_hit C (set_of C req) (Request.addr req)).1.

(** A miss to the request's block is outstanding. *)
Definition in_mshr (C : Cache.t) (req : Request.t) : bool :=
  bool_decide (is_Some (hit_mshr C (Request.addr req))).

Definition mshr_full (C : Cache.t) : bool :=
  size_ (Cache.mshr_entries C) =? Cache.mshr_entry_num (Cache.cfg C).

Definition set_locked_out (C : Cache.t) (req : Request.t) : bool :=
  all_sets_locked C (set_of C req).

(** The set is full and no line of it may be evicted. *)
Definition no_victim (s : Sys) (C : Cache.t) (req : Request.t) : bool :=
  negb (size_ (set_of C req) <? Cache.assoc (Cache.cfg C)) &&
  bool_decide (find_victim s C (set_of C req) = None).

(** The structural refusal: neither a hit nor a merge, and the MSHR table
    is full, or the set is locked out, or there is no victim. *)
Definition refuses (s : Sys) (C : Cache.t) (req : Request.t) : bool :=
  negb (hits C req) && negb (in_mshr C req) &&
  (mshr_full C || set_locked_out C req || no_victim s C req).

(** [Cache::callback], the part that concerns the cache itself. *)
Definition callback_here (c : nat) (C : Cache.t) (req : Request.t) : M unit :=
  match find_mshr C (Request.addr req) with
  | Some (i, (_, h)) =>
      assign c h (Line.set_lock false);;
      modify_cache c (λ C, Cache.with_mshr (delete i (Cache.mshr_entries C)) C)
  | None => mret tt
  end.

(** [Cache::callback] *)
Fixpoint callback (fuel : nat) (c : nat) (req : Request.t) : M unit :=
  match fuel with
  | O => fail OutOfFuel
  | S fuel' =>
      C ← the_cache c;
      callback_here c C req;;
      foldM (λ _ hc, callback fuel' hc req) tt (Cache.higher_cache (Cache.cfg C))
  end.

(** The cache [callback_here] leaves: the lock of the line the matching
    entry points to is cleared and the entry is gone. *)
Definition released (C : Cache.t) (req : Request.t) : Cache.t :=
  match find_mshr C (Request.addr req) with
  | Some (i, (_, h)) =>
      Cache.with_mshr (delete i (Cache.mshr_entries C))
        (set_lines h.1
           (update_node h.2 (Line.set_lock false) (Cache.lines_at C h.1)) C)
  | None => C
  end.

(** The loop of [Cache::tick] over [retry_list], from the iterator at the
    head of [pending]; [kept] are the entries already passed over.  After
    [it = retry_list.erase(it)] the loop header still runs [it++]: the
    entry after an erased one is stepped over, and when the erased entry
    was the last one the increment is applied to [end()]. *)
Fixpoint retry_loop (fuel : nat) (lower : nat)
    (kept pending : list Request.t) : M (list Request.t) :=
  match pending with
  | [] => mret kept
  | r :: rest =>
      ok ← send fuel lower r;
      if ok : bool then
        match rest with
        | [] => fail Undefined
        | r' :: rest' => retry_loop fuel lower (kept ++ [r']) rest'
        end
      else retry_loop fuel lower (kept ++ [r]) rest
  end.

(** [Cache::tick].  The retry list belongs to this cache alone and the
    lower caches never reach back up to it, so the loop runs over the
    list as found and stores what is left. *)
Fixpoint tick (fuel : nat) (c : nat) : M unit :=
  match fuel with
  | O => fail OutOfFuel
  | S fuel' =>
      C ← the_cache c;
      match Cache.lower_cache (Cache.cfg C) with
      | None => fail Undefined
      | Some lower =>
          L ← the_cache lower;
          (if negb (Cache.is_last_level (Cache.cfg L)) then tick fuel' lower
           else mret tt);;
          C ← the_cache c;
          left ← retry_loop fuel' lower [] (Cache.retry_list C);
          modify_cache c (Cache.with_retry left)
      end
  end.

End Hierarchy.

(* ===================================================================== *)
(** * Cache_example.cpp: [CacheSystem::tick] *)
(* ===================================================================== *)

Section CacheSystemTick.

(** The memory system behind [send_memory] and the front end behind the
    requests' completion callbacks: both are outside the core and are
    given by their effect on a state [World] of theirs. *)
Variable World : Type.
Variable send_memory : Request.t -> World -> bool * World.
Variable run_callback : Request.t -> World -> World.

(** The first loop: [while (it != wait_list.end() && clk >= it->first)]. *)
Fixpoint drain_wait (clk : Z) (l : list (Z * Request.t)) (w : World)
    : list (Z * Request.t) * World :=
  match l with
  | [] => ([], w)
  | e :: rest =>
      if clk >=? e.1 then
        let '(ok, w1) := send_memory e.2 w in
        if negb ok then
          let '(rest', w2) := drain_wait clk rest w1 in (e :: rest', w2)
        else drain_wait clk rest w1
      else (l, w)
  end.

(** The second loop: [while (it != hit_list.end())]. *)
Fixpoint drain_hit (clk : Z) (l : list (Z * Request.t)) (w : World)
    : list (Z * Request.t) * World :=
  match l with
  | [] => ([], w)
  | e :: rest =>
      if clk >=? e.1 then drain_hit clk rest (run_callback e.2 w)
      else let '(rest', w') := drain_hit clk rest w in (e :: rest', w')
  end.

(** [CacheSystem::tick] *)
Definition CacheSystem_tick (cs : CacheSystem.t) (w : World)
    : CacheSystem.t * World :=
  let clk := CacheSystem.clk cs + 1 in
  let '(wait, w1) := drain_wait clk (CacheSystem.wait_list cs) w in
  let '(hit, w2) := drain_hit clk (CacheSystem.hit_list cs) w1 in
  (CacheSystem.mk clk hit wait, w2).

(** ** Notions used to state the tick's properties *)

Definition is_due (clk : Z) (e : Z * Request.t) : bool := e.1 <=? clk.

(** The leading run of entries that are due, and what follows it. *)
Fixpoint due_prefix (clk : Z) (l : list (Z * Request.t)) : list (Z * Request.t) :=
  match l with
  | [] => []
  | e :: rest => if is_due clk e then e :: due_prefix clk rest else []
  end.

Fixpoint after_due_prefix (clk : Z) (l : list (Z * Request.t))
    : list (Z * Request.t) :=
  match l with
  | [] => []
  | e :: rest => if is_due clk e then after_due_prefix clk rest else l
  end.

(** Offer every entry to [send_memory], in order; the refused ones are
    kept, in order. *)
Fixpoint offer_all (l : list (Z * Request.t)) (w : World)
    : list (Z * Request.t) * World :=
  match l with
  | [] => ([], w)
  | e :: rest =>
      let '(ok, w1) := send_memory e.2 w in
      let '(kept, w2) := offer_all rest w1 in
      (if ok then kept else e :: kept, w2)
  end.

(** Run the completion callbacks of the given entries, in order. *)
Definition complete_all (l : list (Z * Request.t)) (w : World) : World :=
  fold_left (λ w e, run_callback e.2 w) l w.

End CacheSystemTick.

(* ===================================================================== *)
(** * Concrete hierarchies for the scenarios *)
(* ===================================================================== *)

Module Scenario.

(** The latency tables of the scenarios, [4, 12, 40] for L1, L2, L3. *)
Definition latency (l : CacheLevel) : Z :=
  match l with L1 => 4 | L2 => 12 | L3 => 40 end.
Definition latency_each (l : CacheLevel) : Z :=
  match l with L1 => 4 | L2 => 12 | L3 => 40 end.

Definition read (a : Z) : Request.t := Request.new a Request.READ.
Definition write (a : Z) : Request.t := Request.new a Request.WRITE.

(** A lone last-level cache, as the constructor's comment prescribes
    ("we can only have L3 cache"): one set of two 64-byte lines, two
    MSHR entries. *)
Definition llc : Cache.t := Cache.new 128 2 64 2 L3 true true.
Definition single : Sys := mkSys (CacheSystem.mk 0 [] []) [llc].

(** The calls of a scenario, one after the other. *)
Definition run (ops : list (M unit)) : M unit := foldM (λ _ op, op) tt ops.

Definition send_ (c : nat) (req : Request.t) : M unit :=
  send latency latency_each 8 c req;; mret tt.
Definition callback_ (c : nat) (req : Request.t) : M unit := callback 8 c req.

(** The store a scenario leaves; the store is kept if a call faults. *)
Definition after (ops : list (M unit)) (s : Sys) : Sys :=
  match run ops s with
  | Ok (_, s') => s'
  | Fault _ => s
  end.

Definition cache_at (c : nat) (s : Sys) : Cache.t :=
  default llc (caches s !! c).

(** The lone cache with a miss outstanding to block 0. *)
Definition one_read : Sys := after [send_ 0 (read 0)] single.

(** The lone cache with misses outstanding to blocks 0 and 64: both lines
    of its set are locked and both MSHR entries are taken. *)
Definition busy : Sys := after [send_ 0 (read 0); send_ 0 (write 64)] single.

(** The lone cache holding blocks 0 and 64, filled, block 64 dirty. *)
Definition filled : Sys :=
  after [send_ 0 (read 0); send_ 0 (write 64);
         callback_ 0 (read 0); callback_ 0 (read 64)] single.

(** Two levels: an L2 of one set of four lines at 0, above a last-level
    L3 of one set of eight lines and two MSHR entries at 1. *)
Definition two_level : Sys :=
  after [concatlower 0 1]
    (mkSys (CacheSystem.mk 0 [] [])
       [Cache.new 256 4 64 4 L2 true false; Cache.new 512 8 64 2 L3 false true]).

(** Four misses go down while L3 can take only two: the reads of 128 and
    192 wait in the retry list of L2.  Then the first two fills complete. *)
Definition two_level_retrying : Sys :=
  after [send_ 0 (read 0); send_ 0 (read 64); send_ 0 (read 128);
         send_ 0 (read 192); callback_ 1 (read 0); callback_ 1 (read 64)]
    two_level.

(** The two levels with a miss outstanding to block 0 in both. *)
Definition two_level_one_read : Sys := after [send_ 0 (read 0)] two_level.

Definition tick_ (c : nat) : M unit := tick latency latency_each 8 c.

(** The same after one [Cache::tick] of the L2. *)
Definition two_level_ticked : Sys := after [tick_ 0] two_level_retrying.

(** As [two_level_retrying], with the read of 128 alone in the retry
    list. *)
Definition two_level_retrying_one : Sys :=
  after [send_ 0 (read 0); send_ 0 (read 64); send_ 0 (read 128);
         callback_ 1 (read 0); callback_ 1 (read 64)]
    two_level.

(** Two small levels: a one-line first-level cache at 0 above a
    last-level cache of one set of two lines at 1. *)
Definition small : Sys :=
  after [concatlower 0 1]
    (mkSys (CacheSystem.mk 0 [] [])
       [Cache.new 64 1 64 4 L1 true false; Cache.new 128 2 64 4 L2 false true]).

(** Block 0 is written and block 64 read through the first level, which
    holds one of them at a time: the last level holds both, block 0
    dirty and least recently used. *)
Definition small_filled : Sys :=
  after [send_ 0 (write 0); callback_ 1 (read 0);
         send_ 0 (read 64); callback_ 1 (read 64)] small.

(** Then block 128 is read: the last level writes block 0 back. *)
Definition small_evicted : Sys := after [send_ 0 (read 128)] small_filled.

(** The two levels with misses outstanding to blocks 0 and 64: both MSHR
    entries of the L3 are taken. *)
Definition two_level_two_reads : Sys :=
  after [send_ 0 (read 0); send_ 0 (read 64)] two_level.

(** Three levels: two one-line L1 caches at 0 and 1 above an L2 of two
    lines at 2, above a last-level L3 of four lines at 3. *)
Definition three_level : Sys :=
  after [concatlower 0 2; concatlower 1 2; concatlower 2 3]
    (mkSys (CacheSystem.mk 0 [] [])
       [Cache.new 64 1 64 4 L1 true false; Cache.new 64 1 64 4 L1 true false;
        Cache.new 128 2 64 4 L2 false false; Cache.new 256 4 64 4 L3 false true]).

(** Blocks 0 and 64 are fetched through the first L1; then block 0, which
    the L1 had to give up, is asked for again and hits in L2: its line in
    the L1 is locked until that hit completes, its line in L2 is not.
    Then block 128 is asked for through the second L1: L2 gives up block
    64 for it and holds block 0, unlocked, and block 128, locked. *)
Definition held_calls : list (M unit) :=
  [send_ 0 (read 0); callback_ 3 (read 0);
   send_ 0 (read 64); callback_ 3 (read 64);
   send_ 0 (read 0); send_ 1 (read 128)].
Definition three_level_held : Sys := after held_calls three_level.

End Scenario.


(* ===================================================================== *)
(** * Scheduler.h: the order the comparators implement *)
(* ===================================================================== *)

Section SchedulerOrder.

Variable is_ready : Request.t -> bool.
Variable is_row_hit : Request.t -> bool.

(** What a comparator of the table prefers before it looks at the arrival
    times: nothing (FCFS), an idle bank (FCFSBank), an idle bank and an
    open row (the other three). *)
Definition preferred (ty : SchedType) (r : Request.t) : bool :=
  match ty with
  | FCFS => true
  | FCFSBank => is_ready r
  | FRFCFS | BLISS | Custom => ready_hit is_ready is_row_hit r
  end.

(** [h] comes before [x]: it is preferred and [x] is not, or both are
    alike in that and [h] arrived earlier, or at the same time and stands
    no later in the queue. *)
Definition precedes (rdy : Request.t -> bool) (h x : ReqIter) : Prop :=
  (rdy h.2 = true /\ rdy x.2 = false) \/
  (rdy h.2 = rdy x.2 /\
   (Request.arrive h.2 < Request.arrive x.2 \/
    (Request.arrive h.2 = Request.arrive x.2 /\ (h.1 <= x.1)%nat))).

End SchedulerOrder.

(* ===================================================================== *)
(** * Scheduler.h: the row table *)
(* ===================================================================== *)

(** What stops a call of [RowTable]: one of the three [assert]s of
    [update], or a read past the end of a vector, which is undefined. *)
Inductive RowTableFault :=
  | NoEntry          (* assert(match != table.end()) *)
  | RowMismatch      (* assert(match->second.row == row) *)
  | NothingClosed    (* assert(n_rm > 0) *)
  | OutOfRange.

(** [map<vector<int>, Entry> table] *)
Abbreviation Table := (gmap (list Z) RowTable.Entry).

(** The value an [int] takes: 32 bits, two's complement. *)
Definition wrap_int (z : Z) : Z := (z + 2 ^ 31) mod 2 ^ 32 - 2 ^ 31.

Section RowTableDefs.

(** [T::Command] and the members of the DRAM standard [update] reads. *)
Variable Command : Type.
Variable is_opening : Command -> bool.
Variable is_accessing : Command -> bool.
Variable is_closing : Command -> bool.
(** [int(spec->scope[int(cmd)])] *)
Variable scope : Command -> Z.
(** [int(T::Level::Row)] *)
Variable row_level : nat.

(** [vector<int> rowgroup(begin, begin + int(T::Level::Row))] *)
Definition rowgroup_of (addr_vec : list Z) : option (list Z) :=
  if bool_decide (row_level <= length addr_vec)%nat
  then Some (take row_level addr_vec) else None.

(** [int row = *end] *)
Definition row_of (addr_vec : list Z) : option Z := addr_vec !! row_level.

(** [table.insert({rowgroup, {row, 0, clk}})]: [std::map::insert] leaves
    an entry that is there alone. *)
Definition opening (cmd : Command) (rowgroup : list Z) (row clk : Z)
    (table : Table) : Table :=
  if is_opening cmd then
    match table !! rowgroup with
    | Some _ => table
    | None => <[rowgroup := RowTable.mkEntry row 0 clk]> table
    end
  else table.

(** [match->second.hits++; match->second.timestamp = clk;] after the two
    assertions.  [hits] is an [int]: at [INT_MAX] the increment wraps. *)
Definition accessing (cmd : Command) (rowgroup : list Z) (row clk : Z)
    (table : Table) : RowTableFault + Table :=
  if is_accessing cmd then
    match table !! rowgroup with
    | None => inl NoEntry
    | Some e =>
        if bool_decide (RowTable.row e = row)
        then inr (<[rowgroup :=
                    RowTable.mkEntry (RowTable.row e)
                      (wrap_int (RowTable.hits e + 1)) clk]>
                  table)
        else inl RowMismatch
    end
  else inr table.

(** The scope of a closing command: the row's own rowgroup for the
    accesses with auto-precharge, [spec->scope] otherwise. *)
Definition closing_scope (cmd : Command) : Z :=
  if is_accessing cmd then Z.of_nat row_level - 1 else scope cmd.

(** [equal(begin, begin + scope + 1, it->first.begin())] *)
Definition in_scope (n : nat) (addr_vec key : list Z) : bool :=
  bool_decide (take n addr_vec = take n key).

(** The loop over the table erases the entries in scope and counts them.
    [equal] reads [scope + 1] elements of both vectors, which have to be
    there. *)
Definition closing (cmd : Command) (addr_vec : list Z) (table : Table)
    : RowTableFault + Table :=
  if is_closing cmd then
    let n := Z.to_nat (closing_scope cmd + 1) in
    if bool_decide (0 <= closing_scope cmd + 1 /\
                    (n <= length addr_vec)%nat /\
                    map_Forall (fun key _ => (n <= length key)%nat) table)
    then
      let table' := filter (fun kv => in_scope n addr_vec kv.1 = false) table in
      if bool_decide (size table' < size table)%nat
      then inr table' else inl NothingClosed
    else inl OutOfRange
  else inr table.

(** [RowTable::update] *)
Definition update (cmd : Command) (addr_vec : list Z) (clk : Z)
    (table : Table) : RowTableFault + Table :=
  match rowgroup_of addr_vec, row_of addr_vec with
  | Some rowgroup, Some row =>
      match accessing cmd rowgroup row clk (opening cmd rowgroup row clk table) with
      | inl f => inl f
      | inr table' => closing cmd addr_vec table'
      end
  | _, _ => inl OutOfRange
  end.

(** [RowTable::get_hits]; [to_opened_row] defaults to [false]. *)
Definition get_hits (addr_vec : list Z) (to_opened_row : bool)
    (table : Table) : RowTableFault + Z :=
  match rowgroup_of addr_vec, row_of addr_vec with
  | Some rowgroup, Some row =>
      match table !! rowgroup with
      | None => inr 0
      | Some e =>
          if negb to_opened_row && negb (bool_decide (RowTable.row e = row))
          then inr 0
          else inr (RowTable.hits e)
      end
  | _, _ => inl OutOfRange
  end.

(** [RowTable::get_open_row] *)
Definition get_open_row (addr_vec : list Z) (table : Table)
    : RowTableFault + Z :=
  match rowgroup_of addr_vec with
  | Some rowgroup =>
      match table !! rowgroup with
      | None => inr (-1)
      | Some e => inr (RowTable.row e)
      end
  | None => inl OutOfRange
  end.

(** ** Notions used to state the row table's properties *)

(** The keys of the table are rowgroups: vectors of [row_level] levels. *)
Definition keys_are_rowgroups (table : Table) : Prop :=
  map_Forall (fun (key : list Z) (_ : RowTable.Entry) => length key = row_level)
    table.

End RowTableDefs.

(** A DDR-like command table for the scenarios of the row table: address
    vectors are [channel; rank; bank; row; column], rows sit at level 3,
    [PRE] is scoped at the bank and [PREA] at the rank. *)
Module RowTableScenario.
Inductive Command := ACT | PRE | PREA | RD | WR | RDA | WRA.
Definition is_opening (c : Command) : bool :=
  match c with ACT => true | _ => false end.
Definition is_accessing (c : Command) : bool :=
  match c with RD | WR | RDA | WRA => true | _ => false end.
Definition is_closing (c : Command) : bool :=
  match c with RDA | WRA | PRE | PREA => true | _ => false end.
Definition scope (c : Command) : Z :=
  match c with
  | ACT | PRE => 2
  | PREA => 1
  | RD | WR | RDA | WRA => 4
  end.
Definition row_level : nat := 3.
Definition update := update Command is_opening is_accessing is_closing scope row_level.
(** Rows 5 and 9 open in banks 0 and 1 of rank 0. *)
Definition two_open : Table :=
  <[ [0; 0; 1] := RowTable.mkEntry 9 0 20 ]>
    (<[ [0; 0; 0] := RowTable.mkEntry 5 2 17 ]> ∅).
End RowTableScenario.

(* ===================================================================== *)
(** * Cache_example.cpp: the constructor's checks and a lone cache *)
(* ===================================================================== *)

(** The four [assert]s of [Cache::Cache]: "whether everything is 2^N and
    size vs block_size makes sense". *)
Definition sanity_checks (size assoc block_size : Z) : bool :=
  (Z.land size (size - 1) =? 0) &&
  (Z.land block_size (block_size - 1) =? 0) &&
  (Z.land assoc (assoc - 1) =? 0) &&
  (size >=? block_size).

(** The set index and the tag of an address tell its block. *)
Definition coherent (C : Cache.t) : Prop :=
  forall a b, Cache.get_index C a = Cache.get_index C b ->
              Cache.get_tag C a = Cache.get_tag C b ->
              Cache.align C a = Cache.align C b.

(** What an assignment through the iterator [i] makes of a node. *)
Definition assigned (i : nat) (f : Line.t -> Line.t) (n : Node) : Node :=
  if Nat.eqb (node_id n) i then mkNode (node_id n) (f (line n)) else n.

(** A last-level cache with nothing above it: the only shape the
    constructor's comment allows ("we can only have L3 cache"). *)
Definition lone (C : Cache.t) : Prop :=
  Cache.higher_cache (Cache.cfg C) = [] /\
  Cache.is_last_level (Cache.cfg C) = true.

(** The list of the set [idx] is in order: its nodes are distinct and were
    allocated by this cache, its tags are distinct, it holds at most
    [assoc] lines, and every line sits in the set and under the tag of its
    address. *)
Definition set_ok (C : Cache.t) (idx : Z) (lines : list Node) : Prop :=
  NoDup (node_id <$> lines) /\
  NoDup ((fun n => Line.tag (line n)) <$> lines) /\
  size_ lines <= Cache.assoc (Cache.cfg C) /\
  forall n, n ∈ lines ->
    (node_id n < Cache.next_node C)%nat /\
    Cache.get_index C (Line.addr (line n)) = idx /\
    Cache.get_tag C (Line.addr (line n)) = Line.tag (line n).

(** The MSHR table is in order: it holds at most [mshr_entry_num] entries,
    no two of them keep the same iterator, every iterator points to a line
    that is there, locked, and has the address of the entry, and every
    locked line has an entry that points to it. *)
Definition mshr_ok (C : Cache.t) : Prop :=
  size_ (Cache.mshr_entries C) <= Cache.mshr_entry_num (Cache.cfg C) /\
  NoDup (snd <$> Cache.mshr_entries C) /\
  (forall a h, (a, h) ∈ Cache.mshr_entries C ->
     exists n, n ∈ Cache.lines_at C h.1 /\ node_id n = h.2 /\
               Line.lock (line n) = true /\ Line.addr (line n) = a) /\
  (forall idx n, n ∈ Cache.lines_at C idx -> Line.lock (line n) = true ->
     exists a, (a, (idx, node_id n)) ∈ Cache.mshr_entries C).

Definition well_formed (C : Cache.t) : Prop :=
  (forall idx, set_ok C idx (Cache.lines_at C idx)) /\ mshr_ok C.

(** A lone, coherent, well-formed cache sits at [c]. *)
Definition lone_ok (c : nat) (s : Sys) : Prop :=
  exists C, caches s !! c = Some C /\ lone C /\ coherent C /\ well_formed C.

(** The calls the processor side and the memory side make on a cache. *)
Inductive Call :=
  | CallSend (req : Request.t)
  | CallCallback (req : Request.t).

Section Calls.

Variable latency : CacheLevel -> Z.
Variable latency_each : CacheLevel -> Z.

Definition call (fuel : nat) (c : nat) (k : Call) : M unit :=
  match k with
  | CallSend req => send latency latency_each fuel c req;; mret tt
  | CallCallback req => callback fuel c req
  end.

(** The calls of a list, one after the other. *)
Definition calls (fuel : nat) (c : nat) (ks : list Call) : M unit :=
  foldM (fun _ k => call fuel c k) tt ks.

End Calls.

(** ** Notions used to state what the calls on a hierarchy leave alone *)

(** The wiring and the clock are what they were, and the two delivery
    queues have only grown, at the back. *)
Definition steady (s s' : Sys) : Prop :=
  cfgs s' = cfgs s /\
  CacheSystem.clk (cachesys s') = CacheSystem.clk (cachesys s) /\
  CacheSystem.hit_list (cachesys s) `prefix_of` CacheSystem.hit_list (cachesys s') /\
  CacheSystem.wait_list (cachesys s) `prefix_of` CacheSystem.wait_list (cachesys s').

(** By how much the total counters of a cache exceed the sum of their read
    and write parts: for the accesses, and for the misses. *)
Definition surplus (C : Cache.t) : Z * Z :=
  (Cache.stats C cache_total_access
   - Cache.stats C cache_read_access - Cache.stats C cache_write_access,
   Cache.stats C cache_total_miss
   - Cache.stats C cache_read_miss - Cache.stats C cache_write_miss).

(** No cache has gained or lost surplus. *)
Definition balanced (s s' : Sys) : Prop :=
  surplus <$> caches s' = surplus <$> caches s.

(** No cache has been rewired and no retry list has changed. *)
Definition quiet (s s' : Sys) : Prop :=
  cfgs s' = cfgs s /\
  Cache.retry_list <$> caches s' = Cache.retry_list <$> caches s.

(* ===================================================================== *)
(** * Cache_example.cpp: the specification's words for [send] and [evict] *)
(* ===================================================================== *)

(** The set an address falls into. *)
Definition block_set (C : Cache.t) (a : Z) : list Node :=
  Cache.lines_at C (Cache.get_index C a).

(** The block of the address is not resident: no line of its set carries
    its tag. *)
Definition lacks (C : Cache.t) (a : Z) : Prop :=
  Forall (fun n => Line.tag (line n) <> Cache.get_tag C a) (block_set C a).

(** The set of the address is [pre ++ l :: post], and [l] is its first line
    with the tag of the address. *)
Definition holds (C : Cache.t) (a : Z) (pre : list Node) (l : Node)
    (post : list Node) : Prop :=
  block_set C a = pre ++ l :: post /\
  Forall (fun n => Line.tag (line n) <> Cache.get_tag C a) pre /\
  Line.tag (line l) = Cache.get_tag C a.

(** "Find a line with matching tag; the hit holds only if that line is not
    locked." *)
Definition unlocked_hit (C : Cache.t) (a : Z) : Prop :=
  exists pre l post, holds C a pre l post /\ Line.lock (line l) = false.

Definition misses (C : Cache.t) (a : Z) : Prop :=
  lacks C a \/
  exists pre l post, holds C a pre l post /\ Line.lock (line l) = true.

(** No MSHR entry is for the block of the address. *)
Definition no_entry (C : Cache.t) (a : Z) : Prop :=
  Forall (fun e : Z * Handle => Cache.align C e.1 <> Cache.align C a)
    (Cache.mshr_entries C).

(** The MSHR table is [before ++ e :: after], and [e] is its first entry
    for the block of the address. *)
Definition first_entry (C : Cache.t) (a : Z) (before : list (Z * Handle))
    (e : Z * Handle) (after : list (Z * Handle)) : Prop :=
  Cache.mshr_entries C = before ++ e :: after /\
  Forall (fun e' : Z * Handle => Cache.align C e'.1 <> Cache.align C a) before /\
  Cache.align C e.1 = Cache.align C a.

(** The iterator points to a node that is in its list. *)
Definition live (C : Cache.t) (h : Handle) : Prop :=
  Exists (fun n => node_id n = h.2) (Cache.lines_at C h.1).

(** "|mshr| == mshr_entry_num" *)
Definition table_full (C : Cache.t) : Prop :=
  size_ (Cache.mshr_entries C) = Cache.mshr_entry_num (Cache.cfg C).

Definition set_full (C : Cache.t) (a : Z) : Prop :=
  Cache.assoc (Cache.cfg C) <= size_ (block_set C a).

(** "Every line in the set is locked and the set is full." *)
Definition locked_out (C : Cache.t) (a : Z) : Prop :=
  set_full C a /\ Forall (fun n => Line.lock (line n) = true) (block_set C a).

(** "A victim line such that [!line.lock] and in every higher cache
    [check_unlock(line.addr)] holds"; a cache flagged first-level does not
    ask the caches above. *)
Definition evictable (s : Sys) (C : Cache.t) (n : Node) : Prop :=
  Line.lock (line n) = false /\
  (Cache.is_first_level (Cache.cfg C) = false ->
   Forall (fun hc => check_unlock s hc (Line.addr (line n)) = true)
     (Cache.higher_cache (Cache.cfg C))).

(** "No eligible victim exists": the set is at capacity and none of its
    lines may be evicted. *)
Definition victimless (s : Sys) (C : Cache.t) (a : Z) : Prop :=
  set_full C a /\ Forall (fun n => ~ evictable s C n) (block_set C a).

(** The structural refusal: the request neither hits nor merges, and the
    MSHR table is full, or the set is locked out, or there is no victim. *)
Definition refused (s : Sys) (C : Cache.t) (a : Z) : Prop :=
  misses C a /\ no_entry C a /\
  (table_full C \/ locked_out C a \/ victimless s C a).

(** "Pick the front-most eligible line": the set is at capacity, it is
    [pre ++ v :: post], and [v] is its first line that may be evicted, the
    first node of its identity. *)
Definition first_victim (s : Sys) (C : Cache.t) (a : Z) (pre : list Node)
    (v : Node) (post : list Node) : Prop :=
  block_set C a = pre ++ v :: post /\ set_full C a /\
  Forall (fun n => ~ evictable s C n) pre /\ evictable s C v /\
  Forall (fun n => node_id n <> node_id v) pre.

(** The caches [hcs] hold no line of the block; each is in the store. *)
Definition all_lack (s : Sys) (hcs : list nat) (a : Z) : Prop :=
  Forall (fun hc => exists H, caches s !! hc = Some H /\ lacks H a) hcs.

(** The store after the block of [a] has been looked up in the caches
    [hcs]: the sets looked up exist, empty if they are new. *)
Definition looked_up (hcs : list nat) (a : Z) (s : Sys) : Sys :=
  fold_left
    (fun s hc => match caches s !! hc with
                 | Some H => put_cache s hc (ensure_set (Cache.get_index H a) H)
                 | None => s
                 end)
    hcs s.

(** The cache after its line [m] for the block of [a], found between [lp]
    and [lq], has been made the most recently used: "update LRU/dirty
    without dropping the lower copy". *)
Definition refreshed (L : Cache.t) (a : Z) (dirty : bool) (lp : list Node)
    (m : Node) (lq : list Node) : Cache.t :=
  Cache.with_next (S (Cache.next_node L))
    (set_lines (Cache.get_index L a)
       (lp ++ lq ++
        [mkNode (Cache.next_node L)
           (Line.mk a (Cache.get_tag L a) false (dirty || Line.dirty (line m)))])
       L).

(** The cache [base] after a line and an MSHR entry have been allocated for
    the request, [kept] being the lines that stay in the set: "append a
    fresh Line(addr, tag(addr), lock=true, dirty=false) at the back", "set
    newline.dirty := dirty; insert MSHR entry (req.addr, newline)". *)
Definition allocated (base : Cache.t) (req : Request.t) (kept : list Node)
    : Cache.t :=
  let a := Request.addr req in
  let idx := Cache.get_index base a in
  Cache.with_mshr
    (Cache.mshr_entries base ++ [(a, (idx, Cache.next_node base))])
    (Cache.with_next (S (Cache.next_node base))
       (set_lines idx
          (kept ++ [mkNode (Cache.next_node base)
                      (Line.mk a (Cache.get_tag base a) true (is_write req))])
          base)).

(** The identity the next node of the cache receives is not in use in the
    set of the address: an iterator to the new node is no iterator to an
    old one. *)
Definition fresh_node (C : Cache.t) (a : Z) : Prop :=
  Forall (fun n => node_id n <> Cache.next_node C) (block_set C a).

(** The requests the specification's algorithm of [send] answers, with the
    answer, [d] being the number of levels the request is forwarded down.
    Steps 3 and 5 to 10 of the algorithm, one rule per exit; where a line
    is evicted, the caches above must not hold its block ([invalidate]
    does not return from a cache that does), and the cache below must. *)
Inductive answers : nat -> Sys -> nat -> Request.t -> bool -> Prop :=
| answers_hit d s c C req :
    caches s !! c = Some C ->
    unlocked_hit C (Request.addr req) ->
    answers d s c req true
| answers_merge d s c C req before e after :
    caches s !! c = Some C ->
    misses C (Request.addr req) ->
    first_entry C (Request.addr req) before e after -> live C e.2 ->
    answers d s c req true
| answers_table_full d s c C req :
    caches s !! c = Some C ->
    misses C (Request.addr req) -> no_entry C (Request.addr req) ->
    table_full C ->
    answers d s c req false
| answers_locked_out d s c C req :
    caches s !! c = Some C ->
    misses C (Request.addr req) -> no_entry C (Request.addr req) ->
    ~ table_full C -> locked_out C (Request.addr req) ->
    answers d s c req false
| answers_victimless d s c C req :
    caches s !! c = Some C ->
    lacks C (Request.addr req) -> no_entry C (Request.addr req) ->
    ~ table_full C -> victimless s C (Request.addr req) ->
    answers d s c req false
| answers_room_last d s c C req :
    caches s !! c = Some C ->
    lacks C (Request.addr req) -> no_entry C (Request.addr req) ->
    ~ table_full C -> ~ set_full C (Request.addr req) ->
    Cache.is_last_level (Cache.cfg C) = true ->
    answers d s c req true
| answers_victim_last d s c C req pre v post :
    caches s !! c = Some C ->
    lacks C (Request.addr req) -> no_entry C (Request.addr req) ->
    ~ table_full C -> first_victim s C (Request.addr req) pre v post ->
    Cache.is_last_level (Cache.cfg C) = true ->
    c ∉ Cache.higher_cache (Cache.cfg C) ->
    all_lack s (Cache.higher_cache (Cache.cfg C)) (Line.addr (line v)) ->
    answers d s c req true
| answers_room_forward d s c C req lower b :
    caches s !! c = Some C ->
    lacks C (Request.addr req) -> no_entry C (Request.addr req) ->
    ~ table_full C -> ~ set_full C (Request.addr req) ->
    fresh_node C (Request.addr req) ->
    Cache.is_last_level (Cache.cfg C) = false ->
    Cache.lower_cache (Cache.cfg C) = Some lower ->
    answers d
      (put_cache s c
         (allocated (missed C req) req (block_set C (Request.addr req))))
      lower (Request.with_type req Request.READ) b ->
    answers (S d) s c req true
| answers_victim_forward d s c C req pre v post lower L lp m lq b :
    caches s !! c = Some C ->
    lacks C (Request.addr req) -> no_entry C (Request.addr req) ->
    ~ table_full C -> first_victim s C (Request.addr req) pre v post ->
    fresh_node C (Request.addr req) ->
    Cache.is_last_level (Cache.cfg C) = false ->
    Cache.lower_cache (Cache.cfg C) = Some lower ->
    c ∉ Cache.higher_cache (Cache.cfg C) ->
    lower ∉ Cache.higher_cache (Cache.cfg C) -> lower <> c ->
    all_lack s (Cache.higher_cache (Cache.cfg C)) (Line.addr (line v)) ->
    caches s !! lower = Some L ->
    holds L (Line.addr (line v)) lp m lq ->
    Forall (fun n => node_id n <> node_id m) lp ->
    answers d
      (put_cache
         (put_cache
            (looked_up (Cache.higher_cache (Cache.cfg C)) (Line.addr (line v)) s)
            lower (refreshed L (Line.addr (line v)) (Line.dirty (line v)) lp m lq))
         c (allocated (Cache.count cache_eviction (missed C req)) req (pre ++ post)))
      lower (Request.with_type req Request.READ) b ->
    answers (S d) s c req true.

(* ===================================================================== *)
(** * The scheduler *)
(* ===================================================================== *)

Section SchedulerFacts.

Variable is_ready : Request.t -> bool.
Variable is_row_hit : Request.t -> bool.
Variable is_row_open : Request.t -> bool.
Variable pre_scope : Z.

Local Abbreviation compare := (compare is_ready is_row_hit).
Local Abbreviation scan := (scan is_ready is_row_hit).
Local Abbreviation get_head := (get_head is_ready is_row_hit is_row_open pre_scope).
Local Abbreviation rescan := (rescan is_ready is_row_hit is_row_open pre_scope).

Local Abbreviation ready_hit := (ready_hit is_ready is_row_hit).
Local Abbreviation leads := (leads is_ready is_row_hit).

Lemma iters_from_lookup q : forall k i r,
  (i, r) ∈ iters_from k q <-> (k <= i)%nat /\ q !! (i - k)%nat = Some r.
Proof.
  induction q as [|r0 q IH]; intros k i r; simpl.
  - rewrite elem_of_nil. split; [done|]. intros [_ H]. done.
  - rewrite elem_of_cons, IH. split.
    + intros [H|[H1 H2]].
      * inversion H; subst. split; [lia|]. by rewrite Nat.sub_diag.
      * split; [lia|]. replace (i - k)%nat with (S (i - S k)) by lia. done.
    + intros [H1 H2]. destruct (decide (i = k)) as [->|Hne].
      * left. rewrite Nat.sub_diag in H2. simpl in H2. congruence.
      * right. split; [lia|].
        replace (i - k)%nat with (S (i - S k)) in H2 by lia. done.
Qed.

Lemma iters_lookup q i r : (i, r) ∈ iters q <-> q !! i = Some r.
Proof.
  unfold iters. rewrite iters_from_lookup, Nat.sub_0_r.
  split; [by intros [_ ?]|]. intros; split; [lia|done].
Qed.

Lemma compare_FRFCFS_cases h x :
  let c := compare FRFCFS h x in
  (c = h /\ (ready_hit x.2 = true -> ready_hit h.2 = true /\
                Request.arrive h.2 <= Request.arrive x.2)) \/
  (c = x /\ (ready_hit h.2 = true -> ready_hit x.2 = true /\
                Request.arrive x.2 < Request.arrive h.2)).
Proof.
  unfold compare, by_arrival, ready_hit. simpl.
  destruct (is_ready h.2 && is_row_hit h.2) eqn:Hh,
           (is_ready x.2 && is_row_hit x.2) eqn:Hx; simpl;
    try (destruct (Z.leb_spec (Request.arrive h.2) (Request.arrive x.2)));
    first [ left; split; [reflexivity|]; intros; (split; [done|lia]) ; fail
          | right; split; [reflexivity|]; intros; (split; [done|lia]); fail
          | left; split; [reflexivity|]; intros; done
          | right; split; [reflexivity|]; intros; done ].
Qed.

Lemma fold_compare_leads q : forall k h (Seen : ReqIter -> Prop),
  (h.1 < k)%nat -> Seen h -> (forall x, Seen x -> leads h x) ->
  let h' := fold_left (compare FRFCFS) (iters_from k q) h in
  (Seen h' \/ h' ∈ iters_from k q) /\
  forall x, Seen x \/ x ∈ iters_from k q -> leads h' x.
Proof.
  induction q as [|r q IH]; intros k h Seen Hk Hh Hall; simpl.
  - split; [by left|]. intros x [Hx|Hx]; [by apply Hall|]. by apply elem_of_nil in Hx.
  - set (c := compare FRFCFS h (k, r)).
    assert (Hc : (c.1 < S k)%nat /\ (c = h \/ c = (k, r)) /\
                 forall x, Seen x \/ x = (k, r) -> leads c x).
    { destruct (compare_FRFCFS_cases h (k, r)) as [[E H]|[E H]]; fold c in E; rewrite E.
      - split; [lia|]. split; [by left|].
        intros x [Hx| ->]; [by apply Hall|].
        intros Hr. destruct (H Hr) as [? ?]. simpl in *. repeat split; try done; lia.
      - split; [simpl; lia|]. split; [by right|].
        intros x [Hx| ->].
        + intros Hr. destruct (Hall x Hx Hr) as (Hh1 & Hh2 & _).
          destruct (H Hh1) as [? ?]. simpl in *. repeat split; try done; lia.
        + intros Hr. repeat split; try done; lia. }
    destruct Hc as (Hc1 & Hc2 & Hc3).
    destruct (IH (S k) c (fun x => Seen x \/ x = (k, r)) Hc1) as [IH1 IH2].
    { destruct Hc2 as [->| ->]; [by left|by right]. }
    { done. }
    split.
    + destruct IH1 as [[H|H]|H].
      * by left.
      * right. apply elem_of_cons. left. exact H.
      * right. apply elem_of_cons. by right.
    + intros x [Hx|Hx]; apply IH2.
      * left. by left.
      * apply elem_of_cons in Hx as [->|Hx]; [left; by right|by right].
Qed.

Lemma scan_FRFCFS_leads q h :
  scan FRFCFS q = Some h ->
  h ∈ iters q /\ forall x, x ∈ iters q -> leads h x.
Proof.
  unfold scan, iters. destruct q as [|r q]; simpl; [done|].
  intros [= <-].
  destruct (fold_compare_leads q 1%nat (0%nat, r) (fun x => x = (0%nat, r)))
    as [H1 H2]; simpl; try done; try lia.
  { intros x -> Hr. repeat split; try done. }
  split.
  - apply elem_of_cons. destruct H1 as [->|H1]; [by left|by right].
  - intros x Hx. apply H2. apply elem_of_cons in Hx as [->|Hx]; [by left|by right].
Qed.

(** C2: under FRFCFS, when some queued request is both ready and a row
    hit, [get_head] returns a request that is both, its arrival time is
    the smallest among the queued requests that are both, and among those
    of that arrival time it is the one met first in the queue. *)
Theorem get_head_FRFCFS_priority (q : list Request.t) :
  (exists r, r ∈ q /\ is_ready r = true /\ is_row_hit r = true) ->
  exists i r,
    get_head FRFCFS q = Some (i, r) /\ q !! i = Some r /\
    is_ready r = true /\ is_row_hit r = true /\
    forall j r', q !! j = Some r' ->
      is_ready r' = true -> is_row_hit r' = true ->
      Request.arrive r <= Request.arrive r' /\
      (Request.arrive r' = Request.arrive r -> (i <= j)%nat).
Proof.
  intros (r0 & Hin & Hr0 & Hh0).
  apply list_elem_of_lookup in Hin as [j0 Hj0].
  destruct (scan FRFCFS q) as [[i r]|] eqn:Hscan.
  2:{ unfold scan, iters in Hscan. destruct q; simpl in *; done. }
  destruct (scan_FRFCFS_leads _ _ Hscan) as [Hin Hall].
  assert (Hrdy : ready_hit r = true).
  { destruct (Hall (j0, r0)) as [H _]; [by apply iters_lookup| |done].
    unfold ready_hit. simpl. by rewrite Hr0, Hh0. }
  exists i, r. unfold get_head. rewrite Hscan. simpl.
  unfold ready_hit in Hrdy. rewrite Hrdy.
  apply andb_true_iff in Hrdy as [? ?].
  repeat split; try done.
  - by apply iters_lookup.
  - destruct (Hall (j, r')) as (_ & H' & _); [by apply iters_lookup| |done].
    unfold ready_hit. simpl. by rewrite H2, H3.
  - destruct (Hall (j, r')) as (_ & _ & H'); [by apply iters_lookup| |done].
    unfold ready_hit. simpl. by rewrite H2, H3.
Qed.


(** C3 (as amended): BLISS and Custom take the same path through
    [get_head] as FRFCFS, with a comparator equal to that of FRFCFS: the
    winner of the linear scan is returned when it is ready and a row hit,
    and otherwise the row-conflict rescan (with the FCFSBank comparator)
    decides; on every queue the three policies agree. *)
Theorem get_head_BLISS_Custom_as_FRFCFS (q : list Request.t) :
  (forall h x, compare BLISS h x = compare FRFCFS h x) /\
  (forall h x, compare Custom h x = compare FRFCFS h x) /\
  get_head BLISS q =
    match scan BLISS q with
    | None => None
    | Some head => if ready_hit head.2 then Some head else rescan q
    end /\
  get_head Custom q =
    match scan Custom q with
    | None => None
    | Some head => if ready_hit head.2 then Some head else rescan q
    end /\
  get_head BLISS q = get_head FRFCFS q /\
  get_head Custom q = get_head FRFCFS q.
Proof.
  assert (Hb : forall h x, compare BLISS h x = compare FRFCFS h x) by done.
  assert (Hc : forall h x, compare Custom h x = compare FRFCFS h x) by done.
  assert (Hsb : scan BLISS q = scan FRFCFS q) by done.
  assert (Hsc : scan Custom q = scan FRFCFS q) by done.
  repeat split; try done.
Qed.

End SchedulerFacts.

(** C2, witnessed on scenario 6 of the specification: B is returned. *)
Lemma get_head_FRFCFS_priority_witness :
  exists i r,
    get_head SchedulerScenario.all_ready SchedulerScenario.is_row_hit
      SchedulerScenario.is_row_open SchedulerScenario.pre_scope FRFCFS
      [SchedulerScenario.A; SchedulerScenario.B; SchedulerScenario.C] = Some (i, r) /\
    [SchedulerScenario.A; SchedulerScenario.B; SchedulerScenario.C] !! i = Some r /\
    SchedulerScenario.all_ready r = true /\
    SchedulerScenario.is_row_hit r = true /\
    forall j r',
      [SchedulerScenario.A; SchedulerScenario.B; SchedulerScenario.C] !! j = Some r' ->
      SchedulerScenario.all_ready r' = true ->
      SchedulerScenario.is_row_hit r' = true ->
      Request.arrive r <= Request.arrive r' /\
      (Request.arrive r' = Request.arrive r -> (i <= j)%nat).
Proof.
  apply (get_head_FRFCFS_priority SchedulerScenario.all_ready
           SchedulerScenario.is_row_hit SchedulerScenario.is_row_open
           SchedulerScenario.pre_scope
           [SchedulerScenario.A; SchedulerScenario.B; SchedulerScenario.C]).
  exists SchedulerScenario.B. split; [|split; reflexivity].
  apply elem_of_cons; right; apply elem_of_cons; left; reflexivity.
Defined.

Example get_head_scenario_6 :
  get_head SchedulerScenario.all_ready SchedulerScenario.is_row_hit
    SchedulerScenario.is_row_open SchedulerScenario.pre_scope FRFCFS
    [SchedulerScenario.A; SchedulerScenario.B; SchedulerScenario.C]
  = Some (1%nat, SchedulerScenario.B).
Proof. reflexivity. Qed.

(** C3, refuted as stated: with no bank ready, the linear scan of BLISS (and
    of Custom) prefers the older Y, yet [get_head] goes through the
    row-conflict rescan, drops Y and returns X. *)
Lemma get_head_BLISS_Custom_rescan :
  scan SchedulerScenario.none_ready SchedulerScenario.is_row_hit BLISS
    [SchedulerScenario.X; SchedulerScenario.Y] = Some (1%nat, SchedulerScenario.Y) /\
  get_head SchedulerScenario.none_ready SchedulerScenario.is_row_hit
    SchedulerScenario.is_row_open SchedulerScenario.pre_scope BLISS
    [SchedulerScenario.X; SchedulerScenario.Y] = Some (0%nat, SchedulerScenario.X) /\
  scan SchedulerScenario.none_ready SchedulerScenario.is_row_hit Custom
    [SchedulerScenario.X; SchedulerScenario.Y] = Some (1%nat, SchedulerScenario.Y) /\
  get_head SchedulerScenario.none_ready SchedulerScenario.is_row_hit
    SchedulerScenario.is_row_open SchedulerScenario.pre_scope Custom
    [SchedulerScenario.X; SchedulerScenario.Y] = Some (0%nat, SchedulerScenario.X).
Proof. repeat split; reflexivity. Qed.

Section RowPolicyFacts.

Variable Command : Type.
Variable is_ready_cmd : Command -> list Z -> bool.
Variable clk : Z.
Variable table : list (list Z * RowTable.Entry).

Local Abbreviation get_victim := (get_victim Command is_ready_cmd clk table).

Lemma closed_loop_find cmd tbl :
  closed_loop Command is_ready_cmd cmd tbl =
  match List.find (fun kv => is_ready_cmd cmd kv.1) tbl with
  | Some kv => kv.1
  | None => []
  end.
Proof.
  induction tbl as [|kv tbl IH]; simpl; [done|].
  destruct (is_ready_cmd cmd kv.1); simpl; done.
Qed.

Lemma timeout_loop_find t cmd tbl :
  timeout_loop Command is_ready_cmd clk t cmd tbl =
  match List.find (timed_out_ready Command is_ready_cmd clk t cmd) tbl with
  | Some kv => kv.1
  | None => []
  end.
Proof.
  induction tbl as [|kv tbl IH]; simpl; [done|].
  unfold timed_out_ready at 1.
  destruct (Z.ltb_spec (clk - RowTable.timestamp kv.2) t),
           (Z.leb_spec t (clk - RowTable.timestamp kv.2)); try lia; simpl.
  - done.
  - destruct (is_ready_cmd cmd kv.1); simpl; done.
Qed.

Lemma first_key_valid (P : list Z * RowTable.Entry -> bool) cmd :
  (forall kv, P kv = true -> is_ready_cmd cmd kv.1 = true) ->
  let v := first_key table P in
  v = [] \/ (exists e, (v, e) ∈ table /\ is_ready_cmd cmd v = true).
Proof.
  intros HP. unfold first_key. destruct (List.find P table) as [[k e]|] eqn:Hf.
  - right. apply find_some in Hf as [Hin Hk]. exists e. split.
    + by apply list_elem_of_In.
    + by apply (HP (k, e)).
  - by left.
Qed.

(** C9: [get_victim] returns the empty vector or a key of the row table
    for which [is_ready(cmd, key)] holds; the Opened policy returns the
    empty vector; the Timeout policy returns the key of the first entry
    with [clk - timestamp >= timeout] that is ready, or the empty vector
    when there is none; a fresh policy is Timeout with [timeout = 50]. *)
Theorem get_victim_row_policy (p : RowPolicy.t) (cmd : Command) (t : Z) :
  (get_victim p cmd = [] \/
   exists e, (get_victim p cmd, e) ∈ table /\
             is_ready_cmd cmd (get_victim p cmd) = true) /\
  get_victim (RowPolicy.mk Opened t) cmd = [] /\
  get_victim (RowPolicy.mk Timeout t) cmd =
    first_key table (timed_out_ready Command is_ready_cmd clk t cmd) /\
  RowPolicy.type RowPolicy.new = Timeout /\
  RowPolicy.timeout RowPolicy.new = 50.
Proof.
  split; [|repeat split; try done; apply timeout_loop_find].
  destruct p as [ty tm]. unfold get_victim. simpl. destruct ty.
  - rewrite closed_loop_find. by apply first_key_valid.
  - rewrite closed_loop_find. by apply first_key_valid.
  - by left.
  - rewrite timeout_loop_find. apply first_key_valid.
    intros kv H. by apply andb_true_iff in H as [_ ?].
Qed.

End RowPolicyFacts.


(* ===================================================================== *)
(** * [CacheSystem::tick] *)
(* ===================================================================== *)

Section CacheSystemTickFacts.

Variable World : Type.
Variable send_memory : Request.t -> World -> bool * World.
Variable run_callback : Request.t -> World -> World.

Lemma drain_wait_offer clk l w :
  drain_wait World send_memory clk l w =
  ((offer_all World send_memory (due_prefix clk l) w).1 ++ after_due_prefix clk l,
   (offer_all World send_memory (due_prefix clk l) w).2).
Proof.
  revert w. induction l as [|e rest IH]; intros w; simpl; [done|].
  unfold is_due. rewrite Z.geb_leb.
  destruct (e.1 <=? clk) eqn:Hdue; simpl; [|done].
  destruct (send_memory e.2 w) as [ok w1]. rewrite IH.
  destruct (offer_all World send_memory (due_prefix clk rest) w1) as [kept w2].
  by destruct ok.
Qed.

Lemma drain_hit_filter clk l w :
  drain_hit World run_callback clk l w =
  (List.filter (fun e => negb (is_due clk e)) l,
   complete_all World run_callback (List.filter (is_due clk) l) w).
Proof.
  revert w. induction l as [|e rest IH]; intros w; simpl; [done|].
  rewrite Z.geb_leb. change (is_due clk e) with (e.1 <=? clk).
  destruct (e.1 <=? clk) eqn:Hdue; simpl; rewrite IH. all: done.
Qed.

(** C6 (as amended): one tick advances the clock by one; then the leading
    run of due [wait_list] entries is offered to [send_memory] in order,
    the accepted ones leaving and the refused ones staying in place, and
    everything from the first entry that is not due on is left alone;
    then the callbacks of all due [hit_list] entries run in insertion
    order, on the world the memory dispatch left, and those entries
    leave. *)
Theorem CacheSystem_tick_drains (cs : CacheSystem.t) (w : World) :
  let clk' := CacheSystem.clk cs + 1 in
  let offered := offer_all World send_memory
                   (due_prefix clk' (CacheSystem.wait_list cs)) w in
  CacheSystem_tick World send_memory run_callback cs w =
  (CacheSystem.mk clk'
     (List.filter (fun e => negb (is_due clk' e)) (CacheSystem.hit_list cs))
     (offered.1 ++ after_due_prefix clk' (CacheSystem.wait_list cs)),
   complete_all World run_callback
     (List.filter (is_due clk') (CacheSystem.hit_list cs)) offered.2).
Proof.
  unfold CacheSystem_tick. rewrite drain_wait_offer.
  destruct (offer_all _ _ _ _) as [kept w1]. simpl.
  by rewrite drain_hit_filter.
Qed.

End CacheSystemTickFacts.

(** C6, refuted as stated: the entry for address 64 is due at clock 1 and
    the memory accepts every request, yet it stays in [wait_list], because
    the scan stops at the entry before it, which is not due. *)
Lemma CacheSystem_tick_stops_at_first_not_due :
  CacheSystem_tick unit (fun _ w => (true, w)) (fun _ w => w)
    (CacheSystem.mk 0 []
       [(5, Request.new 0 Request.WRITE); (1, Request.new 64 Request.READ)]) tt
  = (CacheSystem.mk 1 []
       [(5, Request.new 0 Request.WRITE); (1, Request.new 64 Request.READ)], tt)
  /\ 1 >= (1, Request.new 64 Request.READ).1.
Proof. split; [reflexivity|simpl; lia]. Qed.


(* ===================================================================== *)
(** * The state monad: evaluation and inversion *)
(* ===================================================================== *)

Lemma bind_eval {A B} (m : M A) (f : A -> M B) s a s' :
  m s = Ok (a, s') -> (m ≫= f) s = f a s'.
Proof. unfold mbind, M_bind. by intros ->. Qed.

Lemma bind_fault {A B} (m : M A) (f : A -> M B) s e :
  m s = Fault e -> (m ≫= f) s = Fault e.
Proof. unfold mbind, M_bind. by intros ->. Qed.

Lemma bind_inv {A B} (m : M A) (f : A -> M B) s r :
  (m ≫= f) s = Ok r -> exists a s', m s = Ok (a, s') /\ f a s' = Ok r.
Proof.
  unfold mbind, M_bind. destruct (m s) as [[a s']|e]; [|done]. eauto.
Qed.

Lemma bind_fault_inv {A B} (m : M A) (f : A -> M B) s e :
  (m ≫= f) s = Fault e ->
  m s = Fault e \/ exists a s', m s = Ok (a, s') /\ f a s' = Fault e.
Proof.
  unfold mbind, M_bind. destruct (m s) as [[a s']|e']; intros H.
  - right. eauto.
  - left. by inversion H.
Qed.

Lemma ret_eval {A} (a : A) s : (mret a : M A) s = Ok (a, s).
Proof. done. Qed.

Lemma Ok_state_inj {A} (a a' : A) (s s' : Sys) :
  Ok (a, s) = Ok (a', s') -> s = s'.
Proof. by intros [= _ ->]. Qed.

Lemma Some_cache_inj (C C' : Cache.t) : Some C = Some C' -> C = C'.
Proof. by intros [= ->]. Qed.

Lemma put_cache_lookup s c C C' :
  caches s !! c = Some C -> caches (put_cache s c C') !! c = Some C'.
Proof.
  intros H. simpl. apply list_lookup_insert_eq. by eapply lookup_lt_Some.
Qed.

Lemma put_cache_lookup_ne s c c' C' :
  c ≠ c' -> caches (put_cache s c C') !! c' = caches s !! c'.
Proof. intros H. simpl. by apply list_lookup_insert_ne. Qed.

Lemma put_cache_put_cache s c C1 C2 :
  put_cache (put_cache s c C1) c C2 = put_cache s c C2.
Proof. unfold put_cache. simpl. by rewrite list_insert_insert_eq. Qed.

Lemma put_cache_id s c C : caches s !! c = Some C -> put_cache s c C = s.
Proof.
  intros H. destruct s as [cs l]. unfold put_cache. simpl in *.
  by rewrite list_insert_id.
Qed.

Lemma put_cache_cachesys s c C : cachesys (put_cache s c C) = cachesys s.
Proof. done. Qed.

Lemma the_cache_eval s c C : caches s !! c = Some C -> the_cache c s = Ok (C, s).
Proof. unfold the_cache. by intros ->. Qed.

Lemma the_cache_inv s c C s' :
  the_cache c s = Ok (C, s') -> caches s !! c = Some C /\ s' = s.
Proof. unfold the_cache. destruct (caches s !! c); naive_solver. Qed.

Lemma modify_cache_eval s c C f :
  caches s !! c = Some C -> modify_cache c f s = Ok (tt, put_cache s c (f C)).
Proof. unfold modify_cache. by intros ->. Qed.

Lemma modify_cache_inv s c f u s' :
  modify_cache c f s = Ok (u, s') ->
  exists C, caches s !! c = Some C /\ s' = put_cache s c (f C).
Proof. unfold modify_cache. destruct (caches s !! c); naive_solver. Qed.

Lemma count_eval s c C k :
  caches s !! c = Some C -> count c k s = Ok (tt, put_cache s c (Cache.count k C)).
Proof. apply modify_cache_eval. Qed.

Lemma lines_at_ensure_set idx C i :
  Cache.lines_at (ensure_set idx C) i = Cache.lines_at C i.
Proof.
  unfold ensure_set. destruct (Cache.cache_lines C !! idx) eqn:H; [done|].
  unfold Cache.lines_at. simpl. destruct (decide (idx = i)) as [->|Hne].
  - by rewrite lookup_insert_eq, H.
  - by rewrite lookup_insert_ne.
Qed.

Lemma get_lines_eval s c C a :
  caches s !! c = Some C ->
  get_lines c a s =
  Ok (Cache.get_index C a, put_cache s c (ensure_set (Cache.get_index C a) C)).
Proof.
  intros H. unfold get_lines. rewrite (bind_eval _ _ _ _ _ (the_cache_eval _ _ _ H)).
  unfold ensure_set. destruct (Cache.cache_lines C !! Cache.get_index C a).
  - by rewrite put_cache_id.
  - by rewrite (bind_eval _ _ _ _ _ (modify_cache_eval _ _ _ _ H)).
Qed.

Lemma lines_of_eval s c C idx :
  caches s !! c = Some C -> lines_of c idx s = Ok (Cache.lines_at C idx, s).
Proof.
  intros H. unfold lines_of. by rewrite (bind_eval _ _ _ _ _ (the_cache_eval _ _ _ H)).
Qed.

Lemma push_back_eval s c C idx l :
  caches s !! c = Some C ->
  push_back c idx l s =
  Ok ((idx, Cache.next_node C),
      put_cache s c (Cache.with_next (S (Cache.next_node C))
        (set_lines idx (Cache.lines_at C idx ++ [mkNode (Cache.next_node C) l]) C))).
Proof.
  intros H. unfold push_back.
  rewrite (bind_eval _ _ _ _ _ (the_cache_eval _ _ _ H)).
  by rewrite (bind_eval _ _ _ _ _ (modify_cache_eval _ _ _ _ H)).
Qed.

Lemma erase_eval s c C idx i :
  caches s !! c = Some C ->
  erase c idx i s =
  Ok (tt, put_cache s c (set_lines idx (erase_node i (Cache.lines_at C idx)) C)).
Proof. intros H. unfold erase. by rewrite (modify_cache_eval _ _ _ _ H). Qed.

Lemma deref_eval s c C h n :
  caches s !! c = Some C -> find_node h.2 (Cache.lines_at C h.1) = Some n ->
  deref c h s = Ok (line n, s).
Proof.
  intros H Hn. unfold deref.
  rewrite (bind_eval _ _ _ _ _ (the_cache_eval _ _ _ H)). by rewrite Hn.
Qed.

Lemma deref_inv s c h l s' :
  deref c h s = Ok (l, s') ->
  s' = s /\ exists C n, caches s !! c = Some C /\
    find_node h.2 (Cache.lines_at C h.1) = Some n /\ l = line n.
Proof.
  unfold deref. intros H. apply bind_inv in H as (C & s1 & H1 & H2).
  apply the_cache_inv in H1 as [HC ->].
  destruct (find_node h.2 (Cache.lines_at C h.1)) eqn:Hn; [|done].
  inversion H2; subst. eauto 10.
Qed.

Lemma assign_eval s c C h n f :
  caches s !! c = Some C -> find_node h.2 (Cache.lines_at C h.1) = Some n ->
  assign c h f s =
  Ok (tt, put_cache s c (set_lines h.1 (update_node h.2 f (Cache.lines_at C h.1)) C)).
Proof.
  intros H Hn. unfold assign.
  rewrite (bind_eval _ _ _ _ _ (deref_eval _ _ _ _ _ H Hn)).
  by rewrite (modify_cache_eval _ _ _ _ H).
Qed.

Lemma lines_at_set_lines idx l C :
  Cache.lines_at (set_lines idx l C) idx = l.
Proof. unfold Cache.lines_at, set_lines. simpl. by rewrite lookup_insert_eq. Qed.

Lemma lines_at_set_lines_ne idx idx' l C :
  idx ≠ idx' -> Cache.lines_at (set_lines idx l C) idx' = Cache.lines_at C idx'.
Proof.
  intros. unfold Cache.lines_at, set_lines. simpl. by rewrite lookup_insert_ne.
Qed.

(* ===================================================================== *)
(** * Searches, erasures and assignments, by the place of the element *)
(* ===================================================================== *)

Lemma find_tag_split tg pre l post :
  Forall (fun n => Line.tag (line n) <> tg) pre -> Line.tag (line l) = tg ->
  find_tag tg (pre ++ l :: post) = Some l.
Proof.
  unfold find_tag. intros Hpre Hl. induction Hpre as [|n pre Hn _ IH]; simpl.
  - by rewrite (proj2 (Z.eqb_eq _ _) Hl).
  - by rewrite (proj2 (Z.eqb_neq _ _) Hn).
Qed.

Lemma find_tag_absent tg lines :
  Forall (fun n => Line.tag (line n) <> tg) lines -> find_tag tg lines = None.
Proof.
  unfold find_tag. intros H. induction H as [|n l Hn _ IH]; simpl; [done|].
  by rewrite (proj2 (Z.eqb_neq _ _) Hn).
Qed.

Lemma find_node_split i pre n post :
  Forall (fun m => node_id m <> i) pre -> node_id n = i ->
  find_node i (pre ++ n :: post) = Some n.
Proof.
  unfold find_node. intros Hpre Hn. induction Hpre as [|m pre Hm _ IH]; simpl.
  - by rewrite (proj2 (Nat.eqb_eq _ _) Hn).
  - by rewrite (proj2 (Nat.eqb_neq _ _) Hm).
Qed.

Lemma erase_node_split i pre n post :
  Forall (fun m => node_id m <> i) pre -> node_id n = i ->
  erase_node i (pre ++ n :: post) = pre ++ post.
Proof.
  intros Hpre Hn. induction Hpre as [|m pre Hm _ IH]; simpl.
  - by rewrite (proj2 (Nat.eqb_eq _ _) Hn).
  - by rewrite (proj2 (Nat.eqb_neq _ _) Hm), IH.
Qed.

Lemma update_node_split i f pre n post :
  Forall (fun m => node_id m <> i) pre -> node_id n = i ->
  update_node i f (pre ++ n :: post) = pre ++ mkNode i (f (line n)) :: post.
Proof.
  intros Hpre Hn. induction Hpre as [|m pre Hm _ IH]; simpl.
  - by rewrite (proj2 (Nat.eqb_eq _ _) Hn), Hn.
  - by rewrite (proj2 (Nat.eqb_neq _ _) Hm), IH.
Qed.

Lemma find_mshr_split C a before e after :
  Cache.mshr_entries C = before ++ e :: after ->
  Forall (fun e' : Z * Handle => Cache.align C e'.1 <> Cache.align C a) before ->
  Cache.align C e.1 = Cache.align C a ->
  find_mshr C a = Some (length before, e).
Proof.
  unfold find_mshr. intros -> Hpre He. apply list_find_Some. split_and!.
  - by rewrite lookup_app_r, Nat.sub_diag.
  - done.
  - intros j y Hy Hj. rewrite lookup_app_l in Hy by done.
    rewrite Forall_forall in Hpre. apply Hpre. by eapply list_elem_of_lookup_2.
Qed.

Lemma find_mshr_absent C a :
  Forall (fun e : Z * Handle => Cache.align C e.1 <> Cache.align C a)
    (Cache.mshr_entries C) ->
  find_mshr C a = None.
Proof. unfold find_mshr. intros H. by apply list_find_None. Qed.

Lemma find_node_absent i lines :
  Forall (fun m => node_id m <> i) lines -> find_node i lines = None.
Proof.
  unfold find_node. intros H. induction H as [|m l Hm _ IH]; simpl; [done|].
  by rewrite (proj2 (Nat.eqb_neq _ _) Hm).
Qed.

Lemma delete_split {A} (before : list A) e after :
  delete (length before) (before ++ e :: after) = before ++ after.
Proof. induction before as [|x before IH]; simpl; [done|]. by rewrite IH. Qed.

(* ===================================================================== *)
(** * [Cache::invalidate] on a block that is not resident *)
(* ===================================================================== *)

Section InvalidateFacts.

Variable latency : CacheLevel -> Z.
Variable latency_each : CacheLevel -> Z.

Lemma size_zero {A} (l : list A) : (size_ l =? 0) = bool_decide (l = []).
Proof.
  unfold size_. destruct l as [|x l].
  - reflexivity.
  - rewrite (bool_decide_false (x :: l = [])) by discriminate. reflexivity.
Qed.

(** C4 (as amended): when the block is not resident, [invalidate] returns
    without erasing a line: [(0, false)] if the set is missing or empty,
    [(latency_each[level], false)] if the set holds other blocks only;
    the store is left as it was but for the set, created empty if it was
    missing. *)
Theorem invalidate_absent (fuel : nat) (s : Sys) (c : nat) (C : Cache.t) (a : Z) :
  caches s !! c = Some C ->
  find_tag (Cache.get_tag C a) (Cache.lines_at C (Cache.get_index C a)) = None ->
  invalidate latency_each (S fuel) c a s =
    Ok ((if bool_decide (Cache.lines_at C (Cache.get_index C a) = [])
         then 0 else latency_each (Cache.level (Cache.cfg C)), false),
        put_cache s c (ensure_set (Cache.get_index C a) C)) /\
  forall idx,
    Cache.lines_at (ensure_set (Cache.get_index C a) C) idx = Cache.lines_at C idx.
Proof.
  intros HC Hnone. split; [|intros; apply lines_at_ensure_set].
  simpl.
  rewrite (bind_eval _ _ _ _ _ (the_cache_eval _ _ _ HC)).
  rewrite (bind_eval _ _ _ _ _ (get_lines_eval _ _ _ a HC)).
  erewrite (bind_eval (lines_of _ _)).
  2:{ apply lines_of_eval. by eapply put_cache_lookup. }
  rewrite lines_at_ensure_set, size_zero.
  case_bool_decide; [done|]. by rewrite Hnone.
Qed.

End InvalidateFacts.

(** C4, witnessed on the lone last-level cache with block 0 in its set:
    block 128 shares the set and is not resident. *)
Lemma invalidate_absent_witness :
  caches Scenario.one_read !! 0%nat = Some (Scenario.cache_at 0 Scenario.one_read) /\
  find_tag (Cache.get_tag (Scenario.cache_at 0 Scenario.one_read) 128)
    (Cache.lines_at (Scenario.cache_at 0 Scenario.one_read)
       (Cache.get_index (Scenario.cache_at 0 Scenario.one_read) 128)) = None /\
  invalidate Scenario.latency_each 1 0 128 Scenario.one_read =
    Ok ((if bool_decide
              (Cache.lines_at (Scenario.cache_at 0 Scenario.one_read)
                 (Cache.get_index (Scenario.cache_at 0 Scenario.one_read) 128) = [])
         then 0
         else Scenario.latency_each
                (Cache.level (Cache.cfg (Scenario.cache_at 0 Scenario.one_read))),
         false),
        put_cache Scenario.one_read 0
          (ensure_set (Cache.get_index (Scenario.cache_at 0 Scenario.one_read) 128)
             (Scenario.cache_at 0 Scenario.one_read))).
Proof.
  assert (HC : caches Scenario.one_read !! 0%nat
                 = Some (Scenario.cache_at 0 Scenario.one_read))
    by (vm_compute; reflexivity).
  assert (Hnone :
    find_tag (Cache.get_tag (Scenario.cache_at 0 Scenario.one_read) 128)
      (Cache.lines_at (Scenario.cache_at 0 Scenario.one_read)
         (Cache.get_index (Scenario.cache_at 0 Scenario.one_read) 128)) = None)
    by (vm_compute; reflexivity).
  split; [exact HC|]. split; [exact Hnone|].
  destruct (invalidate_absent Scenario.latency_each 0 Scenario.one_read 0
              (Scenario.cache_at 0 Scenario.one_read) 128 HC Hnone) as [Hret _].
  exact Hret.
Defined.

Example invalidate_other_block :
  value_of (invalidate Scenario.latency_each 1 0 128 Scenario.one_read)
  = Some (40, false).
Proof. vm_compute; reflexivity. Qed.

(** C4, refuted as stated: block 0 is not resident in the fresh cache,
    whose set for it does not exist yet, and the call returns delay 0,
    while [latency_each[level]] is 40. *)
Lemma invalidate_absent_empty_set :
  find_tag (Cache.get_tag Scenario.llc 0)
    (Cache.lines_at Scenario.llc (Cache.get_index Scenario.llc 0)) = None /\
  value_of (invalidate Scenario.latency_each 1 0 0 Scenario.single) = Some (0, false) /\
  Scenario.latency_each (Cache.level (Cache.cfg Scenario.llc)) = 40.
Proof. split_and!; vm_compute; reflexivity. Qed.


(* ===================================================================== *)
(** * [Cache::send] *)
(* ===================================================================== *)

Lemma cfg_ensure_set idx C : Cache.cfg (ensure_set idx C) = Cache.cfg C.
Proof. unfold ensure_set. by destruct (Cache.cache_lines C !! idx). Qed.

Lemma mshr_ensure_set idx C :
  Cache.mshr_entries (ensure_set idx C) = Cache.mshr_entries C.
Proof. unfold ensure_set. by destruct (Cache.cache_lines C !! idx). Qed.

Lemma stats_ensure_set idx C k :
  Cache.stats (ensure_set idx C) k = Cache.stats C k.
Proof. unfold ensure_set. by destruct (Cache.cache_lines C !! idx). Qed.

Lemma next_node_ensure_set idx C :
  Cache.next_node (ensure_set idx C) = Cache.next_node C.
Proof. unfold ensure_set. by destruct (Cache.cache_lines C !! idx). Qed.

Lemma push_wait_eval e s :
  push_wait e s =
  Ok (tt, mkSys (CacheSystem.mk (CacheSystem.clk (cachesys s))
                   (CacheSystem.hit_list (cachesys s))
                   (CacheSystem.wait_list (cachesys s) ++ [e])) (caches s)).
Proof. done. Qed.

Lemma push_hit_eval e s :
  push_hit e s =
  Ok (tt, mkSys (CacheSystem.mk (CacheSystem.clk (cachesys s))
                   (CacheSystem.hit_list (cachesys s) ++ [e])
                   (CacheSystem.wait_list (cachesys s))) (caches s)).
Proof. done. Qed.

Lemma get_sys_eval s : get_sys s = Ok (s, s).
Proof. done. Qed.

Lemma bind_assoc_eval {A B D} (m : M A) (f : A -> M B) (g : B -> M D) s :
  ((m ≫= f) ≫= g) s = (m ≫= (fun a => f a ≫= g)) s.
Proof. unfold mbind, M_bind. by destruct (m s) as [[a s']|e]. Qed.

Lemma stats_count k C k' :
  Cache.stats (Cache.count k C) k' =
  if decide (k' = k) then Cache.stats C k' + 1 else Cache.stats C k'.
Proof. destruct C as [g m e r n [? ? ? ? ? ? ? ? ? ?]]. by destruct k, k'. Qed.

Lemma the_clk_eval s : the_clk s = Ok (CacheSystem.clk (cachesys s), s).
Proof. done. Qed.

Lemma same_contents_count k C C' :
  same_contents C C' -> same_contents C (Cache.count k C').
Proof. done. Qed.

Lemma same_contents_ensure_set idx C C' :
  same_contents C C' -> same_contents C (ensure_set idx C').
Proof.
  intros (H1 & H2 & H3). split; [by rewrite cfg_ensure_set|].
  split; [by rewrite mshr_ensure_set|].
  intros i. by rewrite lines_at_ensure_set.
Qed.

Lemma same_contents_refl C : same_contents C C.
Proof. done. Qed.

Lemma check_unlock_put_cache s c C C' hc a :
  caches s !! c = Some C -> same_contents C C' ->
  check_unlock (put_cache s c C') hc a = check_unlock s hc a.
Proof.
  intros HC (H1 & _ & H3). unfold check_unlock.
  destruct (decide (c = hc)) as [<-|Hne].
  - rewrite (put_cache_lookup _ _ _ _ HC), HC.
    unfold Cache.get_tag, Cache.get_index. by rewrite H3, H1.
  - by rewrite put_cache_lookup_ne.
Qed.

Lemma victim_ok_put_cache s c C C' D D' n :
  caches s !! c = Some C -> same_contents C C' -> Cache.cfg D' = Cache.cfg D ->
  victim_ok (put_cache s c C') D' n = victim_ok s D n.
Proof.
  intros HC HCC HD. unfold victim_ok. rewrite HD.
  destruct (negb _); [|done].
  generalize (negb (Line.lock (line n))).
  induction (Cache.higher_cache (Cache.cfg D)) as [|hc hcs IH]; intros b; simpl; [done|].
  by rewrite (check_unlock_put_cache _ _ _ _ _ _ HC HCC), IH.
Qed.

Lemma find_victim_put_cache s c C C' D D' lines :
  caches s !! c = Some C -> same_contents C C' -> Cache.cfg D' = Cache.cfg D ->
  find_victim (put_cache s c C') D' lines = find_victim s D lines.
Proof.
  intros HC HCC HD. unfold find_victim.
  induction lines as [|n lines IH]; simpl; [done|].
  by rewrite (victim_ok_put_cache _ _ _ _ _ _ _ HC HCC HD), IH.
Qed.

Section SendFacts.

Variable latency : CacheLevel -> Z.
Variable latency_each : CacheLevel -> Z.

Local Abbreviation send := (send latency latency_each).
Local Abbreviation send_miss := (send_miss latency latency_each).
Local Abbreviation allocate_line := (allocate_line latency latency_each).
Local Abbreviation evict := (evict latency latency_each).

Lemma same_contents_touched C req : same_contents C (touched C req).
Proof.
  unfold touched. apply same_contents_ensure_set.
  by do 2 apply same_contents_count.
Qed.

Lemma same_contents_missed C req : same_contents C (missed C req).
Proof.
  unfold missed. do 2 apply same_contents_count. apply same_contents_touched.
Qed.

Lemma send_unfold fuel s c C req :
  caches s !! c = Some C ->
  send (S fuel) c req s =
  match is_hit C (set_of C req) (Request.addr req) with
  | (true, Some l) =>
      send_hit latency c C (Cache.get_index C (Request.addr req)) l req
        (put_cache s c (touched C req))
  | _ =>
      send_miss fuel (send fuel) c (Cache.get_index C (Request.addr req))
        (set_of C req) (is_write req) (Request.with_type req Request.READ)
        (put_cache s c (missed C req))
  end.
Proof.
  intros HC. simpl.
  rewrite (bind_eval _ _ _ _ _ (the_cache_eval _ _ _ HC)).
  rewrite (bind_eval _ _ _ _ _ (count_eval _ _ _ _ HC)).
  erewrite (bind_eval (count _ _)).
  2:{ apply count_eval. by eapply put_cache_lookup. }
  rewrite put_cache_put_cache.
  erewrite (bind_eval (get_lines _ _)).
  2:{ apply get_lines_eval. by eapply put_cache_lookup. }
  rewrite put_cache_put_cache.
  erewrite (bind_eval (lines_of _ _)).
  2:{ apply lines_of_eval. by eapply put_cache_lookup. }
  rewrite lines_at_ensure_set.
  change (Cache.lines_at (Cache.count _ (Cache.count _ C)) ?i)
    with (Cache.lines_at C i).
  change (Cache.get_index (Cache.count _ (Cache.count _ C)) ?a)
    with (Cache.get_index C a).
  fold (touched C req). fold (set_of C req).
  assert (Hmiss :
    (count c cache_total_miss;;
     count c (if is_write req then cache_write_miss else cache_read_miss);;
     send_miss fuel (send fuel) c (Cache.get_index C (Request.addr req))
       (set_of C req) (is_write req) (Request.with_type req Request.READ))
      (put_cache s c (touched C req)) =
    send_miss fuel (send fuel) c (Cache.get_index C (Request.addr req))
      (set_of C req) (is_write req) (Request.with_type req Request.READ)
      (put_cache s c (missed C req))).
  { erewrite (bind_eval (count _ _)).
    2:{ apply count_eval. by eapply put_cache_lookup. }
    rewrite put_cache_put_cache.
    erewrite (bind_eval (count _ _)).
    2:{ apply count_eval. by eapply put_cache_lookup. }
    by rewrite put_cache_put_cache. }
  destruct (is_hit C (set_of C req) (Request.addr req)) as [[|] [l|]]; done.
Qed.


Lemma is_hit_cases C lines a :
  (exists l, is_hit C lines a = (true, Some l) /\
             find_tag (Cache.get_tag C a) lines = Some l /\
             Line.lock (line l) = false) \/
  ((is_hit C lines a).1 = false /\
   forall l, is_hit C lines a <> (true, Some l)).
Proof.
  unfold is_hit. destruct (find_tag _ _) as [l|]; [|by right].
  destruct (Line.lock (line l)) eqn:Hl; simpl.
  - by right.
  - left. eauto.
Qed.

Lemma send_hit_eval s c C0 C idx l req :
  caches s !! c = Some C ->
  exists s', send_hit latency c C0 idx l req s = Ok (true, s').
Proof.
  intros HC. unfold send_hit.
  rewrite (bind_eval _ _ _ _ _ (push_back_eval _ _ _ _ _ HC)).
  erewrite (bind_eval (erase _ _ _)).
  2:{ apply erase_eval. by eapply put_cache_lookup. }
  rewrite (bind_eval _ _ _ _ _ (the_clk_eval _)).
  rewrite (bind_eval _ _ _ _ _ (push_hit_eval _ _)).
  eauto.
Qed.

Lemma find_node_elem v lines :
  v ∈ lines -> is_Some (find_node (node_id v) lines).
Proof.
  unfold find_node. induction lines as [|n lines IH]; intros Hin.
  - by apply elem_of_nil in Hin.
  - simpl. destruct (Nat.eqb_spec (node_id n) (node_id v)); [eauto|].
    apply IH. apply elem_of_cons in Hin as [->|]; done.
Qed.

Lemma find_node_app_new lines i l :
  is_Some (find_node i (lines ++ [mkNode i l])).
Proof.
  unfold find_node. induction lines as [|n lines IH]; simpl.
  - rewrite Nat.eqb_refl. eauto.
  - destruct (Nat.eqb (node_id n) i); eauto.
Qed.

(** [evict] on a last-level cache with nothing above it. *)
Lemma evict_lone fuel s c C idx victim v :
  caches s !! c = Some C ->
  Cache.higher_cache (Cache.cfg C) = [] ->
  Cache.is_last_level (Cache.cfg C) = true ->
  find_node victim (Cache.lines_at C idx) = Some v ->
  evict fuel c idx victim s =
  Ok (tt, put_cache
            (mkSys (CacheSystem.mk (CacheSystem.clk (cachesys s))
                      (CacheSystem.hit_list (cachesys s))
                      (CacheSystem.wait_list (cachesys s) ++
                       if Line.dirty (line v)
                       then [(CacheSystem.clk (cachesys s) + 0 +
                                latency (Cache.level (Cache.cfg C)),
                              Request.new (Line.addr (line v)) Request.WRITE)]
                       else []))
                   (caches s))
            c (set_lines idx (erase_node victim (Cache.lines_at C idx))
                 (Cache.count cache_eviction C))).
Proof.
  intros HC Hh Hl Hv. unfold evict.
  rewrite (bind_eval _ _ _ _ _ (the_cache_eval _ _ _ HC)).
  rewrite (bind_eval _ _ _ _ _ (count_eval _ _ _ _ HC)).
  erewrite (bind_eval (deref _ _)).
  2:{ eapply deref_eval; [by eapply put_cache_lookup|exact Hv]. }
  unfold evict_invalidate. rewrite Hh. simpl foldM.
  rewrite (bind_eval _ _ _ _ _ (ret_eval _ _)). rewrite Hl. simpl negb. cbv iota.
  destruct (Line.dirty (line v)) eqn:Hd.
  - erewrite (bind_eval (the_clk ≫= _)).
    2:{ rewrite (bind_eval _ _ _ _ _ (the_clk_eval _)). apply push_wait_eval. }
    erewrite erase_eval; [|simpl; apply list_lookup_insert_eq; by eapply lookup_lt_Some].
    unfold put_cache. simpl. by rewrite list_insert_insert_eq.
  - rewrite (bind_eval _ _ _ _ _ (ret_eval _ _)).
    erewrite erase_eval; [|by eapply put_cache_lookup].
    rewrite put_cache_put_cache. unfold put_cache. simpl.
    rewrite app_nil_r. by destruct s as [[]].
Qed.

Lemma allocate_line_result fuel s c C idx a nl s' :
  caches s !! c = Some C ->
  allocate_line fuel c idx a s = Ok (nl, s') ->
  (nl = None <->
   (size_ (Cache.lines_at C idx) <? Cache.assoc (Cache.cfg C)) = false /\
   find_victim s C (Cache.lines_at C idx) = None) /\
  (forall h, nl = Some h ->
     exists C', caches s' !! c = Some C' /\
                is_Some (find_node h.2 (Cache.lines_at C' h.1))).
Proof.
  intros HC. unfold allocate_line.
  rewrite (bind_eval _ _ _ _ _ (the_cache_eval _ _ _ HC)).
  rewrite (bind_eval _ _ _ _ _ (lines_of_eval _ _ _ _ HC)).
  unfold need_eviction. destruct (find_tag _ _); [done|].
  rewrite (bind_eval _ _ _ _ _ (ret_eval _ _)).
  assert (Hpush : forall s1 s2 nl,
    (h ← push_back c idx (Line.new a (Cache.get_tag C a)); mret (Some h)) s1
      = Ok (nl, s2) ->
    exists h, nl = Some h /\
      exists C', caches s2 !! c = Some C' /\
                 is_Some (find_node h.2 (Cache.lines_at C' h.1))).
  { intros s1 s2 nl0 H. apply bind_inv in H as (h & s3 & H1 & H2).
    inversion H2; subst. exists h. split; [done|].
    unfold push_back in H1. apply bind_inv in H1 as (C1 & s4 & H3 & H4).
    apply the_cache_inv in H3 as [HC1 ->].
    rewrite (bind_eval _ _ _ _ _ (modify_cache_eval _ _ _ _ HC1)) in H4.
    inversion H4; subst. eexists. split; [by eapply put_cache_lookup|].
    cbn [fst snd].
    change (Cache.lines_at (Cache.with_next ?n ?X) ?i) with (Cache.lines_at X i).
    rewrite lines_at_set_lines. apply find_node_app_new. }
  destruct (size_ (Cache.lines_at C idx) <? Cache.assoc (Cache.cfg C)); simpl negb; cbv iota.
  - rewrite (bind_eval _ _ _ _ _ (ret_eval _ _)). intros H.
    apply Hpush in H as (h & -> & H). split; [split; [done|by intros []]|].
    by intros h' [= <-].
  - rewrite bind_assoc_eval, (bind_eval _ _ _ _ _ (get_sys_eval s)).
    destruct (find_victim s C (Cache.lines_at C idx)) as [v|].
    + intros H. apply bind_inv in H as (go & s1 & H1 & H2).
      apply bind_inv in H1 as (u & s2 & _ & H1). inversion H1; subst.
      apply Hpush in H2 as (h & -> & H). split; [split; [done|by intros []]|].
      by intros h' [= <-].
    + rewrite (bind_eval _ _ _ _ _ (ret_eval _ _)). intros [= <- <-].
      split; [done|]. done.
Qed.

(** [allocate_line] on a last-level cache with nothing above it always
    returns. *)
Lemma allocate_line_lone fuel s c C idx a :
  caches s !! c = Some C ->
  Cache.higher_cache (Cache.cfg C) = [] ->
  Cache.is_last_level (Cache.cfg C) = true ->
  find_tag (Cache.get_tag C a) (Cache.lines_at C idx) = None ->
  exists nl s', allocate_line fuel c idx a s = Ok (nl, s').
Proof.
  intros HC Hh Hl Ht. unfold allocate_line.
  rewrite (bind_eval _ _ _ _ _ (the_cache_eval _ _ _ HC)).
  rewrite (bind_eval _ _ _ _ _ (lines_of_eval _ _ _ _ HC)).
  unfold need_eviction. rewrite Ht.
  rewrite (bind_eval _ _ _ _ _ (ret_eval _ _)).
  destruct (size_ (Cache.lines_at C idx) <? Cache.assoc (Cache.cfg C)); simpl negb; cbv iota.
  - rewrite (bind_eval _ _ _ _ _ (ret_eval _ _)).
    rewrite (bind_eval _ _ _ _ _ (push_back_eval _ _ _ _ _ HC)). eauto.
  - rewrite bind_assoc_eval, (bind_eval _ _ _ _ _ (get_sys_eval s)).
    destruct (find_victim s C (Cache.lines_at C idx)) as [v|] eqn:Hv.
    + apply find_some in Hv as [Hin _]. apply list_elem_of_In in Hin.
      destruct (find_node_elem _ _ Hin) as [v' Hv'].
      erewrite (bind_eval (_ ≫= _)).
      2:{ rewrite (bind_eval _ _ _ _ _ (evict_lone fuel _ _ _ _ _ _ HC Hh Hl Hv')).
          apply ret_eval. }
      cbv beta iota.
      erewrite (bind_eval (push_back _ _ _)).
      2:{ apply push_back_eval. simpl. apply list_lookup_insert_eq.
          by eapply lookup_lt_Some. }
      eauto.
    + rewrite (bind_eval _ _ _ _ _ (ret_eval _ _)). eauto.
Qed.


Lemma hit_mshr_same C C' a :
  same_contents C C' -> hit_mshr C' a = hit_mshr C a.
Proof.
  intros (H1 & H2 & _). unfold hit_mshr, find_mshr, Cache.align. by rewrite H1, H2.
Qed.

Lemma stats_missed C req k :
  k = cache_mshr_unavailable \/ k = cache_set_unavailable ->
  Cache.stats (missed C req) k = Cache.stats C k.
Proof.
  intros Hk. unfold missed, touched.
  rewrite !stats_count, stats_ensure_set, !stats_count.
  destruct Hk as [-> | ->], (is_write req); reflexivity.
Qed.

(** What the miss branch returns, read off the cache it starts from. *)
Lemma send_miss_result fuel sl s c C idx dirty req b s' :
  caches s !! c = Some C ->
  send_miss fuel sl c idx (Cache.lines_at C idx) dirty req s = Ok (b, s') ->
  (b = false <->
   hit_mshr C (Request.addr req) = None /\
   (mshr_full C = true \/
    all_sets_locked C (Cache.lines_at C idx) = true \/
    ((size_ (Cache.lines_at C idx) <? Cache.assoc (Cache.cfg C)) = false /\
     find_victim s C (Cache.lines_at C idx) = None))).
Proof.
  intros HC. unfold send_miss.
  rewrite (bind_eval _ _ _ _ _ (the_cache_eval _ _ _ HC)).
  destruct (hit_mshr C (Request.addr req)) as [[i [a h]]|] eqn:Hm.
  - intros H. apply bind_inv in H as (u & s1 & _ & H).
    apply bind_inv in H as (u' & s2 & _ & H). inversion H; subst.
    split; [done|]. by intros [? _].
  - unfold mshr_full.
    destruct (size_ (Cache.mshr_entries C) =? Cache.mshr_entry_num (Cache.cfg C)).
    { intros H. apply bind_inv in H as (u & s1 & _ & H). inversion H; subst.
      split; [|done]. intros _. split; [done|by left]. }
    destruct (all_sets_locked C (Cache.lines_at C idx)).
    { intros H. apply bind_inv in H as (u & s1 & _ & H). inversion H; subst.
      split; [|done]. intros _. split; [done|]. right. by left. }
    intros H. apply bind_inv in H as (nl & s1 & Hal & H).
    destruct (allocate_line_result _ _ _ _ _ _ _ _ HC Hal) as [Hnone _].
    destruct nl as [h|].
    + apply bind_inv in H as (u & s2 & _ & H).
      apply bind_inv in H as (u' & s3 & _ & H).
      apply bind_inv in H as (u'' & s4 & _ & H). inversion H; subst.
      split; [done|]. intros [_ [?|[?|Hv]]]; try done.
      apply Hnone in Hv. done.
    + inversion H; subst. split; [|done]. intros _. split; [done|].
      do 2 right. by apply Hnone.
Qed.

(** [send] by the tests the code runs. *)
Lemma send_cases (fuel : nat) (s : Sys) (c : nat) (C : Cache.t)
    (req : Request.t) :
  caches s !! c = Some C ->
  (forall b s', send (S fuel) c req s = Ok (b, s') ->
     (b = false <-> refuses s C req = true)) /\
  (hits C req = true -> exists s', send (S fuel) c req s = Ok (true, s')) /\
  (hits C req = false ->
   forall i a h, hit_mshr C (Request.addr req) = Some (i, (a, h)) ->
     is_Some (find_node h.2 (Cache.lines_at C h.1)) ->
     exists s', send (S fuel) c req s = Ok (true, s')) /\
  (hits C req = false -> in_mshr C req = false -> mshr_full C = true ->
   exists s' C',
     send (S fuel) c req s = Ok (false, s') /\ caches s' !! c = Some C' /\
     Cache.stats C' cache_mshr_unavailable =
       Cache.stats C cache_mshr_unavailable + 1 /\
     Cache.stats C' cache_set_unavailable =
       Cache.stats C cache_set_unavailable) /\
  (hits C req = false -> in_mshr C req = false -> mshr_full C = false ->
   set_locked_out C req = true ->
   exists s' C',
     send (S fuel) c req s = Ok (false, s') /\ caches s' !! c = Some C' /\
     Cache.stats C' cache_set_unavailable =
       Cache.stats C cache_set_unavailable + 1 /\
     Cache.stats C' cache_mshr_unavailable =
       Cache.stats C cache_mshr_unavailable) /\
  (Cache.higher_cache (Cache.cfg C) = [] ->
   Cache.is_last_level (Cache.cfg C) = true ->
   in_mshr C req = false ->
   find_tag (Cache.get_tag C (Request.addr req)) (set_of C req) = None ->
   exists s', send (S fuel) c req s = Ok (negb (refuses s C req), s')).
Proof.
  intros HC.
  pose proof (same_contents_missed C req) as Hsame.
  pose proof (put_cache_lookup s c C (missed C req) HC) as HC5.
  assert (Hset : set_of C req =
            Cache.lines_at (missed C req) (Cache.get_index C (Request.addr req))).
  { unfold set_of. symmetry. apply Hsame. }
  assert (Hmshr : hit_mshr (missed C req) (Request.addr req) =
                  hit_mshr C (Request.addr req)) by by apply hit_mshr_same.
  assert (Hfull : mshr_full (missed C req) = mshr_full C).
  { unfold mshr_full. destruct Hsame as (-> & -> & _). done. }
  assert (Hlock : forall l, all_sets_locked (missed C req) l = all_sets_locked C l).
  { intros l. unfold all_sets_locked. destruct Hsame as (-> & _). done. }
  assert (Hassoc : Cache.assoc (Cache.cfg (missed C req)) = Cache.assoc (Cache.cfg C)).
  { destruct Hsame as (-> & _). done. }
  assert (Hvict : forall l, find_victim (put_cache s c (missed C req)) (missed C req) l
                            = find_victim s C l).
  { intros l. apply (find_victim_put_cache _ _ _ _ _ _ _ HC Hsame). apply Hsame. }
  assert (Hin : in_mshr C req = false -> hit_mshr C (Request.addr req) = None).
  { unfold in_mshr. intros H. apply bool_decide_eq_false in H.
    destruct (hit_mshr C (Request.addr req)); [|done]. destruct H. eauto. }
  rewrite (send_unfold fuel s c C req HC).
  destruct (is_hit_cases C (set_of C req) (Request.addr req))
    as [(l & Hh & Ht & Hl)|[Hh Hne]].
  - (* a hit *)
    assert (Hhits : hits C req = true) by (unfold hits; by rewrite Hh).
    rewrite Hh.
    destruct (send_hit_eval (put_cache s c (touched C req)) c C _
                (Cache.get_index C (Request.addr req)) l req
                (put_cache_lookup s c C _ HC)) as [s1 Hs1].
    rewrite Hs1.
    split; [|split; [|split; [|split; [|split]]]]; try congruence; eauto.
    + intros b s' [= <- <-]. unfold refuses. rewrite Hhits. done.
  - (* a miss *)
    assert (Hhits : hits C req = false) by done.
    assert (Hgo : forall X : result (bool * Sys),
      match is_hit C (set_of C req) (Request.addr req) with
      | (true, Some l) =>
          send_hit latency c C (Cache.get_index C (Request.addr req)) l req
            (put_cache s c (touched C req))
      | _ => X
      end = X).
    { intros X. destruct (is_hit C (set_of C req) (Request.addr req)) as [[|] [l|]] eqn:E;
        try done. }
    rewrite Hgo. clear Hgo. rewrite Hset.
    assert (Hiff : forall b s',
      send_miss fuel (send fuel) c (Cache.get_index C (Request.addr req))
        (Cache.lines_at (missed C req) (Cache.get_index C (Request.addr req)))
        (is_write req) (Request.with_type req Request.READ)
        (put_cache s c (missed C req)) = Ok (b, s') ->
      (b = false <-> refuses s C req = true)).
    { intros b s' H. apply (send_miss_result _ _ _ _ _ _ _ _ _ _ HC5) in H.
      rewrite H. clear H. simpl Request.addr.
      rewrite Hmshr, Hfull, Hlock, Hassoc, Hvict, <- Hset.
      unfold refuses, in_mshr, set_locked_out, no_victim. rewrite Hhits. simpl.
      destruct (hit_mshr C (Request.addr req)) as [e|] eqn:Hm.
      - rewrite bool_decide_true by eauto. simpl. split; [by intros [? _]|done].
      - rewrite bool_decide_false by (by intros [? ?]). simpl.
        rewrite !orb_true_iff, andb_true_iff, negb_true_iff, bool_decide_eq_true.
        tauto. }
    split; [exact Hiff|].
    split; [by rewrite Hhits|].
    assert (Hlone :
      Cache.higher_cache (Cache.cfg C) = [] ->
      Cache.is_last_level (Cache.cfg C) = true ->
      in_mshr C req = false ->
      find_tag (Cache.get_tag C (Request.addr req))
        (Cache.lines_at (missed C req) (Cache.get_index C (Request.addr req))) = None ->
      exists s',
        send_miss fuel (send fuel) c (Cache.get_index C (Request.addr req))
          (Cache.lines_at (missed C req) (Cache.get_index C (Request.addr req)))
          (is_write req) (Request.with_type req Request.READ)
          (put_cache s c (missed C req)) = Ok (negb (refuses s C req), s')).
    { (* a lone last-level cache *)
    intros Hhc Hlast Hi Ht.
    assert (Hdef : exists b s',
      send_miss fuel (send fuel) c (Cache.get_index C (Request.addr req))
        (Cache.lines_at (missed C req) (Cache.get_index C (Request.addr req)))
        (is_write req) (Request.with_type req Request.READ)
        (put_cache s c (missed C req)) = Ok (b, s')).
    { unfold send_miss.
      rewrite (bind_eval _ _ _ _ _ (the_cache_eval _ _ _ HC5)).
      change (Request.addr (Request.with_type req Request.READ))
        with (Request.addr req).
      change (size_ (Cache.mshr_entries (missed C req)) =?
              Cache.mshr_entry_num (Cache.cfg (missed C req)))
        with (mshr_full (missed C req)).
      rewrite Hmshr, Hfull, Hlock, (Hin Hi).
      destruct (mshr_full C).
      { rewrite (bind_eval _ _ _ _ _ (count_eval _ _ _ _ HC5)). eauto. }
      destruct (all_sets_locked C _).
      { rewrite (bind_eval _ _ _ _ _ (count_eval _ _ _ _ HC5)). eauto. }
      destruct (allocate_line_lone fuel (put_cache s c (missed C req)) c
                  (missed C req) (Cache.get_index C (Request.addr req))
                  (Request.addr req) HC5) as (nl & s1 & Hal).
      { destruct Hsame as (-> & _). done. }
      { destruct Hsame as (-> & _). done. }
      { unfold Cache.get_tag in *. destruct Hsame as (-> & _). done. }
      rewrite (bind_eval _ _ _ _ _ Hal).
      destruct (allocate_line_result _ _ _ _ _ _ _ _ HC5 Hal) as [_ Hh'].
      destruct nl as [h|]; [|eauto].
      destruct (Hh' h eq_refl) as (C1 & HC1 & [n Hn]).
      rewrite (bind_eval _ _ _ _ _ (assign_eval _ _ _ _ _ _ HC1 Hn)).
      erewrite (bind_eval (modify_cache _ _)).
      2:{ apply modify_cache_eval. by eapply put_cache_lookup. }
      unfold send_forward.
      replace (Cache.is_last_level (Cache.cfg (missed C req))) with true
        by (destruct Hsame as (-> & _); done).
      simpl negb. cbv iota.
      rewrite bind_assoc_eval, (bind_eval _ _ _ _ _ (the_clk_eval _)).
      rewrite (bind_eval _ _ _ _ _ (push_wait_eval _ _)). eauto. }
    destruct Hdef as (b & s' & Hdef). exists s'.
    rewrite Hdef. f_equal. f_equal.
    apply Hiff in Hdef. destruct b, (refuses s C req); simpl; try done.
    * destruct Hdef as [_ H]. by specialize (H eq_refl).
    * destruct Hdef as [H _]. by specialize (H eq_refl).
    }
    split; [|split; [|split; [|exact Hlone]]].
    all: unfold send_miss;
      rewrite (bind_eval _ _ _ _ _ (the_cache_eval _ _ _ HC5));
      change (Request.addr (Request.with_type req Request.READ))
        with (Request.addr req);
      change (size_ (Cache.mshr_entries (missed C req)) =?
              Cache.mshr_entry_num (Cache.cfg (missed C req)))
        with (mshr_full (missed C req));
      rewrite Hmshr, Hfull.
    + (* a merge *)
      intros _ i a h Hm [n Hn]. rewrite Hm.
      rewrite (bind_eval _ _ _ _ _ (count_eval _ _ _ _ HC5)).
      rewrite put_cache_put_cache.
      erewrite (bind_eval (assign _ _ _)).
      2:{ eapply assign_eval; [by eapply put_cache_lookup|].
          change (Cache.lines_at (Cache.count ?k ?X) ?i) with (Cache.lines_at X i).
          destruct Hsame as (_ & _ & ->). exact Hn. }
      eauto.
    + (* the MSHR table is full *)
      intros _ Hi Hf. rewrite (Hin Hi), Hf.
      rewrite (bind_eval _ _ _ _ _ (count_eval _ _ _ _ HC5)).
      rewrite put_cache_put_cache. eexists _, _.
      split; [reflexivity|]. split; [by eapply put_cache_lookup|].
      rewrite !stats_count, !stats_missed by eauto. done.
    + (* the set is locked out *)
      intros _ Hi Hf Hl. rewrite (Hin Hi), Hf. unfold set_locked_out in Hl.
      rewrite Hlock, <- Hset, Hl.
      rewrite (bind_eval _ _ _ _ _ (count_eval _ _ _ _ HC5)).
      rewrite put_cache_put_cache. eexists _, _.
      split; [reflexivity|]. split; [by eapply put_cache_lookup|].
      rewrite !stats_count, !stats_missed by eauto. done.
Qed.

End SendFacts.


(* ===================================================================== *)
(** * What calls leave alone *)
(* ===================================================================== *)

Section Preservation.

Variable R : Sys -> Sys -> Prop.
Hypothesis R_refl : forall s, R s s.
Hypothesis R_trans : forall s1 s2 s3, R s1 s2 -> R s2 s3 -> R s1 s3.

Lemma pres_ret {A} (a : A) : pres R (mret a).
Proof. intros s a' s' [= <- <-]. apply R_refl. Qed.

Lemma pres_fail {A} e : pres R (fail e : M A).
Proof. intros s a s' H. done. Qed.

Lemma pres_bind {A B} (m : M A) (f : A -> M B) :
  pres R m -> (forall a, pres R (f a)) -> pres R (m ≫= f).
Proof.
  intros Hm Hf s b s' H. apply bind_inv in H as (a & s1 & H1 & H2).
  eapply R_trans; [by eapply Hm|by eapply Hf].
Qed.

Lemma pres_foldM {A B} (f : B -> A -> M B) l :
  (forall b a, a ∈ l -> pres R (f b a)) -> forall b, pres R (foldM f b l).
Proof.
  induction l as [|a l IH]; intros Hf b; simpl.
  - apply pres_ret.
  - apply pres_bind.
    + apply Hf. by left.
    + intros b'. apply IH. intros b'' a' Hin. apply Hf. by right.
Qed.

Lemma pres_the_cache c : pres R (the_cache c).
Proof. intros s C s' H. apply the_cache_inv in H as [_ ->]. apply R_refl. Qed.

Lemma pres_get_sys : pres R get_sys.
Proof. intros s a s' [= <- <-]. apply R_refl. Qed.

Lemma pres_the_clk : pres R the_clk.
Proof. intros s a s' [= <- <-]. apply R_refl. Qed.

Lemma pres_lines_of c idx : pres R (lines_of c idx).
Proof. apply pres_bind; [apply pres_the_cache|intros; apply pres_ret]. Qed.

Lemma pres_deref c h : pres R (deref c h).
Proof.
  apply pres_bind; [apply pres_the_cache|intros C].
  destruct (find_node _ _); [apply pres_ret|apply pres_fail].
Qed.

Lemma pres_need_eviction C lines a : pres R (need_eviction C lines a).
Proof.
  unfold need_eviction. destruct (find_tag _ _); [apply pres_fail|apply pres_ret].
Qed.

End Preservation.

(** One step of a proof that a call preserves a relation: peel a bind, a
    return, a fault, a read, or a case distinction off the call. *)
Ltac pres_step Hrefl Htrans :=
  lazymatch goal with
  | |- pres _ (mret _) => apply (pres_ret _ Hrefl)
  | |- pres _ (fail _) => apply pres_fail
  | |- pres _ (the_cache _) => apply (pres_the_cache _ Hrefl)
  | |- pres _ get_sys => apply (pres_get_sys _ Hrefl)
  | |- pres _ the_clk => apply (pres_the_clk _ Hrefl)
  | |- pres _ (lines_of _ _) => apply (pres_lines_of _ Hrefl Htrans)
  | |- pres _ (deref _ _) => apply (pres_deref _ Hrefl Htrans)
  | |- pres _ (need_eviction _ _ _) => apply (pres_need_eviction _ Hrefl)
  | |- pres _ (_ ≫= _) => apply (pres_bind _ Htrans); [|intros ?]
  | |- pres _ (foldM _ _ _) => apply (pres_foldM _ Hrefl Htrans); intros ? ? ?
  | |- pres _ (match ?x with _ => _ end) => destruct x eqn:?
  | |- pres _ (if ?x then _ else _) => destruct x eqn:?
  | |- pres _ (let '(_, _) := ?x in _) => destruct x eqn:?
  end.

(** ** The delivery queues and the clock *)

Lemma same_cachesys_refl s : same_cachesys s s.
Proof. done. Qed.

Lemma same_cachesys_trans s1 s2 s3 :
  same_cachesys s1 s2 -> same_cachesys s2 s3 -> same_cachesys s1 s3.
Proof. unfold same_cachesys. congruence. Qed.

Lemma modify_cache_cachesys c f : pres same_cachesys (modify_cache c f).
Proof. intros s u s' H. apply modify_cache_inv in H as (C & _ & ->). done. Qed.

Ltac cachesys_step :=
  first [ apply modify_cache_cachesys
        | pres_step same_cachesys_refl same_cachesys_trans ].

Lemma get_lines_cachesys c a : pres same_cachesys (get_lines c a).
Proof. unfold get_lines. repeat cachesys_step. Qed.

Lemma push_back_cachesys c idx l : pres same_cachesys (push_back c idx l).
Proof. unfold push_back. repeat cachesys_step. Qed.

Lemma erase_cachesys c idx i : pres same_cachesys (erase c idx i).
Proof. apply modify_cache_cachesys. Qed.

Lemma assign_cachesys c h f : pres same_cachesys (assign c h f).
Proof. unfold assign. repeat cachesys_step. Qed.

Section CachesysFacts.

Variable latency : CacheLevel -> Z.
Variable latency_each : CacheLevel -> Z.

Lemma refresh_lru_lower_cachesys c a d :
  pres same_cachesys (refresh_lru_lower c a d).
Proof.
  unfold refresh_lru_lower.
  repeat first [ apply push_back_cachesys | apply erase_cachesys | cachesys_step ].
Qed.

Lemma invalidate_cachesys fuel :
  forall c a, pres same_cachesys (invalidate latency_each fuel c a).
Proof.
  induction fuel as [|fuel IH]; intros c a; simpl.
  - apply pres_fail.
  - repeat first [ apply get_lines_cachesys | apply erase_cachesys | apply IH
                 | progress unfold invalidate_round, erased_line_dirty
                 | cachesys_step ].
Qed.

Lemma invalidate_all_cachesys fuel hcs a :
  pres same_cachesys (invalidate_all latency_each fuel hcs a).
Proof.
  induction hcs as [|hc hcs IH]; simpl.
  - apply (pres_ret _ same_cachesys_refl).
  - repeat first [ apply invalidate_cachesys | apply IH | cachesys_step ].
Qed.

Lemma callback_cachesys fuel :
  forall c req, pres same_cachesys (callback fuel c req).
Proof.
  induction fuel as [|fuel IH]; intros c req; simpl.
  - apply pres_fail.
  - unfold callback_here.
    repeat first [ apply assign_cachesys | apply IH | cachesys_step ].
Qed.

End CachesysFacts.

(* ===================================================================== *)
(** * [Cache::evict] *)
(* ===================================================================== *)

Section EvictFacts.

Variable latency : CacheLevel -> Z.
Variable latency_each : CacheLevel -> Z.

Local Abbreviation evict := (evict latency latency_each).
Local Abbreviation invalidate_all := (invalidate_all latency_each).
Local Abbreviation invalidate_time := (invalidate_time latency_each).

(** The loop of [evict] over the higher caches, as the invalidations
    followed by the folding of their results. *)
Lemma evict_invalidate_fold fuel C v hcs : forall t d s,
  foldM (fun acc hc =>
           r ← invalidate latency_each fuel hc (Line.addr v);
           mret (evict_acc latency_each C v acc r)) (t, d) hcs s =
  (rs ← invalidate_all fuel hcs (Line.addr v);
   mret (fold_left
           (fun t r => Z.max t (r.1 + (if r.2 : bool
                                      then latency_each (Cache.level (Cache.cfg C))
                                      else 0))) rs t,
         d || existsb (fun r => r.2 || Line.dirty v) rs)) s.
Proof.
  induction hcs as [|hc hcs IH]; intros t d s; simpl.
  - rewrite (bind_eval _ _ _ _ _ (ret_eval _ _)). by rewrite orb_false_r.
  - rewrite !bind_assoc_eval.
    destruct (invalidate latency_each fuel hc (Line.addr v) s) as [[r s1]|e] eqn:E.
    2:{ by rewrite !(bind_fault _ _ _ _ E). }
    rewrite !(bind_eval _ _ _ _ _ E).
    rewrite (bind_eval _ _ _ _ _ (ret_eval _ _)).
    destruct (evict_acc latency_each C v (t, d) r) as [t' d'] eqn:Eacc.
    unfold evict_acc in Eacc. simpl in Eacc. inversion Eacc; subst t' d'.
    rewrite IH, bind_assoc_eval.
    destruct (invalidate_all fuel hcs (Line.addr v) s1) as [[rs s2]|e] eqn:E2.
    2:{ by rewrite !(bind_fault _ _ _ _ E2). }
    rewrite !(bind_eval _ _ _ _ _ E2).
    rewrite (bind_eval _ _ _ _ _ (ret_eval _ _)). simpl.
    by rewrite <- !orb_assoc.
Qed.

Lemma dirty_fold (dv : bool) (rs : list (Z * bool)) :
  dv || existsb (fun r => r.2 || dv) rs = dv || existsb snd rs.
Proof.
  destruct dv; simpl; [done|].
  induction rs as [|r rs IH]; simpl; [done|]. by rewrite orb_false_r, IH.
Qed.

Lemma evict_invalidate_all fuel C v s :
  evict_invalidate latency_each fuel C v s =
  (rs ← invalidate_all fuel (Cache.higher_cache (Cache.cfg C)) (Line.addr v);
   mret (invalidate_time C rs, Line.dirty v || any_dirty rs)) s.
Proof.
  unfold evict_invalidate. rewrite evict_invalidate_fold.
  destruct (invalidate_all fuel (Cache.higher_cache (Cache.cfg C)) (Line.addr v) s)
    as [[rs s1]|e] eqn:E.
  2:{ by rewrite !(bind_fault _ _ _ _ E). }
  rewrite !(bind_eval _ _ _ _ _ E).
  unfold invalidate_time, any_dirty. by rewrite dirty_fold.
Qed.

(** ** The invalidations of the caches above *)

Lemma find_tag_lacks C a :
  find_tag (Cache.get_tag C a) (Cache.lines_at C (Cache.get_index C a)) = None ->
  lacks C a.
Proof.
  unfold lacks, block_set, find_tag. intros H. apply Forall_forall. intros n Hn.
  pose proof (find_none _ _ H n (proj1 (list_elem_of_In _ _) Hn)) as Hne.
  simpl in Hne. by apply Z.eqb_neq.
Qed.

Lemma lacks_ensure_set idx H a : lacks (ensure_set idx H) a <-> lacks H a.
Proof.
  unfold lacks, block_set, Cache.get_index, Cache.get_tag.
  by rewrite lines_at_ensure_set, cfg_ensure_set.
Qed.

(** An invalidation returns only from a cache that does not hold the
    block, which it leaves as it was, the set looked up apart. *)
Lemma invalidate_Ok_inv fuel hc a s r s' :
  invalidate latency_each fuel hc a s = Ok (r, s') ->
  exists H, caches s !! hc = Some H /\ lacks H a /\ r.2 = false /\
            s' = put_cache s hc (ensure_set (Cache.get_index H a) H).
Proof.
  destruct fuel as [|fuel]; [done|]. simpl. intros Hrun.
  apply bind_inv in Hrun as (H & s0 & HH & Hrun).
  apply the_cache_inv in HH as [HH ->].
  rewrite (bind_eval _ _ _ _ _ (get_lines_eval _ _ _ a HH)) in Hrun.
  erewrite (bind_eval (lines_of _ _)) in Hrun.
  2:{ apply lines_of_eval. by eapply put_cache_lookup. }
  rewrite lines_at_ensure_set, size_zero in Hrun.
  exists H. split; [done|].
  case_bool_decide as Hnil.
  - inversion Hrun; subst. split_and!; try done.
    unfold lacks, block_set. rewrite Hnil. constructor.
  - destruct (find_tag _ _) as [l|] eqn:Hf.
    + exfalso. destruct (Line.lock (line l)); [done|].
      erewrite (bind_eval (erase _ _ _)) in Hrun.
      2:{ apply erase_eval. by eapply put_cache_lookup. }
      destruct (Cache.higher_cache (Cache.cfg H)) as [|h hs]; [done|].
      cbn [foldM] in Hrun. apply bind_inv in Hrun as (acc & s1 & Hrun & _).
      apply bind_inv in Hrun as (r1 & s2 & _ & Hrun).
      unfold invalidate_round in Hrun. simpl in Hrun. done.
    + inversion Hrun; subst. split_and!; try done. by apply find_tag_lacks.
Qed.

Lemma invalidate_lacking fuel hc a s H :
  caches s !! hc = Some H -> lacks H a ->
  exists r, invalidate latency_each (S fuel) hc a s =
              Ok (r, put_cache s hc (ensure_set (Cache.get_index H a) H)) /\
            r.2 = false.
Proof.
  intros HH Hlack. unfold lacks, block_set in Hlack. simpl.
  rewrite (bind_eval _ _ _ _ _ (the_cache_eval _ _ _ HH)).
  rewrite (bind_eval _ _ _ _ _ (get_lines_eval _ _ _ a HH)).
  erewrite (bind_eval (lines_of _ _)).
  2:{ apply lines_of_eval. by eapply put_cache_lookup. }
  rewrite lines_at_ensure_set, size_zero.
  case_bool_decide; [by eexists|].
  rewrite (find_tag_absent _ _ Hlack). by eexists.
Qed.

Lemma looked_up_cons hc hcs a s H :
  caches s !! hc = Some H ->
  looked_up (hc :: hcs) a s =
  looked_up hcs a (put_cache s hc (ensure_set (Cache.get_index H a) H)).
Proof. intros HH. unfold looked_up. simpl. by rewrite HH. Qed.

Lemma looked_up_cachesys hcs a : forall s,
  cachesys (looked_up hcs a s) = cachesys s.
Proof.
  induction hcs as [|hc hcs IH]; intros s; [done|].
  unfold looked_up in *. simpl. rewrite IH. by destruct (caches s !! hc).
Qed.

Lemma looked_up_notin hcs a x : forall s,
  x ∉ hcs -> caches (looked_up hcs a s) !! x = caches s !! x.
Proof.
  induction hcs as [|hc hcs IH]; intros s Hx; [done|].
  apply not_elem_of_cons in Hx as [Hne Hx].
  unfold looked_up in *. simpl. rewrite IH by done.
  destruct (caches s !! hc); [|done]. by apply put_cache_lookup_ne.
Qed.

Lemma all_lack_put_cache s hcs a hc H :
  caches s !! hc = Some H ->
  all_lack (put_cache s hc (ensure_set (Cache.get_index H a) H)) hcs a <->
  all_lack s hcs a.
Proof.
  intros HH. unfold all_lack. rewrite !Forall_forall.
  split; intros Hall x Hx; destruct (Hall x Hx) as (X & HX & Hlack).
  - destruct (decide (hc = x)) as [<-|Hne].
    + rewrite (put_cache_lookup _ _ _ _ HH) in HX. inversion HX; subst X.
      exists H. split; [done|]. by apply lacks_ensure_set in Hlack.
    + rewrite put_cache_lookup_ne in HX by done. eauto.
  - destruct (decide (hc = x)) as [<-|Hne].
    + rewrite HH in HX. inversion HX; subst X.
      eexists. split; [by eapply put_cache_lookup|]. by apply lacks_ensure_set.
    + exists X. by rewrite put_cache_lookup_ne.
Qed.

(** The invalidations of the caches above return exactly when none of
    them holds the block; they then find nothing dirty and leave the
    store as it was, the sets looked up apart. *)
Lemma invalidate_all_Ok_inv fuel hcs a : forall s rs s1,
  invalidate_all fuel hcs a s = Ok (rs, s1) ->
  s1 = looked_up hcs a s /\ any_dirty rs = false /\ all_lack s hcs a.
Proof.
  induction hcs as [|hc hcs IH]; intros s rs s1 Hrun; simpl in Hrun.
  - inversion Hrun; subst. split_and!; try done. constructor.
  - apply bind_inv in Hrun as (r & s' & Hinv & Hrun).
    apply bind_inv in Hrun as (rs' & s'' & Hall & Hret).
    inversion Hret; subst rs s''. clear Hret.
    apply invalidate_Ok_inv in Hinv as (H & HH & Hlack & Hr & ->).
    destruct (IH _ _ _ Hall) as (-> & Hd & Hl).
    split_and!.
    + by rewrite (looked_up_cons _ _ _ _ _ HH).
    + unfold any_dirty in *. simpl. by rewrite Hr, Hd.
    + apply (all_lack_put_cache _ _ _ _ _ HH) in Hl.
      constructor; [eauto|done].
Qed.

Lemma invalidate_all_lacking fuel hcs a : forall s,
  all_lack s hcs a ->
  exists rs, invalidate_all (S fuel) hcs a s = Ok (rs, looked_up hcs a s).
Proof.
  induction hcs as [|hc hcs IH]; intros s Hall.
  - by exists [].
  - apply Forall_cons in Hall as [(H & HH & Hlack) Hall].
    destruct (invalidate_lacking fuel hc a s H HH Hlack) as (r & Hinv & _).
    apply (all_lack_put_cache _ _ _ _ _ HH) in Hall.
    destruct (IH _ Hall) as (rs & Hrs).
    exists (r :: rs). cbn [invalidate_all].
    rewrite (bind_eval _ _ _ _ _ Hinv), (bind_eval _ _ _ _ _ Hrs).
    by rewrite (looked_up_cons _ _ _ _ _ HH).
Qed.

(** ** The lower cache is refreshed *)

Lemma set_lines_set_lines idx l l' C :
  set_lines idx l' (set_lines idx l C) = set_lines idx l' C.
Proof. unfold set_lines, Cache.with_lines. simpl. by rewrite insert_insert_eq. Qed.

Lemma lines_at_Some C idx n l :
  Cache.lines_at C idx = n :: l -> Cache.cache_lines C !! idx = Some (n :: l).
Proof.
  unfold Cache.lines_at. destruct (Cache.cache_lines C !! idx); simpl; [|done].
  by intros ->.
Qed.

Lemma refresh_lru_lower_eval s c C a d lp m lq :
  caches s !! c = Some C -> holds C a lp m lq ->
  Forall (fun n => node_id n <> node_id m) lp ->
  refresh_lru_lower c a d s = Ok (tt, put_cache s c (refreshed C a d lp m lq)).
Proof.
  intros HC (Hset & Hpre & Htag) Hid. unfold block_set in Hset.
  unfold refresh_lru_lower.
  rewrite (bind_eval _ _ _ _ _ (the_cache_eval _ _ _ HC)).
  assert (Hlook : Cache.cache_lines C !! Cache.get_index C a = Some (lp ++ m :: lq)).
  { destruct lp; simpl in *; by apply lines_at_Some. }
  rewrite Hlook, (find_tag_split _ _ _ _ Hpre Htag).
  rewrite (bind_eval _ _ _ _ _ (push_back_eval _ _ _ _ _ HC)).
  erewrite erase_eval by (by eapply put_cache_lookup).
  rewrite put_cache_put_cache. do 3 f_equal.
  change (Cache.lines_at (Cache.with_next ?n ?X) ?i) with (Cache.lines_at X i).
  rewrite lines_at_set_lines, Hset, <- app_assoc. cbn [app].
  rewrite (erase_node_split _ _ _ _ Hid eq_refl).
  unfold refreshed.
  change (set_lines ?i ?l (Cache.with_next ?n ?X))
    with (Cache.with_next n (set_lines i l X)).
  by rewrite set_lines_set_lines.
Qed.

(** ** [evict], once the invalidations have returned *)

Lemma evict_after_invalidations fuel s c C idx victim v rs s1 :
  caches s !! c = Some C ->
  find_node victim (Cache.lines_at C idx) = Some v ->
  invalidate_all fuel (Cache.higher_cache (Cache.cfg C)) (Line.addr (line v))
    (put_cache s c (Cache.count cache_eviction C)) = Ok (rs, s1) ->
  evict fuel c idx victim s =
  ((if negb (Cache.is_last_level (Cache.cfg C)) then
      match Cache.lower_cache (Cache.cfg C) with
      | None => fail (AssertFail A_lower_nonnull)
      | Some lower =>
          refresh_lru_lower lower (Line.addr (line v))
            (Line.dirty (line v) || any_dirty rs)
      end
    else if Line.dirty (line v) || any_dirty rs then
      clk ← the_clk;
      push_wait (clk + invalidate_time C rs + latency (Cache.level (Cache.cfg C)),
                 Request.new (Line.addr (line v)) Request.WRITE)
    else mret tt);;
   erase c idx victim) s1.
Proof.
  intros HC Hv Hall. unfold evict.
  rewrite (bind_eval _ _ _ _ _ (the_cache_eval _ _ _ HC)).
  rewrite (bind_eval _ _ _ _ _ (count_eval _ _ _ _ HC)).
  erewrite (bind_eval (deref _ _)).
  2:{ eapply deref_eval; [by eapply put_cache_lookup|exact Hv]. }
  erewrite (bind_eval (evict_invalidate _ _ _ _)).
  2:{ rewrite evict_invalidate_all. rewrite (bind_eval _ _ _ _ _ Hall). reflexivity. }
  reflexivity.
Qed.

Lemma evict_last_eval fuel s c C idx pre v post rs s1 :
  caches s !! c = Some C ->
  Cache.lines_at C idx = pre ++ v :: post ->
  Forall (fun n => node_id n <> node_id v) pre ->
  c ∉ Cache.higher_cache (Cache.cfg C) ->
  invalidate_all fuel (Cache.higher_cache (Cache.cfg C)) (Line.addr (line v))
    (put_cache s c (Cache.count cache_eviction C)) = Ok (rs, s1) ->
  Cache.is_last_level (Cache.cfg C) = true ->
  evict fuel c idx (node_id v) s =
    Ok (tt,
        mkSys
          (CacheSystem.mk (CacheSystem.clk (cachesys s))
             (CacheSystem.hit_list (cachesys s))
             (CacheSystem.wait_list (cachesys s) ++
              if Line.dirty (line v) || any_dirty rs
              then [(CacheSystem.clk (cachesys s) + invalidate_time C rs +
                       latency (Cache.level (Cache.cfg C)),
                     Request.new (Line.addr (line v)) Request.WRITE)]
              else []))
          (<[c := set_lines idx (pre ++ post) (Cache.count cache_eviction C)]>
             (caches s1))).
Proof.
  intros HC Hlines Hid Hc Hall Hlast.
  destruct (invalidate_all_Ok_inv _ _ _ _ _ _ Hall) as (Hs1 & _ & _).
  pose proof (find_node_split _ _ _ post Hid eq_refl) as Hv.
  rewrite <- Hlines in Hv.
  rewrite (evict_after_invalidations _ _ _ _ _ _ _ _ _ HC Hv Hall).
  assert (Hcs1 : cachesys s1 = cachesys s).
  { rewrite Hs1, looked_up_cachesys. done. }
  assert (HC1 : caches s1 !! c = Some (Cache.count cache_eviction C)).
  { rewrite Hs1, looked_up_notin by done. by eapply put_cache_lookup. }
  assert (Herase : erase_node (node_id v)
                     (Cache.lines_at (Cache.count cache_eviction C) idx)
                   = pre ++ post).
  { change (Cache.lines_at (Cache.count ?k ?X) ?i) with (Cache.lines_at X i).
    rewrite Hlines. by apply erase_node_split. }
  rewrite Hlast. cbn [negb]. cbv iota.
  destruct (Line.dirty (line v) || any_dirty rs).
  - erewrite (bind_eval (the_clk ≫= _)).
    2:{ rewrite (bind_eval _ _ _ _ _ (the_clk_eval _)). apply push_wait_eval. }
    erewrite erase_eval by exact HC1.
    rewrite Herase, Hcs1. reflexivity.
  - rewrite (bind_eval _ _ _ _ _ (ret_eval _ _)).
    erewrite erase_eval by exact HC1.
    rewrite Herase, app_nil_r. unfold put_cache. rewrite Hcs1.
    by destruct (cachesys s).
Qed.

Lemma evict_upper_eval fuel s c C idx pre v post rs s1 lower L lp m lq :
  caches s !! c = Some C ->
  Cache.lines_at C idx = pre ++ v :: post ->
  Forall (fun n => node_id n <> node_id v) pre ->
  c ∉ Cache.higher_cache (Cache.cfg C) ->
  invalidate_all fuel (Cache.higher_cache (Cache.cfg C)) (Line.addr (line v))
    (put_cache s c (Cache.count cache_eviction C)) = Ok (rs, s1) ->
  Cache.is_last_level (Cache.cfg C) = false ->
  Cache.lower_cache (Cache.cfg C) = Some lower ->
  lower <> c -> lower ∉ Cache.higher_cache (Cache.cfg C) ->
  caches s !! lower = Some L ->
  holds L (Line.addr (line v)) lp m lq ->
  Forall (fun n => node_id n <> node_id m) lp ->
  evict fuel c idx (node_id v) s =
    Ok (tt,
        mkSys (cachesys s)
          (<[c := set_lines idx (pre ++ post) (Cache.count cache_eviction C)]>
             (<[lower := refreshed L (Line.addr (line v))
                           (Line.dirty (line v) || any_dirty rs) lp m lq]>
                (caches s1)))).
Proof.
  intros HC Hlines Hid Hc Hall Hlast Hlow Hne Hnotin HL Hholds Hidm.
  destruct (invalidate_all_Ok_inv _ _ _ _ _ _ Hall) as (Hs1 & _ & _).
  pose proof (find_node_split _ _ _ post Hid eq_refl) as Hv.
  rewrite <- Hlines in Hv.
  rewrite (evict_after_invalidations _ _ _ _ _ _ _ _ _ HC Hv Hall).
  assert (Hcs1 : cachesys s1 = cachesys s).
  { rewrite Hs1, looked_up_cachesys. done. }
  assert (HC1 : caches s1 !! c = Some (Cache.count cache_eviction C)).
  { rewrite Hs1, looked_up_notin by done. by eapply put_cache_lookup. }
  assert (Herase : erase_node (node_id v)
                     (Cache.lines_at (Cache.count cache_eviction C) idx)
                   = pre ++ post).
  { change (Cache.lines_at (Cache.count ?k ?X) ?i) with (Cache.lines_at X i).
    rewrite Hlines. by apply erase_node_split. }
  rewrite Hlast, Hlow. cbn [negb]. cbv iota.
  assert (HL1 : caches s1 !! lower = Some L).
  { rewrite Hs1, looked_up_notin by done. by rewrite put_cache_lookup_ne. }
  rewrite (bind_eval _ _ _ _ _
             (refresh_lru_lower_eval _ _ _ _ _ _ _ _ HL1 Hholds Hidm)).
  erewrite erase_eval.
  2:{ rewrite put_cache_lookup_ne by done. exact HC1. }
  rewrite Herase. unfold put_cache. simpl. by rewrite Hcs1.
Qed.


End EvictFacts.


(* ===================================================================== *)
(** * [Cache::callback] *)
(* ===================================================================== *)

Lemma cfgs_put_cache s c C C' :
  caches s !! c = Some C -> Cache.cfg C' = Cache.cfg C ->
  cfgs (put_cache s c C') = cfgs s.
Proof.
  intros HC Hcfg. unfold cfgs, put_cache. simpl.
  rewrite list_fmap_insert, Hcfg. apply list_insert_id.
  by rewrite list_lookup_fmap, HC.
Qed.

Lemma cfgs_lookup s c C : caches s !! c = Some C -> cfgs s !! c = Some (Cache.cfg C).
Proof. intros H. unfold cfgs. by rewrite list_lookup_fmap, H. Qed.

Lemma cfgs_lookup_inv s c G :
  cfgs s !! c = Some G -> exists C, caches s !! c = Some C /\ Cache.cfg C = G.
Proof.
  unfold cfgs. rewrite list_lookup_fmap. destruct (caches s !! c); naive_solver.
Qed.

Lemma levels_descend_higher g c G hc :
  levels_descend g = true -> g !! c = Some G -> hc ∈ Cache.higher_cache G ->
  exists H, g !! hc = Some H /\
    (level_index (Cache.level H) < level_index (Cache.level G))%nat.
Proof.
  unfold levels_descend. rewrite forallb_forall. intros Hall HG Hin.
  assert (HinG : In G g).
  { apply list_elem_of_In. by eapply list_elem_of_lookup_2. }
  specialize (Hall G HinG). rewrite forallb_forall in Hall.
  specialize (Hall hc (proj1 (list_elem_of_In _ _) Hin)).
  destruct (g !! hc) as [H|]; [|done].
  exists H. split; [done|]. by apply bool_decide_eq_true in Hall.
Qed.

Lemma below_untouched_refl L s : below_untouched L s s.
Proof. done. Qed.

Lemma below_untouched_trans L s1 s2 s3 :
  below_untouched L s1 s2 -> below_untouched L s2 s3 -> below_untouched L s1 s3.
Proof.
  intros [H1 H2] [H3 H4]. split; [congruence|].
  intros c C HC HL. apply H4; [|done]. by apply H2.
Qed.

(** A change to the cache at [c] that leaves its configuration alone
    touches no cache below the level of [c]. *)
Lemma below_untouched_put_cache L s c C C' :
  caches s !! c = Some C -> Cache.cfg C' = Cache.cfg C ->
  (level_index (Cache.level (Cache.cfg C)) <= L)%nat ->
  below_untouched L s (put_cache s c C').
Proof.
  intros HC Hcfg HL. split; [by eapply cfgs_put_cache|].
  intros c' D HD HLD. destruct (decide (c = c')) as [<-|Hne].
  - rewrite HC in HD. inversion HD; subst. lia.
  - by rewrite put_cache_lookup_ne.
Qed.

Lemma assign_inv s c h f u s' :
  assign c h f s = Ok (u, s') ->
  exists C n, caches s !! c = Some C /\
    find_node h.2 (Cache.lines_at C h.1) = Some n /\
    s' = put_cache s c (set_lines h.1 (update_node h.2 f (Cache.lines_at C h.1)) C).
Proof.
  unfold assign. intros H. apply bind_inv in H as (l & s1 & Hd & H).
  apply deref_inv in Hd as (-> & C & n & HC & Hn & _).
  apply modify_cache_inv in H as (C' & HC' & ->).
  rewrite HC in HC'. inversion HC'; subst. eauto.
Qed.

Section CallbackFacts.

Lemma cfg_released C req : Cache.cfg (released C req) = Cache.cfg C.
Proof.
  unfold released. by destruct (find_mshr C (Request.addr req)) as [[i [a h]]|].
Qed.

Lemma callback_unfold fuel c req s C :
  caches s !! c = Some C ->
  callback (S fuel) c req s =
  (callback_here c C req;;
   foldM (fun _ hc => callback fuel hc req) tt (Cache.higher_cache (Cache.cfg C))) s.
Proof.
  intros HC. simpl. by rewrite (bind_eval _ _ _ _ _ (the_cache_eval _ _ _ HC)).
Qed.

Lemma callback_here_inv c C req s u s' :
  caches s !! c = Some C ->
  callback_here c C req s = Ok (u, s') -> s' = put_cache s c (released C req).
Proof.
  intros HC. unfold callback_here, released.
  destruct (find_mshr C (Request.addr req)) as [[i [a h]]|].
  - intros H. apply bind_inv in H as (u' & s1 & Ha & H).
    apply assign_inv in Ha as (C1 & n & HC1 & Hn & ->).
    rewrite HC in HC1. inversion HC1; subst C1.
    rewrite (modify_cache_eval _ _ _ _ (put_cache_lookup _ _ _ _ HC)) in H.
    inversion H; subst. by rewrite put_cache_put_cache.
  - intros [= <- <-]. by rewrite put_cache_id.
Qed.

Lemma callback_here_eval c C req s :
  caches s !! c = Some C ->
  (forall i a h, find_mshr C (Request.addr req) = Some (i, (a, h)) ->
     is_Some (find_node h.2 (Cache.lines_at C h.1))) ->
  callback_here c C req s = Ok (tt, put_cache s c (released C req)).
Proof.
  intros HC Hh. unfold callback_here, released.
  destruct (find_mshr C (Request.addr req)) as [[i [a h]]|].
  - destruct (Hh i a h eq_refl) as [n Hn].
    rewrite (bind_eval _ _ _ _ _ (assign_eval _ _ _ _ _ _ HC Hn)).
    rewrite (modify_cache_eval _ _ _ _ (put_cache_lookup _ _ _ _ HC)).
    by rewrite put_cache_put_cache.
  - by rewrite put_cache_id.
Qed.

Lemma callback_walk fuel : forall hc req L s s',
  callback fuel hc req s = Ok (tt, s') ->
  levels_descend (cfgs s) = true ->
  (forall G, cfgs s !! hc = Some G -> (level_index (Cache.level G) <= L)%nat) ->
  below_untouched L s s'.
Proof.
  induction fuel as [|fuel IH]; intros hc req L s s' H Hl HL; [done|].
  simpl in H. apply bind_inv in H as (C & s0 & HC & H).
  apply the_cache_inv in HC as [HC ->].
  apply bind_inv in H as (u & s1 & Hhere & Hup).
  apply (callback_here_inv _ _ _ _ _ _ HC) in Hhere. subst s1.
  assert (H1 : below_untouched L s (put_cache s hc (released C req))).
  { apply (below_untouched_put_cache _ _ _ C); [done|apply cfg_released|].
    apply HL. by apply cfgs_lookup. }
  eapply below_untouched_trans; [exact H1|].
  assert (Hhigher : forall hh, hh ∈ Cache.higher_cache (Cache.cfg C) ->
            forall G, cfgs s !! hh = Some G ->
                      (level_index (Cache.level G) <= L)%nat).
  { intros hh Hin G HG.
    destruct (levels_descend_higher _ _ _ _ Hl (cfgs_lookup _ _ _ HC) Hin)
      as (G' & HG' & Hlt).
    rewrite HG in HG'. inversion HG'; subst G'.
    specialize (HL _ (cfgs_lookup _ _ _ HC)). lia. }
  destruct H1 as [Hcfg _]. rewrite <- Hcfg in Hl, Hhigher.
  revert Hup Hl Hhigher. generalize (put_cache s hc (released C req)).
  induction (Cache.higher_cache (Cache.cfg C)) as [|hh hcs IHh];
    intros s1 Hup Hl Hhigher; simpl in Hup.
  - inversion Hup; subst. apply below_untouched_refl.
  - apply bind_inv in Hup as ([] & s2 & Hcb & Hup).
    assert (H2 : below_untouched L s1 s2).
    { apply (IH _ _ _ _ _ Hcb Hl). apply Hhigher. by left. }
    eapply below_untouched_trans; [exact H2|].
    destruct H2 as [Hcfg2 _]. apply IHh; [done|by rewrite Hcfg2|].
    intros hh' Hin G. rewrite Hcfg2. apply Hhigher. by right.
Qed.

(** [callback] in terms of the searches the code runs. *)
Lemma callback_found (fuel : nat) (s : Sys) (c : nat) (C : Cache.t)
    (req : Request.t) :
  caches s !! c = Some C ->
  levels_descend (cfgs s) = true ->
  (find_mshr C (Request.addr req) = None ->
   callback (S fuel) c req s =
     foldM (fun _ hc => callback fuel hc req) tt
       (Cache.higher_cache (Cache.cfg C)) s /\
   forall s', callback (S fuel) c req s = Ok (tt, s') ->
     caches s' !! c = Some C) /\
  (forall i a h,
     find_mshr C (Request.addr req) = Some (i, (a, h)) ->
     is_Some (find_node h.2 (Cache.lines_at C h.1)) ->
     callback (S fuel) c req s =
       foldM (fun _ hc => callback fuel hc req) tt
         (Cache.higher_cache (Cache.cfg C))
         (put_cache s c
            (Cache.with_mshr (delete i (Cache.mshr_entries C))
               (set_lines h.1
                  (update_node h.2 (Line.set_lock false) (Cache.lines_at C h.1))
                  C))) /\
     forall s', callback (S fuel) c req s = Ok (tt, s') ->
       caches s' !! c =
       Some (Cache.with_mshr (delete i (Cache.mshr_entries C))
               (set_lines h.1
                  (update_node h.2 (Line.set_lock false) (Cache.lines_at C h.1))
                  C))) /\
  (Cache.higher_cache (Cache.cfg C) = [] ->
   (forall i a h, find_mshr C (Request.addr req) = Some (i, (a, h)) ->
      is_Some (find_node h.2 (Cache.lines_at C h.1))) ->
   exists s', callback (S fuel) c req s = Ok (tt, s')).
Proof.
  intros HC Hl.
  assert (Hframe : forall s', callback (S fuel) c req s = Ok (tt, s') ->
            caches s' !! c = Some (released C req)).
  { intros s' H. rewrite (callback_unfold _ _ _ _ _ HC) in H.
    apply bind_inv in H as (u & s1 & Hhere & Hup).
    apply (callback_here_inv _ _ _ _ _ _ HC) in Hhere. subst s1.
    pose proof (put_cache_lookup _ _ _ (released C req) HC) as HC1.
    assert (Hl1 : levels_descend (cfgs (put_cache s c (released C req))) = true).
    { by rewrite (cfgs_put_cache _ _ C) by (done || apply cfg_released). }
    assert (Hhigher : forall hh, hh ∈ Cache.higher_cache (Cache.cfg C) ->
              forall G, cfgs (put_cache s c (released C req)) !! hh = Some G ->
                (level_index (Cache.level G) <=
                 pred (level_index (Cache.level (Cache.cfg C))))%nat).
    { intros hh Hin G. rewrite (cfgs_put_cache _ _ C) by (done || apply cfg_released).
      intros HG.
      destruct (levels_descend_higher _ _ _ _ Hl (cfgs_lookup _ _ _ HC) Hin)
        as (G' & HG' & Hlt).
      rewrite HG in HG'. inversion HG'; subst G'. lia. }
    assert (Hpos : (pred (level_index (Cache.level (Cache.cfg C)))
                    < level_index (Cache.level (Cache.cfg (released C req))))%nat
                   \/ Cache.higher_cache (Cache.cfg C) = []).
    { destruct (Cache.higher_cache (Cache.cfg C)) as [|hh hcs] eqn:E; [by right|left].
      rewrite cfg_released.
      destruct (levels_descend_higher _ _ _ hh Hl (cfgs_lookup _ _ _ HC))
        as (G' & _ & Hlt); [rewrite E; by left|]. lia. }
    destruct Hpos as [Hpos|Hnil].
    2:{ rewrite Hnil in Hup. inversion Hup; subst. done. }
    revert Hup HC1 Hl1 Hhigher. generalize (put_cache s c (released C req)).
    induction (Cache.higher_cache (Cache.cfg C)) as [|hh hcs IHh];
      intros s1 Hup HC1 Hl1 Hhigher; simpl in Hup.
    - by inversion Hup; subst.
    - apply bind_inv in Hup as ([] & s2 & Hcb & Hup).
      destruct (callback_walk _ _ _ _ _ _ Hcb Hl1 (Hhigher hh ltac:(by left)))
        as [Hcfg2 Hkeep].
      apply (IHh s2 Hup).
      + by apply Hkeep.
      + by rewrite Hcfg2.
      + intros hh' Hin G. rewrite Hcfg2. apply Hhigher. by right. }
  split; [|split].
  - intros Hm. split.
    + rewrite (callback_unfold _ _ _ _ _ HC). unfold callback_here. rewrite Hm.
      by rewrite (bind_eval _ _ _ _ _ (ret_eval _ _)).
    + intros s' H. rewrite (Hframe s' H). unfold released. by rewrite Hm.
  - intros i a h Hm Hn. split.
    + rewrite (callback_unfold _ _ _ _ _ HC).
      erewrite (bind_eval (callback_here _ _ _)).
      2:{ apply callback_here_eval; [done|]. intros i' a' h'. rewrite Hm.
          intros [= <- <- <-]. done. }
      unfold released. by rewrite Hm.
    + intros s' H. rewrite (Hframe s' H). unfold released. by rewrite Hm.
  - intros Hnil Hh. rewrite (callback_unfold _ _ _ _ _ HC).
    rewrite (bind_eval _ _ _ _ _ (callback_here_eval _ _ _ _ HC Hh)).
    rewrite Hnil. simpl. eauto.
Qed.


(** C10: [callback] in a hierarchy whose levels descend.  When no entry
    of the MSHR table is for the block of the request, the call is the
    walk over the higher caches, started from the state as it is: the
    table, the lines and their locks are untouched and no assertion is
    met; on a cache with nothing above it the call returns the state
    unchanged.  When [e] is the first entry for the block, pointing to
    the line with identifier [i] of the set [idx], found there between
    [pre] and [post], the call is the walk over the higher caches started
    from the state in which this cache has lost exactly the entry [e]
    (the table is [before ++ after]) and that line has its lock cleared,
    address, tag and dirty flag kept, every other line, set, counter and
    the retry list being the same.  When the line the entry points to is
    no longer in the set, the behaviour is undefined. *)
Theorem callback_effects (fuel : nat) (s : Sys) (c : nat) (C : Cache.t)
    (req : Request.t) :
  caches s !! c = Some C ->
  levels_descend (cfgs s) = true ->
  (Forall (fun e : Z * Handle =>
             Cache.align C e.1 <> Cache.align C (Request.addr req))
     (Cache.mshr_entries C) ->
   callback (S fuel) c req s =
     foldM (fun _ hc => callback fuel hc req) tt
       (Cache.higher_cache (Cache.cfg C)) s /\
   (forall s', callback (S fuel) c req s = Ok (tt, s') ->
      caches s' !! c = Some C) /\
   (Cache.higher_cache (Cache.cfg C) = [] ->
    callback (S fuel) c req s = Ok (tt, s))) /\
  (forall before a idx i after pre n post,
     Cache.mshr_entries C = before ++ (a, (idx, i)) :: after ->
     Forall (fun e : Z * Handle =>
               Cache.align C e.1 <> Cache.align C (Request.addr req)) before ->
     Cache.align C a = Cache.align C (Request.addr req) ->
     Cache.lines_at C idx = pre ++ n :: post ->
     Forall (fun m => node_id m <> i) pre -> node_id n = i ->
     exists C',
       Cache.mshr_entries C' = before ++ after /\
       Cache.lines_at C' idx =
         pre ++ mkNode i (Line.mk (Line.addr (line n)) (Line.tag (line n))
                            false (Line.dirty (line n))) :: post /\
       (forall j, j <> idx -> Cache.lines_at C' j = Cache.lines_at C j) /\
       Cache.cfg C' = Cache.cfg C /\
       Cache.retry_list C' = Cache.retry_list C /\
       Cache.next_node C' = Cache.next_node C /\
       Cache.counters C' = Cache.counters C /\
       callback (S fuel) c req s =
         foldM (fun _ hc => callback fuel hc req) tt
           (Cache.higher_cache (Cache.cfg C)) (put_cache s c C') /\
       (forall s', callback (S fuel) c req s = Ok (tt, s') ->
          caches s' !! c = Some C') /\
       (Cache.higher_cache (Cache.cfg C) = [] ->
        callback (S fuel) c req s = Ok (tt, put_cache s c C'))) /\
  (forall before a idx i after,
     Cache.mshr_entries C = before ++ (a, (idx, i)) :: after ->
     Forall (fun e : Z * Handle =>
               Cache.align C e.1 <> Cache.align C (Request.addr req)) before ->
     Cache.align C a = Cache.align C (Request.addr req) ->
     Forall (fun m => node_id m <> i) (Cache.lines_at C idx) ->
     callback (S fuel) c req s = Fault Undefined).
Proof.
  intros HC Hl.
  destruct (callback_found fuel s c C req HC Hl) as (Hnone & Hsome & _).
  split_and!.
  - intros Hno. apply find_mshr_absent in Hno.
    destruct (Hnone Hno) as [Heq Hkeep]. split_and!; try done.
    intros Hnil. by rewrite Heq, Hnil.
  - intros before a idx i after pre n post Hm Hbefore Ha Hlines Hpre Hn.
    pose proof (find_mshr_split C (Request.addr req) before (a, (idx, i)) after
                  Hm Hbefore Ha) as Hfind.
    pose proof (find_node_split i pre n post Hpre Hn) as Hnode.
    destruct (Hsome _ _ _ Hfind) as [Heq Hkeep].
    { cbn [fst snd]. rewrite Hlines, Hnode. eauto. }
    cbn [fst snd] in Heq, Hkeep.
    rewrite Hm, delete_split, Hlines, (update_node_split _ _ _ _ _ Hpre Hn)
      in Heq, Hkeep.
    eexists. split_and!; [..|exact Heq|exact Hkeep|].
    + reflexivity.
    + change (Cache.lines_at (Cache.with_mshr ?e ?X) ?j) with (Cache.lines_at X j).
      by rewrite lines_at_set_lines.
    + intros j Hj.
      change (Cache.lines_at (Cache.with_mshr ?e ?X) ?k) with (Cache.lines_at X k).
      by rewrite lines_at_set_lines_ne.
    + reflexivity.
    + reflexivity.
    + reflexivity.
    + reflexivity.
    + intros Hnil. by rewrite Heq, Hnil.
  - intros before a idx i after Hm Hbefore Ha Hgone.
    pose proof (find_mshr_split C (Request.addr req) before (a, (idx, i)) after
                  Hm Hbefore Ha) as Hfind.
    rewrite (callback_unfold _ _ _ _ _ HC). unfold callback_here. rewrite Hfind.
    unfold assign, deref. rewrite !bind_assoc_eval.
    rewrite (bind_eval _ _ _ _ _ (the_cache_eval _ _ _ HC)).
    cbn [fst snd]. by rewrite (find_node_absent _ _ Hgone).
Qed.

End CallbackFacts.


(* ===================================================================== *)
(** * The victim [allocate_line] picks *)
(* ===================================================================== *)

Lemma fold_left_andb {A} (f : A -> bool) (l : list A) (b : bool) :
  fold_left (fun b x => b && f x) l b = b && forallb f l.
Proof.
  revert b. induction l as [|x l IH]; intros b; simpl.
  - by rewrite andb_true_r.
  - by rewrite IH, andb_assoc.
Qed.

Lemma victim_ok_spec s C n :
  victim_ok s C n = true ->
  Line.lock (line n) = false /\
  (Cache.is_first_level (Cache.cfg C) = false ->
   forall hc, hc ∈ Cache.higher_cache (Cache.cfg C) ->
     check_unlock s hc (Line.addr (line n)) = true).
Proof.
  unfold victim_ok. destruct (Cache.is_first_level (Cache.cfg C)); simpl.
  - intros H. by apply negb_true_iff in H.
  - rewrite fold_left_andb. intros H. apply andb_true_iff in H as [H1 H2].
    split; [by apply negb_true_iff in H1|]. intros _ hc Hin.
    rewrite forallb_forall in H2. apply H2. by apply list_elem_of_In.
Qed.

Lemma find_node_unique v lines :
  NoDup (node_id <$> lines) -> v ∈ lines -> find_node (node_id v) lines = Some v.
Proof.
  unfold find_node. induction lines as [|n lines IH]; intros Hnd Hin.
  - by apply elem_of_nil in Hin.
  - simpl in *. apply NoDup_cons in Hnd as [Hn Hnd].
    destruct (Nat.eqb_spec (node_id n) (node_id v)) as [E|E].
    + apply elem_of_cons in Hin as [->|Hin]; [done|].
      destruct Hn. rewrite E. apply list_elem_of_fmap. eauto.
    + apply elem_of_cons in Hin as [->|Hin]; [done|]. by apply IH.
Qed.

Lemma check_unlock_put_cache_ne s c C hc a :
  c <> hc -> check_unlock (put_cache s c C) hc a = check_unlock s hc a.
Proof. intros. unfold check_unlock. by rewrite put_cache_lookup_ne. Qed.


(* ===================================================================== *)
(** * The scenarios *)
(* ===================================================================== *)

(** Scenario 1 of the specification: a read hit is absorbed and leaves one
    entry in [hit_list], due at [clk + latency[level]]. *)
Example send_read_hit :
  value_of (send Scenario.latency Scenario.latency_each 1 0 (Scenario.read 0)
              Scenario.filled) = Some true /\
  (CacheSystem.hit_list ∘ cachesys <$>
     store_of (send Scenario.latency Scenario.latency_each 1 0 (Scenario.read 0)
                 Scenario.filled)) = Some [(40, Scenario.read 0)].
Proof. split_and!; vm_compute; reflexivity. Qed.


(** Scenario 4 of the specification: the dirty victim of a last-level cache
    is written back, the request joining [wait_list]; the clean one is
    dropped. *)
Example evict_writes_back :
  (CacheSystem.wait_list ∘ cachesys <$>
     store_of (evict Scenario.latency Scenario.latency_each 0 0 0 1 Scenario.filled))
  = Some [(40, Scenario.read 0); (40, Scenario.read 64); (40, Scenario.write 64)] /\
  (CacheSystem.wait_list ∘ cachesys <$>
     store_of (evict Scenario.latency Scenario.latency_each 0 0 0 0 Scenario.filled))
  = Some [(40, Scenario.read 0); (40, Scenario.read 64)].
Proof. split_and!; vm_compute; reflexivity. Qed.

(** C7, evaluated where it fails.  The retry list of the L2 holds the reads
    of 128 and 192 and the L3 has both MSHR entries free.  One
    [Cache::tick] re-sends the read of 128, which is absorbed and erased,
    and steps over the read of 192: the L3 sees one access, the read of 192
    stays in the list although the L3 would absorb it.  With the read of
    128 alone in the list, the step after the erasure leaves the list. *)
Lemma tick_steps_over_the_entry_after_an_erased_one :
  Cache.retry_list (Scenario.cache_at 0 Scenario.two_level_retrying)
    = [Scenario.read 128; Scenario.read 192] /\
  value_of (tick Scenario.latency Scenario.latency_each 8 0 Scenario.two_level_retrying)
    = Some tt /\
  Cache.retry_list (Scenario.cache_at 0 Scenario.two_level_ticked)
    = [Scenario.read 192] /\
  Cache.stats (Scenario.cache_at 1 Scenario.two_level_ticked) cache_total_access
    = Cache.stats (Scenario.cache_at 1 Scenario.two_level_retrying) cache_total_access + 1 /\
  value_of (send Scenario.latency Scenario.latency_each 8 1 (Scenario.read 192)
              Scenario.two_level_ticked) = Some true /\
  Cache.retry_list (Scenario.cache_at 0 Scenario.two_level_retrying_one)
    = [Scenario.read 128] /\
  tick Scenario.latency Scenario.latency_each 8 0 Scenario.two_level_retrying_one
    = Fault Undefined.
Proof. split_and!; vm_compute; reflexivity. Qed.

(** C10, witnessed on two levels with the read of block 0 outstanding in
    both: the completion reaching the L3 finds its entry, unlocks the line
    and removes the entry, and goes on to the L2, which does the same; the
    completion of a read of block 128, for which the L3 has no entry,
    leaves the L3 as it is. *)
Lemma callback_effects_witness :
  Cache.mshr_entries (Scenario.cache_at 1 Scenario.two_level_one_read)
    = [(0, (0, 0%nat))] /\
  Cache.lines_at (Scenario.cache_at 1 Scenario.two_level_one_read) 0
    = [mkNode 0 (Line.mk 0 0 true false)] /\
  (exists C',
     Cache.mshr_entries C' = [] /\
     Cache.lines_at C' 0 = [mkNode 0 (Line.mk 0 0 false false)] /\
     callback 2 1 (Scenario.read 0) Scenario.two_level_one_read =
       foldM (fun _ hc => callback 1 hc (Scenario.read 0)) tt [0%nat]
         (put_cache Scenario.two_level_one_read 1 C') /\
     forall s', callback 2 1 (Scenario.read 0) Scenario.two_level_one_read
                = Ok (tt, s') ->
       caches s' !! 1%nat = Some C') /\
  (Cache.mshr_entries ∘ Scenario.cache_at 0 <$>
     store_of (callback 2 1 (Scenario.read 0) Scenario.two_level_one_read))
    = Some [] /\
  callback 2 1 (Scenario.read 128) Scenario.two_level_one_read =
    foldM (fun _ hc => callback 1 hc (Scenario.read 128)) tt [0%nat]
      Scenario.two_level_one_read.
Proof.
  assert (HC : caches Scenario.two_level_one_read !! 1%nat
                 = Some (Scenario.cache_at 1 Scenario.two_level_one_read))
    by (vm_compute; reflexivity).
  assert (Hl : levels_descend (cfgs Scenario.two_level_one_read) = true)
    by (vm_compute; reflexivity).
  assert (Hm : Cache.mshr_entries (Scenario.cache_at 1 Scenario.two_level_one_read)
               = [] ++ (0, (0, 0%nat)) :: []) by (vm_compute; reflexivity).
  assert (Hlines : Cache.lines_at (Scenario.cache_at 1 Scenario.two_level_one_read) 0
                   = [] ++ mkNode 0 (Line.mk 0 0 true false) :: [])
    by (vm_compute; reflexivity).
  assert (Hh : Cache.higher_cache
                 (Cache.cfg (Scenario.cache_at 1 Scenario.two_level_one_read))
               = [0%nat]) by (vm_compute; reflexivity).
  split; [exact Hm|]. split; [exact Hlines|].
  destruct (callback_effects 1 Scenario.two_level_one_read 1
              (Scenario.cache_at 1 Scenario.two_level_one_read) (Scenario.read 0) HC Hl)
    as (_ & Hsome & _).
  destruct (Hsome [] 0 0 0%nat [] [] (mkNode 0 (Line.mk 0 0 true false)) []
              Hm (Forall_nil_2 _) eq_refl Hlines (Forall_nil_2 _) eq_refl)
    as (C' & Hm' & Hl' & _ & _ & _ & _ & _ & Hrun & Hkeep & _).
  split.
  { exists C'. rewrite Hh in Hrun. split_and!; assumption. }
  split; [vm_compute; reflexivity|].
  destruct (callback_effects 1 Scenario.two_level_one_read 1
              (Scenario.cache_at 1 Scenario.two_level_one_read) (Scenario.read 128) HC Hl)
    as (Hnone & _).
  destruct Hnone as (Hrun128 & _).
  { rewrite Hm. apply Forall_cons. split; [|apply Forall_nil_2].
    vm_compute. discriminate. }
  rewrite Hh in Hrun128. exact Hrun128.
Defined.

Example callback_releases_above :
  Cache.mshr_entries (Scenario.cache_at 0 Scenario.two_level_retrying)
    = [(128, (0, 2%nat)); (192, (0, 3%nat))] /\
  (Cache.mshr_entries ∘ Scenario.cache_at 0 <$>
     store_of (callback 2 1 (Scenario.read 128) Scenario.two_level_retrying))
    = Some [(192, (0, 3%nat))].
Proof. split_and!; vm_compute; reflexivity. Qed.

(** The ready times in [wait_list] need not ascend: the write-back of a
    last-level victim is due later than the read that caused it and was
    queued after it.  At clock 12 the read of 128 is due and stays behind
    the write of 0, whatever the memory accepts. *)
Example wait_list_not_sorted :
  CacheSystem.wait_list (cachesys Scenario.small_evicted)
    = [(12, Scenario.read 0); (12, Scenario.read 64);
       (16, Scenario.write 0); (12, Scenario.read 128)] /\
  CacheSystem.wait_list
    (CacheSystem_tick unit (fun _ w => (true, w)) (fun _ w => w)
       (CacheSystem.mk 11 [] (CacheSystem.wait_list (cachesys Scenario.small_evicted)))
       tt).1
    = [(16, Scenario.write 0); (12, Scenario.read 128)].
Proof. split_and!; vm_compute; reflexivity. Qed.

(** Scenario 2 of the specification: a write miss allocates a locked line
    and an MSHR entry; a read of the same block merges into the entry; the
    completion unlocks the line, which is dirty. *)
Example send_write_miss_merges :
  value_of (send Scenario.latency Scenario.latency_each 1 0 (Scenario.write 256)
              Scenario.single) = Some true /\
  value_of (send Scenario.latency Scenario.latency_each 1 0 (Scenario.read 256)
              (Scenario.after [Scenario.send_ 0 (Scenario.write 256)] Scenario.single))
    = Some true /\
  Cache.stats
    (Scenario.cache_at 0
       (Scenario.after [Scenario.send_ 0 (Scenario.write 256);
                       Scenario.send_ 0 (Scenario.read 256)] Scenario.single))
    cache_mshr_hit = 1 /\
  Cache.lines_at
    (Scenario.cache_at 0
       (Scenario.after [Scenario.send_ 0 (Scenario.write 256);
                       Scenario.send_ 0 (Scenario.read 256);
                       Scenario.callback_ 0 (Scenario.read 256)] Scenario.single)) 0
    = [mkNode 0 (Line.mk 256 4 false true)].
Proof. split_and!; vm_compute; reflexivity. Qed.

(** The stores of the scenarios are reached from the fresh hierarchies by
    calls that all return. *)
Example scenarios_are_reached :
  Scenario.run [Scenario.send_ 0 (Scenario.read 0)] Scenario.single
    = Ok (tt, Scenario.one_read) /\
  Scenario.run [Scenario.send_ 0 (Scenario.read 0); Scenario.send_ 0 (Scenario.write 64)]
    Scenario.single = Ok (tt, Scenario.busy) /\
  Scenario.run [Scenario.send_ 0 (Scenario.read 0); Scenario.send_ 0 (Scenario.write 64);
               Scenario.callback_ 0 (Scenario.read 0);
               Scenario.callback_ 0 (Scenario.read 64)]
    Scenario.single = Ok (tt, Scenario.filled) /\
  Scenario.run [Scenario.send_ 0 (Scenario.read 0); Scenario.send_ 0 (Scenario.read 64);
               Scenario.send_ 0 (Scenario.read 128); Scenario.send_ 0 (Scenario.read 192);
               Scenario.callback_ 1 (Scenario.read 0);
               Scenario.callback_ 1 (Scenario.read 64)]
    Scenario.two_level = Ok (tt, Scenario.two_level_retrying) /\
  Scenario.run [Scenario.send_ 0 (Scenario.read 0); Scenario.send_ 0 (Scenario.read 64);
               Scenario.send_ 0 (Scenario.read 128);
               Scenario.callback_ 1 (Scenario.read 0);
               Scenario.callback_ 1 (Scenario.read 64)]
    Scenario.two_level = Ok (tt, Scenario.two_level_retrying_one) /\
  Scenario.run [Scenario.send_ 0 (Scenario.write 0); Scenario.callback_ 1 (Scenario.read 0);
               Scenario.send_ 0 (Scenario.read 64);
               Scenario.callback_ 1 (Scenario.read 64)]
    Scenario.small = Ok (tt, Scenario.small_filled) /\
  Scenario.run [Scenario.send_ 0 (Scenario.read 128)] Scenario.small_filled
    = Ok (tt, Scenario.small_evicted) /\
  Scenario.run [Scenario.send_ 0 (Scenario.read 0)] Scenario.two_level
    = Ok (tt, Scenario.two_level_one_read) /\
  Scenario.run [Scenario.send_ 0 (Scenario.read 0); Scenario.send_ 0 (Scenario.read 64)]
    Scenario.two_level = Ok (tt, Scenario.two_level_two_reads) /\
  Scenario.run Scenario.held_calls Scenario.three_level
    = Ok (tt, Scenario.three_level_held).
Proof. split_and!; vm_compute; reflexivity. Qed.


(* ===================================================================== *)
(** * The scheduler: every policy *)
(* ===================================================================== *)

Section SchedulerOrderFacts.

Variable is_ready : Request.t -> bool.
Variable is_row_hit : Request.t -> bool.
Variable is_row_open : Request.t -> bool.
Variable pre_scope : Z.

Local Abbreviation compare := (compare is_ready is_row_hit).
Local Abbreviation scan := (scan is_ready is_row_hit).
Local Abbreviation get_head := (get_head is_ready is_row_hit is_row_open pre_scope).
Local Abbreviation rescan := (rescan is_ready is_row_hit is_row_open pre_scope).
Local Abbreviation hit_reqs := (hit_reqs is_row_hit pre_scope).
Local Abbreviation violate_hit := (violate_hit is_row_hit is_row_open pre_scope).
Local Abbreviation ready_hit := (ready_hit is_ready is_row_hit).
Local Abbreviation preferred := (preferred is_ready is_row_hit).

Lemma precedes_refl rdy h : precedes rdy h h.
Proof. right. split; [done|]. right. split; [done|lia]. Qed.

Lemma precedes_trans rdy a b c :
  precedes rdy a b -> precedes rdy b c -> precedes rdy a c.
Proof.
  unfold precedes.
  destruct (rdy a.2), (rdy b.2), (rdy c.2);
    intros [[? ?]|[? ?]] [[? ?]|[? ?]]; try done;
    first [ left; split; reflexivity | right; split; [reflexivity|lia] ].
Qed.

Lemma precedes_spelled rdy h x :
  precedes rdy h x <->
  (rdy x.2 = true -> rdy h.2 = true) /\
  (rdy h.2 = rdy x.2 ->
     Request.arrive h.2 <= Request.arrive x.2 /\
     (Request.arrive x.2 = Request.arrive h.2 -> (h.1 <= x.1)%nat)).
Proof.
  unfold precedes. destruct (rdy h.2), (rdy x.2); split.
  all: try (intros [[? ?]|[? ?]]; try done; split; [done|]; intros _; split; lia).
  all: try (intros [_ H]; right; split; [done|]; destruct (H eq_refl); lia).
  - intros _. split; done.
  - intros _. left. done.
  - intros [[? ?]|[? ?]]; done.
  - intros [H _]. by specialize (H eq_refl).
Qed.

Lemma compare_as_preferred ty h x :
  compare ty h x =
  if xorb (preferred ty h.2) (preferred ty x.2)
  then (if preferred ty h.2 then h else x)
  else by_arrival h x.
Proof. destruct ty; reflexivity. Qed.

Lemma compare_precedes ty h x :
  (h.1 < x.1)%nat ->
  (compare ty h x = h \/ compare ty h x = x) /\
  precedes (preferred ty) (compare ty h x) h /\
  precedes (preferred ty) (compare ty h x) x.
Proof.
  intros Hpos. rewrite compare_as_preferred. unfold by_arrival, precedes.
  destruct (preferred ty h.2) eqn:Hh, (preferred ty x.2) eqn:Hx; simpl;
    try destruct (Z.leb_spec (Request.arrive h.2) (Request.arrive x.2));
    rewrite ?Hh, ?Hx;
    (split; [first [by left|by right]|]);
    split;
    first [ left; split; reflexivity
          | right; split; [reflexivity|lia] ].
Qed.

Lemma fold_compare_first ty q : forall k h (Seen : ReqIter -> Prop),
  (h.1 < k)%nat -> Seen h ->
  (forall x, Seen x -> precedes (preferred ty) h x) ->
  let h' := fold_left (compare ty) (iters_from k q) h in
  (Seen h' \/ h' ∈ iters_from k q) /\
  forall x, Seen x \/ x ∈ iters_from k q -> precedes (preferred ty) h' x.
Proof.
  induction q as [|r q IH]; intros k h Seen Hk Hh Hall; simpl.
  - split; [by left|]. intros x [Hx|Hx]; [by apply Hall|].
    by apply elem_of_nil in Hx.
  - destruct (compare_precedes ty h (k, r)) as (Hc & Hch & Hcx); [simpl; lia|].
    set (c := compare ty h (k, r)) in *.
    destruct (IH (S k) c (fun x => Seen x \/ x = (k, r))) as [IH1 IH2].
    + destruct Hc as [-> | ->]; simpl; lia.
    + destruct Hc as [-> | ->]; [by left|by right].
    + intros x [Hx| ->]; [|done].
      eapply precedes_trans; [exact Hch|by apply Hall].
    + split.
      * destruct IH1 as [[H|H]|H].
        -- by left.
        -- right. apply elem_of_cons. left. exact H.
        -- right. apply elem_of_cons. by right.
      * intros x [Hx|Hx]; apply IH2.
        -- left. by left.
        -- apply elem_of_cons in Hx as [->|Hx]; [left; by right|by right].
Qed.

Lemma scan_first ty q h :
  scan ty q = Some h ->
  h ∈ iters q /\ forall x, x ∈ iters q -> precedes (preferred ty) h x.
Proof.
  unfold scan, iters. destruct q as [|r q]; simpl; [done|].
  intros [= <-].
  destruct (fold_compare_first ty q 1%nat (0%nat, r) (fun x => x = (0%nat, r)))
    as [H1 H2]; simpl; try done; try lia.
  { intros x ->. apply precedes_refl. }
  split.
  - apply elem_of_cons. destruct H1 as [->|H1]; [by left|by right].
  - intros x Hx. apply H2.
    apply elem_of_cons in Hx as [->|Hx]; [by left|by right].
Qed.

Lemma scan_none ty q : scan ty q = None <-> q = [].
Proof. unfold scan, iters. destruct q; simpl; split; done. Qed.

(** The second loop of [get_head]: among the requests it does not skip,
    the head it keeps comes first in the order of FCFSBank. *)
Lemma rescan_fold hits q : forall k acc (Seen : ReqIter -> Prop),
  match acc with
  | None => forall x, ~ Seen x
  | Some h => (h.1 < k)%nat /\ Seen h /\
              forall x, Seen x -> precedes is_ready h x
  end ->
  let kept x := Seen x \/
                (x ∈ iters_from k q /\ violate_hit hits x.2 = false) in
  match fold_left (rescan_step is_ready is_row_hit is_row_open pre_scope hits)
          (iters_from k q) acc with
  | None => forall x, ~ kept x
  | Some h' => kept h' /\ forall x, kept x -> precedes is_ready h' x
  end.
Proof.
  induction q as [|r q IH]; intros k acc Seen Hacc; simpl.
  - destruct acc as [h|].
    + destruct Hacc as (_ & Hh & Hall). split; [by left|].
      intros x [Hx|[Hx _]]; [by apply Hall|]. by apply elem_of_nil in Hx.
    + intros x [Hx|[Hx _]]; [by apply (Hacc x)|]. by apply elem_of_nil in Hx.
  - cbn [iters_from fold_left]. cbv zeta.
    set (acc1 := rescan_step is_ready is_row_hit is_row_open pre_scope hits acc (k, r)).
    specialize (IH (S k) acc1
                  (fun x => Seen x \/ (x = (k, r) /\ violate_hit hits r = false))).
    assert (Hacc1 : match acc1 with
                    | None => forall x,
                        ~ (Seen x \/ (x = (k, r) /\ violate_hit hits r = false))
                    | Some h =>
                        (h.1 < S k)%nat /\
                        (Seen h \/ (h = (k, r) /\ violate_hit hits r = false)) /\
                        forall x,
                          Seen x \/ (x = (k, r) /\ violate_hit hits r = false) ->
                          precedes is_ready h x
                    end).
    { unfold acc1, rescan_step. cbn [snd].
      destruct (violate_hit hits r) eqn:Hv.
      - destruct acc as [h|].
        + destruct Hacc as (? & ? & Hall). split; [lia|]. split; [by left|].
          intros x [Hx|[_ ?]]; [by apply Hall|done].
        + intros x [Hx|[_ ?]]; [by apply (Hacc x)|done].
      - destruct acc as [h|].
        + destruct Hacc as (Hk & Hh & Hall).
          destruct (compare_precedes FCFSBank h (k, r)) as (Hc & Hch & Hcx);
            [simpl; lia|].
          split; [destruct Hc as [-> | ->]; simpl; lia|].
          split; [destruct Hc as [-> | ->]; [by left|by right]|].
          intros x [Hx|[-> _]]; [|exact Hcx].
          eapply precedes_trans; [exact Hch|by apply Hall].
        + split; [simpl; lia|]. split; [by right|].
          intros x [Hx|[-> _]]; [by destruct (Hacc x)|apply precedes_refl]. }
    specialize (IH Hacc1). cbv zeta in IH.
    assert (Hsame : forall x,
      (Seen x \/ (x ∈ (k, r) :: iters_from (S k) q /\ violate_hit hits x.2 = false))
      <-> ((Seen x \/ (x = (k, r) /\ violate_hit hits r = false)) \/
           (x ∈ iters_from (S k) q /\ violate_hit hits x.2 = false))).
    { intros x. split.
      - intros [?|[Hx Hvx]]; [left; by left|].
        apply elem_of_cons in Hx as [->|Hx]; [left; by right|by right].
      - intros [[?|[-> ?]]|[Hx Hvx]]; [by left| |].
        + right. split; [apply elem_of_cons; by left|done].
        + right. split; [apply elem_of_cons; by right|done]. }
    match type of IH with match ?t with _ => _ end => destruct t as [h'|] end.
    + destruct IH as [IH1 IH2]. split; [by apply Hsame|].
      intros x Hx. apply IH2. by apply Hsame.
    + intros x Hx. apply (IH x). by apply Hsame.
Qed.

Lemma rescan_first q :
  match rescan q with
  | None => forall x, x ∈ iters q -> violate_hit (hit_reqs q) x.2 = true
  | Some h => h ∈ iters q /\ violate_hit (hit_reqs q) h.2 = false /\
              forall x, x ∈ iters q -> violate_hit (hit_reqs q) x.2 = false ->
                        precedes is_ready h x
  end.
Proof.
  pose proof (rescan_fold (hit_reqs q) q 0%nat None (fun _ => False)) as H.
  simpl in H. specialize (H (fun _ F => F)).
  unfold rescan, iters.
  destruct (fold_left _ _ None) as [h|].
  - destruct H as [[[]|[H1 H1']] H2]. split; [done|]. split; [done|].
    intros x Hx Hv. apply H2. by right.
  - intros x Hx. destruct (violate_hit (hit_reqs q) x.2) eqn:Hv; [done|].
    destruct (H x). by right.
Qed.

(** A request the second loop skips shares its rowgroup with a queued row
    hit, and a row hit is never skipped. *)
Lemma violate_hit_needs_hit q r :
  violate_hit (hit_reqs q) r = true ->
  is_row_hit r = false /\ exists r', r' ∈ q /\ is_row_hit r' = true.
Proof.
  unfold violate_hit, hit_reqs. intros H.
  apply andb_true_iff in H as [H Hin]. apply andb_true_iff in H as [Hh _].
  apply negb_true_iff in Hh. split; [done|].
  apply bool_decide_eq_true in Hin.
  apply list_elem_of_fmap in Hin as (r' & _ & Hr').
  apply list_elem_of_filter in Hr' as [? ?]. by exists r'.
Qed.

Lemma rescan_none q : rescan q = None -> q = [].
Proof.
  intros Hn. pose proof (rescan_first q) as H. rewrite Hn in H.
  destruct q as [|r q]; [done|]. exfalso.
  assert (H0 : (0%nat, r) ∈ iters (r :: q)) by (by apply iters_lookup).
  apply H in H0. apply violate_hit_needs_hit in H0 as (_ & r' & Hin & Hhit).
  apply list_elem_of_lookup in Hin as [j Hj].
  assert (Hj' : (j, r') ∈ iters (r :: q)) by (by apply iters_lookup).
  apply H in Hj'. apply violate_hit_needs_hit in Hj' as [Hno _].
  simpl in Hno. congruence.
Qed.

(** X1: for every policy, [get_head] returns [q.end()] on the empty queue
    and on no other, and the iterator it returns otherwise points into
    the queue, at the request it is paired with. *)
Theorem get_head_end_only_when_empty (ty : SchedType) (q : list Request.t) :
  (get_head ty q = None <-> q = []) /\
  forall i r, get_head ty q = Some (i, r) -> q !! i = Some r.
Proof.
  assert (Hscan : forall ty' i r, scan ty' q = Some (i, r) -> q !! i = Some r).
  { intros ty' i r H. apply scan_first in H as [H _]. by apply iters_lookup. }
  assert (Hre : forall i r, rescan q = Some (i, r) -> q !! i = Some r).
  { intros i r H. pose proof (rescan_first q) as H'. rewrite H in H'.
    destruct H' as [H' _]. by apply iters_lookup. }
  split.
  - split.
    + intros H. destruct q as [|r0 q']; [done|]. exfalso.
      assert (Hs : forall ty', scan ty' (r0 :: q') <> None).
      { intros ty' E. by apply scan_none in E. }
      unfold get_head in H. destruct ty; try (by apply (Hs _ H)).
      all: destruct (scan _ (r0 :: q')) as [h|] eqn:E; [|by apply (Hs _ E)].
      all: destruct (is_ready h.2 && is_row_hit h.2); [done|].
      all: by apply rescan_none in H.
    + intros ->. by destruct ty.
  - intros i r H. unfold get_head in H. destruct ty; try (by eapply Hscan).
    all: destruct (scan _ q) as [h|] eqn:E; [|done].
    all: destruct (is_ready h.2 && is_row_hit h.2);
           [inversion H; subst; by eapply Hscan|by apply Hre].
Qed.

(** X2: under FCFS, [get_head] on a queue that is not empty returns the
    request with the smallest arrival time, and of those with that
    arrival time the one met first in the queue; the controller's
    readiness and row state play no part. *)
Theorem get_head_FCFS_oldest (q : list Request.t) :
  q <> [] ->
  exists i r,
    get_head FCFS q = Some (i, r) /\ q !! i = Some r /\
    forall j r', q !! j = Some r' ->
      Request.arrive r <= Request.arrive r' /\
      (Request.arrive r' = Request.arrive r -> (i <= j)%nat).
Proof.
  intros Hq. destruct (scan FCFS q) as [[i r]|] eqn:Hs;
    [|by apply scan_none in Hs].
  exists i, r. split; [done|].
  destruct (scan_first _ _ _ Hs) as [Hin Hall].
  split; [by apply iters_lookup|].
  intros j r' Hj.
  assert (H : precedes (preferred FCFS) (i, r) (j, r'))
    by (apply Hall; by apply iters_lookup).
  apply precedes_spelled in H as [_ H]. by apply H.
Qed.

(** X3: under FCFSBank, [get_head] on a queue that is not empty returns a
    request whose bank is ready if any queued request has one; among the
    requests alike in readiness to the one returned, it has the smallest
    arrival time and, on equal arrival, the first place in the queue. *)
Theorem get_head_FCFSBank_ready_first (q : list Request.t) :
  q <> [] ->
  exists i r,
    get_head FCFSBank q = Some (i, r) /\ q !! i = Some r /\
    forall j r', q !! j = Some r' ->
      (is_ready r' = true -> is_ready r = true) /\
      (is_ready r = is_ready r' ->
         Request.arrive r <= Request.arrive r' /\
         (Request.arrive r' = Request.arrive r -> (i <= j)%nat)).
Proof.
  intros Hq. destruct (scan FCFSBank q) as [[i r]|] eqn:Hs;
    [|by apply scan_none in Hs].
  exists i, r. split; [done|].
  destruct (scan_first _ _ _ Hs) as [Hin Hall].
  split; [by apply iters_lookup|].
  intros j r' Hj.
  assert (H : precedes (preferred FCFSBank) (i, r) (j, r'))
    by (apply Hall; by apply iters_lookup).
  by apply precedes_spelled in H.
Qed.

(** X4: under FRFCFS, BLISS and Custom, [get_head] never returns a
    request that would close a row some queued request hits: the request
    returned is a row hit itself, or its row is not open, or no queued
    row hit shares its rowgroup. *)
Theorem get_head_keeps_row_hits (ty : SchedType) (q : list Request.t)
    (i : nat) (r : Request.t) :
  ty <> FCFS -> ty <> FCFSBank ->
  get_head ty q = Some (i, r) ->
  violate_hit (hit_reqs q) r = false /\
  (is_row_hit r = true \/ is_row_open r = false \/
   forall r', r' ∈ q -> is_row_hit r' = true ->
              rowgroup pre_scope r' <> rowgroup pre_scope r).
Proof.
  intros H1 H2 H.
  assert (Hv : violate_hit (hit_reqs q) r = false).
  { unfold get_head in H. destruct ty; try done.
    all: destruct (scan _ q) as [h|] eqn:E; [|done].
    all: destruct (is_ready h.2 && is_row_hit h.2) eqn:Hr.
    all: try (inversion H; subst; apply andb_true_iff in Hr as [_ Hr];
              simpl in Hr; unfold violate_hit; by rewrite Hr).
    all: pose proof (rescan_first q) as H'; rewrite H in H';
         by destruct H' as (_ & H' & _). }
  split; [done|].
  unfold violate_hit in Hv.
  destruct (is_row_hit r); [by left|]. destruct (is_row_open r); [|right; by left].
  right; right. simpl in Hv. apply bool_decide_eq_false in Hv.
  intros r' Hin Hhit E. apply Hv. unfold hit_reqs.
  apply list_elem_of_fmap. exists r'. split; [done|].
  by apply list_elem_of_filter.
Qed.

(** X5: under FRFCFS, when no queued request is both ready and a row
    hit, [get_head] falls back on FCFSBank among the requests that close
    no row a queued request hits: the one returned has a ready bank if
    any of them has, and among those alike in readiness it is the oldest,
    the first in the queue on equal arrival. *)
Theorem get_head_FRFCFS_fallback (q : list Request.t) :
  q <> [] ->
  (forall r, r ∈ q -> ready_hit r = false) ->
  exists i r,
    get_head FRFCFS q = Some (i, r) /\ q !! i = Some r /\
    violate_hit (hit_reqs q) r = false /\
    forall j r', q !! j = Some r' -> violate_hit (hit_reqs q) r' = false ->
      (is_ready r' = true -> is_ready r = true) /\
      (is_ready r = is_ready r' ->
         Request.arrive r <= Request.arrive r' /\
         (Request.arrive r' = Request.arrive r -> (i <= j)%nat)).
Proof.
  intros Hq Hno.
  destruct (scan FRFCFS q) as [h|] eqn:Hs; [|by apply scan_none in Hs].
  destruct (scan_first _ _ _ Hs) as [Hin _].
  assert (Hh : is_ready h.2 && is_row_hit h.2 = false).
  { destruct h as [k rh]. apply iters_lookup in Hin.
    apply (Hno rh). by eapply list_elem_of_lookup_2. }
  pose proof (rescan_first q) as Hre.
  destruct (rescan q) as [[i r]|] eqn:Er; [|by apply rescan_none in Er].
  destruct Hre as (Hi & Hv & Hall).
  exists i, r. unfold get_head. rewrite Hs, Hh.
  split; [done|]. split; [by apply iters_lookup|]. split; [done|].
  intros j r' Hj Hv'.
  assert (H : precedes is_ready (i, r) (j, r')).
  { apply Hall; [by apply iters_lookup|done]. }
  by apply precedes_spelled in H.
Qed.

End SchedulerOrderFacts.

(** X2, witnessed on scenario 6: C, the oldest, is returned although it is
    the only one of the three that misses the open row. *)
Lemma get_head_FCFS_oldest_witness :
  exists i r,
    get_head SchedulerScenario.all_ready SchedulerScenario.is_row_hit
      SchedulerScenario.is_row_open SchedulerScenario.pre_scope FCFS
      [SchedulerScenario.A; SchedulerScenario.B; SchedulerScenario.C] = Some (i, r) /\
    [SchedulerScenario.A; SchedulerScenario.B; SchedulerScenario.C] !! i = Some r /\
    forall j r',
      [SchedulerScenario.A; SchedulerScenario.B; SchedulerScenario.C] !! j = Some r' ->
      Request.arrive r <= Request.arrive r' /\
      (Request.arrive r' = Request.arrive r -> (i <= j)%nat).
Proof.
  apply (get_head_FCFS_oldest SchedulerScenario.all_ready
           SchedulerScenario.is_row_hit SchedulerScenario.is_row_open
           SchedulerScenario.pre_scope
           [SchedulerScenario.A; SchedulerScenario.B; SchedulerScenario.C]).
  discriminate.
Defined.

(** X3, witnessed on scenario 6. *)
Lemma get_head_FCFSBank_ready_first_witness :
  exists i r,
    get_head SchedulerScenario.all_ready SchedulerScenario.is_row_hit
      SchedulerScenario.is_row_open SchedulerScenario.pre_scope FCFSBank
      [SchedulerScenario.A; SchedulerScenario.B; SchedulerScenario.C] = Some (i, r) /\
    [SchedulerScenario.A; SchedulerScenario.B; SchedulerScenario.C] !! i = Some r /\
    forall j r',
      [SchedulerScenario.A; SchedulerScenario.B; SchedulerScenario.C] !! j = Some r' ->
      (SchedulerScenario.all_ready r' = true -> SchedulerScenario.all_ready r = true) /\
      (SchedulerScenario.all_ready r = SchedulerScenario.all_ready r' ->
         Request.arrive r <= Request.arrive r' /\
         (Request.arrive r' = Request.arrive r -> (i <= j)%nat)).
Proof.
  apply (get_head_FCFSBank_ready_first SchedulerScenario.all_ready
           SchedulerScenario.is_row_hit SchedulerScenario.is_row_open
           SchedulerScenario.pre_scope
           [SchedulerScenario.A; SchedulerScenario.B; SchedulerScenario.C]).
  discriminate.
Defined.

(** X4, witnessed on scenario 7: with no bank ready BLISS returns X, the
    row hit, and not the older Y, which would close X's row. *)
Lemma get_head_keeps_row_hits_witness :
  violate_hit SchedulerScenario.is_row_hit SchedulerScenario.is_row_open
    SchedulerScenario.pre_scope
    (hit_reqs SchedulerScenario.is_row_hit SchedulerScenario.pre_scope
       [SchedulerScenario.X; SchedulerScenario.Y]) SchedulerScenario.X = false /\
  (SchedulerScenario.is_row_hit SchedulerScenario.X = true \/
   SchedulerScenario.is_row_open SchedulerScenario.X = false \/
   forall r', r' ∈ [SchedulerScenario.X; SchedulerScenario.Y] ->
     SchedulerScenario.is_row_hit r' = true ->
     rowgroup SchedulerScenario.pre_scope r'
     <> rowgroup SchedulerScenario.pre_scope SchedulerScenario.X).
Proof.
  apply (get_head_keeps_row_hits SchedulerScenario.none_ready
           SchedulerScenario.is_row_hit SchedulerScenario.is_row_open
           SchedulerScenario.pre_scope BLISS
           [SchedulerScenario.X; SchedulerScenario.Y] 0%nat SchedulerScenario.X).
  - discriminate.
  - discriminate.
  - reflexivity.
Defined.

(** X5, witnessed on scenario 7 with no bank ready. *)
Lemma get_head_FRFCFS_fallback_witness :
  exists i r,
    get_head SchedulerScenario.none_ready SchedulerScenario.is_row_hit
      SchedulerScenario.is_row_open SchedulerScenario.pre_scope FRFCFS
      [SchedulerScenario.X; SchedulerScenario.Y] = Some (i, r) /\
    [SchedulerScenario.X; SchedulerScenario.Y] !! i = Some r /\
    violate_hit SchedulerScenario.is_row_hit SchedulerScenario.is_row_open
      SchedulerScenario.pre_scope
      (hit_reqs SchedulerScenario.is_row_hit SchedulerScenario.pre_scope
         [SchedulerScenario.X; SchedulerScenario.Y]) r = false /\
    forall j r',
      [SchedulerScenario.X; SchedulerScenario.Y] !! j = Some r' ->
      violate_hit SchedulerScenario.is_row_hit SchedulerScenario.is_row_open
        SchedulerScenario.pre_scope
        (hit_reqs SchedulerScenario.is_row_hit SchedulerScenario.pre_scope
           [SchedulerScenario.X; SchedulerScenario.Y]) r' = false ->
      (SchedulerScenario.none_ready r' = true -> SchedulerScenario.none_ready r = true) /\
      (SchedulerScenario.none_ready r = SchedulerScenario.none_ready r' ->
         Request.arrive r <= Request.arrive r' /\
         (Request.arrive r' = Request.arrive r -> (i <= j)%nat)).
Proof.
  apply (get_head_FRFCFS_fallback SchedulerScenario.none_ready
           SchedulerScenario.is_row_hit SchedulerScenario.is_row_open
           SchedulerScenario.pre_scope
           [SchedulerScenario.X; SchedulerScenario.Y]).
  - discriminate.
  - intros r _. reflexivity.
Defined.


(* ===================================================================== *)
(** * The row policy and the row table *)
(* ===================================================================== *)

Section RowPolicyMore.

Variable Command : Type.
Variable is_ready_cmd : Command -> list Z -> bool.
Variable clk : Z.
Variable table : list (list Z * RowTable.Entry).

Local Abbreviation get_victim := (get_victim Command is_ready_cmd clk table).

(** X6: the Closed and the ClosedAP policy return the key of the first
    entry of the row table, in the order of its iteration, whose rowgroup
    is ready for the command, whatever its age, and the empty vector when
    no rowgroup is ready; the entries before the one returned are not
    ready. *)
Theorem get_victim_Closed_first_ready (cmd : Command) (t : Z) :
  get_victim (RowPolicy.mk Closed t) cmd =
    first_key table (fun kv => is_ready_cmd cmd kv.1) /\
  get_victim (RowPolicy.mk ClosedAP t) cmd =
    get_victim (RowPolicy.mk Closed t) cmd /\
  ((forall kv, kv ∈ table -> is_ready_cmd cmd kv.1 = false) ->
   get_victim (RowPolicy.mk Closed t) cmd = []) /\
  (forall i kv, table !! i = Some kv -> is_ready_cmd cmd kv.1 = true ->
     (forall j kv', (j < i)%nat -> table !! j = Some kv' ->
                    is_ready_cmd cmd kv'.1 = false) ->
     get_victim (RowPolicy.mk Closed t) cmd = kv.1).
Proof.
  unfold get_victim. simpl. split_and!.
  - apply closed_loop_find.
  - reflexivity.
  - intros Hno. induction table as [|kv tbl IH]; simpl; [done|].
    rewrite (Hno kv) by (apply elem_of_cons; by left). simpl.
    apply IH. intros kv' Hin. apply Hno. apply elem_of_cons. by right.
  - induction table as [|kv0 tbl IH]; intros i kv Hi Hr Hbefore; [done|].
    simpl. destruct i as [|i].
    + simpl in Hi. inversion Hi; subst. by rewrite Hr.
    + rewrite (Hbefore 0%nat kv0) by (simpl; first [lia|done]). simpl.
      apply (IH i kv); [done|done|].
      intros j kv' Hj Hl. apply (Hbefore (S j) kv'); [lia|done].
Qed.

End RowPolicyMore.

Section RowTableFacts.

Variable Command : Type.
Variable is_opening : Command -> bool.
Variable is_accessing : Command -> bool.
Variable is_closing : Command -> bool.
Variable scope : Command -> Z.
Variable row_level : nat.

Local Abbreviation update :=
  (update Command is_opening is_accessing is_closing scope row_level).
Local Abbreviation get_hits := (get_hits row_level).
Local Abbreviation get_open_row := (get_open_row row_level).
Local Abbreviation rowgroup_of := (rowgroup_of row_level).
Local Abbreviation row_of := (row_of row_level).
Local Abbreviation closing :=
  (closing Command is_accessing is_closing scope row_level).
Local Abbreviation closing_scope := (closing_scope Command is_accessing scope row_level).

Local Abbreviation keys_are_rowgroups := (keys_are_rowgroups row_level).

Lemma rowgroup_of_length (addr_vec rg : list Z) :
  rowgroup_of addr_vec = Some rg ->
  rg = take row_level addr_vec /\ length rg = row_level.
Proof.
  unfold rowgroup_of. case_bool_decide; [|done]. intros [= <-].
  split; [done|]. rewrite length_take. lia.
Qed.

Lemma closing_spec (cmd : Command) (addr_vec : list Z) (table : Table) :
  is_closing cmd = true ->
  0 <= closing_scope cmd + 1 ->
  (Z.to_nat (closing_scope cmd + 1) <= length addr_vec)%nat ->
  map_Forall (fun (key : list Z) (_ : RowTable.Entry) =>
                (Z.to_nat (closing_scope cmd + 1) <= length key)%nat) table ->
  let n := Z.to_nat (closing_scope cmd + 1) in
  ((exists key e, table !! key = Some e /\ in_scope n addr_vec key = true) ->
   closing cmd addr_vec table
   = inr (filter (fun kv => in_scope n addr_vec kv.1 = false) table)) /\
  ((forall key e, table !! key = Some e -> in_scope n addr_vec key = false) ->
   closing cmd addr_vec table = inl NothingClosed).
Proof.
  intros Hc H0 Hlen Hkeys n. unfold closing. rewrite Hc. cbv zeta. fold n.
  rewrite bool_decide_true by done.
  split.
  - intros (key & e & Hk & Hin).
    rewrite bool_decide_true; [done|].
    apply map_subset_size. split; [apply map_filter_subseteq|].
    intros Hsub. rewrite map_subseteq_spec in Hsub.
    specialize (Hsub key e Hk).
    apply map_lookup_filter_Some_1_2 in Hsub. simpl in Hsub. congruence.
  - intros Hno.
    assert (E : filter (fun kv : list Z * RowTable.Entry =>
                          in_scope n addr_vec kv.1 = false) table = table).
    { apply map_filter_id. intros i x Hi. by apply (Hno i x). }
    rewrite E.
    rewrite bool_decide_false by lia. done.
Qed.

(** X7: a command that only opens a row ([ACT]) enters the row of the
    address with no hits and the clock as its timestamp when the rowgroup
    has no entry, and then [get_open_row] returns that row and [get_hits]
    returns 0; when the rowgroup has an entry already, the table is left
    as it was, the entry keeping its row.  No other rowgroup is touched. *)
Theorem update_opening (cmd : Command) (addr_vec rowgroup : list Z)
    (row clk : Z) (table : Table) :
  is_opening cmd = true -> is_accessing cmd = false -> is_closing cmd = false ->
  rowgroup_of addr_vec = Some rowgroup -> row_of addr_vec = Some row ->
  exists table',
    update cmd addr_vec clk table = inr table' /\
    (table !! rowgroup = None ->
       table' !! rowgroup = Some (RowTable.mkEntry row 0 clk) /\
       get_open_row addr_vec table' = inr row /\
       get_hits addr_vec false table' = inr 0) /\
    (is_Some (table !! rowgroup) -> table' = table) /\
    (forall key, key <> rowgroup -> table' !! key = table !! key).
Proof.
  intros Ho Ha Hc Hrg Hrow.
  unfold update, opening, accessing, closing.
  rewrite Hrg, Hrow, Ho, Ha, Hc.
  destruct (table !! rowgroup) as [e|] eqn:He.
  - exists table. split; [done|]. split; [done|]. split; done.
  - eexists. split; [reflexivity|]. split.
    + intros _. unfold get_open_row, get_hits. rewrite Hrg, Hrow.
      rewrite lookup_insert_eq. simpl. rewrite bool_decide_true by done.
      done.
    + split; [by intros [? ?]|].
      intros key Hne. by rewrite lookup_insert_ne.
Qed.

(** X8: a command that only accesses a row ([RD], [WR]) stops at
    [assert(match != table.end())] when the rowgroup has no entry and at
    [assert(match->second.row == row)] when another row is open there;
    when the row of the address is the open one, it increments the hits
    of the entry, an [int], and sets its timestamp to the clock, and
    touches no other rowgroup: [get_hits] then returns one more than
    before as long as the count was below [INT_MAX], and [INT_MIN] when
    it was [INT_MAX]. *)
Theorem update_accessing (cmd : Command) (addr_vec rowgroup : list Z)
    (row clk : Z) (table : Table) :
  is_opening cmd = false -> is_accessing cmd = true -> is_closing cmd = false ->
  rowgroup_of addr_vec = Some rowgroup -> row_of addr_vec = Some row ->
  (table !! rowgroup = None -> update cmd addr_vec clk table = inl NoEntry) /\
  (forall e, table !! rowgroup = Some e -> RowTable.row e <> row ->
     update cmd addr_vec clk table = inl RowMismatch) /\
  (forall e, table !! rowgroup = Some e -> RowTable.row e = row ->
     exists table' hits',
       update cmd addr_vec clk table = inr table' /\
       table' !! rowgroup = Some (RowTable.mkEntry row hits' clk) /\
       get_hits addr_vec false table = inr (RowTable.hits e) /\
       get_hits addr_vec false table' = inr hits' /\
       (- 2 ^ 31 <= RowTable.hits e < 2 ^ 31 - 1 -> hits' = RowTable.hits e + 1) /\
       (RowTable.hits e = 2 ^ 31 - 1 -> hits' = - 2 ^ 31) /\
       get_open_row addr_vec table' = inr row /\
       forall key, key <> rowgroup -> table' !! key = table !! key).
Proof.
  intros Ho Ha Hc Hrg Hrow.
  unfold update, opening, accessing, closing.
  rewrite Hrg, Hrow, Ho, Ha, Hc.
  split_and!.
  - intros ->. done.
  - intros e -> Hne. by rewrite bool_decide_false.
  - intros e He <-. rewrite He, bool_decide_true by done.
    eexists _, (wrap_int (RowTable.hits e + 1)). split; [reflexivity|].
    unfold get_hits, get_open_row. rewrite Hrg, Hrow, He.
    rewrite lookup_insert_eq.
    split_and!; try done.
    + simpl. by rewrite bool_decide_true.
    + simpl. by rewrite bool_decide_true.
    + intros Hb. unfold wrap_int. rewrite Z.mod_small; lia.
    + intros ->. reflexivity.
    + intros key Hne. by rewrite lookup_insert_ne.
Qed.

(** X9: a command that only closes rows ([PRE], [PREA]), on a table whose
    keys are rowgroups and with a scope above the row level, removes the
    entries whose key agrees with the address down to the scope of the
    command and no other, after which [get_open_row] returns -1 for
    every address in that scope; when no entry is in scope it stops at
    [assert(n_rm > 0)]. *)
Theorem update_closing (cmd : Command) (addr_vec rowgroup : list Z)
    (row clk : Z) (table : Table) :
  is_opening cmd = false -> is_accessing cmd = false -> is_closing cmd = true ->
  rowgroup_of addr_vec = Some rowgroup -> row_of addr_vec = Some row ->
  keys_are_rowgroups table ->
  0 <= scope cmd + 1 <= Z.of_nat row_level ->
  let n := Z.to_nat (scope cmd + 1) in
  ((forall key e, table !! key = Some e -> in_scope n addr_vec key = false) ->
   update cmd addr_vec clk table = inl NothingClosed) /\
  ((exists key e, table !! key = Some e /\ in_scope n addr_vec key = true) ->
   exists table',
     update cmd addr_vec clk table = inr table' /\
     (forall key, table' !! key =
                  if in_scope n addr_vec key then None else table !! key) /\
     forall addr_vec', (row_level <= length addr_vec')%nat ->
       take n addr_vec' = take n addr_vec ->
       get_open_row addr_vec' table' = inr (-1)).
Proof.
  intros Ho Ha Hc Hrg Hrow Hkeys Hn n.
  apply rowgroup_of_length in Hrg as Hrg'. destruct Hrg' as [-> Hlen].
  rewrite length_take in Hlen.
  assert (Hsc : closing_scope cmd = scope cmd)
    by (unfold closing_scope; by rewrite Ha).
  destruct (closing_spec cmd addr_vec table Hc) as [Hrm Hnone].
  { rewrite Hsc. lia. }
  { rewrite Hsc. lia. }
  { rewrite Hsc. intros key e Hk. rewrite (Hkeys key e Hk). lia. }
  rewrite Hsc in Hrm, Hnone. fold n in Hrm, Hnone.
  unfold update, opening, accessing.
  rewrite Hrg, Hrow, Ho, Ha.
  split.
  - intros Hno. by apply Hnone.
  - intros Hex. eexists. split; [by apply Hrm|].
    assert (Hlook : forall key,
      filter (fun kv : list Z * RowTable.Entry => in_scope n addr_vec kv.1 = false)
        table !! key
      = if in_scope n addr_vec key then None else table !! key).
    { intros key. destruct (in_scope n addr_vec key) eqn:E.
      - apply map_lookup_filter_None. right. intros x _. simpl. congruence.
      - destruct (table !! key) as [e|] eqn:Ek.
        + by apply map_lookup_filter_Some_2.
        + apply map_lookup_filter_None. by left. }
    split; [exact Hlook|].
    intros addr_vec' Hlen' Hpre. unfold get_open_row, rowgroup_of.
    rewrite bool_decide_true by done. rewrite Hlook.
    assert (E : in_scope n addr_vec (take row_level addr_vec') = true).
    { unfold in_scope. apply bool_decide_eq_true.
      rewrite take_take. rewrite Nat.min_l by lia. done. }
    by rewrite E.
Qed.

(** X10: an access with auto-precharge ([RDA], [WRA]: accessing and
    closing) to the open row of a rowgroup, on a table whose keys are
    rowgroups, removes the entry of that rowgroup and no other, whatever
    [spec->scope] says of the command; afterwards [get_open_row] returns
    -1 and [get_hits] returns 0 for the address. *)
Theorem update_auto_precharge (cmd : Command) (addr_vec rowgroup : list Z)
    (row clk : Z) (table : Table) (e : RowTable.Entry) :
  is_opening cmd = false -> is_accessing cmd = true -> is_closing cmd = true ->
  rowgroup_of addr_vec = Some rowgroup -> row_of addr_vec = Some row ->
  keys_are_rowgroups table ->
  table !! rowgroup = Some e -> RowTable.row e = row ->
  update cmd addr_vec clk table = inr (delete rowgroup table) /\
  get_open_row addr_vec (delete rowgroup table) = inr (-1) /\
  get_hits addr_vec true (delete rowgroup table) = inr 0.
Proof.
  intros Ho Ha Hc Hrg Hrow Hkeys He Hr.
  apply rowgroup_of_length in Hrg as Hrg'. destruct Hrg' as [Erg Hlen].
  assert (Hlen' : (row_level <= length addr_vec)%nat).
  { subst rowgroup. rewrite length_take in Hlen. lia. }
  assert (Hsc : closing_scope cmd + 1 = Z.of_nat row_level)
    by (unfold closing_scope; rewrite Ha; lia).
  set (table1 := <[rowgroup := RowTable.mkEntry (RowTable.row e)
                                 (wrap_int (RowTable.hits e + 1)) clk]> table).
  assert (Hkeys1 : keys_are_rowgroups table1).
  { apply map_Forall_insert_2; [done|exact Hkeys]. }
  destruct (closing_spec cmd addr_vec table1 Hc) as [Hrm _].
  { lia. }
  { rewrite Hsc, Nat2Z.id. lia. }
  { rewrite Hsc, Nat2Z.id. intros key x Hk. rewrite (Hkeys1 key x Hk). lia. }
  rewrite Hsc, Nat2Z.id in Hrm.
  assert (Hin : forall key x, table1 !! key = Some x ->
            in_scope row_level addr_vec key = bool_decide (key = rowgroup)).
  { intros key x Hk. unfold in_scope. apply bool_decide_ext.
    rewrite <- Erg. rewrite (take_ge key) by (rewrite (Hkeys1 key x Hk); lia).
    split; congruence. }
  split_and!.
  - unfold update, opening, accessing.
    rewrite Hrg, Hrow, Ho, Ha, He, bool_decide_true by done.
    fold table1. rewrite Hrm.
    2:{ eexists rowgroup, _. split; [apply lookup_insert_eq|].
        erewrite Hin by apply lookup_insert_eq. by apply bool_decide_eq_true. }
    f_equal. apply map_eq. intros key.
    destruct (decide (key = rowgroup)) as [->|Hne].
    + rewrite lookup_delete_eq. apply map_lookup_filter_None. right.
      intros x Hx. simpl. erewrite Hin by exact Hx.
      rewrite bool_decide_true by done. done.
    + rewrite lookup_delete_ne by done.
      destruct (table !! key) as [x|] eqn:Ek.
      * apply map_lookup_filter_Some_2.
        -- unfold table1. by rewrite lookup_insert_ne.
        -- simpl. erewrite Hin.
           ++ by apply bool_decide_eq_false.
           ++ unfold table1. rewrite lookup_insert_ne by done. exact Ek.
      * apply map_lookup_filter_None. left. unfold table1.
        by rewrite lookup_insert_ne.
  - unfold get_open_row. rewrite Hrg, lookup_delete_eq. done.
  - unfold get_hits. rewrite Hrg, Hrow, lookup_delete_eq. done.
Qed.

(** X11: [update] keeps the keys of the table rowgroups: when every key
    has [int(T::Level::Row)] levels before a call that returns, every key
    has afterwards, for every command. *)
Theorem update_keys_are_rowgroups (cmd : Command) (addr_vec : list Z)
    (clk : Z) (table table' : Table) :
  keys_are_rowgroups table ->
  update cmd addr_vec clk table = inr table' ->
  keys_are_rowgroups table'.
Proof.
  intros Hkeys. unfold update.
  destruct (rowgroup_of addr_vec) as [rg|] eqn:Hrg; [|done].
  destruct (row_of addr_vec) as [row|]; [|done].
  apply rowgroup_of_length in Hrg as [_ Hlen].
  assert (H1 : keys_are_rowgroups
                 (opening Command is_opening cmd rg row clk table)).
  { unfold opening. destruct (is_opening cmd); [|done].
    destruct (table !! rg); [done|]. by apply map_Forall_insert_2. }
  destruct (accessing _ _ _ _ _ _ _) as [f|table1] eqn:Hacc; [done|].
  assert (H2 : keys_are_rowgroups table1).
  { unfold accessing in Hacc. destruct (is_accessing cmd); [|by inversion Hacc].
    destruct (_ !! rg) as [e|]; [|done].
    case_bool_decide; [|done]. inversion Hacc; subst.
    by apply map_Forall_insert_2. }
  unfold closing. destruct (is_closing cmd); [|by intros [= <-]].
  case_bool_decide; [|done]. case_bool_decide; [|done].
  intros [= <-]. intros key x Hk.
  apply map_lookup_filter_Some_1_1 in Hk. by apply (H2 key x).
Qed.

End RowTableFacts.

(** X7, witnessed: [ACT] to row 4 of bank 2, which is closed. *)
Lemma update_opening_witness :
  exists table',
    RowTableScenario.update RowTableScenario.ACT [0; 0; 2; 4; 0] 30
      RowTableScenario.two_open = inr table' /\
    (RowTableScenario.two_open !! [0; 0; 2] = None ->
       table' !! [0; 0; 2] = Some (RowTable.mkEntry 4 0 30) /\
       get_open_row RowTableScenario.row_level [0; 0; 2; 4; 0] table' = inr 4 /\
       get_hits RowTableScenario.row_level [0; 0; 2; 4; 0] false table' = inr 0) /\
    (is_Some (RowTableScenario.two_open !! [0; 0; 2]) ->
       table' = RowTableScenario.two_open) /\
    (forall key, key <> [0; 0; 2] ->
       table' !! key = RowTableScenario.two_open !! key).
Proof.
  apply (update_opening RowTableScenario.Command RowTableScenario.is_opening
           RowTableScenario.is_accessing RowTableScenario.is_closing
           RowTableScenario.scope RowTableScenario.row_level
           RowTableScenario.ACT [0; 0; 2; 4; 0] [0; 0; 2] 4 30
           RowTableScenario.two_open); reflexivity.
Defined.

(** X8, witnessed: [RD] to the open row 5 of bank 0, whose entry counts two
    hits. *)
Lemma update_accessing_witness :
  exists table',
    RowTableScenario.update RowTableScenario.RD [0; 0; 0; 5; 3] 30
      RowTableScenario.two_open = inr table' /\
    table' !! [0; 0; 0] = Some (RowTable.mkEntry 5 3 30) /\
    get_hits RowTableScenario.row_level [0; 0; 0; 5; 3] false
      RowTableScenario.two_open = inr 2 /\
    get_hits RowTableScenario.row_level [0; 0; 0; 5; 3] false table' = inr 3 /\
    get_open_row RowTableScenario.row_level [0; 0; 0; 5; 3] table' = inr 5.
Proof.
  assert (He : RowTableScenario.two_open !! [0; 0; 0]
               = Some (RowTable.mkEntry 5 2 17)) by (vm_compute; reflexivity).
  destruct (update_accessing RowTableScenario.Command RowTableScenario.is_opening
              RowTableScenario.is_accessing RowTableScenario.is_closing
              RowTableScenario.scope RowTableScenario.row_level
              RowTableScenario.RD [0; 0; 0; 5; 3] [0; 0; 0] 5 30
              RowTableScenario.two_open eq_refl eq_refl eq_refl eq_refl eq_refl)
    as (_ & _ & H).
  destruct (H _ He eq_refl) as (table' & hits' & Hrun & Hent & Hbefore & Hafter
                                & Hplus & _ & Hopen & _).
  assert (Hh : hits' = 3) by (apply Hplus; simpl; lia).
  subst hits'. exists table'. split_and!; assumption.
Defined.

Lemma two_open_keys :
  keys_are_rowgroups RowTableScenario.row_level RowTableScenario.two_open.
Proof.
  unfold RowTableScenario.two_open.
  apply map_Forall_insert_2; [reflexivity|].
  apply map_Forall_insert_2; [reflexivity|].
  apply map_Forall_empty.
Defined.

(** X9, witnessed: [PREA] to rank 0 closes both banks. *)
Lemma update_closing_witness :
  ((forall key e, RowTableScenario.two_open !! key = Some e ->
      in_scope 2 [0; 0; 1; 9; 0] key = false) ->
   RowTableScenario.update RowTableScenario.PREA [0; 0; 1; 9; 0] 30
     RowTableScenario.two_open = inl NothingClosed) /\
  ((exists key e, RowTableScenario.two_open !! key = Some e /\
                  in_scope 2 [0; 0; 1; 9; 0] key = true) ->
   exists table',
     RowTableScenario.update RowTableScenario.PREA [0; 0; 1; 9; 0] 30
       RowTableScenario.two_open = inr table' /\
     (forall key, table' !! key =
                  if in_scope 2 [0; 0; 1; 9; 0] key then None
                  else RowTableScenario.two_open !! key) /\
     forall addr_vec', (RowTableScenario.row_level <= length addr_vec')%nat ->
       take 2 addr_vec' = take 2 [0; 0; 1; 9; 0] ->
       get_open_row RowTableScenario.row_level addr_vec' table' = inr (-1)).
Proof.
  apply (update_closing RowTableScenario.Command RowTableScenario.is_opening
           RowTableScenario.is_accessing RowTableScenario.is_closing
           RowTableScenario.scope RowTableScenario.row_level
           RowTableScenario.PREA [0; 0; 1; 9; 0] [0; 0; 1] 9 30
           RowTableScenario.two_open);
    first [reflexivity | exact two_open_keys | (vm_compute; split; discriminate)].
Defined.

(** X10, witnessed: [RDA] to the open row 9 of bank 1. *)
Lemma update_auto_precharge_witness :
  RowTableScenario.update RowTableScenario.RDA [0; 0; 1; 9; 0] 30
    RowTableScenario.two_open = inr (delete [0; 0; 1] RowTableScenario.two_open) /\
  get_open_row RowTableScenario.row_level [0; 0; 1; 9; 0]
    (delete [0; 0; 1] RowTableScenario.two_open) = inr (-1) /\
  get_hits RowTableScenario.row_level [0; 0; 1; 9; 0] true
    (delete [0; 0; 1] RowTableScenario.two_open) = inr 0.
Proof.
  apply (update_auto_precharge RowTableScenario.Command RowTableScenario.is_opening
           RowTableScenario.is_accessing RowTableScenario.is_closing
           RowTableScenario.scope RowTableScenario.row_level
           RowTableScenario.RDA [0; 0; 1; 9; 0] [0; 0; 1] 9 30
           RowTableScenario.two_open (RowTable.mkEntry 9 0 20));
    first [reflexivity | exact two_open_keys].
Defined.

(** X11, witnessed: [PRE] to bank 0. *)
Lemma update_keys_are_rowgroups_witness :
  keys_are_rowgroups RowTableScenario.row_level
    (<[ [0; 0; 1] := RowTable.mkEntry 9 0 20 ]> ∅).
Proof.
  apply (update_keys_are_rowgroups RowTableScenario.Command
           RowTableScenario.is_opening RowTableScenario.is_accessing
           RowTableScenario.is_closing RowTableScenario.scope
           RowTableScenario.row_level RowTableScenario.PRE [0; 0; 0; 5; 0] 30
           RowTableScenario.two_open).
  - exact two_open_keys.
  - vm_compute. reflexivity.
Defined.


(* ===================================================================== *)
(** * The geometry the constructor derives *)
(* ===================================================================== *)

Lemma land_pred_pow2 x :
  0 < x -> Z.land x (x - 1) = 0 -> x = 2 ^ Z.log2 x.
Proof.
  intros Hx Hl.
  destruct (Z.log2_spec x Hx) as [Hlo Hhi].
  destruct (decide (x = 2 ^ Z.log2 x)) as [|Hne]; [done|]. exfalso.
  assert (Hk : 0 <= Z.log2 x) by apply Z.log2_nonneg.
  assert (H1 : Z.log2 (x - 1) = Z.log2 x).
  { apply Z.log2_unique; [done|]. rewrite Z.pow_succ_r in Hhi by done.
    rewrite Z.pow_succ_r by done. lia. }
  assert (Hb : Z.testbit (Z.land x (x - 1)) (Z.log2 x) = true).
  { rewrite Z.land_spec, (Z.bit_log2 x) by done.
    rewrite <- H1. rewrite Z.bit_log2; [done|].
    assert (0 < 2 ^ Z.log2 x) by (apply Z.pow_pos_nonneg; lia). lia. }
  rewrite Hl, Z.bits_0 in Hb. done.
Qed.

Lemma shiftr_index_tag k x y :
  0 <= k ->
  Z.land x (2 ^ k - 1) = Z.land y (2 ^ k - 1) ->
  Z.shiftr x k = Z.shiftr y k -> x = y.
Proof.
  intros Hk Hi Ht.
  assert (E : 2 ^ k - 1 = Z.ones k) by (rewrite Z.ones_equiv; lia).
  rewrite E, !Z.land_ones in Hi by done.
  rewrite !Z.shiftr_div_pow2 in Ht by done.
  assert (0 < 2 ^ k) by (apply Z.pow_pos_nonneg; lia).
  rewrite (Z.div_mod x (2 ^ k)), (Z.div_mod y (2 ^ k)) by lia. congruence.
Qed.

Lemma align_as_shift q a :
  0 <= q -> Z.land a (Z.lnot (2 ^ q - 1)) = Z.shiftl (Z.shiftr a q) q.
Proof.
  intros Hq.
  assert (E : 2 ^ q - 1 = Z.ones q) by (rewrite Z.ones_equiv; lia).
  rewrite E, <- Z.ldiff_land. by apply Z.ldiff_ones_r.
Qed.

Lemma shiftl_inj q x y : 0 <= q -> Z.shiftl x q = Z.shiftl y q -> x = y.
Proof.
  intros Hq H. rewrite !Z.shiftl_mul_pow2 in H by done.
  assert (0 < 2 ^ q) by (apply Z.pow_pos_nonneg; lia). nia.
Qed.

Lemma new_geometry (size assoc block_size mshr_entry_num : Z)
    (level : CacheLevel) (first last : bool) :
  sanity_checks size assoc block_size = true ->
  0 < block_size -> 0 < assoc ->
  let C := Cache.new size assoc block_size mshr_entry_num level first last in
  (block_size * assoc <= size ->
   Cache.set_num (Cache.cfg C) * block_size * assoc = size /\
   forall a, 0 <= Cache.get_index C a < Cache.set_num (Cache.cfg C)) /\
  (forall a b,
     Cache.get_index C a = Cache.get_index C b /\
     Cache.get_tag C a = Cache.get_tag C b <->
     Cache.align C a = Cache.align C b) /\
  coherent C.
Proof.
  intros Hchk Hb Ha C.
  unfold sanity_checks in Hchk.
  apply andb_true_iff in Hchk as [Hchk Hge]. apply andb_true_iff in Hchk as [Hchk Hpa].
  apply andb_true_iff in Hchk as [Hps Hpb].
  apply Z.eqb_eq in Hps, Hpb, Hpa. apply Z.geb_le in Hge.
  apply land_pred_pow2 in Hps; [|lia]. apply land_pred_pow2 in Hpb; [|done].
  apply land_pred_pow2 in Hpa; [|done].
  set (p := Z.log2 size) in *. set (q := Z.log2 block_size) in *.
  set (r := Z.log2 assoc) in *.
  assert (Hp : 0 <= p) by apply Z.log2_nonneg.
  assert (Hq : 0 <= q) by apply Z.log2_nonneg.
  assert (Hr : 0 <= r) by apply Z.log2_nonneg.
  assert (Hba : block_size * assoc = 2 ^ (q + r)).
  { rewrite Z.pow_add_r by done. congruence. }
  assert (Hsets : (q + r <= p /\ size / (block_size * assoc) = 2 ^ (p - q - r)) \/
                  (p < q + r /\ size / (block_size * assoc) = 0)).
  { destruct (Z_le_gt_dec (q + r) p) as [Hle|Hgt].
    - left. split; [done|]. rewrite Hba. rewrite Hps at 1.
      replace p with ((p - q - r) + (q + r)) at 1 by lia.
      rewrite Z.pow_add_r by lia. apply Z.div_mul.
      assert (0 < 2 ^ (q + r)) by (apply Z.pow_pos_nonneg; lia). lia.
    - right. split; [lia|]. apply Z.div_small. rewrite Hba, Hps.
      split; [apply Z.pow_nonneg; lia|]. apply Z.pow_lt_mono_r; lia. }
  assert (Hblock : forall a b,
    Cache.get_index C a = Cache.get_index C b /\
    Cache.get_tag C a = Cache.get_tag C b <->
    Z.shiftr a q = Z.shiftr b q).
  { intros a b. unfold Cache.get_index, Cache.get_tag. simpl.
    unfold Cache.calc_log2. fold q.
    destruct Hsets as [[Hle ->]|[Hlt ->]].
    - rewrite Z.log2_pow2 by lia.
      replace (p - q - r + q) with (q + (p - q - r)) by lia.
      rewrite <- !Z.shiftr_shiftr by lia.
      split.
      + intros [Hi Ht]. eapply shiftr_index_tag; [|exact Hi|exact Ht]. lia.
      + intros ->. done.
    - simpl. rewrite !Z.land_m1_r. split; [by intros [? _]|].
      intros E. split; [done|]. exact E. }
  assert (Halign : forall a b,
    Cache.align C a = Cache.align C b <-> Z.shiftr a q = Z.shiftr b q).
  { intros a b. unfold Cache.align. simpl. rewrite Hpb. fold q.
    rewrite !align_as_shift by done. split.
    - by apply shiftl_inj.
    - by intros ->. }
  split_and!.
  - intros Hfit. destruct Hsets as [[Hle Hs]|[Hlt _]].
    2:{ exfalso. rewrite Hba, Hps in Hfit.
        assert (2 ^ p < 2 ^ (q + r)) by (apply Z.pow_lt_mono_r; lia). lia. }
    simpl. rewrite Hs. split.
    + rewrite <- Z.mul_assoc, Hba, <- Z.pow_add_r by lia.
      transitivity (2 ^ p); [f_equal; lia|by rewrite <- Hps].
    + intros a. unfold Cache.get_index. simpl. rewrite Hs.
      assert (E : 2 ^ (p - q - r) - 1 = Z.ones (p - q - r))
        by (rewrite Z.ones_equiv; lia).
      rewrite E, Z.land_ones by lia. apply Z.mod_pos_bound.
      apply Z.pow_pos_nonneg; lia.
  - intros a b. rewrite Hblock, Halign. done.
  - intros a b Hi Ht. apply Halign. apply Hblock. done.
Qed.

Lemma new_coherent (size assoc block_size mshr_entry_num : Z)
    (level : CacheLevel) (first last : bool) :
  sanity_checks size assoc block_size = true ->
  0 < block_size -> 0 < assoc ->
  coherent (Cache.new size assoc block_size mshr_entry_num level first last).
Proof. intros H1 H2 H3. by apply new_geometry. Qed.

(** X12: for a cache built by the constructor on sizes that pass its four
    sanity checks (with a block size and an associativity that are
    positive), the number of sets times the block size times the
    associativity is the size when the size holds a set at all, every set
    index lies below the number of sets then, and two addresses share set
    index and tag exactly when [align] sends them to the same block. *)
Theorem constructor_geometry (size assoc block_size mshr_entry_num : Z)
    (level : CacheLevel) (first last : bool) :
  sanity_checks size assoc block_size = true ->
  0 < block_size -> 0 < assoc ->
  let C := Cache.new size assoc block_size mshr_entry_num level first last in
  (block_size * assoc <= size ->
   Cache.set_num (Cache.cfg C) * block_size * assoc = size /\
   forall a, 0 <= Cache.get_index C a < Cache.set_num (Cache.cfg C)) /\
  (forall a b,
     Cache.get_index C a = Cache.get_index C b /\
     Cache.get_tag C a = Cache.get_tag C b <->
     Cache.align C a = Cache.align C b) /\
  coherent C.
Proof. apply new_geometry. Qed.

(** X12, witnessed on the last-level cache of the scenarios. *)
Lemma constructor_geometry_witness :
  (64 * 2 <= 128 ->
   Cache.set_num (Cache.cfg Scenario.llc) * 64 * 2 = 128 /\
   forall a, 0 <= Cache.get_index Scenario.llc a
             < Cache.set_num (Cache.cfg Scenario.llc)) /\
  (forall a b,
     Cache.get_index Scenario.llc a = Cache.get_index Scenario.llc b /\
     Cache.get_tag Scenario.llc a = Cache.get_tag Scenario.llc b <->
     Cache.align Scenario.llc a = Cache.align Scenario.llc b) /\
  coherent Scenario.llc.
Proof.
  apply (constructor_geometry 128 2 64 2 L3 true true); reflexivity.
Defined.


(* ===================================================================== *)
(** * A lone last-level cache stays well-formed *)
(* ===================================================================== *)

(** ** The lists of the sets *)

Lemma NoDup_fmap_eq {A B} (f : A -> B) (l : list A) x y :
  NoDup (f <$> l) -> x ∈ l -> y ∈ l -> f x = f y -> x = y.
Proof.
  induction l as [|z l IH]; intros Hnd Hx Hy E.
  - by apply elem_of_nil in Hx.
  - simpl in Hnd. apply NoDup_cons in Hnd as [Hz Hnd].
    apply elem_of_cons in Hx as [->|Hx]; apply elem_of_cons in Hy as [->|Hy].
    + done.
    + destruct Hz. rewrite E. apply list_elem_of_fmap. eauto.
    + destruct Hz. rewrite <- E. apply list_elem_of_fmap. eauto.
    + by apply IH.
Qed.

Lemma erase_node_sublist i l : sublist (erase_node i l) l.
Proof.
  induction l as [|n l IH]; simpl; [done|].
  destruct (Nat.eqb (node_id n) i).
  - by apply sublist_cons.
  - by apply sublist_skip.
Qed.

Lemma erase_node_elem i l n :
  NoDup (node_id <$> l) ->
  n ∈ erase_node i l <-> n ∈ l /\ node_id n <> i.
Proof.
  induction l as [|m l IH]; intros Hnd; simpl.
  - rewrite elem_of_nil. split; [done|by intros [? _]].
  - simpl in Hnd. apply NoDup_cons in Hnd as [Hm Hnd].
    destruct (Nat.eqb_spec (node_id m) i) as [E|E].
    + rewrite elem_of_cons. split.
      * intros Hin. split; [by right|]. intros E'. apply Hm. rewrite E, <- E'.
        apply list_elem_of_fmap. eauto.
      * intros [[->|Hin] Hne]; done.
    + rewrite !elem_of_cons, (IH Hnd). split.
      * intros [->|[? ?]]; [split; [by left|done]|split; [by right|done]].
      * intros [[->|?] ?]; [by left|by right].
Qed.

Lemma erase_node_length i l :
  i ∈ node_id <$> l -> S (length (erase_node i l)) = length l.
Proof.
  induction l as [|m l IH]; simpl; intros Hin.
  - by apply elem_of_nil in Hin.
  - destruct (Nat.eqb_spec (node_id m) i) as [E|E]; [done|].
    simpl. f_equal. apply IH. apply elem_of_cons in Hin as [Hin|Hin]; done.
Qed.

Lemma erase_node_app i l l' :
  i ∈ node_id <$> l -> erase_node i (l ++ l') = erase_node i l ++ l'.
Proof.
  induction l as [|m l IH]; simpl; intros Hin.
  - by apply elem_of_nil in Hin.
  - destruct (Nat.eqb_spec (node_id m) i) as [E|E]; [done|].
    simpl. f_equal. apply IH. apply elem_of_cons in Hin as [Hin|Hin]; done.
Qed.

Lemma update_node_assigned i f l :
  NoDup (node_id <$> l) -> update_node i f l = assigned i f <$> l.
Proof.
  induction l as [|m l IH]; intros Hnd; simpl; [done|].
  simpl in Hnd. apply NoDup_cons in Hnd as [Hm Hnd].
  unfold assigned at 1. destruct (Nat.eqb_spec (node_id m) i) as [E|E].
  - f_equal. clear IH. induction l as [|k l IH]; simpl; [done|].
    simpl in Hm, Hnd. apply NoDup_cons in Hnd as [_ Hnd].
    apply not_elem_of_cons in Hm as [Hk Hm].
    rewrite <- IH by done.
    unfold assigned. destruct (Nat.eqb_spec (node_id k) i); [|done].
    congruence.
  - f_equal. by apply IH.
Qed.

Lemma update_node_app_new i f l x :
  (forall n, n ∈ l -> node_id n <> i) ->
  update_node i f (l ++ [mkNode i x]) = l ++ [mkNode i (f x)].
Proof.
  induction l as [|m l IH]; intros Hne; simpl.
  - by rewrite Nat.eqb_refl.
  - destruct (Nat.eqb_spec (node_id m) i) as [E|E].
    + destruct (Hne m); [apply elem_of_cons; by left|done].
    + f_equal. apply IH. intros n Hn. apply Hne. apply elem_of_cons. by right.
Qed.

Lemma node_id_assigned i f n : node_id (assigned i f n) = node_id n.
Proof. unfold assigned. by destruct (Nat.eqb _ _). Qed.

Lemma find_tag_Some tg l n :
  find_tag tg l = Some n -> n ∈ l /\ Line.tag (line n) = tg.
Proof.
  unfold find_tag. intros H. apply find_some in H as [Hin Ht].
  split; [by apply list_elem_of_In|]. by apply Z.eqb_eq.
Qed.

Lemma find_tag_None tg l n :
  find_tag tg l = None -> n ∈ l -> Line.tag (line n) <> tg.
Proof.
  unfold find_tag. intros H Hin. apply list_elem_of_In in Hin.
  pose proof (find_none _ _ H n Hin) as Hn. simpl in Hn. by apply Z.eqb_neq.
Qed.

Lemma get_index_cfg C C' a :
  Cache.cfg C' = Cache.cfg C -> Cache.get_index C' a = Cache.get_index C a.
Proof. unfold Cache.get_index. by intros ->. Qed.

Lemma get_tag_cfg C C' a :
  Cache.cfg C' = Cache.cfg C -> Cache.get_tag C' a = Cache.get_tag C a.
Proof. unfold Cache.get_tag. by intros ->. Qed.

Lemma align_cfg C C' a :
  Cache.cfg C' = Cache.cfg C -> Cache.align C' a = Cache.align C a.
Proof. unfold Cache.align. by intros ->. Qed.

Lemma coherent_cfg C C' :
  Cache.cfg C' = Cache.cfg C -> coherent C -> coherent C'.
Proof.
  intros E H a b. rewrite !(get_index_cfg _ _ _ E), !(get_tag_cfg _ _ _ E),
    !(align_cfg _ _ _ E). apply H.
Qed.

Lemma lone_cfg C C' : Cache.cfg C' = Cache.cfg C -> lone C -> lone C'.
Proof. unfold lone. by intros ->. Qed.

(** ** What keeps a cache well-formed *)

Lemma wf_same C C' :
  well_formed C ->
  Cache.cfg C' = Cache.cfg C -> Cache.next_node C' = Cache.next_node C ->
  Cache.mshr_entries C' = Cache.mshr_entries C ->
  (forall i, Cache.lines_at C' i = Cache.lines_at C i) ->
  well_formed C'.
Proof.
  intros [Hs Hm] Hc Hn He Hl. split.
  - intros idx. rewrite Hl. destruct (Hs idx) as (H1 & H2 & H3 & H4).
    unfold set_ok. rewrite Hc, Hn. split_and!; try done.
    intros n Hin. rewrite (get_index_cfg _ _ _ Hc), (get_tag_cfg _ _ _ Hc).
    by apply H4.
  - destruct Hm as (M1 & M2 & M3 & M4). unfold mshr_ok. rewrite He, Hc.
    split_and!; try done.
    + intros a h Hin. rewrite Hl. by apply M3.
    + intros idx n. rewrite Hl. apply M4.
Qed.

(** Every line of a set is replaced by one with the same node, address,
    tag and lock. *)
Lemma wf_map C C' idx (g : Node -> Node) :
  well_formed C ->
  (forall n, node_id (g n) = node_id n /\
             Line.addr (line (g n)) = Line.addr (line n) /\
             Line.tag (line (g n)) = Line.tag (line n) /\
             Line.lock (line (g n)) = Line.lock (line n)) ->
  Cache.cfg C' = Cache.cfg C -> Cache.next_node C' = Cache.next_node C ->
  Cache.mshr_entries C' = Cache.mshr_entries C ->
  Cache.lines_at C' idx = g <$> Cache.lines_at C idx ->
  (forall i, i <> idx -> Cache.lines_at C' i = Cache.lines_at C i) ->
  well_formed C'.
Proof.
  intros [Hs Hm] Hg Hc Hn He Hl Ho. split.
  - intros i. destruct (Hs i) as (H1 & H2 & H3 & H4).
    unfold set_ok. rewrite Hc, Hn.
    destruct (decide (i = idx)) as [->|Hne].
    + rewrite Hl. split_and!.
      * rewrite <- list_fmap_compose.
        erewrite list_fmap_ext; [exact H1|]. intros ? n _. simpl. apply Hg.
      * rewrite <- list_fmap_compose.
        erewrite list_fmap_ext; [exact H2|]. intros ? n _. simpl. apply Hg.
      * unfold size_. rewrite length_fmap. exact H3.
      * intros n' Hin. apply list_elem_of_fmap in Hin as (n & -> & Hin).
        destruct (Hg n) as (-> & -> & -> & _).
        rewrite (get_index_cfg _ _ _ Hc), (get_tag_cfg _ _ _ Hc). by apply H4.
    + rewrite (Ho i Hne). split_and!; try done.
      intros n Hin. rewrite (get_index_cfg _ _ _ Hc), (get_tag_cfg _ _ _ Hc).
      by apply H4.
  - destruct Hm as (M1 & M2 & M3 & M4). unfold mshr_ok. rewrite He, Hc.
    split_and!; try done.
    + intros a h Hin. destruct (M3 a h Hin) as (n & Hn1 & Hn2 & Hn3 & Hn4).
      destruct (decide (h.1 = idx)) as [E|Hne].
      * exists (g n). destruct (Hg n) as (-> & -> & _ & ->).
        split_and!; try done. rewrite E, Hl. apply list_elem_of_fmap.
        exists n. split; [done|]. by rewrite <- E.
      * exists n. by rewrite (Ho _ Hne).
    + intros i n' Hin Hlock. destruct (decide (i = idx)) as [->|Hne].
      * rewrite Hl in Hin. apply list_elem_of_fmap in Hin as (n & -> & Hin).
        destruct (Hg n) as (Hid & _ & _ & Hlk). rewrite Hid.
        apply M4; [done|congruence].
      * rewrite (Ho _ Hne) in Hin. by apply M4.
Qed.

(** An unlocked line is erased. *)
Lemma wf_erase C C' idx v :
  well_formed C ->
  v ∈ Cache.lines_at C idx -> Line.lock (line v) = false ->
  Cache.cfg C' = Cache.cfg C -> Cache.next_node C' = Cache.next_node C ->
  Cache.mshr_entries C' = Cache.mshr_entries C ->
  Cache.lines_at C' idx = erase_node (node_id v) (Cache.lines_at C idx) ->
  (forall i, i <> idx -> Cache.lines_at C' i = Cache.lines_at C i) ->
  well_formed C' /\
  size_ (Cache.lines_at C' idx) = size_ (Cache.lines_at C idx) - 1.
Proof.
  intros [Hs Hm] Hv Hlk Hc Hn He Hl Ho.
  assert (Hlen : size_ (Cache.lines_at C' idx) = size_ (Cache.lines_at C idx) - 1).
  { unfold size_. rewrite Hl.
    rewrite <- (erase_node_length (node_id v) (Cache.lines_at C idx)).
    - lia.
    - apply list_elem_of_fmap. eauto. }
  split; [|exact Hlen]. split.
  - intros i. destruct (Hs i) as (H1 & H2 & H3 & H4).
    unfold set_ok. rewrite Hc, Hn.
    destruct (decide (i = idx)) as [->|Hne].
    + split_and!.
      * rewrite Hl. eapply sublist_NoDup; [exact H1|apply fmap_sublist, erase_node_sublist].
      * rewrite Hl. eapply sublist_NoDup; [exact H2|apply fmap_sublist, erase_node_sublist].
      * lia.
      * intros n Hin. rewrite Hl in Hin. apply erase_node_elem in Hin as [Hin _]; [|done].
        rewrite (get_index_cfg _ _ _ Hc), (get_tag_cfg _ _ _ Hc). by apply H4.
    + rewrite (Ho i Hne). split_and!; try done.
      intros n Hin. rewrite (get_index_cfg _ _ _ Hc), (get_tag_cfg _ _ _ Hc).
      by apply H4.
  - destruct Hm as (M1 & M2 & M3 & M4). unfold mshr_ok. rewrite He, Hc.
    split_and!; try done.
    + intros a h Hin. destruct (M3 a h Hin) as (n & Hn1 & Hn2 & Hn3 & Hn4).
      exists n. split_and!; try done.
      destruct (decide (h.1 = idx)) as [E|Hne].
      * rewrite E, Hl. destruct (Hs idx) as (H1 & _).
        apply erase_node_elem; [done|]. rewrite E in Hn1. split; [done|].
        intros E'. assert (n = v) by (by eapply (NoDup_fmap_eq node_id)).
        subst n. congruence.
      * by rewrite (Ho _ Hne).
    + intros i n Hin Hlock. apply M4; [|done].
      destruct (decide (i = idx)) as [->|Hne].
      * rewrite Hl in Hin. destruct (Hs idx) as (H1 & _).
        by apply erase_node_elem in Hin as [Hin _].
      * by rewrite (Ho _ Hne) in Hin.
Qed.

(** The hit path of [send]: the line found is replaced, at the back of the
    list, by a new unlocked line of the same set and tag. *)
Lemma wf_hit C C' idx l a d :
  well_formed C ->
  find_tag (Cache.get_tag C a) (Cache.lines_at C idx) = Some l ->
  Line.lock (line l) = false ->
  Cache.get_index C a = idx ->
  Cache.cfg C' = Cache.cfg C -> Cache.next_node C' = S (Cache.next_node C) ->
  Cache.mshr_entries C' = Cache.mshr_entries C ->
  Cache.lines_at C' idx =
    erase_node (node_id l)
      (Cache.lines_at C idx ++
       [mkNode (Cache.next_node C) (Line.mk a (Cache.get_tag C a) false d)]) ->
  (forall i, i <> idx -> Cache.lines_at C' i = Cache.lines_at C i) ->
  well_formed C'.
Proof.
  intros [Hs Hm] Hf Hlk Hidx Hc Hn He Hl Ho.
  apply find_tag_Some in Hf as [Hin Htag].
  rewrite erase_node_app in Hl by (apply list_elem_of_fmap; eauto).
  split.
  - intros i. destruct (Hs i) as (H1 & H2 & H3 & H4).
    unfold set_ok. rewrite Hc, Hn.
    destruct (decide (i = idx)) as [->|Hne].
    + rewrite Hl. split_and!.
      * rewrite fmap_app. apply NoDup_app. split_and!.
        -- eapply sublist_NoDup; [exact H1|apply fmap_sublist, erase_node_sublist].
        -- intros x Hx Hx'. apply list_elem_of_fmap in Hx as (n & -> & Hn').
           apply erase_node_elem in Hn' as [Hn' _]; [|done].
           apply H4 in Hn' as [Hlt _]. simpl in Hx'.
           apply list_elem_of_singleton in Hx'. lia.
        -- simpl. apply NoDup_singleton.
      * rewrite fmap_app. apply NoDup_app. split_and!.
        -- eapply sublist_NoDup; [exact H2|apply fmap_sublist, erase_node_sublist].
        -- intros x Hx Hx'. apply list_elem_of_fmap in Hx as (n & -> & Hn').
           apply erase_node_elem in Hn' as [Hn' Hne]; [|done].
           simpl in Hx'. apply list_elem_of_singleton in Hx'.
           apply Hne. f_equal.
           eapply (NoDup_fmap_eq (fun n => Line.tag (line n))); try done.
           congruence.
        -- simpl. apply NoDup_singleton.
      * unfold size_ in *. rewrite length_app. simpl.
        pose proof (erase_node_length (node_id l) (Cache.lines_at C idx)) as E.
        rewrite <- E in H3 by (apply list_elem_of_fmap; eauto). lia.
      * intros n Hn'. apply elem_of_app in Hn' as [Hn'|Hn'].
        -- apply erase_node_elem in Hn' as [Hn' _]; [|done].
           rewrite (get_index_cfg _ _ _ Hc), (get_tag_cfg _ _ _ Hc).
           destruct (H4 n Hn') as (? & ? & ?). split_and!; try done. lia.
        -- apply list_elem_of_singleton in Hn'. subst n. simpl.
           rewrite (get_index_cfg _ _ _ Hc), (get_tag_cfg _ _ _ Hc).
           split_and!; try done. lia.
    + rewrite (Ho i Hne). split_and!; try done.
      intros n Hn'. rewrite (get_index_cfg _ _ _ Hc), (get_tag_cfg _ _ _ Hc).
      destruct (H4 n Hn') as (? & ? & ?). split_and!; try done. lia.
  - destruct Hm as (M1 & M2 & M3 & M4). unfold mshr_ok. rewrite He, Hc.
    split_and!; try done.
    + intros a' h Hin'. destruct (M3 a' h Hin') as (n & Hn1 & Hn2 & Hn3 & Hn4).
      exists n. split_and!; try done.
      destruct (decide (h.1 = idx)) as [E|Hne].
      * rewrite E, Hl. destruct (Hs idx) as (H1 & _).
        apply elem_of_app. left.
        apply erase_node_elem; [done|]. rewrite E in Hn1. split; [done|].
        intros E'. assert (n = l) by (by eapply (NoDup_fmap_eq node_id)).
        subst n. congruence.
      * by rewrite (Ho _ Hne).
    + intros i n Hin' Hlock. apply M4; [|done].
      destruct (decide (i = idx)) as [->|Hne].
      * rewrite Hl in Hin'. destruct (Hs idx) as (H1 & _).
        apply elem_of_app in Hin' as [Hin'|Hin'].
        -- by apply erase_node_elem in Hin' as [Hin' _].
        -- apply list_elem_of_singleton in Hin'. subst n. done.
      * by rewrite (Ho _ Hne) in Hin'.
Qed.

(** The allocation of [send]: a new locked line goes to the back of a set
    that has room for it and has no line of its tag, and an MSHR entry
    pointing to it goes to the back of a table that has room. *)
Lemma wf_alloc C C' idx a d :
  well_formed C ->
  find_tag (Cache.get_tag C a) (Cache.lines_at C idx) = None ->
  size_ (Cache.lines_at C idx) < Cache.assoc (Cache.cfg C) ->
  size_ (Cache.mshr_entries C) <> Cache.mshr_entry_num (Cache.cfg C) ->
  Cache.get_index C a = idx ->
  Cache.cfg C' = Cache.cfg C -> Cache.next_node C' = S (Cache.next_node C) ->
  Cache.mshr_entries C' =
    Cache.mshr_entries C ++ [(a, (idx, Cache.next_node C))] ->
  Cache.lines_at C' idx =
    Cache.lines_at C idx ++
    [mkNode (Cache.next_node C) (Line.mk a (Cache.get_tag C a) true d)] ->
  (forall i, i <> idx -> Cache.lines_at C' i = Cache.lines_at C i) ->
  well_formed C'.
Proof.
  intros [Hs Hm] Hf Hroom Hmroom Hidx Hc Hn He Hl Ho.
  destruct Hm as (M1 & M2 & M3 & M4).
  split.
  - intros i. destruct (Hs i) as (H1 & H2 & H3 & H4).
    unfold set_ok. rewrite Hc, Hn.
    destruct (decide (i = idx)) as [->|Hne].
    + rewrite Hl. split_and!.
      * rewrite fmap_app. apply NoDup_app. split_and!; [done| |apply NoDup_singleton].
        intros x Hx Hx'. apply list_elem_of_fmap in Hx as (n & -> & Hn').
        apply H4 in Hn' as [Hlt _]. simpl in Hx'.
        apply list_elem_of_singleton in Hx'. lia.
      * rewrite fmap_app. apply NoDup_app. split_and!; [done| |apply NoDup_singleton].
        intros x Hx Hx'. apply list_elem_of_fmap in Hx as (n & -> & Hn').
        simpl in Hx'. apply list_elem_of_singleton in Hx'.
        by apply (find_tag_None _ _ _ Hf Hn').
      * unfold size_ in *. rewrite length_app. simpl. lia.
      * intros n Hn'. apply elem_of_app in Hn' as [Hn'|Hn'].
        -- rewrite (get_index_cfg _ _ _ Hc), (get_tag_cfg _ _ _ Hc).
           destruct (H4 n Hn') as (? & ? & ?). split_and!; try done. lia.
        -- apply list_elem_of_singleton in Hn'. subst n. simpl.
           rewrite (get_index_cfg _ _ _ Hc), (get_tag_cfg _ _ _ Hc).
           split_and!; try done. lia.
    + rewrite (Ho i Hne). split_and!; try done.
      intros n Hn'. rewrite (get_index_cfg _ _ _ Hc), (get_tag_cfg _ _ _ Hc).
      destruct (H4 n Hn') as (? & ? & ?). split_and!; try done. lia.
  - unfold mshr_ok. rewrite He, Hc. split_and!.
    + unfold size_ in *. rewrite length_app. simpl. lia.
    + rewrite fmap_app. apply NoDup_app. split_and!; [done| |apply NoDup_singleton].
      intros h Hh Hh'. simpl in Hh'. apply list_elem_of_singleton in Hh'. subst h.
      apply list_elem_of_fmap in Hh as ([a' h] & Eh & Hin). simpl in Eh. subst h.
      destruct (M3 _ _ Hin) as (n & Hn1 & Hn2 & _). simpl in Hn1, Hn2.
      destruct (Hs idx) as (_ & _ & _ & H4). apply H4 in Hn1 as [Hlt _]. lia.
    + intros a' h Hin. apply elem_of_app in Hin as [Hin|Hin].
      * destruct (M3 a' h Hin) as (n & Hn1 & Hn2 & Hn3 & Hn4).
        exists n. split_and!; try done.
        destruct (decide (h.1 = idx)) as [E|Hne].
        -- rewrite E, Hl. apply elem_of_app. left. by rewrite <- E.
        -- by rewrite (Ho _ Hne).
      * apply list_elem_of_singleton in Hin. inversion Hin; subst a' h. simpl.
        eexists. split; [rewrite Hl; apply elem_of_app; right;
                         apply list_elem_of_singleton; reflexivity|].
        done.
    + intros i n Hin Hlock. destruct (decide (i = idx)) as [->|Hne].
      * rewrite Hl in Hin. apply elem_of_app in Hin as [Hin|Hin].
        -- destruct (M4 _ _ Hin Hlock) as [a' Ha']. exists a'.
           apply elem_of_app. by left.
        -- apply list_elem_of_singleton in Hin. subst n. simpl. exists a.
           apply elem_of_app. right. by apply list_elem_of_singleton.
      * rewrite (Ho _ Hne) in Hin. destruct (M4 _ _ Hin Hlock) as [a' Ha'].
        exists a'. apply elem_of_app. by left.
Qed.

(** [callback]: the entry at [i] is removed and the line it points to is
    unlocked. *)
Lemma wf_release C C' i a h :
  well_formed C ->
  Cache.mshr_entries C !! i = Some (a, h) ->
  Cache.cfg C' = Cache.cfg C -> Cache.next_node C' = Cache.next_node C ->
  Cache.mshr_entries C' = delete i (Cache.mshr_entries C) ->
  Cache.lines_at C' h.1 =
    update_node h.2 (Line.set_lock false) (Cache.lines_at C h.1) ->
  (forall j, j <> h.1 -> Cache.lines_at C' j = Cache.lines_at C j) ->
  well_formed C'.
Proof.
  intros [Hs Hm] Hi Hc Hn He Hl Ho.
  destruct Hm as (M1 & M2 & M3 & M4).
  destruct (Hs h.1) as (Hids & _).
  rewrite update_node_assigned in Hl by done.
  set (g := assigned h.2 (Line.set_lock false)) in *.
  assert (Hg : forall n, node_id (g n) = node_id n /\
                         Line.addr (line (g n)) = Line.addr (line n) /\
                         Line.tag (line (g n)) = Line.tag (line n)).
  { intros n. unfold g, assigned. by destruct (Nat.eqb _ _). }
  assert (Hglock : forall n, Line.lock (line (g n)) = true ->
                             g n = n /\ node_id n <> h.2).
  { intros n. unfold g, assigned.
    destruct (Nat.eqb_spec (node_id n) h.2); [done|]. done. }
  assert (Hother : forall a' h', (a', h') ∈ delete i (Cache.mshr_entries C) ->
                     (a', h') ∈ Cache.mshr_entries C /\ h' <> h).
  { intros a' h' Hin. apply list_elem_of_lookup in Hin as [j Hj].
    destruct (decide (j < i)%nat) as [Hlt|Hge].
    - rewrite list_lookup_delete_lt in Hj by done.
      split; [by eapply list_elem_of_lookup_2|]. intros ->.
      assert (j = i); [|lia].
      eapply (NoDup_lookup _ j i h M2).
      + rewrite list_lookup_fmap. exact (f_equal (fmap snd) Hj).
      + rewrite list_lookup_fmap. exact (f_equal (fmap snd) Hi).
    - rewrite list_lookup_delete_ge in Hj by lia.
      split; [by eapply list_elem_of_lookup_2|]. intros ->.
      assert (S j = i); [|lia].
      eapply (NoDup_lookup _ (S j) i h M2).
      + rewrite list_lookup_fmap. exact (f_equal (fmap snd) Hj).
      + rewrite list_lookup_fmap. exact (f_equal (fmap snd) Hi). }
  assert (Hkept : forall a' h', (a', h') ∈ Cache.mshr_entries C -> h' <> h ->
                    (a', h') ∈ delete i (Cache.mshr_entries C)).
  { intros a' h' Hin Hne. apply list_elem_of_lookup in Hin as [j Hj].
    assert (j <> i).
    { intros ->. apply Hne.
      assert (E : Some (a', h') = Some (a, h))
        by (etransitivity; [symmetry; exact Hj|exact Hi]).
      by inversion E. }
    destruct (decide (j < i)%nat) as [Hlt|Hge].
    - apply (list_elem_of_lookup_2 _ j). by rewrite list_lookup_delete_lt.
    - apply (list_elem_of_lookup_2 _ (pred j)). rewrite list_lookup_delete_ge by lia.
      replace (S (pred j)) with j by lia. done. }
  split.
  - intros j. destruct (Hs j) as (H1 & H2 & H3 & H4).
    unfold set_ok. rewrite Hc, Hn.
    destruct (decide (j = h.1)) as [->|Hne].
    + rewrite Hl. split_and!.
      * rewrite <- list_fmap_compose.
        erewrite list_fmap_ext; [exact H1|]. intros ? n _. simpl. apply Hg.
      * rewrite <- list_fmap_compose.
        erewrite list_fmap_ext; [exact H2|]. intros ? n _. simpl. apply Hg.
      * unfold size_. rewrite length_fmap. exact H3.
      * intros n' Hin. apply list_elem_of_fmap in Hin as (n & -> & Hin).
        destruct (Hg n) as (-> & -> & ->).
        rewrite (get_index_cfg _ _ _ Hc), (get_tag_cfg _ _ _ Hc). by apply H4.
    + rewrite (Ho j Hne). split_and!; try done.
      intros n Hin. rewrite (get_index_cfg _ _ _ Hc), (get_tag_cfg _ _ _ Hc).
      by apply H4.
  - unfold mshr_ok. rewrite He, Hc. split_and!.
    + unfold size_ in *.
      pose proof (length_delete (Cache.mshr_entries C) i (mk_is_Some _ _ Hi)) as E.
      lia.
    + eapply sublist_NoDup; [exact M2|apply fmap_sublist, sublist_delete].
    + intros a' h' Hin. apply Hother in Hin as [Hin Hne].
      destruct (M3 a' h' Hin) as (n & Hn1 & Hn2 & Hn3 & Hn4).
      exists n. split_and!; try done.
      destruct (decide (h'.1 = h.1)) as [E|Hne'].
      * rewrite E, Hl. apply list_elem_of_fmap. exists n.
        split; [|by rewrite <- E].
        unfold g, assigned. destruct (Nat.eqb_spec (node_id n) h.2) as [E'|]; [|done].
        destruct Hne. destruct h, h'. simpl in *. congruence.
      * by rewrite (Ho _ Hne').
    + intros j n' Hin Hlock. destruct (decide (j = h.1)) as [->|Hne].
      * rewrite Hl in Hin. apply list_elem_of_fmap in Hin as (n & -> & Hin).
        destruct (Hglock n Hlock) as [En Hid]. rewrite En in *.
        destruct (M4 _ _ Hin Hlock) as [a' Ha']. exists a'.
        apply Hkept; [done|]. destruct h. simpl in *. congruence.
      * rewrite (Ho _ Hne) in Hin.
        destruct (M4 _ _ Hin Hlock) as [a' Ha']. exists a'.
        apply Hkept; [done|]. destruct h. simpl in *. congruence.
Qed.


(** ** The calls on a lone cache *)

Lemma lines_at_count k C i : Cache.lines_at (Cache.count k C) i = Cache.lines_at C i.
Proof. done. Qed.

Lemma find_tag_None_intro tg l :
  (forall n, n ∈ l -> Line.tag (line n) <> tg) -> find_tag tg l = None.
Proof.
  unfold find_tag. induction l as [|m l IH]; intros H; simpl; [done|].
  destruct (Z.eqb_spec (Line.tag (line m)) tg) as [E|E].
  - destruct (H m); [apply elem_of_cons; by left|done].
  - apply IH. intros n Hn. apply H. apply elem_of_cons. by right.
Qed.

Lemma find_mshr_Some C a i e :
  find_mshr C a = Some (i, e) ->
  Cache.mshr_entries C !! i = Some e /\ Cache.align C e.1 = Cache.align C a.
Proof. unfold find_mshr. intros H. by apply list_find_Some in H as (? & ? & _). Qed.

Lemma find_mshr_None C a e :
  find_mshr C a = None -> e ∈ Cache.mshr_entries C ->
  Cache.align C e.1 <> Cache.align C a.
Proof.
  unfold find_mshr. intros H Hin. rewrite list_find_None in H.
  rewrite Forall_forall in H. by apply H.
Qed.

Lemma find_node_app_fresh l i x :
  (forall n, n ∈ l -> node_id n <> i) ->
  find_node i (l ++ [mkNode i x]) = Some (mkNode i x).
Proof.
  unfold find_node. induction l as [|m l IH]; intros Hne; simpl.
  - by rewrite Nat.eqb_refl.
  - destruct (Nat.eqb_spec (node_id m) i) as [E|E].
    + destruct (Hne m); [apply elem_of_cons; by left|done].
    + apply IH. intros n Hn. apply Hne. apply elem_of_cons. by right.
Qed.

Lemma put_cache_caches s c C : caches (put_cache s c C) = <[c := C]> (caches s).
Proof. done. Qed.

Lemma find_victim_lone s C lines :
  lone C ->
  find_victim s C lines = List.find (fun n => negb (Line.lock (line n))) lines.
Proof.
  intros [Hh _]. unfold find_victim.
  induction lines as [|n lines IH]; simpl; [done|].
  assert (E : victim_ok s C n = negb (Line.lock (line n))).
  { unfold victim_ok. rewrite Hh. by destruct (negb (Cache.is_first_level _)). }
  by rewrite E, IH.
Qed.

Section LoneFacts.

Variable latency : CacheLevel -> Z.
Variable latency_each : CacheLevel -> Z.

Local Abbreviation send := (send latency latency_each).
Local Abbreviation send_miss := (send_miss latency latency_each).
Local Abbreviation allocate_line := (allocate_line latency latency_each).
Local Abbreviation evict := (evict latency latency_each).
Local Abbreviation touched := (touched).
Local Abbreviation calls := (calls latency latency_each).
Local Abbreviation call := (call latency latency_each).

Lemma wf_touched C req : well_formed C -> well_formed (touched C req).
Proof.
  intros H. destruct (same_contents_touched C req) as (H1 & H2 & H3).
  apply (wf_same C); try done.
  unfold touched. by rewrite next_node_ensure_set.
Qed.

Lemma wf_missed C req : well_formed C -> well_formed (missed C req).
Proof.
  intros H. destruct (same_contents_missed C req) as (H1 & H2 & H3).
  apply (wf_same C); try done.
  unfold missed, touched. simpl. by rewrite next_node_ensure_set.
Qed.

Lemma next_node_missed C req : Cache.next_node (missed C req) = Cache.next_node C.
Proof. unfold missed, touched. simpl. by rewrite next_node_ensure_set. Qed.

Lemma next_node_touched C req : Cache.next_node (touched C req) = Cache.next_node C.
Proof. unfold touched. by rewrite next_node_ensure_set. Qed.

(** "Due to MSHR, the program can't reach here": on a well-formed cache
    a request that neither hits nor finds an MSHR entry finds no line of
    its tag in its set. *)
Lemma miss_finds_no_tag C a :
  well_formed C -> coherent C ->
  (forall l, is_hit C (Cache.lines_at C (Cache.get_index C a)) a <> (true, Some l)) ->
  find_mshr C a = None ->
  find_tag (Cache.get_tag C a) (Cache.lines_at C (Cache.get_index C a)) = None.
Proof.
  intros [Hs Hm] Hco Hno Hmshr.
  destruct (find_tag _ _) as [l|] eqn:Hf; [|done]. exfalso.
  assert (Hlock : Line.lock (line l) = true).
  { destruct (Line.lock (line l)) eqn:E; [done|].
    destruct (Hno l). unfold is_hit. by rewrite Hf, E. }
  apply find_tag_Some in Hf as [Hin Htag].
  destruct Hm as (_ & _ & M3 & M4).
  destruct (M4 _ _ Hin Hlock) as [a' Ha'].
  destruct (M3 _ _ Ha') as (n & Hn1 & Hn2 & _ & Hn4). simpl in Hn1, Hn2.
  destruct (Hs (Cache.get_index C a)) as (H1 & _ & _ & H4).
  assert (n = l) by (by eapply (NoDup_fmap_eq node_id)). subst n.
  destruct (H4 l Hin) as (_ & Hi & Ht).
  apply (find_mshr_None _ _ _ Hmshr Ha'). simpl.
  apply Hco; congruence.
Qed.

(** [allocate_line] on a lone cache, for a set without a line of the
    tag: it gives up, or it pushes the new line on the set as it is, if
    there is room, or else on the set without its first unlocked line. *)
Lemma allocate_line_lone_eval fuel s c C idx a :
  caches s !! c = Some C -> lone C ->
  find_tag (Cache.get_tag C a) (Cache.lines_at C idx) = None ->
  exists nl s',
    allocate_line fuel c idx a s = Ok (nl, s') /\
    ((nl = None /\ s' = s) \/
     exists B cs,
       nl = Some (idx, Cache.next_node B) /\
       s' = mkSys cs
              (<[c := Cache.with_next (S (Cache.next_node B))
                        (set_lines idx
                           (Cache.lines_at B idx ++
                            [mkNode (Cache.next_node B)
                               (Line.new a (Cache.get_tag C a))]) B)]>
                 (caches s)) /\
       ((B = C /\ size_ (Cache.lines_at C idx) < Cache.assoc (Cache.cfg C)) \/
        exists v, v ∈ Cache.lines_at C idx /\ Line.lock (line v) = false /\
                  find_victim s C (Cache.lines_at C idx) = Some v /\
                  Cache.assoc (Cache.cfg C) <= size_ (Cache.lines_at C idx) /\
                  B = set_lines idx (erase_node (node_id v) (Cache.lines_at C idx))
                        (Cache.count cache_eviction C))).
Proof.
  intros HC [Hh Hl] Ht. unfold allocate_line.
  rewrite (bind_eval _ _ _ _ _ (the_cache_eval _ _ _ HC)).
  rewrite (bind_eval _ _ _ _ _ (lines_of_eval _ _ _ _ HC)).
  unfold need_eviction. rewrite Ht.
  rewrite (bind_eval _ _ _ _ _ (ret_eval _ _)).
  destruct (Z.ltb_spec (size_ (Cache.lines_at C idx)) (Cache.assoc (Cache.cfg C)));
    simpl negb; cbv iota.
  - rewrite (bind_eval _ _ _ _ _ (ret_eval _ _)).
    rewrite (bind_eval _ _ _ _ _ (push_back_eval _ _ _ _ _ HC)).
    eexists _, _. split; [reflexivity|]. right.
    exists C, (cachesys s). split; [done|]. split; [done|]. left. done.
  - rewrite bind_assoc_eval, (bind_eval _ _ _ _ _ (get_sys_eval s)).
    destruct (find_victim s C (Cache.lines_at C idx)) as [v|] eqn:Hv.
    + pose proof Hv as Hfv.
      apply find_some in Hv as [Hin Hok]. apply list_elem_of_In in Hin.
      apply victim_ok_spec in Hok as [Hlock _].
      destruct (find_node_elem _ _ Hin) as [v' Hv'].
      erewrite (bind_eval (_ ≫= _)).
      2:{ rewrite (bind_eval _ _ _ _ _ (evict_lone latency latency_each fuel _ _ _ _ _ _ HC Hh Hl Hv')).
          apply ret_eval. }
      cbv beta iota.
      erewrite (bind_eval (push_back _ _ _)).
      2:{ apply push_back_eval. simpl. apply list_lookup_insert_eq.
          by eapply lookup_lt_Some. }
      eexists _, _. split; [reflexivity|]. right.
      eexists _, _. split; [reflexivity|]. split.
      * unfold put_cache. simpl. rewrite list_insert_insert_eq. reflexivity.
      * right. exists v. done.
    + rewrite (bind_eval _ _ _ _ _ (ret_eval _ _)).
      eexists _, _. split; [reflexivity|]. by left.
Qed.

(** [send] on a lone well-formed cache returns and leaves the cache
    well-formed. *)
Lemma send_lone fuel s c C req :
  caches s !! c = Some C -> lone C -> coherent C -> well_formed C ->
  exists b s' C',
    send (S fuel) c req s = Ok (b, s') /\
    caches s' = <[c := C']> (caches s) /\
    Cache.cfg C' = Cache.cfg C /\ well_formed C' /\
    (find_mshr C (Request.addr req) = None ->
     (forall l, is_hit C (set_of C req) (Request.addr req) <> (true, Some l)) ->
     b = true ->
     exists L0,
       ((size_ (set_of C req) < Cache.assoc (Cache.cfg C) /\ L0 = set_of C req) \/
        (Cache.assoc (Cache.cfg C) <= size_ (set_of C req) /\
         exists v, List.find (fun n => negb (Line.lock (line n))) (set_of C req)
                   = Some v /\
                   L0 = erase_node (node_id v) (set_of C req))) /\
       Cache.lines_at C' (Cache.get_index C (Request.addr req)) =
         L0 ++ [mkNode (Cache.next_node C)
                  (Line.mk (Request.addr req)
                     (Cache.get_tag C (Request.addr req)) true (is_write req))] /\
       Cache.mshr_entries C' =
         Cache.mshr_entries C ++
         [(Request.addr req,
           (Cache.get_index C (Request.addr req), Cache.next_node C))] /\
       forall n, n ∈ L0 ->
         n ∈ Cache.lines_at C (Cache.get_index C (Request.addr req))).
Proof.
  intros HC Hlone Hco Hwf.
  assert (Hlen : (c < length (caches s))%nat) by (by eapply lookup_lt_Some).
  rewrite (send_unfold _ _ fuel s c C req HC).
  set (a := Request.addr req). set (idx := Cache.get_index C a).
  unfold set_of. fold a idx.
  destruct (same_contents_touched C req) as (Tc & Tm & Tl).
  destruct (same_contents_missed C req) as (Mc & Mm & Ml).
  destruct (is_hit_cases C (Cache.lines_at C idx) a)
    as [(l & Hhit & Hfind & Hlock)|[_ Hno]].
  - (* hit *)
    rewrite Hhit. unfold send_hit.
    assert (HT : caches (put_cache s c (touched C req)) !! c = Some (touched C req))
      by (by eapply put_cache_lookup).
    rewrite (bind_eval _ _ _ _ _ (push_back_eval _ _ _ _ _ HT)).
    erewrite (bind_eval (erase _ _ _)).
    2:{ apply erase_eval. by eapply put_cache_lookup. }
    rewrite (bind_eval _ _ _ _ _ (the_clk_eval _)).
    rewrite (bind_eval _ _ _ _ _ (push_hit_eval _ _)).
    eexists _, _, _. split; [reflexivity|]. split.
    { simpl. rewrite !list_insert_insert_eq. reflexivity. }
    split; [simpl; exact Tc|].
    split; [|intros _ Hn _; by destruct (Hn l)].
    eapply (wf_hit (touched C req) _ idx l a).
    + by apply wf_touched.
    + rewrite (get_tag_cfg _ _ _ Tc), Tl. exact Hfind.
    + exact Hlock.
    + by rewrite (get_index_cfg _ _ _ Tc).
    + reflexivity.
    + reflexivity.
    + reflexivity.
    + rewrite lines_at_set_lines.
      change (Cache.lines_at (Cache.with_next ?n ?X) ?i) with (Cache.lines_at X i).
      rewrite lines_at_set_lines. rewrite (get_tag_cfg _ _ _ Tc). reflexivity.
    + intros i Hi. rewrite lines_at_set_lines_ne by done.
      change (Cache.lines_at (Cache.with_next ?n ?X) ?i) with (Cache.lines_at X i).
      by rewrite lines_at_set_lines_ne.
  - (* miss *)
    assert (Hbranch :
      match is_hit C (Cache.lines_at C idx) a with
      | (true, Some l) =>
          send_hit latency c C idx l req (put_cache s c (touched C req))
      | _ =>
          send_miss fuel (send fuel) c idx (Cache.lines_at C idx) (is_write req)
            (Request.with_type req Request.READ) (put_cache s c (missed C req))
      end =
      send_miss fuel (send fuel) c idx (Cache.lines_at C idx) (is_write req)
        (Request.with_type req Request.READ) (put_cache s c (missed C req))).
    { destruct (is_hit C (Cache.lines_at C idx) a) as [[|] [l|]] eqn:E; try done.
      by destruct (Hno l). }
    rewrite Hbranch. clear Hbranch.
    set (Mi := missed C req) in *.
    assert (HM : caches (put_cache s c Mi) !! c = Some Mi)
      by (by eapply put_cache_lookup).
    assert (HwM : well_formed Mi) by (by apply wf_missed).
    unfold send_miss.
    rewrite (bind_eval _ _ _ _ _ (the_cache_eval _ _ _ HM)).
    change (Request.addr (Request.with_type req Request.READ)) with a.
    rewrite (hit_mshr_same C Mi a) by (by split).
    unfold hit_mshr.
    destruct (find_mshr C a) as [[i [a0 h]]|] eqn:Hm.
    + (* merged into an MSHR entry *)
      pose proof (find_mshr_Some _ _ _ _ Hm) as [Hi _].
      destruct Hwf as [Hs Hmo]. destruct (Hmo) as (_ & _ & M3 & _).
      destruct (M3 a0 h) as (n & Hn1 & Hn2 & _).
      { by eapply list_elem_of_lookup_2. }
      destruct (Hs h.1) as (Hids & _).
      assert (Hfn : find_node h.2 (Cache.lines_at C h.1) = Some n).
      { rewrite <- Hn2. by apply find_node_unique. }
      rewrite (bind_eval _ _ _ _ _ (count_eval _ _ _ _ HM)).
      erewrite (bind_eval (assign _ _ _)).
      2:{ eapply assign_eval; [by eapply put_cache_lookup|].
          rewrite lines_at_count, Ml. exact Hfn. }
      eexists _, _, _. split; [reflexivity|]. split.
      { simpl. rewrite !list_insert_insert_eq. reflexivity. }
      split; [simpl; exact Mc|].
      split; [|intros Hnone _ _; congruence].
      eapply (wf_map (Cache.count cache_mshr_hit Mi) _ h.1
                (assigned h.2 (fun l => Line.set_dirty (is_write req || Line.dirty l) l))).
      * by apply (wf_same Mi).
      * intros m. unfold assigned. by destruct (Nat.eqb _ _).
      * reflexivity.
      * reflexivity.
      * reflexivity.
      * rewrite lines_at_set_lines. apply update_node_assigned.
        rewrite lines_at_count, Ml. exact Hids.
      * intros j Hj. by rewrite lines_at_set_lines_ne.
    + destruct (Z.eqb_spec (size_ (Cache.mshr_entries Mi))
                  (Cache.mshr_entry_num (Cache.cfg Mi))) as [Hfull|Hroom].
      { (* the MSHR table is full *)
        rewrite (bind_eval _ _ _ _ _ (count_eval _ _ _ _ HM)).
        eexists _, _, _. split; [reflexivity|]. split.
        { simpl. rewrite !list_insert_insert_eq. reflexivity. }
        split; [simpl; exact Mc|].
        split; [by apply (wf_same Mi)|by intros _ _ [=]]. }
      destruct (all_sets_locked Mi (Cache.lines_at C idx)).
      { (* the set is locked out *)
        rewrite (bind_eval _ _ _ _ _ (count_eval _ _ _ _ HM)).
        eexists _, _, _. split; [reflexivity|]. split.
        { simpl. rewrite !list_insert_insert_eq. reflexivity. }
        split; [simpl; exact Mc|].
        split; [by apply (wf_same Mi)|by intros _ _ [=]]. }
      (* allocation *)
      assert (HtM : find_tag (Cache.get_tag Mi a) (Cache.lines_at Mi idx) = None).
      { rewrite (get_tag_cfg _ _ _ Mc), Ml. by apply miss_finds_no_tag. }
      destruct (allocate_line_lone_eval fuel _ c Mi idx a HM
                  (lone_cfg _ _ Mc Hlone) HtM)
        as (nl & s1 & Hal & [[-> ->]|(B & cs & -> & -> & HB)]).
      { (* no victim *)
        rewrite (bind_eval _ _ _ _ _ Hal).
        eexists _, _, _. split; [reflexivity|]. split; [reflexivity|].
        split; [exact Mc|]. split; [exact HwM|by intros _ _ [=]]. }
      rewrite (bind_eval _ _ _ _ _ Hal). clear Hal.
      assert (HBfacts :
        well_formed B /\ Cache.cfg B = Cache.cfg Mi /\
        Cache.mshr_entries B = Cache.mshr_entries Mi /\
        Cache.next_node B = Cache.next_node Mi /\
        size_ (Cache.lines_at B idx) < Cache.assoc (Cache.cfg B) /\
        find_tag (Cache.get_tag Mi a) (Cache.lines_at B idx) = None /\
        (forall n, n ∈ Cache.lines_at B idx -> n ∈ Cache.lines_at Mi idx) /\
        ((size_ (Cache.lines_at C idx) < Cache.assoc (Cache.cfg C) /\
          Cache.lines_at B idx = Cache.lines_at C idx) \/
         (Cache.assoc (Cache.cfg C) <= size_ (Cache.lines_at C idx) /\
          exists v, List.find (fun n => negb (Line.lock (line n)))
                      (Cache.lines_at C idx) = Some v /\
                    Cache.lines_at B idx =
                      erase_node (node_id v) (Cache.lines_at C idx)))).
      { destruct HB as [[-> Hsz]|(v & Hv & Hvl & Hfv & Hge & ->)].
        - split_and!; try done.
          left. rewrite <- Ml, <- Mc. done.
        - assert (HwE : well_formed (Cache.count cache_eviction Mi))
            by (by apply (wf_same Mi)).
          destruct (wf_erase (Cache.count cache_eviction Mi)
                      (set_lines idx (erase_node (node_id v) (Cache.lines_at Mi idx))
                         (Cache.count cache_eviction Mi)) idx v
                      HwE Hv Hvl eq_refl eq_refl eq_refl) as [Hw Hsz].
          { by rewrite lines_at_set_lines. }
          { intros j Hj. by rewrite lines_at_set_lines_ne. }
          split_and!; try done.
          +
            rewrite Hsz. rewrite lines_at_count.
            destruct HwM as [HsM _]. destruct (HsM idx) as (_ & _ & Hcap & _).
            change (Cache.cfg (set_lines ?i ?l (Cache.count ?k Mi)))
              with (Cache.cfg Mi).
            lia.
          + rewrite lines_at_set_lines. apply find_tag_None_intro.
            intros n Hn. destruct HwM as [HsM _].
            destruct (HsM idx) as (Hids & _).
            apply erase_node_elem in Hn as [Hn _]; [|done].
            by apply (find_tag_None _ _ _ HtM).
          + intros n Hn. rewrite lines_at_set_lines in Hn.
            destruct HwM as [HsM _]. destruct (HsM idx) as (Hids & _).
            by apply erase_node_elem in Hn as [Hn _].
          + right. rewrite <- Ml, <- Mc. split; [exact Hge|]. exists v.
            split; [|by rewrite lines_at_set_lines].
            rewrite <- Hfv. symmetry. apply find_victim_lone.
            by apply (lone_cfg _ _ Mc). }
      destruct HBfacts as (HwB & Bc & Bm & Bn & Bsz & Bt & Bsub & Bwhich).
      set (nx := Cache.next_node B) in *.
      set (B2 := Cache.with_next (S nx)
                   (set_lines idx
                      (Cache.lines_at B idx ++
                       [mkNode nx (Line.new a (Cache.get_tag Mi a))]) B)).
      set (s2 := mkSys cs (<[c := B2]> (caches (put_cache s c Mi)))).
      assert (H2 : caches s2 !! c = Some B2).
      { unfold s2. simpl. rewrite list_insert_insert_eq.
        by apply list_lookup_insert_eq. }
      assert (Hfresh : forall n, n ∈ Cache.lines_at B idx -> node_id n <> nx).
      { intros n Hn. destruct HwB as [HsB _].
        destruct (HsB idx) as (_ & _ & _ & H4). apply H4 in Hn as [? _].
        unfold nx. lia. }
      assert (Hfn : find_node (idx, nx).2 (Cache.lines_at B2 (idx, nx).1)
                    = Some (mkNode nx (Line.new a (Cache.get_tag Mi a)))).
      { simpl. unfold B2.
        change (Cache.lines_at (Cache.with_next ?n ?X) ?i) with (Cache.lines_at X i).
        rewrite lines_at_set_lines. by apply find_node_app_fresh. }
      rewrite (bind_eval _ _ _ _ _ (assign_eval _ _ _ _ _ _ H2 Hfn)).
      erewrite (bind_eval (modify_cache _ _)).
      2:{ apply modify_cache_eval. by eapply put_cache_lookup. }
      unfold send_forward. destruct Hlone as [_ Hlast].
      rewrite Mc, Hlast. simpl negb. cbv iota.
      erewrite (bind_eval (_ ≫= _)).
      2:{ rewrite (bind_eval _ _ _ _ _ (the_clk_eval _)). apply push_wait_eval. }
      eexists _, _, _. split; [reflexivity|]. split.
      { simpl. rewrite !list_insert_insert_eq. reflexivity. }
      split; [simpl; by rewrite Bc|].
      match goal with |- well_formed ?X /\ _ => set (Cf := X) end.
      assert (Hview :
        Cache.lines_at Cf idx
        = Cache.lines_at B idx ++
          [mkNode nx (Line.mk a (Cache.get_tag B a) true (is_write req))]).
      { unfold Cf.
change (Cache.lines_at (Cache.with_mshr ?e ?X) ?i) with (Cache.lines_at X i).
        cbn [fst snd]. rewrite lines_at_set_lines. unfold B2.
        change (Cache.lines_at (Cache.with_next ?n ?X) ?i) with (Cache.lines_at X i).
        rewrite lines_at_set_lines.
        rewrite update_node_app_new by exact Hfresh.
        rewrite (get_tag_cfg _ _ _ Bc). reflexivity. }
      split.
      2:{ intros _ _ _. exists (Cache.lines_at B idx).
          split_and!.
          - unfold set_of. fold a idx. exact Bwhich.
          - fold a idx. rewrite Hview.
            rewrite (get_tag_cfg _ _ _ Bc), (get_tag_cfg _ _ _ Mc).
            rewrite Bn. unfold Mi. rewrite next_node_missed. reflexivity.
          - fold a idx. unfold Cf. simpl. rewrite Bm, Mm.
            rewrite Bn. unfold Mi. rewrite next_node_missed. reflexivity.
          - fold a idx. intros n Hn. rewrite <- Ml. by apply Bsub. }
      eapply (wf_alloc B _ idx a (is_write req)).
      * exact HwB.
      * rewrite (get_tag_cfg _ _ _ Bc). exact Bt.
      * exact Bsz.
      * rewrite Bm, Bc. exact Hroom.
      * rewrite (get_index_cfg _ _ _ Bc), (get_index_cfg _ _ _ Mc). reflexivity.
      * reflexivity.
      * reflexivity.
      * reflexivity.
      * exact Hview.
      * intros j Hj. unfold Cf.
        change (Cache.lines_at (Cache.with_mshr ?e ?X) ?i) with (Cache.lines_at X i).
        cbn [fst snd]. rewrite lines_at_set_lines_ne by done. unfold B2.
        change (Cache.lines_at (Cache.with_next ?n ?X) ?i) with (Cache.lines_at X i).
        by rewrite lines_at_set_lines_ne.
Qed.

(** [callback] on a lone well-formed cache returns and leaves the cache
    well-formed. *)
Lemma callback_lone fuel s c C req :
  caches s !! c = Some C -> lone C -> well_formed C ->
  callback (S fuel) c req s = Ok (tt, put_cache s c (released C req)) /\
  Cache.cfg (released C req) = Cache.cfg C /\ well_formed (released C req).
Proof.
  intros HC [Hh _] Hwf.
  split; [|split; [apply cfg_released|]].
  - rewrite (callback_unfold _ _ _ _ _ HC), Hh.
    erewrite (bind_eval (callback_here _ _ _)); [reflexivity|].
    apply callback_here_eval; [done|].
    intros i a h Hf. apply find_mshr_Some in Hf as [Hi _].
    destruct Hwf as [Hs (_ & _ & M3 & _)].
    destruct (M3 a h) as (n & Hn1 & Hn2 & _).
    { by eapply list_elem_of_lookup_2. }
    destruct (Hs h.1) as (Hids & _).
    exists n. rewrite <- Hn2. by apply find_node_unique.
  - unfold released.
    destruct (find_mshr C (Request.addr req)) as [[i [a h]]|] eqn:Hf; [|done].
    apply find_mshr_Some in Hf as [Hi _].
    eapply (wf_release C _ i a h); try done.
    + change (Cache.lines_at (Cache.with_mshr ?e ?X) ?j) with (Cache.lines_at X j).
      by rewrite lines_at_set_lines.
    + intros j Hj.
      change (Cache.lines_at (Cache.with_mshr ?e ?X) ?k) with (Cache.lines_at X k).
      by rewrite lines_at_set_lines_ne.
Qed.

(** The fresh cache the constructor builds is well-formed. *)
Lemma wf_new size assoc block_size mshr_entry_num level first last :
  0 <= assoc -> 0 <= mshr_entry_num ->
  well_formed (Cache.new size assoc block_size mshr_entry_num level first last).
Proof.
  intros Ha Hm. split.
  - intros idx. unfold Cache.lines_at. simpl. rewrite lookup_empty. simpl.
    split_and!; try apply NoDup_nil_2; try done.
    intros n Hn. by apply elem_of_nil in Hn.
  - split_and!; simpl; try apply NoDup_nil_2; try done.
    + intros a h Hin. by apply elem_of_nil in Hin.
    + intros idx n Hin. unfold Cache.lines_at in Hin. simpl in Hin.
      rewrite lookup_empty in Hin. by apply elem_of_nil in Hin.
Qed.

(** X13: on a last-level cache with nothing above it, whose geometry is
    coherent and whose sets and MSHR table are in order, [send] returns
    for every request, having met no assertion and no dangling iterator,
    and leaves the sets and the table in order: per set distinct tags and
    at most [assoc] lines, at most [mshr_entry_num] entries, every entry
    pointing to a line that is there and locked, and every locked line
    with an entry.  No other cache of the store is touched. *)
Theorem send_keeps_lone_cache_in_order (fuel : nat) (s : Sys) (c : nat)
    (C : Cache.t) (req : Request.t) :
  caches s !! c = Some C -> lone C -> coherent C -> well_formed C ->
  exists b s' C',
    send (S fuel) c req s = Ok (b, s') /\
    caches s' = <[c := C']> (caches s) /\
    Cache.cfg C' = Cache.cfg C /\ well_formed C'.
Proof.
  intros HC Hlone Hco Hwf.
  destruct (send_lone fuel s c C req HC Hlone Hco Hwf)
    as (b & s' & C' & H1 & H2 & H3 & H4 & _).
  by exists b, s', C'.
Qed.

(** X14: on a cache with nothing above it whose sets and MSHR table are
    in order, [callback] returns for every request, the iterator of the
    entry it finds being live, and leaves the sets and the table in
    order; the clock, the queues and the other caches are untouched. *)
Theorem callback_keeps_lone_cache_in_order (fuel : nat) (s : Sys) (c : nat)
    (C : Cache.t) (req : Request.t) :
  caches s !! c = Some C -> lone C -> well_formed C ->
  exists C',
    callback (S fuel) c req s = Ok (tt, put_cache s c C') /\
    Cache.cfg C' = Cache.cfg C /\ well_formed C'.
Proof.
  intros HC Hlone Hwf. exists (released C req). by apply callback_lone.
Qed.

(** Any calls on a lone cache fresh from the constructor. *)
Lemma calls_on_new_cache (size assoc block_size mshr_entry_num : Z)
    (level : CacheLevel) (first : bool) (cs : CacheSystem.t)
    (ks : list Call) (fuel : nat) :
  sanity_checks size assoc block_size = true ->
  0 < block_size -> 0 < assoc -> 0 <= mshr_entry_num ->
  exists s' C',
    calls (S fuel) 0 ks
      (mkSys cs [Cache.new size assoc block_size mshr_entry_num level first true])
      = Ok (tt, s') /\
    caches s' !! 0%nat = Some C' /\
    Cache.cfg C' =
      Cache.cfg (Cache.new size assoc block_size mshr_entry_num level first true) /\
    well_formed C'.
Proof.
  intros Hchk Hb Ha Hm.
  set (C0 := Cache.new size assoc block_size mshr_entry_num level first true).
  assert (Hok : lone_ok 0 (mkSys cs [C0])).
  { exists C0. split_and!; try done.
    - by apply new_coherent.
    - apply wf_new; lia. }
  assert (Hgen : forall ks' s, lone_ok 0 s ->
            (exists C, caches s !! 0%nat = Some C /\ Cache.cfg C = Cache.cfg C0) ->
            exists s' C', calls (S fuel) 0 ks' s = Ok (tt, s') /\
              caches s' !! 0%nat = Some C' /\ Cache.cfg C' = Cache.cfg C0 /\
              well_formed C').
  { clear Hok. induction ks' as [|k ks' IH]; intros s Hok (C & HC & Hcfg).
    - destruct Hok as (C1 & HC1 & _ & _ & Hw). rewrite HC in HC1.
      inversion HC1; subst C1. exists s, C. done.
    - destruct Hok as (C1 & HC1 & Hlone & Hco & Hwf). rewrite HC in HC1.
      inversion HC1; subst C1.
      assert (Hstep : exists s1 C1,
        call (S fuel) 0 k s = Ok (tt, s1) /\
        caches s1 = <[0%nat := C1]> (caches s) /\
        Cache.cfg C1 = Cache.cfg C /\ well_formed C1).
      { destruct k as [req|req]; unfold call.
        - destruct (send_lone fuel s 0 C req HC Hlone Hco Hwf)
            as (b & s1 & C1 & Hs & Hc1 & Hcfg1 & Hw1 & _).
          exists s1, C1. split; [|done].
          by rewrite (bind_eval _ _ _ _ _ Hs).
        - destruct (callback_lone fuel s 0 C req HC Hlone Hwf)
            as (Hs & Hcfg1 & Hw1).
          exists (put_cache s 0 (released C req)), (released C req). done. }
      destruct Hstep as (s1 & C1 & Hs & Hc1 & Hcfg1 & Hw1).
      assert (H1 : caches s1 !! 0%nat = Some C1).
      { rewrite Hc1. apply list_lookup_insert_eq. by eapply lookup_lt_Some. }
      destruct (IH s1) as (s' & C' & Hrun & HC' & Hcfg' & Hw').
      + exists C1. split_and!; try done.
        * by eapply lone_cfg.
        * by eapply coherent_cfg.
      + exists C1. split; [done|congruence].
      + exists s', C'. split; [|done].
        unfold calls. simpl. rewrite (bind_eval _ _ _ _ _ Hs). exact Hrun. }
  apply Hgen; [exact Hok|]. exists C0. done.
Qed.

(** X15: a lone last-level cache built by the constructor on sizes that
    pass its sanity checks never stops at an assertion and never follows
    a dangling iterator, whatever sequence of [send] and [callback] calls
    is made on it (in particular the [assert(false)] of [need_eviction],
    of which the source says "the program can't reach here", is never
    reached); after the calls its sets and its MSHR table are in order.
    No call needs more fuel than for itself: on a lone cache nothing
    recurses. *)
Theorem lone_cache_never_faults (size assoc block_size mshr_entry_num : Z)
    (level : CacheLevel) (first : bool) (cs : CacheSystem.t)
    (ks : list Call) (fuel : nat) :
  sanity_checks size assoc block_size = true ->
  0 < block_size -> 0 < assoc -> 0 <= mshr_entry_num ->
  exists s' C',
    calls (S fuel) 0 ks
      (mkSys cs [Cache.new size assoc block_size mshr_entry_num level first true])
      = Ok (tt, s') /\
    caches s' !! 0%nat = Some C' /\
    Cache.cfg C' =
      Cache.cfg (Cache.new size assoc block_size mshr_entry_num level first true) /\
    well_formed C'.
Proof. apply calls_on_new_cache. Qed.

End LoneFacts.

(** X13, witnessed on the fresh last-level cache of the scenarios. *)
Lemma send_keeps_lone_cache_in_order_witness :
  exists b s' C',
    send Scenario.latency Scenario.latency_each 1 0 (Scenario.read 0) Scenario.single
      = Ok (b, s') /\
    caches s' = <[0%nat := C']> (caches Scenario.single) /\
    Cache.cfg C' = Cache.cfg Scenario.llc /\ well_formed C'.
Proof.
  apply (send_keeps_lone_cache_in_order Scenario.latency Scenario.latency_each
           0 Scenario.single 0 Scenario.llc (Scenario.read 0)).
  - reflexivity.
  - split; reflexivity.
  - apply (new_coherent 128 2 64 2 L3 true true); reflexivity.
  - apply (wf_new 128 2 64 2 L3 true true); discriminate.
Defined.

(** X14, witnessed on the lone cache with the read of block 0 outstanding:
    the completion finds the entry, unlocks the line and removes the
    entry. *)
Lemma callback_keeps_lone_cache_in_order_witness :
  Cache.mshr_entries (Scenario.cache_at 0 Scenario.one_read) = [(0, (0, 0%nat))] /\
  Cache.lines_at (Scenario.cache_at 0 Scenario.one_read) 0
    = [mkNode 0 (Line.mk 0 0 true false)] /\
  exists C',
    callback 1 0 (Scenario.read 0) Scenario.one_read
      = Ok (tt, put_cache Scenario.one_read 0 C') /\
    Cache.cfg C' = Cache.cfg Scenario.llc /\ well_formed C' /\
    Cache.mshr_entries C' = [] /\
    Cache.lines_at C' 0 = [mkNode 0 (Line.mk 0 0 false false)].
Proof.
  split; [vm_compute; reflexivity|]. split; [vm_compute; reflexivity|].
  assert (HC : caches Scenario.one_read !! 0%nat
               = Some (Scenario.cache_at 0 Scenario.one_read))
    by (vm_compute; reflexivity).
  assert (Hl : lone (Scenario.cache_at 0 Scenario.one_read))
    by (split; vm_compute; reflexivity).
  assert (Hw : well_formed (Scenario.cache_at 0 Scenario.one_read)).
  { assert (HC0 : caches Scenario.single !! 0%nat = Some Scenario.llc) by reflexivity.
    assert (Hl0 : lone Scenario.llc) by (split; reflexivity).
    assert (Hco : coherent Scenario.llc)
      by (apply (new_coherent 128 2 64 2 L3 true true); reflexivity).
    assert (Hw0 : well_formed Scenario.llc)
      by (apply (wf_new 128 2 64 2 L3 true true); discriminate).
    destruct (send_lone Scenario.latency Scenario.latency_each 0 Scenario.single 0
                Scenario.llc (Scenario.read 0) HC0 Hl0 Hco Hw0)
      as (b & s' & C' & Hrun & Hcaches & _ & Hwf & _).
    assert (Hrun' : send Scenario.latency Scenario.latency_each 1 0 (Scenario.read 0)
                      Scenario.single = Ok (true, Scenario.one_read))
      by (vm_compute; reflexivity).
    rewrite Hrun' in Hrun. apply Ok_state_inj in Hrun. subst s'.
    assert (HC' : caches Scenario.one_read !! 0%nat = Some C')
      by (rewrite Hcaches; reflexivity).
    rewrite HC in HC'. apply Some_cache_inj in HC'. by rewrite HC'. }
  destruct (callback_keeps_lone_cache_in_order 0 Scenario.one_read 0
              (Scenario.cache_at 0 Scenario.one_read) (Scenario.read 0) HC Hl Hw)
    as (C' & Hrun & Hcfg & Hwf).
  assert (Hrun' : callback 1 0 (Scenario.read 0) Scenario.one_read
                  = Ok (tt, Scenario.after [Scenario.callback_ 0 (Scenario.read 0)]
                              Scenario.one_read))
    by (vm_compute; reflexivity).
  assert (HC' : C' = Scenario.cache_at 0
                       (Scenario.after [Scenario.callback_ 0 (Scenario.read 0)]
                          Scenario.one_read)).
  { rewrite Hrun in Hrun'. apply Ok_state_inj in Hrun'.
    apply (f_equal (fun s => caches s !! 0%nat)) in Hrun'.
    rewrite (put_cache_lookup _ _ _ C' HC) in Hrun'.
    apply Some_cache_inj.
    etransitivity; [exact Hrun'|]. vm_compute; reflexivity. }
  exists C'. split; [exact Hrun|]. split; [rewrite Hcfg; vm_compute; reflexivity|].
  split; [exact Hwf|]. rewrite HC'. split; vm_compute; reflexivity.
Defined.

(** X15, witnessed on the calls that lead to the scenario [filled]. *)
Lemma lone_cache_never_faults_witness :
  exists s' C',
    calls Scenario.latency Scenario.latency_each 1 0
      [CallSend (Scenario.read 0); CallSend (Scenario.write 64);
       CallCallback (Scenario.read 0); CallCallback (Scenario.read 64)]
      (mkSys (CacheSystem.mk 0 [] []) [Cache.new 128 2 64 2 L3 true true])
      = Ok (tt, s') /\
    caches s' !! 0%nat = Some C' /\
    Cache.cfg C' = Cache.cfg (Cache.new 128 2 64 2 L3 true true) /\
    well_formed C'.
Proof.
  apply (lone_cache_never_faults Scenario.latency Scenario.latency_each
           128 2 64 2 L3 true (CacheSystem.mk 0 [] [])
           [CallSend (Scenario.read 0); CallSend (Scenario.write 64);
            CallCallback (Scenario.read 0); CallCallback (Scenario.read 64)] 0);
    first [reflexivity | discriminate].
Defined.


(* ===================================================================== *)
(** * What the calls on any hierarchy leave alone *)
(* ===================================================================== *)

Lemma pres_bind2 (R : Sys -> Sys -> Prop) {A B D}
    (m1 : M A) (m2 : M B) (k : M D) :
  (forall s1 s2 s3, R s1 s2 -> R s2 s3 -> R s1 s3) ->
  pres R (m1;; m2) -> pres R k -> pres R (m1;; m2;; k).
Proof.
  intros Htrans H12 Hk s d s' H.
  apply bind_inv in H as (a & s1 & H1 & H). apply bind_inv in H as (b & s2 & H2 & H).
  eapply Htrans; [|by eapply Hk].
  eapply (H12 s b s2). by rewrite (bind_eval _ _ _ _ _ H1).
Qed.

Section Orderly.

Variable latency : CacheLevel -> Z.
Variable latency_each : CacheLevel -> Z.

(** A relation between the store before and the store after that the
    steps of the methods keep. *)
Variable R : Sys -> Sys -> Prop.
Hypothesis R_refl : forall s, R s s.
Hypothesis R_trans : forall s1 s2 s3, R s1 s2 -> R s2 s3 -> R s1 s3.
Hypothesis R_lines : forall c f,
  (forall C, Cache.cfg (f C) = Cache.cfg C /\
             Cache.counters (f C) = Cache.counters C /\
             Cache.retry_list (f C) = Cache.retry_list C) ->
  pres R (modify_cache c f).
Hypothesis R_retry : forall c (f : list Request.t -> list Request.t),
  pres R (modify_cache c (fun C => Cache.with_retry (f (Cache.retry_list C)) C)).
Hypothesis R_count : forall c k,
  k ∈ [cache_eviction; cache_mshr_hit; cache_mshr_unavailable;
       cache_set_unavailable] ->
  pres R (count c k).
Hypothesis R_access : forall c (w : bool),
  pres R (count c cache_total_access;;
          count c (if w then cache_write_access else cache_read_access)).
Hypothesis R_miss : forall c (w : bool),
  pres R (count c cache_total_miss;;
          count c (if w then cache_write_miss else cache_read_miss)).
Hypothesis R_hit : forall e, pres R (push_hit e).
Hypothesis R_wait : forall e, pres R (push_wait e).

Ltac orderly_step :=
  first [ apply R_hit | apply R_wait
        | apply R_lines; intros ?; split_and!; reflexivity
        | apply (R_retry _ (fun l => l ++ [_]))
        | apply R_count;
          repeat (apply elem_of_cons; first [left; reflexivity | right])
        | pres_step R_refl R_trans ].

Lemma get_lines_orderly c a : pres R (get_lines c a).
Proof. unfold get_lines. repeat orderly_step. Qed.

Lemma push_back_orderly c idx l : pres R (push_back c idx l).
Proof. unfold push_back. repeat orderly_step. Qed.

Lemma erase_orderly c idx i : pres R (erase c idx i).
Proof. unfold erase. repeat orderly_step. Qed.

Lemma assign_orderly c h f : pres R (assign c h f).
Proof. unfold assign. repeat orderly_step. Qed.

Ltac orderly :=
  repeat first [ apply get_lines_orderly | apply push_back_orderly
               | apply erase_orderly | apply assign_orderly
               | orderly_step ].

Lemma refresh_lru_lower_orderly c a d : pres R (refresh_lru_lower c a d).
Proof. unfold refresh_lru_lower. orderly. Qed.

Lemma invalidate_orderly fuel :
  forall c a, pres R (invalidate latency_each fuel c a).
Proof.
  induction fuel as [|fuel IH]; intros c a; simpl.
  - apply pres_fail.
  - repeat first [ apply IH | progress unfold invalidate_round, erased_line_dirty
                 | progress orderly ].
Qed.

Lemma evict_orderly fuel c idx victim :
  pres R (evict latency latency_each fuel c idx victim).
Proof.
  unfold evict, evict_invalidate.
  repeat first [ apply invalidate_orderly | apply refresh_lru_lower_orderly
               | progress orderly ].
Qed.

Lemma allocate_line_orderly fuel c idx a :
  pres R (allocate_line latency latency_each fuel c idx a).
Proof.
  unfold allocate_line.
  repeat first [ apply evict_orderly | progress orderly ].
Qed.

Lemma send_orderly fuel :
  forall c req, pres R (send latency latency_each fuel c req).
Proof.
  induction fuel as [|fuel IH]; intros c req; simpl.
  - apply pres_fail.
  - apply (pres_bind _ R_trans); [orderly|intros C].
    apply pres_bind2; [exact R_trans|apply R_access|].
    apply (pres_bind _ R_trans); [orderly|intros idx].
    apply (pres_bind _ R_trans); [orderly|intros lines].
    assert (Hmiss : pres R
      (count c cache_total_miss;;
       count c (if is_write req then cache_write_miss else cache_read_miss);;
       send_miss latency latency_each fuel (send latency latency_each fuel)
         c idx lines (is_write req) (Request.with_type req Request.READ))).
    { apply pres_bind2; [exact R_trans|apply R_miss|].
      unfold send_miss, send_forward.
      repeat first [ apply allocate_line_orderly | apply IH | progress orderly ]. }
    destruct (is_hit C lines (Request.addr req)) as [[|] [l|]]; try exact Hmiss.
    unfold send_hit. orderly.
Qed.

Lemma callback_orderly fuel :
  forall c req, pres R (callback fuel c req).
Proof.
  induction fuel as [|fuel IH]; intros c req; simpl.
  - apply pres_fail.
  - unfold callback_here. repeat first [ apply IH | progress orderly ].
Qed.

Lemma retry_loop_orderly fuel lower pending :
  forall kept, pres R (retry_loop latency latency_each fuel lower kept pending).
Proof.
  assert (H : forall n pending, (length pending <= n)%nat ->
            forall kept,
              pres R (retry_loop latency latency_each fuel lower kept pending)).
  { induction n as [|n IH]; intros [|r rest] Hn kept; simpl in *;
      try (by orderly); try lia.
    apply (pres_bind _ R_trans); [apply send_orderly|intros ok].
    destruct ok; [|apply IH; lia].
    destruct rest as [|r' rest']; [apply pres_fail|].
    apply IH. simpl in Hn. lia. }
  by apply (H (length pending)).
Qed.

Lemma tick_orderly fuel :
  forall c, pres R (tick latency latency_each fuel c).
Proof.
  induction fuel as [|fuel IH]; intros c; simpl.
  - apply pres_fail.
  - repeat first [ apply IH | apply retry_loop_orderly
                 | apply (R_retry _ (fun _ => _)) | progress orderly ].
Qed.

End Orderly.

(** ** The wiring, the clock and the queues *)

Lemma steady_refl s : steady s s.
Proof. split_and!; done. Qed.

Lemma steady_trans s1 s2 s3 : steady s1 s2 -> steady s2 s3 -> steady s1 s3.
Proof.
  intros (A1 & A2 & A3 & A4) (B1 & B2 & B3 & B4).
  split_and!; try congruence; by etransitivity.
Qed.

Lemma modify_cache_steady c f :
  (forall C, Cache.cfg (f C) = Cache.cfg C) -> pres steady (modify_cache c f).
Proof.
  intros Hf s u s' H. apply modify_cache_inv in H as (C & HC & ->).
  split_and!; try done. by eapply cfgs_put_cache.
Qed.

Lemma push_hit_steady e : pres steady (push_hit e).
Proof.
  intros s [] s' [= <-]. split_and!; try done; simpl; by apply prefix_app_r.
Qed.

Lemma push_wait_steady e : pres steady (push_wait e).
Proof.
  intros s [] s' [= <-]. split_and!; try done; simpl; by apply prefix_app_r.
Qed.

Lemma counts_steady c k k' : pres steady (count c k;; count c k').
Proof.
  apply (pres_bind _ steady_trans); [|intros _]; by apply modify_cache_steady.
Qed.

(** ** The counters *)

Lemma balanced_refl s : balanced s s.
Proof. done. Qed.

Lemma balanced_trans s1 s2 s3 : balanced s1 s2 -> balanced s2 s3 -> balanced s1 s3.
Proof. unfold balanced. congruence. Qed.

Lemma balanced_put_cache s c C C' :
  caches s !! c = Some C -> surplus C' = surplus C -> balanced s (put_cache s c C').
Proof.
  intros HC Hs. unfold balanced, put_cache. simpl.
  rewrite list_fmap_insert, Hs. apply list_insert_id.
  by rewrite list_lookup_fmap, HC.
Qed.

Lemma modify_cache_balanced c f :
  (forall C, surplus (f C) = surplus C) -> pres balanced (modify_cache c f).
Proof.
  intros Hf s u s' H. apply modify_cache_inv in H as (C & HC & ->).
  by eapply balanced_put_cache.
Qed.

Lemma surplus_counters C C' :
  Cache.counters C' = Cache.counters C -> surplus C' = surplus C.
Proof. unfold surplus, Cache.stats. by intros ->. Qed.

Lemma surplus_count k C :
  k ∈ [cache_eviction; cache_mshr_hit; cache_mshr_unavailable;
       cache_set_unavailable] ->
  surplus (Cache.count k C) = surplus C.
Proof.
  intros Hk. unfold surplus. rewrite !stats_count.
  repeat (apply elem_of_cons in Hk as [->|Hk]; [reflexivity|]).
  by apply elem_of_nil in Hk.
Qed.

Lemma surplus_access (w : bool) C :
  surplus (Cache.count (if w then cache_write_access else cache_read_access)
             (Cache.count cache_total_access C)) = surplus C.
Proof.
  unfold surplus. rewrite !stats_count. destruct w; simpl; f_equal; lia.
Qed.

Lemma surplus_miss (w : bool) C :
  surplus (Cache.count (if w then cache_write_miss else cache_read_miss)
             (Cache.count cache_total_miss C)) = surplus C.
Proof.
  unfold surplus. rewrite !stats_count. destruct w; simpl; f_equal; lia.
Qed.

Lemma counts_balanced c k k' :
  (forall C, surplus (Cache.count k' (Cache.count k C)) = surplus C) ->
  pres balanced (count c k;; count c k').
Proof.
  intros Hs s u s' H. apply bind_inv in H as (u1 & s1 & H1 & H2).
  apply modify_cache_inv in H1 as (C & HC & ->).
  rewrite (count_eval _ _ _ _ (put_cache_lookup _ _ _ _ HC)) in H2.
  inversion H2; subst. rewrite put_cache_put_cache.
  by eapply balanced_put_cache.
Qed.

Section OrderlyFacts.

Variable latency : CacheLevel -> Z.
Variable latency_each : CacheLevel -> Z.

Local Abbreviation send := (send latency latency_each).
Local Abbreviation tick := (tick latency latency_each).

Lemma send_steady fuel c req : pres steady (send fuel c req).
Proof.
  apply send_orderly;
    first [ exact steady_refl | exact steady_trans | exact push_hit_steady
          | exact push_wait_steady | intros; apply counts_steady | idtac ].
  - intros c' f Hf. apply modify_cache_steady. intros C. apply Hf.
  - intros c' f. by apply modify_cache_steady.
  - intros c' k _. by apply modify_cache_steady.
Qed.

Lemma tick_steady fuel c : pres steady (tick fuel c).
Proof.
  apply tick_orderly;
    first [ exact steady_refl | exact steady_trans | exact push_hit_steady
          | exact push_wait_steady | intros; apply counts_steady | idtac ].
  - intros c' f Hf. apply modify_cache_steady. intros C. apply Hf.
  - intros c' f. by apply modify_cache_steady.
  - intros c' k _. by apply modify_cache_steady.
Qed.

Lemma send_balanced fuel c req : pres balanced (send fuel c req).
Proof.
  apply send_orderly;
    first [ exact balanced_refl | exact balanced_trans | idtac ].
  - intros c' f Hf. apply modify_cache_balanced. intros C.
    apply surplus_counters, Hf.
  - intros c' f. by apply modify_cache_balanced.
  - intros c' k Hk. apply modify_cache_balanced. intros C.
    by apply surplus_count.
  - intros c' w. apply counts_balanced. apply surplus_access.
  - intros c' w. apply counts_balanced. apply surplus_miss.
  - intros e s [] s' [= <-]. done.
  - intros e s [] s' [= <-]. done.
Qed.

Lemma tick_balanced fuel c : pres balanced (tick fuel c).
Proof.
  apply tick_orderly;
    first [ exact balanced_refl | exact balanced_trans | idtac ].
  - intros c' f Hf. apply modify_cache_balanced. intros C.
    apply surplus_counters, Hf.
  - intros c' f. by apply modify_cache_balanced.
  - intros c' k Hk. apply modify_cache_balanced. intros C.
    by apply surplus_count.
  - intros c' w. apply counts_balanced. apply surplus_access.
  - intros c' w. apply counts_balanced. apply surplus_miss.
  - intros e s [] s' [= <-]. done.
  - intros e s [] s' [= <-]. done.
Qed.

(** X16: in any hierarchy, however its caches are wired, a [send] that
    returns has left the wiring and the geometry of every cache and the
    clock as they were, and has removed or reordered nothing in
    [hit_list] and [wait_list]: what was queued is still there, in the
    same order, before whatever the call has appended. *)
Theorem send_is_steady (fuel : nat) (c : nat) (req : Request.t)
    (s s' : Sys) (b : bool) :
  send fuel c req s = Ok (b, s') ->
  cfgs s' = cfgs s /\
  CacheSystem.clk (cachesys s') = CacheSystem.clk (cachesys s) /\
  (exists hits, CacheSystem.hit_list (cachesys s')
                = CacheSystem.hit_list (cachesys s) ++ hits) /\
  (exists waits, CacheSystem.wait_list (cachesys s')
                 = CacheSystem.wait_list (cachesys s) ++ waits).
Proof. intros H. by apply send_steady in H. Qed.

(** X17: in any hierarchy, a [Cache::tick] that returns has left the
    wiring, the geometry and the clock as they were and has only
    appended to [hit_list] and [wait_list]; and in every cache the
    amount by which [cache_total_access] exceeds the sum of
    [cache_read_access] and [cache_write_access] is what it was, and
    likewise for the three miss counters. *)
Theorem tick_is_steady (fuel : nat) (c : nat) (s s' : Sys) :
  tick fuel c s = Ok (tt, s') ->
  cfgs s' = cfgs s /\
  CacheSystem.clk (cachesys s') = CacheSystem.clk (cachesys s) /\
  (exists hits, CacheSystem.hit_list (cachesys s')
                = CacheSystem.hit_list (cachesys s) ++ hits) /\
  (exists waits, CacheSystem.wait_list (cachesys s')
                 = CacheSystem.wait_list (cachesys s) ++ waits) /\
  forall c' C C', caches s !! c' = Some C -> caches s' !! c' = Some C' ->
    surplus C' = surplus C.
Proof.
  intros H. destruct (tick_steady _ _ _ _ _ H) as (H1 & H2 & H3 & H4).
  split_and!; try done.
  intros c' C C' HC HC'. apply tick_balanced in H. unfold balanced in H.
  apply (f_equal (fun l => l !! c')) in H.
  rewrite !list_lookup_fmap, HC, HC' in H.
  cbn [fmap option_fmap option_map] in H. congruence.
Qed.

(** X18: the counters add up.  In any hierarchy, a [send] that returns
    has added as much to [cache_total_access] as to [cache_read_access]
    and [cache_write_access] together, in every cache, and as much to
    [cache_total_miss] as to [cache_read_miss] and [cache_write_miss]
    together: on caches that start with their counters at zero the
    totals are the sums of their parts. *)
Theorem send_keeps_counters_balanced (fuel : nat) (c : nat) (req : Request.t)
    (s s' : Sys) (b : bool) :
  send fuel c req s = Ok (b, s') ->
  forall c' C C', caches s !! c' = Some C -> caches s' !! c' = Some C' ->
    Cache.stats C' cache_total_access
    - Cache.stats C' cache_read_access - Cache.stats C' cache_write_access
    = Cache.stats C cache_total_access
      - Cache.stats C cache_read_access - Cache.stats C cache_write_access /\
    Cache.stats C' cache_total_miss
    - Cache.stats C' cache_read_miss - Cache.stats C' cache_write_miss
    = Cache.stats C cache_total_miss
      - Cache.stats C cache_read_miss - Cache.stats C cache_write_miss.
Proof.
  intros H c' C C' HC HC'. apply send_balanced in H. unfold balanced in H.
  apply (f_equal (fun l => l !! c')) in H.
  rewrite !list_lookup_fmap, HC, HC' in H. simpl in H.
  unfold surplus in H. inversion H as [[H1 H2]]. split; [exact H1|exact H2].
Qed.

End OrderlyFacts.

(** X16, witnessed on the two small levels: the read of block 128 makes
    the last level write block 0 back, which joins [wait_list]. *)
Lemma send_is_steady_witness :
  cfgs Scenario.small_evicted = cfgs Scenario.small_filled /\
  CacheSystem.clk (cachesys Scenario.small_evicted)
  = CacheSystem.clk (cachesys Scenario.small_filled) /\
  (exists hits, CacheSystem.hit_list (cachesys Scenario.small_evicted)
                = CacheSystem.hit_list (cachesys Scenario.small_filled) ++ hits) /\
  (exists waits, CacheSystem.wait_list (cachesys Scenario.small_evicted)
                 = CacheSystem.wait_list (cachesys Scenario.small_filled) ++ waits).
Proof.
  assert (H : send Scenario.latency Scenario.latency_each 8 0 (Scenario.read 128)
                Scenario.small_filled = Ok (true, Scenario.small_evicted))
    by (vm_compute; reflexivity).
  exact (send_is_steady Scenario.latency Scenario.latency_each 8 0
           (Scenario.read 128) Scenario.small_filled Scenario.small_evicted true H).
Defined.

Example send_appends_the_write_back :
  CacheSystem.wait_list (cachesys Scenario.small_evicted)
  = CacheSystem.wait_list (cachesys Scenario.small_filled)
    ++ [(16, Scenario.write 0); (12, Scenario.read 128)].
Proof. vm_compute; reflexivity. Qed.

(** X17, witnessed on the two levels with two reads waiting in the retry
    list of the L2. *)
Lemma tick_is_steady_witness :
  cfgs Scenario.two_level_ticked = cfgs Scenario.two_level_retrying /\
  CacheSystem.clk (cachesys Scenario.two_level_ticked)
  = CacheSystem.clk (cachesys Scenario.two_level_retrying) /\
  (exists hits, CacheSystem.hit_list (cachesys Scenario.two_level_ticked)
                = CacheSystem.hit_list (cachesys Scenario.two_level_retrying) ++ hits) /\
  (exists waits, CacheSystem.wait_list (cachesys Scenario.two_level_ticked)
                 = CacheSystem.wait_list (cachesys Scenario.two_level_retrying)
                   ++ waits) /\
  forall c' C C', caches Scenario.two_level_retrying !! c' = Some C ->
    caches Scenario.two_level_ticked !! c' = Some C' ->
    surplus C' = surplus C.
Proof.
  assert (H : tick Scenario.latency Scenario.latency_each 8 0
                Scenario.two_level_retrying = Ok (tt, Scenario.two_level_ticked))
    by (vm_compute; reflexivity).
  exact (tick_is_steady Scenario.latency Scenario.latency_each 8 0
           Scenario.two_level_retrying Scenario.two_level_ticked H).
Defined.

(** X18, witnessed on the last level of the two small levels, which takes
    the read of block 128 as a miss. *)
Lemma send_keeps_counters_balanced_witness :
  Cache.stats (Scenario.cache_at 1 Scenario.small_evicted) cache_total_access
  - Cache.stats (Scenario.cache_at 1 Scenario.small_evicted) cache_read_access
  - Cache.stats (Scenario.cache_at 1 Scenario.small_evicted) cache_write_access
  = Cache.stats (Scenario.cache_at 1 Scenario.small_filled) cache_total_access
    - Cache.stats (Scenario.cache_at 1 Scenario.small_filled) cache_read_access
    - Cache.stats (Scenario.cache_at 1 Scenario.small_filled) cache_write_access /\
  Cache.stats (Scenario.cache_at 1 Scenario.small_evicted) cache_total_miss
  - Cache.stats (Scenario.cache_at 1 Scenario.small_evicted) cache_read_miss
  - Cache.stats (Scenario.cache_at 1 Scenario.small_evicted) cache_write_miss
  = Cache.stats (Scenario.cache_at 1 Scenario.small_filled) cache_total_miss
    - Cache.stats (Scenario.cache_at 1 Scenario.small_filled) cache_read_miss
    - Cache.stats (Scenario.cache_at 1 Scenario.small_filled) cache_write_miss.
Proof.
  assert (H : send Scenario.latency Scenario.latency_each 8 0 (Scenario.read 128)
                Scenario.small_filled = Ok (true, Scenario.small_evicted))
    by (vm_compute; reflexivity).
  assert (HC : caches Scenario.small_filled !! 1%nat
               = Some (Scenario.cache_at 1 Scenario.small_filled))
    by (vm_compute; reflexivity).
  assert (HC' : caches Scenario.small_evicted !! 1%nat
                = Some (Scenario.cache_at 1 Scenario.small_evicted))
    by (vm_compute; reflexivity).
  exact (send_keeps_counters_balanced Scenario.latency Scenario.latency_each 8 0
           (Scenario.read 128) Scenario.small_filled Scenario.small_evicted true H
           1%nat _ _ HC HC').
Defined.

Example the_miss_is_counted :
  Cache.stats (Scenario.cache_at 1 Scenario.small_evicted) cache_total_miss
  = Cache.stats (Scenario.cache_at 1 Scenario.small_filled) cache_total_miss + 1.
Proof. vm_compute; reflexivity. Qed.


(* ===================================================================== *)
(** * A miss, its fill, and the hit that follows *)
(* ===================================================================== *)

Lemma find_tag_app_new tg l i x :
  (forall n, n ∈ l -> Line.tag (line n) <> tg) -> Line.tag x = tg ->
  find_tag tg (l ++ [mkNode i x]) = Some (mkNode i x).
Proof.
  unfold find_tag. induction l as [|m l IH]; intros Hne Hx; simpl.
  - apply Z.eqb_eq in Hx. by rewrite Hx.
  - destruct (Z.eqb_spec (Line.tag (line m)) tg) as [E|E].
    + destruct (Hne m); [apply elem_of_cons; by left|done].
    + apply IH; [|done]. intros n Hn. apply Hne. apply elem_of_cons. by right.
Qed.

Lemma list_find_app_new {A} (P : A -> Prop) `{!forall x, Decision (P x)}
    (l : list A) (x : A) :
  (forall y, y ∈ l -> ~ P y) -> P x ->
  list_find P (l ++ [x]) = Some (length l, x).
Proof.
  intros Hl Hx. apply list_find_Some. split_and!.
  - by rewrite lookup_app_r, Nat.sub_diag by lia.
  - done.
  - intros j y Hj Hlt. rewrite lookup_app_l in Hj by done.
    apply Hl. by eapply list_elem_of_lookup_2.
Qed.

Section RoundTrip.

Variable latency : CacheLevel -> Z.
Variable latency_each : CacheLevel -> Z.

Local Abbreviation send := (send latency latency_each).

(** X19: a miss, its fill, and the hit that follows.  On a lone
    last-level cache in order, when [send] has taken a request that
    neither hit nor met an MSHR entry, the [callback] for that request
    returns, and a [send] for the same address is then a hit: it returns
    true, sends nothing to memory, and appends the request to [hit_list],
    due [latency[level]] cycles from now. *)
Theorem miss_fill_hit (fuel : nat) (s s1 : Sys) (c : nat) (C : Cache.t)
    (req req' : Request.t) :
  caches s !! c = Some C -> lone C -> coherent C -> well_formed C ->
  hits C req = false -> in_mshr C req = false ->
  Request.addr req' = Request.addr req ->
  send (S fuel) c req s = Ok (true, s1) ->
  exists s2 s3,
    callback (S fuel) c req s1 = Ok (tt, s2) /\
    send (S fuel) c req' s2 = Ok (true, s3) /\
    cachesys s3 =
      CacheSystem.mk (CacheSystem.clk (cachesys s1))
        (CacheSystem.hit_list (cachesys s1) ++
         [(CacheSystem.clk (cachesys s1) + latency (Cache.level (Cache.cfg C)),
           req')])
        (CacheSystem.wait_list (cachesys s1)).
Proof.
  intros HC Hlone Hco Hwf Hnohit Hnomshr Haddr Hsend.
  set (a := Request.addr req) in *. set (idx := Cache.get_index C a).
  set (tg := Cache.get_tag C a).
  assert (Hno : forall l, is_hit C (set_of C req) a <> (true, Some l)).
  { intros l E. unfold hits in Hnohit. fold a in Hnohit. by rewrite E in Hnohit. }
  assert (Hnone : find_mshr C a = None).
  { unfold in_mshr, hit_mshr in Hnomshr. fold a in Hnomshr.
    apply bool_decide_eq_false in Hnomshr.
    destruct (find_mshr C a); [|done]. destruct Hnomshr. eauto. }
  destruct (send_lone latency latency_each fuel s c C req HC Hlone Hco Hwf)
    as (b & s1' & C1 & Hs & Hc1 & Hcfg1 & Hw1 & Halloc).
  rewrite Hsend in Hs. inversion Hs; subst b s1'. clear Hs.
  destruct (Halloc Hnone Hno eq_refl) as (L0 & _ & Hlines & Hmshr & Hsub).
  set (d := is_write req) in *.
  fold a idx tg in Hlines, Hmshr, Hsub.
  assert (H1 : caches s1 !! c = Some C1).
  { rewrite Hc1. apply list_lookup_insert_eq. by eapply lookup_lt_Some. }
  assert (Hfresh : forall n, n ∈ L0 -> node_id n <> Cache.next_node C).
  { intros n Hn. apply Hsub in Hn. destruct Hwf as [Hsets _].
    destruct (Hsets idx) as (_ & _ & _ & H4). apply H4 in Hn as [? _]. lia. }
  assert (Htags : forall n, n ∈ L0 -> Line.tag (line n) <> tg).
  { intros n Hn. apply Hsub in Hn.
    eapply find_tag_None; [|exact Hn]. by apply miss_finds_no_tag. }
  (* the fill *)
  destruct (callback_lone fuel s1 c C1 req H1 (lone_cfg _ _ Hcfg1 Hlone) Hw1)
    as (Hcb & Hcfg2 & Hw2).
  set (C2 := released C1 req) in *.
  assert (Hfm : find_mshr C1 a =
            Some (length (Cache.mshr_entries C), (a, (idx, Cache.next_node C)))).
  { unfold find_mshr. rewrite Hmshr. apply list_find_app_new; [|done].
    intros e He. rewrite !(align_cfg _ _ _ Hcfg1).
    by apply (find_mshr_None _ _ _ Hnone). }
  assert (Hl2 : Cache.lines_at C2 idx =
            L0 ++ [mkNode (Cache.next_node C) (Line.mk a tg false d)]).
  { unfold C2, released. fold a. rewrite Hfm.
    change (Cache.lines_at (Cache.with_mshr ?e ?X) ?i) with (Cache.lines_at X i).
    cbn [fst snd]. rewrite lines_at_set_lines, Hlines.
    by rewrite update_node_app_new. }
  exists (put_cache s1 c C2). 
  assert (H2 : caches (put_cache s1 c C2) !! c = Some C2)
    by (by eapply put_cache_lookup).
  (* the hit *)
  rewrite (send_unfold _ _ fuel _ c C2 req' H2).
  unfold set_of. rewrite Haddr. fold a.
  rewrite (get_index_cfg _ _ _ Hcfg2), (get_index_cfg _ _ _ Hcfg1). fold idx.
  assert (Hhit : is_hit C2 (Cache.lines_at C2 idx) a =
            (true, Some (mkNode (Cache.next_node C) (Line.mk a tg false d)))).
  { unfold is_hit. rewrite (get_tag_cfg _ _ _ Hcfg2), (get_tag_cfg _ _ _ Hcfg1).
    fold tg. rewrite Hl2. by rewrite find_tag_app_new. }
  rewrite Hhit. unfold send_hit.
  assert (HT : caches (put_cache (put_cache s1 c C2) c (touched C2 req')) !! c
               = Some (touched C2 req'))
    by (by eapply put_cache_lookup).
  rewrite (bind_eval _ _ _ _ _ (push_back_eval _ _ _ _ _ HT)).
  erewrite (bind_eval (erase _ _ _)).
  2:{ apply erase_eval. by eapply put_cache_lookup. }
  rewrite (bind_eval _ _ _ _ _ (the_clk_eval _)).
  rewrite (bind_eval _ _ _ _ _ (push_hit_eval _ _)).
  eexists. split; [exact Hcb|]. split; [reflexivity|].
  simpl. rewrite Hcfg2, Hcfg1. reflexivity.
Qed.

End RoundTrip.

(** X19, witnessed on the fresh last-level cache of the scenarios. *)
Lemma miss_fill_hit_witness :
  exists s2 s3,
    callback 1 0 (Scenario.read 0) Scenario.one_read = Ok (tt, s2) /\
    send Scenario.latency Scenario.latency_each 1 0 (Scenario.write 0) s2
      = Ok (true, s3) /\
    cachesys s3 =
      CacheSystem.mk (CacheSystem.clk (cachesys Scenario.one_read))
        (CacheSystem.hit_list (cachesys Scenario.one_read) ++
         [(CacheSystem.clk (cachesys Scenario.one_read)
           + Scenario.latency (Cache.level (Cache.cfg Scenario.llc)),
           Scenario.write 0)])
        (CacheSystem.wait_list (cachesys Scenario.one_read)).
Proof.
  assert (H : send Scenario.latency Scenario.latency_each 1 0 (Scenario.read 0)
                Scenario.single = Ok (true, Scenario.one_read))
    by (vm_compute; reflexivity).
  assert (HC : caches Scenario.single !! 0%nat = Some Scenario.llc) by reflexivity.
  assert (Hl : lone Scenario.llc) by (split; reflexivity).
  assert (Hco : coherent Scenario.llc)
    by (apply (new_coherent 128 2 64 2 L3 true true); reflexivity).
  assert (Hw : well_formed Scenario.llc)
    by (apply (wf_new 128 2 64 2 L3 true true); discriminate).
  assert (Hh : hits Scenario.llc (Scenario.read 0) = false) by reflexivity.
  assert (Hm : in_mshr Scenario.llc (Scenario.read 0) = false) by reflexivity.
  assert (Ha : Request.addr (Scenario.write 0) = Request.addr (Scenario.read 0))
    by reflexivity.
  exact (miss_fill_hit Scenario.latency Scenario.latency_each 0 Scenario.single
           Scenario.one_read 0 Scenario.llc (Scenario.read 0) (Scenario.write 0)
           HC Hl Hco Hw Hh Hm Ha H).
Defined.


(* ===================================================================== *)
(** * Single methods, on any hierarchy *)
(* ===================================================================== *)

Section MethodFacts.

Variable latency : CacheLevel -> Z.
Variable latency_each : CacheLevel -> Z.

Local Abbreviation send := (send latency latency_each).
Local Abbreviation invalidate := (invalidate latency_each).

(** X20: [refresh_lru_lower] stops at its first assertion when the set of
    the address does not exist and at its second when the set holds no
    line of the tag; otherwise it returns, and the line of the tag has
    left its place for the back of the list, the most recently used end:
    the new line there is dirty if the old one was or if [dirty] is set,
    and it is unlocked whether the old one was or not.  The other lines
    keep their order; the other sets, the MSHR table, the counters and
    every other cache are as they were. *)
Theorem refresh_lru_lower_effects (s : Sys) (c : nat) (C : Cache.t)
    (a : Z) (dirty : bool) :
  caches s !! c = Some C ->
  let idx := Cache.get_index C a in
  let tg := Cache.get_tag C a in
  (Cache.cache_lines C !! idx = None ->
   refresh_lru_lower c a dirty s = Fault (AssertFail A_refresh_set)) /\
  (forall lines, Cache.cache_lines C !! idx = Some lines ->
     find_tag tg lines = None ->
     refresh_lru_lower c a dirty s = Fault (AssertFail A_refresh_line)) /\
  (forall lines l, Cache.cache_lines C !! idx = Some lines ->
     find_tag tg lines = Some l ->
     exists C',
       refresh_lru_lower c a dirty s = Ok (tt, put_cache s c C') /\
       Cache.lines_at C' idx =
         erase_node (node_id l) lines ++
         [mkNode (Cache.next_node C)
            (Line.mk a tg false (dirty || Line.dirty (line l)))] /\
       size_ (Cache.lines_at C' idx) = size_ lines /\
       (forall i, i <> idx -> Cache.lines_at C' i = Cache.lines_at C i) /\
       Cache.cfg C' = Cache.cfg C /\
       Cache.mshr_entries C' = Cache.mshr_entries C /\
       Cache.counters C' = Cache.counters C).
Proof.
  intros HC idx tg. unfold refresh_lru_lower.
  rewrite (bind_eval _ _ _ _ _ (the_cache_eval _ _ _ HC)). fold idx tg.
  split_and!.
  - intros ->. done.
  - intros lines -> ->. done.
  - intros lines l Hl Hf. rewrite Hl, Hf.
    rewrite (bind_eval _ _ _ _ _ (push_back_eval _ _ _ _ _ HC)).
    erewrite erase_eval by (by eapply put_cache_lookup).
    rewrite put_cache_put_cache.
    assert (Hat : Cache.lines_at C idx = lines)
      by (unfold Cache.lines_at; by rewrite Hl).
    apply find_tag_Some in Hf as [Hin _].
    eexists. split; [reflexivity|].
    assert (Hnew :
      Cache.lines_at
        (set_lines idx
           (erase_node (node_id l)
              (Cache.lines_at
                 (Cache.with_next (S (Cache.next_node C))
                    (set_lines idx
                       (Cache.lines_at C idx ++
                        [mkNode (Cache.next_node C)
                           (Line.mk a tg false (dirty || Line.dirty (line l)))]) C))
                 idx))
           (Cache.with_next (S (Cache.next_node C))
              (set_lines idx
                 (Cache.lines_at C idx ++
                  [mkNode (Cache.next_node C)
                     (Line.mk a tg false (dirty || Line.dirty (line l)))]) C)))
        idx
      = erase_node (node_id l) lines ++
        [mkNode (Cache.next_node C)
           (Line.mk a tg false (dirty || Line.dirty (line l)))]).
    { rewrite lines_at_set_lines.
      change (Cache.lines_at (Cache.with_next ?n ?X) ?i) with (Cache.lines_at X i).
      rewrite lines_at_set_lines, Hat.
      apply erase_node_app. apply list_elem_of_fmap. eauto. }
    split_and!; try done.
    + rewrite Hnew. unfold size_. rewrite length_app. simpl.
      rewrite <- (erase_node_length (node_id l) lines)
        by (apply list_elem_of_fmap; eauto).
      lia.
    + intros i Hi. rewrite lines_at_set_lines_ne by done.
      change (Cache.lines_at (Cache.with_next ?n ?X) ?i) with (Cache.lines_at X i).
      by rewrite lines_at_set_lines_ne.
Qed.

(** X21: [invalidate] of a block that is resident, in any cache of any
    hierarchy, never returns a value.  When the first line of the tag is
    locked the call stops at [assert(!line->lock)].  Otherwise the line
    is erased, and [line->dirty] is then read through the iterator that
    [lines.erase(line)] has just invalidated: in a cache with nothing
    above it the call is undefined at once, and with caches above it the
    first round of the loop over them ends in that read, unless the
    invalidation of the first higher cache has stopped before. *)
Theorem invalidate_resident (fuel : nat) (s : Sys) (c : nat) (C : Cache.t)
    (a : Z) (pre : list Node) (l : Node) (post : list Node) :
  caches s !! c = Some C ->
  Cache.lines_at C (Cache.get_index C a) = pre ++ l :: post ->
  Forall (fun n => Line.tag (line n) <> Cache.get_tag C a) pre ->
  Line.tag (line l) = Cache.get_tag C a ->
  (Line.lock (line l) = true ->
   invalidate (S fuel) c a s = Fault (AssertFail A_invalidate_lock)) /\
  (Line.lock (line l) = false -> Cache.higher_cache (Cache.cfg C) = [] ->
   invalidate (S fuel) c a s = Fault Undefined) /\
  (forall r s', invalidate fuel c a s <> Ok (r, s')).
Proof.
  intros HC Hlines Hpre Htag.
  pose proof (find_tag_split _ _ _ post Hpre Htag) as Hf. rewrite <- Hlines in Hf.
  assert (Hhead : forall f', invalidate (S f') c a s =
    (if Line.lock (line l) then fail (AssertFail A_invalidate_lock)
     else
       erase c (Cache.get_index C a) (node_id l);;
       match Cache.higher_cache (Cache.cfg C) with
       | [] => line_dirty ← erased_line_dirty;
               mret (latency_each (Cache.level (Cache.cfg C)), line_dirty)
       | hc :: hcs =>
           foldM (fun acc hc' =>
                    r ← invalidate f' hc' a;
                    invalidate_round (latency_each (Cache.level (Cache.cfg C))) acc r)
                 (latency_each (Cache.level (Cache.cfg C)), false) (hc :: hcs)
       end)
      (put_cache s c (ensure_set (Cache.get_index C a) C))).
  { intros f'. simpl.
    rewrite (bind_eval _ _ _ _ _ (the_cache_eval _ _ _ HC)).
    rewrite (bind_eval _ _ _ _ _ (get_lines_eval _ _ _ a HC)).
    erewrite (bind_eval (lines_of _ _)).
    2:{ apply lines_of_eval. by eapply put_cache_lookup. }
    rewrite lines_at_ensure_set, size_zero.
    case_bool_decide as Hnil; [by rewrite Hnil in Hf|].
    rewrite Hf. by destruct (Cache.higher_cache (Cache.cfg C)). }
  split_and!.
  - intros Hl. by rewrite Hhead, Hl.
  - intros Hl Htop. rewrite Hhead, Hl, Htop.
    erewrite (bind_eval (erase _ _ _)).
    2:{ apply erase_eval. by eapply put_cache_lookup. }
    reflexivity.
  - intros r s'. destruct fuel as [|f']; [done|].
    rewrite Hhead. destruct (Line.lock (line l)); [done|].
    erewrite (bind_eval (erase _ _ _)).
    2:{ apply erase_eval. by eapply put_cache_lookup. }
    destruct (Cache.higher_cache (Cache.cfg C)) as [|hc hcs]; [done|].
    cbn [foldM]. intros H.
    apply bind_inv in H as (acc & s1 & H & _).
    apply bind_inv in H as (r1 & s2 & _ & H).
    unfold invalidate_round in H. simpl in H. done.
Qed.

(** X22: [concatlower] links the two caches both ways: afterwards the
    [lower_cache] of the one is the other, and the [higher_cache] of the
    other ends with the one; levels, flags, geometry, sets, MSHR tables
    and counters are untouched, as is every other cache.  When the cache
    linked above stands at a strictly smaller level than the one below,
    a hierarchy whose levels descended still has them descend. *)
Theorem concatlower_links (s : Sys) (c lower : nat) (C L : Cache.t) :
  caches s !! c = Some C -> caches s !! lower = Some L -> c <> lower ->
  exists s' C' L',
    concatlower c lower s = Ok (tt, s') /\
    caches s' !! c = Some C' /\ caches s' !! lower = Some L' /\
    (forall c', c' <> c -> c' <> lower -> caches s' !! c' = caches s !! c') /\
    cachesys s' = cachesys s /\
    Cache.lower_cache (Cache.cfg C') = Some lower /\
    Cache.higher_cache (Cache.cfg C') = Cache.higher_cache (Cache.cfg C) /\
    Cache.higher_cache (Cache.cfg L') = Cache.higher_cache (Cache.cfg L) ++ [c] /\
    Cache.lower_cache (Cache.cfg L') = Cache.lower_cache (Cache.cfg L) /\
    Cache.level (Cache.cfg C') = Cache.level (Cache.cfg C) /\
    Cache.level (Cache.cfg L') = Cache.level (Cache.cfg L) /\
    Cache.cache_lines C' = Cache.cache_lines C /\
    Cache.cache_lines L' = Cache.cache_lines L /\
    Cache.mshr_entries C' = Cache.mshr_entries C /\
    Cache.mshr_entries L' = Cache.mshr_entries L /\
    (levels_descend (cfgs s) = true ->
     (level_index (Cache.level (Cache.cfg C))
      < level_index (Cache.level (Cache.cfg L)))%nat ->
     levels_descend (cfgs s') = true).
Proof.
  intros HC HL Hne. unfold concatlower.
  rewrite (bind_eval _ _ _ _ _ (modify_cache_eval _ _ _ _ HC)).
  erewrite modify_cache_eval by (rewrite put_cache_lookup_ne by done; exact HL).
  set (C' := Cache.with_cfg _ C). set (L' := Cache.with_cfg _ L).
  exists (put_cache (put_cache s c C') lower L'), C', L'.
  assert (H1 : caches (put_cache (put_cache s c C') lower L') !! c = Some C').
  { rewrite put_cache_lookup_ne by done. by eapply put_cache_lookup. }
  assert (H2 : caches (put_cache (put_cache s c C') lower L') !! lower = Some L').
  { eapply put_cache_lookup. rewrite put_cache_lookup_ne by done. exact HL. }
  assert (H3 : forall c', c' <> c -> c' <> lower ->
            caches (put_cache (put_cache s c C') lower L') !! c' = caches s !! c').
  { intros c' Hc Hl. by rewrite !put_cache_lookup_ne. }
  split_and!; try done.
  intros Hdesc Hlev.
  assert (Hlook : forall i G', cfgs (put_cache (put_cache s c C') lower L') !! i = Some G' ->
            exists G, cfgs s !! i = Some G /\ Cache.level G' = Cache.level G /\
              (forall hc, hc ∈ Cache.higher_cache G' ->
                 hc ∈ Cache.higher_cache G \/ (i = lower /\ hc = c))).
  { intros i G' Hi. apply cfgs_lookup_inv in Hi as (X & HX & <-).
    destruct (decide (i = c)) as [->|Hic].
    - rewrite H1 in HX. inversion HX; subst X. exists (Cache.cfg C).
      split; [by apply cfgs_lookup|]. split; [done|]. intros hc Hhc. by left.
    - destruct (decide (i = lower)) as [->|Hil].
      + rewrite H2 in HX. inversion HX; subst X. exists (Cache.cfg L).
        split; [by apply cfgs_lookup|]. split; [done|]. intros hc Hhc.
        simpl in Hhc. apply elem_of_app in Hhc as [?|Hhc]; [by left|].
        apply list_elem_of_singleton in Hhc. by right.
      + rewrite H3 in HX by done. exists (Cache.cfg X).
        split; [by apply cfgs_lookup|]. split; [done|]. intros hc Hhc. by left. }
  unfold levels_descend. apply forallb_forall. intros G' HG'.
  apply list_elem_of_In, list_elem_of_lookup in HG' as [i Hi].
  destruct (Hlook i G' Hi) as (G & HG & Hlv & Hhigher).
  apply forallb_forall. intros hc Hhc. apply list_elem_of_In in Hhc.
  rewrite Hlv.
  assert (Hhc_level : exists H, cfgs s !! hc = Some H /\
            (level_index (Cache.level H) < level_index (Cache.level G))%nat).
  { destruct (Hhigher hc Hhc) as [Hold|[-> ->]].
    - by eapply levels_descend_higher.
    - exists (Cache.cfg C). split; [by apply cfgs_lookup|].
      apply cfgs_lookup in HL. rewrite HL in HG. by inversion HG; subst G. }
  destruct Hhc_level as (H & HH & Hlt).
  assert (Hsame : exists H', cfgs (put_cache (put_cache s c C') lower L') !! hc
                               = Some H' /\ Cache.level H' = Cache.level H).
  { apply cfgs_lookup_inv in HH as (X & HX & <-).
    destruct (decide (hc = c)) as [->|Hic].
    - rewrite HC in HX. inversion HX; subst X. exists (Cache.cfg C').
      split; [by apply cfgs_lookup|done].
    - destruct (decide (hc = lower)) as [->|Hil].
      + rewrite HL in HX. inversion HX; subst X. exists (Cache.cfg L').
        split; [by apply cfgs_lookup|done].
      + exists (Cache.cfg X). split; [|done]. apply cfgs_lookup.
        by rewrite H3. }
  destruct Hsame as (H' & -> & ->). by apply bool_decide_eq_true.
Qed.

End MethodFacts.

Lemma find_split {A} (P : A -> bool) (l : list A) (v : A) :
  List.find P l = Some v ->
  exists pre post, l = pre ++ v :: post /\ P v = true /\
                   forall x, x ∈ pre -> P x = false.
Proof.
  induction l as [|x l IH]; simpl; [done|].
  destruct (P x) eqn:Hx.
  - intros [= ->]. exists [], l. split_and!; try done.
    intros y Hy. by apply elem_of_nil in Hy.
  - intros H. destruct (IH H) as (pre & post & -> & Hv & Hpre).
    exists (x :: pre), post. split_and!; try done.
    intros y Hy. apply elem_of_cons in Hy as [->|Hy]; [done|by apply Hpre].
Qed.

Lemma erase_node_middle pre v post :
  NoDup (node_id <$> (pre ++ v :: post)) ->
  erase_node (node_id v) (pre ++ v :: post) = pre ++ post.
Proof.
  induction pre as [|x pre IH]; simpl; intros Hnd.
  - by rewrite Nat.eqb_refl.
  - apply NoDup_cons in Hnd as [Hx Hnd].
    destruct (Nat.eqb_spec (node_id x) (node_id v)) as [E|E].
    + destruct Hx. rewrite E. rewrite fmap_app. apply elem_of_app. right.
      simpl. apply elem_of_cons. by left.
    + f_equal. by apply IH.
Qed.

Section ReplacementFacts.

Variable latency : CacheLevel -> Z.
Variable latency_each : CacheLevel -> Z.

Local Abbreviation send := (send latency latency_each).

(** X23: a hit, on any cache of any hierarchy.  When the request finds
    its line unlocked, [send] returns true; the line has left its place
    for the back of the list of its set, the most recently used end,
    where it is dirty if it was or if the request is a write; the other
    lines keep their order, the other sets and the MSHR table are as they
    were, no other cache is touched, nothing is sent to memory, and the
    request joins [hit_list], due [latency[level]] cycles from now. *)
Theorem send_hit_effects (fuel : nat) (s : Sys) (c : nat) (C : Cache.t)
    (req : Request.t) (l : Node) :
  caches s !! c = Some C ->
  is_hit C (set_of C req) (Request.addr req) = (true, Some l) ->
  exists C',
    send (S fuel) c req s =
      Ok (true,
          mkSys (CacheSystem.mk (CacheSystem.clk (cachesys s))
                   (CacheSystem.hit_list (cachesys s) ++
                    [(CacheSystem.clk (cachesys s)
                      + latency (Cache.level (Cache.cfg C)), req)])
                   (CacheSystem.wait_list (cachesys s)))
                (<[c := C']> (caches s))) /\
    Cache.lines_at C' (Cache.get_index C (Request.addr req)) =
      erase_node (node_id l) (set_of C req) ++
      [mkNode (Cache.next_node C)
         (Line.mk (Request.addr req) (Cache.get_tag C (Request.addr req))
            false (Line.dirty (line l) || is_write req))] /\
    (forall i, i <> Cache.get_index C (Request.addr req) ->
               Cache.lines_at C' i = Cache.lines_at C i) /\
    Cache.cfg C' = Cache.cfg C /\
    Cache.mshr_entries C' = Cache.mshr_entries C /\
    Cache.retry_list C' = Cache.retry_list C /\
    Cache.stats C' cache_total_access = Cache.stats C cache_total_access + 1 /\
    Cache.stats C' cache_total_miss = Cache.stats C cache_total_miss.
Proof.
  intros HC Hhit.
  rewrite (send_unfold _ _ fuel s c C req HC), Hhit.
  set (a := Request.addr req) in *. set (idx := Cache.get_index C a).
  destruct (same_contents_touched C req) as (Tc & Tm & Tl).
  assert (Hin : l ∈ set_of C req).
  { unfold is_hit in Hhit. fold a in Hhit.
    destruct (find_tag _ _) as [l'|] eqn:Hf; [|done].
    inversion Hhit; subst l'. by apply find_tag_Some in Hf as [? _]. }
  unfold send_hit.
  assert (HT : caches (put_cache s c (touched C req)) !! c = Some (touched C req))
    by (by eapply put_cache_lookup).
  rewrite (bind_eval _ _ _ _ _ (push_back_eval _ _ _ _ _ HT)).
  erewrite (bind_eval (erase _ _ _)).
  2:{ apply erase_eval. by eapply put_cache_lookup. }
  rewrite (bind_eval _ _ _ _ _ (the_clk_eval _)).
  rewrite (bind_eval _ _ _ _ _ (push_hit_eval _ _)).
  eexists. split.
  { simpl. rewrite !list_insert_insert_eq. reflexivity. }
  split_and!.
  - rewrite lines_at_set_lines.
    change (Cache.lines_at (Cache.with_next ?n ?X) ?i) with (Cache.lines_at X i).
    rewrite lines_at_set_lines, Tl, next_node_touched.
    apply erase_node_app. apply list_elem_of_fmap. eauto.
  - intros i Hi. rewrite lines_at_set_lines_ne by done.
    change (Cache.lines_at (Cache.with_next ?n ?X) ?i) with (Cache.lines_at X i).
    by rewrite lines_at_set_lines_ne, Tl.
  - exact Tc.
  - exact Tm.
  - unfold touched, ensure_set. by destruct (Cache.cache_lines _ !! _).
  - change (Cache.stats (set_lines ?i ?x (Cache.with_next ?n (set_lines ?j ?y ?X))) ?k)
      with (Cache.stats X k).
    unfold touched. rewrite stats_ensure_set, !stats_count.
    by destruct (is_write req).
  - change (Cache.stats (set_lines ?i ?x (Cache.with_next ?n (set_lines ?j ?y ?X))) ?k)
      with (Cache.stats X k).
    unfold touched. rewrite stats_ensure_set, !stats_count.
    by destruct (is_write req).
Qed.

(** X24: replacement on a lone last-level cache in order.  When [send]
    takes a request that neither hits nor meets an MSHR entry, the new
    line, locked, goes to the back of the list of its set; if the set had
    room nothing leaves it, and otherwise exactly one line leaves it: the
    first unlocked one from the front, that is the least recently used
    line no fill is outstanding for.  The lines that stay keep their
    order. *)
Theorem send_replaces_lru (fuel : nat) (s s' : Sys) (c : nat) (C : Cache.t)
    (req : Request.t) :
  caches s !! c = Some C -> lone C -> coherent C -> well_formed C ->
  hits C req = false -> in_mshr C req = false ->
  send (S fuel) c req s = Ok (true, s') ->
  exists C',
    caches s' !! c = Some C' /\
    let new := mkNode (Cache.next_node C)
                 (Line.mk (Request.addr req)
                    (Cache.get_tag C (Request.addr req)) true (is_write req)) in
    (size_ (set_of C req) < Cache.assoc (Cache.cfg C) ->
     Cache.lines_at C' (Cache.get_index C (Request.addr req))
     = set_of C req ++ [new]) /\
    (Cache.assoc (Cache.cfg C) <= size_ (set_of C req) ->
     exists pre v post,
       set_of C req = pre ++ v :: post /\
       (forall n, n ∈ pre -> Line.lock (line n) = true) /\
       Line.lock (line v) = false /\
       Cache.lines_at C' (Cache.get_index C (Request.addr req))
       = pre ++ post ++ [new]).
Proof.
  intros HC Hlone Hco Hwf Hnohit Hnomshr Hsend.
  assert (Hno : forall l, is_hit C (set_of C req) (Request.addr req)
                          <> (true, Some l)).
  { intros l E. unfold hits in Hnohit. by rewrite E in Hnohit. }
  assert (Hnone : find_mshr C (Request.addr req) = None).
  { unfold in_mshr, hit_mshr in Hnomshr.
    apply bool_decide_eq_false in Hnomshr.
    destruct (find_mshr C _); [|done]. destruct Hnomshr. eauto. }
  destruct (send_lone latency latency_each fuel s c C req HC Hlone Hco Hwf)
    as (b & s1 & C1 & Hs & Hc1 & Hcfg1 & Hw1 & Halloc).
  rewrite Hsend in Hs. inversion Hs; subst b s1. clear Hs.
  destruct (Halloc Hnone Hno eq_refl) as (L0 & Hwhich & Hlines & _ & _).
  exists C1. split.
  { rewrite Hc1. apply list_lookup_insert_eq. by eapply lookup_lt_Some. }
  cbv zeta. rewrite Hlines. split.
  - intros Hroom. destruct Hwhich as [[_ ->]|[Hfull _]]; [done|lia].
  - intros Hfull. destruct Hwhich as [[Hroom _]|[_ (v & Hfind & ->)]]; [lia|].
    destruct (find_split _ _ _ Hfind) as (pre & post & Hl & Hv & Hpre).
    exists pre, v, post. split_and!.
    + exact Hl.
    + intros n Hn. apply Hpre in Hn. by apply negb_false_iff in Hn.
    + by apply negb_true_iff in Hv.
    + rewrite Hl, erase_node_middle, <- app_assoc; [done|].
      rewrite <- Hl. destruct Hwf as [Hsets _].
      by destruct (Hsets (Cache.get_index C (Request.addr req))) as (? & _).
Qed.

End ReplacementFacts.

(** X20, witnessed on the last level of the two small levels, for block 0,
    the least recently used of its two lines. *)
Lemma refresh_lru_lower_effects_witness :
  exists C',
    refresh_lru_lower 1 0 true Scenario.small_filled
      = Ok (tt, put_cache Scenario.small_filled 1 C') /\
    size_ (Cache.lines_at C' 0) = 2 /\
    (Line.addr ∘ line) <$> Cache.lines_at C' 0 = [64; 0].
Proof.
  assert (HC : caches Scenario.small_filled !! 1%nat
               = Some (Scenario.cache_at 1 Scenario.small_filled))
    by (vm_compute; reflexivity).
  destruct (refresh_lru_lower_effects Scenario.small_filled 1
              (Scenario.cache_at 1 Scenario.small_filled) 0 true HC)
    as (_ & _ & H).
  assert (Hl : exists lines l,
    Cache.cache_lines (Scenario.cache_at 1 Scenario.small_filled)
      !! Cache.get_index (Scenario.cache_at 1 Scenario.small_filled) 0 = Some lines /\
    find_tag (Cache.get_tag (Scenario.cache_at 1 Scenario.small_filled) 0) lines
      = Some l /\
    size_ lines = 2 /\
    (Line.addr ∘ line) <$> (erase_node (node_id l) lines) = [64])
    by (vm_compute; eexists _, _; split_and!; reflexivity).
  destruct Hl as (lines & l & Hl & Hf & Hsz & Hrest).
  destruct (H lines l Hl Hf) as (C' & Hrun & Hlines & Hsize & _).
  exists C'. split; [exact Hrun|]. split.
  - change (Cache.get_index (Scenario.cache_at 1 Scenario.small_filled) 0)
      with 0 in Hsize.
    by rewrite Hsize.
  - change (Cache.get_index (Scenario.cache_at 1 Scenario.small_filled) 0)
      with 0 in Hlines.
    rewrite Hlines, fmap_app, Hrest. reflexivity.
Defined.

(** X21, witnessed on the first level of the two small levels, which
    holds block 64 unlocked in a set of its own. *)
Lemma invalidate_resident_witness :
  invalidate Scenario.latency_each 1 0 64 Scenario.small_filled = Fault Undefined /\
  forall r s',
    invalidate Scenario.latency_each 2 0 64 Scenario.small_filled <> Ok (r, s').
Proof.
  assert (HC : caches Scenario.small_filled !! 0%nat
               = Some (Scenario.cache_at 0 Scenario.small_filled))
    by (vm_compute; reflexivity).
  assert (Hlines :
    Cache.lines_at (Scenario.cache_at 0 Scenario.small_filled)
      (Cache.get_index (Scenario.cache_at 0 Scenario.small_filled) 64)
    = [] ++ mkNode 1 (Line.mk 64 1 false false) :: [])
    by (vm_compute; reflexivity).
  assert (Htag : Line.tag (line (mkNode 1 (Line.mk 64 1 false false)))
                 = Cache.get_tag (Scenario.cache_at 0 Scenario.small_filled) 64)
    by (vm_compute; reflexivity).
  assert (Htop : Cache.higher_cache
                   (Cache.cfg (Scenario.cache_at 0 Scenario.small_filled)) = [])
    by (vm_compute; reflexivity).
  split.
  - destruct (invalidate_resident Scenario.latency_each 0 Scenario.small_filled 0
                (Scenario.cache_at 0 Scenario.small_filled) 64 [] _ [] HC Hlines
                (Forall_nil_2 _) Htag) as (_ & H & _).
    apply H; [reflexivity|exact Htop].
  - destruct (invalidate_resident Scenario.latency_each 2 Scenario.small_filled 0
                (Scenario.cache_at 0 Scenario.small_filled) 64 [] _ [] HC Hlines
                (Forall_nil_2 _) Htag) as (_ & _ & H).
    exact H.
Defined.

(** X22, witnessed on the two caches of the two small levels before they
    are linked. *)
Lemma concatlower_links_witness :
  exists s' C' L',
    concatlower 0 1
      (mkSys (CacheSystem.mk 0 [] [])
         [Cache.new 64 1 64 4 L1 true false; Cache.new 128 2 64 4 L2 false true])
      = Ok (tt, s') /\
    caches s' !! 0%nat = Some C' /\ caches s' !! 1%nat = Some L' /\
    Cache.lower_cache (Cache.cfg C') = Some 1%nat /\
    Cache.higher_cache (Cache.cfg L') = [0%nat] /\
    levels_descend (cfgs s') = true.
Proof.
  destruct (concatlower_links
              (mkSys (CacheSystem.mk 0 [] [])
                 [Cache.new 64 1 64 4 L1 true false;
                  Cache.new 128 2 64 4 L2 false true])
              0 1 (Cache.new 64 1 64 4 L1 true false)
              (Cache.new 128 2 64 4 L2 false true) eq_refl eq_refl)
    as (s' & C' & L' & H1 & H2 & H3 & _ & _ & H4 & _ & H5 & _ & _ & _ & _ & _ & _ & _ & H6).
  { discriminate. }
  exists s', C', L'. split_and!; try done.
  apply H6; [reflexivity|]. simpl. lia.
Defined.

(** X23, witnessed on the lone cache holding blocks 0 and 64: a write to
    block 0 hits. *)
Lemma send_hit_effects_witness :
  exists C',
    send Scenario.latency Scenario.latency_each 1 0 (Scenario.write 0) Scenario.filled =
      Ok (true,
          mkSys (CacheSystem.mk (CacheSystem.clk (cachesys Scenario.filled))
                   (CacheSystem.hit_list (cachesys Scenario.filled) ++
                    [(CacheSystem.clk (cachesys Scenario.filled) + 40,
                      Scenario.write 0)])
                   (CacheSystem.wait_list (cachesys Scenario.filled)))
                (<[0%nat := C']> (caches Scenario.filled))) /\
    (Line.addr ∘ line) <$> Cache.lines_at C' 0 = [64; 0] /\
    (Line.dirty ∘ line) <$> Cache.lines_at C' 0 = [true; true].
Proof.
  assert (HC : caches Scenario.filled !! 0%nat
               = Some (Scenario.cache_at 0 Scenario.filled))
    by (vm_compute; reflexivity).
  assert (Hl : exists l,
    is_hit (Scenario.cache_at 0 Scenario.filled)
      (set_of (Scenario.cache_at 0 Scenario.filled) (Scenario.write 0))
      (Request.addr (Scenario.write 0)) = (true, Some l) /\
    (Line.addr ∘ line) <$>
      (erase_node (node_id l)
         (set_of (Scenario.cache_at 0 Scenario.filled) (Scenario.write 0))) = [64] /\
    (Line.dirty ∘ line) <$>
      (erase_node (node_id l)
         (set_of (Scenario.cache_at 0 Scenario.filled) (Scenario.write 0))) = [true])
    by (vm_compute; eexists; split_and!; reflexivity).
  destruct Hl as (l & Hhit & Hrest & Hrestd).
  destruct (send_hit_effects Scenario.latency Scenario.latency_each 0
              Scenario.filled 0 (Scenario.cache_at 0 Scenario.filled)
              (Scenario.write 0) l HC Hhit)
    as (C' & Hrun & Hlines & _).
  exists C'. split; [exact Hrun|].
  change (Cache.get_index (Scenario.cache_at 0 Scenario.filled)
            (Request.addr (Scenario.write 0))) with 0 in Hlines.
  rewrite Hlines, !fmap_app, Hrest, Hrestd. split; [reflexivity|].
  simpl. by rewrite orb_true_r.
Defined.

(** X24, witnessed on the lone cache holding blocks 0 and 64, both
    unlocked: the read of block 128 puts block 0, the least recently used,
    out. *)
Lemma send_replaces_lru_witness :
  exists C',
    caches (Scenario.after [Scenario.send_ 0 (Scenario.read 128)] Scenario.filled)
      !! 0%nat = Some C' /\
    (2 <= size_ (set_of (Scenario.cache_at 0 Scenario.filled) (Scenario.read 128)) ->
     exists pre v post,
       set_of (Scenario.cache_at 0 Scenario.filled) (Scenario.read 128)
       = pre ++ v :: post /\
       (forall n, n ∈ pre -> Line.lock (line n) = true) /\
       Line.lock (line v) = false /\
       Cache.lines_at C' 0 =
         pre ++ post ++
         [mkNode (Cache.next_node (Scenario.cache_at 0 Scenario.filled))
            (Line.mk 128 2 true false)]).
Proof.
  assert (Hreach : exists s' C',
    calls Scenario.latency Scenario.latency_each 1 0
      [CallSend (Scenario.read 0); CallSend (Scenario.write 64);
       CallCallback (Scenario.read 0); CallCallback (Scenario.read 64)]
      (mkSys (CacheSystem.mk 0 [] []) [Cache.new 128 2 64 2 L3 true true])
      = Ok (tt, s') /\
    caches s' !! 0%nat = Some C' /\
    Cache.cfg C' = Cache.cfg (Cache.new 128 2 64 2 L3 true true) /\
    well_formed C').
  { apply calls_on_new_cache; first [reflexivity | discriminate]. }
  destruct Hreach as (s0 & C0 & Hcalls & HC0 & Hcfg0 & Hwf0).
  assert (Hs0 : calls Scenario.latency Scenario.latency_each 1 0
      [CallSend (Scenario.read 0); CallSend (Scenario.write 64);
       CallCallback (Scenario.read 0); CallCallback (Scenario.read 64)]
      (mkSys (CacheSystem.mk 0 [] []) [Cache.new 128 2 64 2 L3 true true])
      = Ok (tt, Scenario.filled)) by (vm_compute; reflexivity).
  rewrite Hs0 in Hcalls. apply Ok_state_inj in Hcalls. subst s0. clear Hs0.
  assert (HC : caches Scenario.filled !! 0%nat
               = Some (Scenario.cache_at 0 Scenario.filled))
    by (vm_compute; reflexivity).
  rewrite HC in HC0. apply Some_cache_inj in HC0. subst C0.
  assert (Hlone : lone (Scenario.cache_at 0 Scenario.filled))
    by (split; vm_compute; reflexivity).
  assert (Hco : coherent (Scenario.cache_at 0 Scenario.filled)).
  { eapply (coherent_cfg (Cache.new 128 2 64 2 L3 true true)); [done|].
    apply new_coherent; reflexivity. }
  assert (Hh : hits (Scenario.cache_at 0 Scenario.filled) (Scenario.read 128) = false)
    by (vm_compute; reflexivity).
  assert (Hm : in_mshr (Scenario.cache_at 0 Scenario.filled) (Scenario.read 128) = false)
    by (vm_compute; reflexivity).
  assert (Hsend : send Scenario.latency Scenario.latency_each 1 0 (Scenario.read 128)
                    Scenario.filled
                  = Ok (true, Scenario.after [Scenario.send_ 0 (Scenario.read 128)]
                                Scenario.filled))
    by (vm_compute; reflexivity).
  destruct (send_replaces_lru Scenario.latency Scenario.latency_each 0
              Scenario.filled _ 0 (Scenario.cache_at 0 Scenario.filled)
              (Scenario.read 128) HC Hlone Hco Hwf0 Hh Hm Hsend)
    as (C' & HC' & _ & Hfull).
  exists C'. split; [exact HC'|]. exact Hfull.
Defined.


(* ===================================================================== *)
(** * [Cache::tick] above a last-level cache *)
(* ===================================================================== *)

Lemma quiet_refl s : quiet s s.
Proof. done. Qed.

Lemma quiet_trans s1 s2 s3 : quiet s1 s2 -> quiet s2 s3 -> quiet s1 s3.
Proof. intros [A1 A2] [B1 B2]. split; congruence. Qed.

Lemma quiet_put_cache s c C C' :
  caches s !! c = Some C -> Cache.cfg C' = Cache.cfg C ->
  Cache.retry_list C' = Cache.retry_list C ->
  quiet s (put_cache s c C').
Proof.
  intros HC Hcfg Hr. split; [by eapply cfgs_put_cache|].
  unfold put_cache. simpl. rewrite list_fmap_insert, Hr. apply list_insert_id.
  by rewrite list_lookup_fmap, HC.
Qed.

Lemma modify_cache_quiet c f :
  (forall C, Cache.cfg (f C) = Cache.cfg C /\
             Cache.retry_list (f C) = Cache.retry_list C) ->
  pres quiet (modify_cache c f).
Proof.
  intros Hf s u s' H. apply modify_cache_inv in H as (C & HC & ->).
  eapply quiet_put_cache; [done|apply Hf|apply Hf].
Qed.

Lemma modify_cachesys_quiet f : pres quiet (modify_cachesys f).
Proof. intros s [] s' [= <-]. done. Qed.

Lemma counts_quiet c k k' : pres quiet (count c k;; count c k').
Proof.
  apply (pres_bind _ quiet_trans); [|intros _]; by apply modify_cache_quiet.
Qed.

Section TickFacts.

Variable latency : CacheLevel -> Z.
Variable latency_each : CacheLevel -> Z.

Local Abbreviation send := (send latency latency_each).
Local Abbreviation tick := (tick latency latency_each).
Local Abbreviation retry_loop := (retry_loop latency latency_each).

Ltac quiet_side :=
  first [ exact quiet_refl | exact quiet_trans
        | intros e0; unfold push_wait, push_hit; apply modify_cachesys_quiet
        | intros c0 k0 _; unfold count; apply modify_cache_quiet; intros C0;
          split; reflexivity
        | intros c0 f0 Hf0; apply modify_cache_quiet; intros C0;
          destruct (Hf0 C0) as (? & _ & ?); by split ].

Lemma assign_quiet c h f : pres quiet (assign c h f).
Proof. apply assign_orderly; quiet_side. Qed.

Lemma allocate_line_quiet fuel c idx a :
  pres quiet (allocate_line latency latency_each fuel c idx a).
Proof. apply allocate_line_orderly; quiet_side. Qed.

Lemma push_back_quiet c idx l : pres quiet (push_back c idx l).
Proof. apply push_back_orderly; quiet_side. Qed.

Ltac quiet_step :=
  first [ apply assign_quiet | apply allocate_line_quiet | apply push_back_quiet
        | apply modify_cachesys_quiet
        | apply modify_cache_quiet; intros ?; split; reflexivity
        | pres_step quiet_refl quiet_trans ].

(** A [send] to a last-level cache rewires nothing and touches no retry
    list. *)
Lemma send_last_level_quiet fuel s c C req b s' :
  caches s !! c = Some C -> Cache.is_last_level (Cache.cfg C) = true ->
  send fuel c req s = Ok (b, s') -> quiet s s'.
Proof.
  intros HC Hlast H. destruct fuel as [|fuel]; [done|].
  rewrite (send_unfold _ _ fuel s c C req HC) in H.
  destruct (same_contents_touched C req) as (Tc & _ & _).
  destruct (same_contents_missed C req) as (Mc & _ & _).
  assert (Hmiss :
    send_miss latency latency_each fuel (send fuel) c
      (Cache.get_index C (Request.addr req)) (set_of C req) (is_write req)
      (Request.with_type req Request.READ) (put_cache s c (missed C req))
    = Ok (b, s') -> quiet s s').
  { intros Hm. eapply (quiet_trans _ (put_cache s c (missed C req))).
    { eapply quiet_put_cache; [done|done|].
      unfold missed, touched, ensure_set. simpl.
      by destruct (Cache.cache_lines _ !! _). }
    unfold send_miss in Hm.
    rewrite (bind_eval _ _ _ _ _
               (the_cache_eval _ _ _ (put_cache_lookup _ _ _ _ HC))) in Hm.
    unfold send_forward in Hm. rewrite Mc, Hlast in Hm.
    simpl negb in Hm. cbv iota in Hm.
    revert Hm.
    match goal with
    | |- ?m ?st = Ok _ -> _ => assert (Hp : pres quiet m)
    end.
    { repeat (quiet_step; try discriminate). }
    intros Hm. by eapply Hp. }
  destruct (is_hit C (set_of C req) (Request.addr req)) as [[|] [l|]];
    try (by apply Hmiss).
  eapply (quiet_trans _ (put_cache s c (touched C req))).
  { eapply quiet_put_cache; [done|done|].
    unfold touched, ensure_set. simpl. by destruct (Cache.cache_lines _ !! _). }
  revert H.
  match goal with
  | |- ?m ?st = Ok _ -> _ => assert (Hp : pres quiet m)
  end.
  { unfold send_hit, push_hit, erase. repeat quiet_step. }
  intros H. by eapply Hp.
Qed.

Lemma retry_loop_quiet fuel lower :
  forall n pending, (length pending <= n)%nat ->
  forall kept s0 left s1 L0,
    caches s0 !! lower = Some L0 -> Cache.is_last_level (Cache.cfg L0) = true ->
    retry_loop fuel lower kept pending s0 = Ok (left, s1) ->
    quiet s0 s1 /\ exists sub, left = kept ++ sub /\ sublist sub pending.
Proof.
  induction n as [|n IH]; intros [|r rest] Hn kept s0 left s1 L0 HL Hlast H;
    simpl in *; try lia.
  - inversion H; subst. split; [done|]. exists []. by rewrite app_nil_r.
  - inversion H; subst. split; [done|]. exists []. by rewrite app_nil_r.
  - apply bind_inv in H as (ok & s2 & Hsend & H).
    pose proof (send_last_level_quiet _ _ _ _ _ _ _ HL Hlast Hsend) as Hq.
    assert (HL2 : exists L2, caches s2 !! lower = Some L2 /\
                             Cache.is_last_level (Cache.cfg L2) = true).
    { destruct Hq as [Hcfgs _]. apply cfgs_lookup in HL. rewrite <- Hcfgs in HL.
      apply cfgs_lookup_inv in HL as (L2 & HL2 & E). exists L2.
      split; [done|]. by rewrite E. }
    destruct HL2 as (L2 & HL2 & Hlast2).
    destruct ok.
    + destruct rest as [|r' rest']; [done|].
      destruct (IH rest' ltac:(simpl in Hn; lia) _ _ _ _ _ HL2 Hlast2 H)
        as (Hq' & sub & -> & Hsub).
      split; [by eapply quiet_trans|].
      exists (r' :: sub). split; [by rewrite <- app_assoc|].
      apply sublist_cons. by apply sublist_skip.
    + destruct (IH rest ltac:(lia) _ _ _ _ _ HL2 Hlast2 H)
        as (Hq' & sub & -> & Hsub).
      split; [by eapply quiet_trans|].
      exists (r :: sub). split; [by rewrite <- app_assoc|].
      by apply sublist_skip.
Qed.

(** X25: [Cache::tick] of a cache that sits on a last-level cache never
    adds to its retry list, never repeats an entry and never reorders
    the entries: the list it leaves is a subsequence of the list it
    found.  The retry lists of the other caches, and the wiring, are
    untouched. *)
Theorem tick_keeps_retry_order (fuel : nat) (s s' : Sys) (c lower : nat)
    (C L : Cache.t) :
  caches s !! c = Some C ->
  Cache.lower_cache (Cache.cfg C) = Some lower ->
  caches s !! lower = Some L -> Cache.is_last_level (Cache.cfg L) = true ->
  tick (S fuel) c s = Ok (tt, s') ->
  exists C',
    caches s' !! c = Some C' /\
    sublist (Cache.retry_list C') (Cache.retry_list C) /\
    cfgs s' = cfgs s /\
    forall c' D, c' <> c -> caches s !! c' = Some D ->
      exists D', caches s' !! c' = Some D' /\
                 Cache.retry_list D' = Cache.retry_list D.
Proof.
  intros HC Hlow HL Hlast H. simpl in H.
  rewrite (bind_eval _ _ _ _ _ (the_cache_eval _ _ _ HC)), Hlow in H.
  rewrite (bind_eval _ _ _ _ _ (the_cache_eval _ _ _ HL)), Hlast in H.
  simpl negb in H. cbv iota in H.
  rewrite (bind_eval _ _ _ _ _ (ret_eval _ _)) in H.
  rewrite (bind_eval _ _ _ _ _ (the_cache_eval _ _ _ HC)) in H.
  apply bind_inv in H as (left & s1 & Hloop & H).
  destruct (retry_loop_quiet fuel lower _ _ (le_n _) _ _ _ _ _ HL Hlast Hloop)
    as ([Hcfgs Hretry] & sub & -> & Hsub).
  apply modify_cache_inv in H as (C1 & HC1 & ->).
  exists (Cache.with_retry ([] ++ sub) C1). split_and!.
  - by eapply put_cache_lookup.
  - done.
  - rewrite <- Hcfgs. by eapply cfgs_put_cache.
  - intros c' D Hne HD. rewrite put_cache_lookup_ne by done.
    apply (f_equal (fun l => l !! c')) in Hretry.
    rewrite !list_lookup_fmap, HD in Hretry.
    destruct (caches s1 !! c') as [D'|]; [|done].
    exists D'. split; [done|]. by inversion Hretry.
Qed.

End TickFacts.

(** X25, witnessed on the two levels with two reads waiting in the retry
    list of the L2: the tick sends the first down and steps over the
    second, which stays. *)
Lemma tick_keeps_retry_order_witness :
  exists C',
    caches Scenario.two_level_ticked !! 0%nat = Some C' /\
    sublist (Cache.retry_list C')
      (Cache.retry_list (Scenario.cache_at 0 Scenario.two_level_retrying)) /\
    cfgs Scenario.two_level_ticked = cfgs Scenario.two_level_retrying /\
    forall c' D, c' <> 0%nat -> caches Scenario.two_level_retrying !! c' = Some D ->
      exists D', caches Scenario.two_level_ticked !! c' = Some D' /\
                 Cache.retry_list D' = Cache.retry_list D.
Proof.
  assert (H : tick Scenario.latency Scenario.latency_each 8 0
                Scenario.two_level_retrying = Ok (tt, Scenario.two_level_ticked))
    by (vm_compute; reflexivity).
  assert (HC : caches Scenario.two_level_retrying !! 0%nat
               = Some (Scenario.cache_at 0 Scenario.two_level_retrying))
    by (vm_compute; reflexivity).
  assert (HL : caches Scenario.two_level_retrying !! 1%nat
               = Some (Scenario.cache_at 1 Scenario.two_level_retrying))
    by (vm_compute; reflexivity).
  assert (Hlow : Cache.lower_cache
                   (Cache.cfg (Scenario.cache_at 0 Scenario.two_level_retrying))
                 = Some 1%nat) by (vm_compute; reflexivity).
  assert (Hlast : Cache.is_last_level
                    (Cache.cfg (Scenario.cache_at 1 Scenario.two_level_retrying))
                  = true) by (vm_compute; reflexivity).
  exact (tick_keeps_retry_order Scenario.latency Scenario.latency_each 7
           Scenario.two_level_retrying Scenario.two_level_ticked 0 1
           (Scenario.cache_at 0 Scenario.two_level_retrying)
           (Scenario.cache_at 1 Scenario.two_level_retrying) HC Hlow HL Hlast H).
Defined.


(* ===================================================================== *)
(** * Requests that are merged, and requests that are refused *)
(* ===================================================================== *)

Section MergeFacts.

Variable latency : CacheLevel -> Z.
Variable latency_each : CacheLevel -> Z.

Local Abbreviation send := (send latency latency_each).
Local Abbreviation allocate_line := (allocate_line latency latency_each).

Lemma send_miss_branch fuel s c C req :
  caches s !! c = Some C -> hits C req = false ->
  send (S fuel) c req s =
  send_miss latency latency_each fuel (send fuel) c
    (Cache.get_index C (Request.addr req)) (set_of C req) (is_write req)
    (Request.with_type req Request.READ) (put_cache s c (missed C req)).
Proof.
  intros HC Hh. rewrite (send_unfold _ _ fuel s c C req HC).
  unfold hits in Hh.
  destruct (is_hit C (set_of C req) (Request.addr req)) as [[|] [l|]]; done.
Qed.

(** X26: a request to a block whose fill is outstanding, on any cache of
    any hierarchy.  When the request does not hit and the MSHR table has
    an entry for its block, [send] returns true having only marked the
    line the entry points to dirty, if the request is a write, and added
    one to [cache_mshr_hit]: no line and no MSHR entry is allocated,
    nothing is sent down or to memory, and the request joins neither
    [hit_list] nor [wait_list], so that no completion is ever scheduled
    for it.  When the iterator of the entry dangles the call is
    undefined. *)
Theorem send_merge_effects (fuel : nat) (s : Sys) (c : nat) (C : Cache.t)
    (req : Request.t) (i : nat) (a0 : Z) (h : Handle) :
  caches s !! c = Some C ->
  hits C req = false ->
  find_mshr C (Request.addr req) = Some (i, (a0, h)) ->
  (find_node h.2 (Cache.lines_at C h.1) = None ->
   send (S fuel) c req s = Fault Undefined) /\
  (is_Some (find_node h.2 (Cache.lines_at C h.1)) ->
   exists C',
     send (S fuel) c req s = Ok (true, put_cache s c C') /\
     cachesys (put_cache s c C') = cachesys s /\
     Cache.lines_at C' h.1 =
       update_node h.2
         (fun l => Line.set_dirty (is_write req || Line.dirty l) l)
         (Cache.lines_at C h.1) /\
     (forall j, j <> h.1 -> Cache.lines_at C' j = Cache.lines_at C j) /\
     Cache.cfg C' = Cache.cfg C /\
     Cache.mshr_entries C' = Cache.mshr_entries C /\
     Cache.retry_list C' = Cache.retry_list C /\
     Cache.next_node C' = Cache.next_node C /\
     Cache.stats C' cache_mshr_hit = Cache.stats C cache_mshr_hit + 1).
Proof.
  intros HC Hh Hm.
  rewrite (send_miss_branch fuel s c C req HC Hh).
  destruct (same_contents_missed C req) as (Mc & Mm & Ml).
  set (Mi := missed C req) in *.
  assert (HM : caches (put_cache s c Mi) !! c = Some Mi)
    by (by eapply put_cache_lookup).
  unfold send_miss.
  rewrite (bind_eval _ _ _ _ _ (the_cache_eval _ _ _ HM)).
  change (Request.addr (Request.with_type req Request.READ))
    with (Request.addr req).
  rewrite (hit_mshr_same C Mi (Request.addr req)) by (by split).
  unfold hit_mshr. rewrite Hm.
  rewrite (bind_eval _ _ _ _ _ (count_eval _ _ _ _ HM)).
  rewrite put_cache_put_cache.
  split.
  - intros Hnone. unfold assign, deref.
    rewrite !bind_assoc_eval.
    erewrite (bind_eval (the_cache _)).
    2:{ apply the_cache_eval. by eapply put_cache_lookup. }
    rewrite lines_at_count, Ml, Hnone. reflexivity.
  - intros [n Hn].
    erewrite (bind_eval (assign _ _ _)).
    2:{ eapply assign_eval; [by eapply put_cache_lookup|].
        rewrite lines_at_count, Ml. exact Hn. }
    rewrite put_cache_put_cache.
    eexists. split; [reflexivity|]. split_and!.
    + reflexivity.
    + by rewrite lines_at_set_lines, lines_at_count, Ml.
    + intros j Hj. by rewrite lines_at_set_lines_ne, lines_at_count, Ml.
    + exact Mc.
    + exact Mm.
    + unfold Mi, missed, touched, ensure_set. simpl.
      by destruct (Cache.cache_lines _ !! _).
    + unfold Mi. simpl. apply next_node_missed.
    + change (Cache.stats (set_lines ?j ?x ?X) ?k) with (Cache.stats X k).
      rewrite stats_count. unfold Mi, missed, touched.
      rewrite !stats_count, stats_ensure_set, !stats_count.
      by destruct (is_write req).
Qed.

Lemma allocate_line_None fuel c idx a s s' :
  allocate_line fuel c idx a s = Ok (None, s') -> s' = s.
Proof.
  unfold allocate_line. intros H.
  apply bind_inv in H as (C & s1 & H1 & H).
  apply the_cache_inv in H1 as [HC ->].
  rewrite (bind_eval _ _ _ _ _ (lines_of_eval _ _ _ _ HC)) in H.
  apply bind_inv in H as (ne & s1 & H1 & H).
  unfold need_eviction in H1. destruct (find_tag _ _); [done|].
  inversion H1; subst ne s1. clear H1.
  apply bind_inv in H as (go & s1 & H1 & H).
  destruct go.
  - apply bind_inv in H as (h' & s2 & _ & H). by inversion H.
  - inversion H; subst s'. clear H.
    destruct (negb _).
    + rewrite (bind_eval _ _ _ _ _ (get_sys_eval s)) in H1.
      destruct (find_victim s C _).
      * apply bind_inv in H1 as (u & s2 & _ & H1). by inversion H1.
      * by inversion H1.
    + by inversion H1.
Qed.

(** X27: a refusal leaves no trace.  On any cache of any hierarchy, a
    [send] that returns false has changed nothing but the counters of
    that cache (and has created the set of the address, empty, if it did
    not exist): no line, no MSHR entry and no retry entry was added or
    removed, no other cache was called, the clock and the two queues are
    as they were.  The same request can be sent again later. *)
Theorem send_refused_leaves_no_trace (fuel : nat) (s s' : Sys) (c : nat)
    (C : Cache.t) (req : Request.t) :
  caches s !! c = Some C ->
  send (S fuel) c req s = Ok (false, s') ->
  exists C',
    s' = put_cache s c C' /\
    same_contents C C' /\
    Cache.retry_list C' = Cache.retry_list C /\
    Cache.next_node C' = Cache.next_node C /\
    Cache.stats C' cache_total_access = Cache.stats C cache_total_access + 1 /\
    Cache.stats C' cache_total_miss = Cache.stats C cache_total_miss + 1.
Proof.
  intros HC H.
  destruct (hits C req) eqn:Hh.
  { exfalso. unfold hits in Hh.
    rewrite (send_unfold _ _ fuel s c C req HC) in H.
    destruct (is_hit_cases C (set_of C req) (Request.addr req))
      as [(l & E & _)|[E _]]; [|congruence].
    rewrite E in H.
    destruct (send_hit_eval latency (put_cache s c (touched C req)) c
                C (touched C req) (Cache.get_index C (Request.addr req)) l req)
      as [s1 Hs1]; [by eapply put_cache_lookup|].
    rewrite Hs1 in H. by inversion H. }
  rewrite (send_miss_branch fuel s c C req HC Hh) in H.
  pose proof (same_contents_missed C req) as HMc.
  assert (Hretry : Cache.retry_list (missed C req) = Cache.retry_list C).
  { unfold missed, touched, ensure_set. simpl.
    by destruct (Cache.cache_lines _ !! _). }
  assert (Hst : forall k,
    k = cache_mshr_unavailable \/ k = cache_set_unavailable \/ k = cache_eviction ->
    Cache.stats (Cache.count k (missed C req)) cache_total_access
      = Cache.stats C cache_total_access + 1 /\
    Cache.stats (Cache.count k (missed C req)) cache_total_miss
      = Cache.stats C cache_total_miss + 1 /\
    Cache.stats (missed C req) cache_total_access
      = Cache.stats C cache_total_access + 1 /\
    Cache.stats (missed C req) cache_total_miss
      = Cache.stats C cache_total_miss + 1).
  { intros k Hk. unfold missed, touched.
    rewrite !stats_count, !stats_ensure_set, !stats_count.
    destruct Hk as [->|[->| ->]], (is_write req); done. }
  set (Mi := missed C req) in *.
  assert (HM : caches (put_cache s c Mi) !! c = Some Mi)
    by (by eapply put_cache_lookup).
  unfold send_miss in H.
  rewrite (bind_eval _ _ _ _ _ (the_cache_eval _ _ _ HM)) in H.
  destruct (hit_mshr Mi _) as [[i [a0 h]]|].
  { apply bind_inv in H as (u & s1 & _ & H).
    apply bind_inv in H as (u' & s2 & _ & H). by inversion H. }
  destruct (size_ (Cache.mshr_entries Mi) =? Cache.mshr_entry_num (Cache.cfg Mi)).
  { rewrite (bind_eval _ _ _ _ _ (count_eval _ _ _ _ HM)) in H.
    inversion H; try subst s'. rewrite put_cache_put_cache.
    eexists. split; [reflexivity|].
    destruct (Hst cache_mshr_unavailable) as (? & ? & _); [by left|].
    split_and!;
      first [ by apply same_contents_count | exact HMc | exact Hretry
            | (unfold Mi; simpl; apply next_node_missed) | assumption ]. }
  destruct (all_sets_locked Mi _).
  { rewrite (bind_eval _ _ _ _ _ (count_eval _ _ _ _ HM)) in H.
    inversion H; try subst s'. rewrite put_cache_put_cache.
    eexists. split; [reflexivity|].
    destruct (Hst cache_set_unavailable) as (? & ? & _); [right; by left|].
    split_and!;
      first [ by apply same_contents_count | exact HMc | exact Hretry
            | (unfold Mi; simpl; apply next_node_missed) | assumption ]. }
  apply bind_inv in H as (nl & s1 & Hal & H).
  destruct nl as [h|].
  { apply bind_inv in H as (u & s2 & _ & H).
    apply bind_inv in H as (u' & s3 & _ & H).
    apply bind_inv in H as (u'' & s4 & _ & H). by inversion H. }
  apply allocate_line_None in Hal. subst s1. inversion H; try subst s'.
  exists Mi. split; [reflexivity|].
  destruct (Hst cache_eviction) as (_ & _ & ? & ?); [by do 2 right|].
  split_and!;
  first [ by apply same_contents_count | exact HMc | exact Hretry
        | (unfold Mi; simpl; apply next_node_missed) | assumption ].
Qed.

End MergeFacts.

(** X26, witnessed on the lone cache with a read of block 0 outstanding: a
    write to the block merges, and only marks the line dirty. *)
Lemma send_merge_effects_witness :
  exists C',
    send Scenario.latency Scenario.latency_each 1 0 (Scenario.write 0) Scenario.one_read
      = Ok (true, put_cache Scenario.one_read 0 C') /\
    cachesys (put_cache Scenario.one_read 0 C') = cachesys Scenario.one_read /\
    Cache.mshr_entries C'
      = Cache.mshr_entries (Scenario.cache_at 0 Scenario.one_read) /\
    (Line.dirty ∘ line) <$> Cache.lines_at C' 0 = [true].
Proof.
  assert (HC : caches Scenario.one_read !! 0%nat
               = Some (Scenario.cache_at 0 Scenario.one_read))
    by (vm_compute; reflexivity).
  assert (Hh : hits (Scenario.cache_at 0 Scenario.one_read) (Scenario.write 0) = false)
    by (vm_compute; reflexivity).
  assert (Hm : find_mshr (Scenario.cache_at 0 Scenario.one_read)
                 (Request.addr (Scenario.write 0)) = Some (0%nat, (0, (0, 0%nat))))
    by (vm_compute; reflexivity).
  destruct (send_merge_effects Scenario.latency Scenario.latency_each 0
              Scenario.one_read 0 (Scenario.cache_at 0 Scenario.one_read)
              (Scenario.write 0) 0 0 (0, 0%nat) HC Hh Hm) as [_ H].
  destruct H as (C' & Hrun & Hcs & Hlines & _ & _ & Hmshr & _).
  { vm_compute. eauto. }
  exists C'. split_and!; try done.
  cbn [fst snd] in Hlines. rewrite Hlines. vm_compute. reflexivity.
Defined.

(** X27, witnessed on the lone cache with both lines locked and both MSHR
    entries taken: the read of block 128 is refused. *)
Lemma send_refused_leaves_no_trace_witness :
  exists C',
    Scenario.after [Scenario.send_ 0 (Scenario.read 128)] Scenario.busy
      = put_cache Scenario.busy 0 C' /\
    same_contents (Scenario.cache_at 0 Scenario.busy) C' /\
    Cache.retry_list C' = Cache.retry_list (Scenario.cache_at 0 Scenario.busy) /\
    Cache.next_node C' = Cache.next_node (Scenario.cache_at 0 Scenario.busy) /\
    Cache.stats C' cache_total_access
      = Cache.stats (Scenario.cache_at 0 Scenario.busy) cache_total_access + 1 /\
    Cache.stats C' cache_total_miss
      = Cache.stats (Scenario.cache_at 0 Scenario.busy) cache_total_miss + 1.
Proof.
  assert (HC : caches Scenario.busy !! 0%nat = Some (Scenario.cache_at 0 Scenario.busy))
    by (vm_compute; reflexivity).
  assert (H : send Scenario.latency Scenario.latency_each 1 0 (Scenario.read 128)
                Scenario.busy
              = Ok (false, Scenario.after [Scenario.send_ 0 (Scenario.read 128)]
                             Scenario.busy))
    by (vm_compute; reflexivity).
  exact (send_refused_leaves_no_trace Scenario.latency Scenario.latency_each 0
           Scenario.busy _ 0 (Scenario.cache_at 0 Scenario.busy) (Scenario.read 128)
           HC H).
Defined.


(* ===================================================================== *)
(** * [Cache::send]: the answer, by the state of the cache *)
(* ===================================================================== *)

(** ** The tests of the code and the words of the specification *)

Lemma find_tag_split_inv tg lines l :
  find_tag tg lines = Some l ->
  exists pre post, lines = pre ++ l :: post /\
    Forall (fun n => Line.tag (line n) <> tg) pre /\ Line.tag (line l) = tg.
Proof.
  unfold find_tag. intros H.
  destruct (find_split _ _ _ H) as (pre & post & -> & Hl & Hpre).
  exists pre, post. split_and!; [done| |by apply Z.eqb_eq].
  apply Forall_forall. intros n Hn. apply Z.eqb_neq. by apply Hpre.
Qed.

Lemma hits_unlocked_hit C req :
  hits C req = true <-> unlocked_hit C (Request.addr req).
Proof.
  unfold hits, is_hit, set_of, unlocked_hit.
  destruct (find_tag _ _) as [n|] eqn:Hf; simpl.
  - split.
    + intros Hl. apply negb_true_iff in Hl.
      destruct (find_tag_split_inv _ _ _ Hf) as (pre & post & Hs & Hpre & Ht).
      by exists pre, n, post.
    + intros (pre & l & post & (Hs & Hpre & Ht) & Hl). unfold block_set in Hs.
      rewrite Hs, (find_tag_split _ _ _ _ Hpre Ht) in Hf.
      inversion Hf; subst. by rewrite Hl.
  - split; [done|].
    intros (pre & l & post & (Hs & Hpre & Ht) & Hl). unfold block_set in Hs.
    by rewrite Hs, (find_tag_split _ _ _ _ Hpre Ht) in Hf.
Qed.

Lemma hits_misses C req :
  hits C req = false <-> misses C (Request.addr req).
Proof.
  unfold hits, is_hit, set_of, misses.
  destruct (find_tag _ _) as [n|] eqn:Hf; simpl.
  - split.
    + intros Hl. apply negb_false_iff in Hl. right.
      destruct (find_tag_split_inv _ _ _ Hf) as (pre & post & Hs & Hpre & Ht).
      by exists pre, n, post.
    + intros [Hlack|(pre & l & post & (Hs & Hpre & Ht) & Hl)].
      * unfold lacks, block_set in Hlack.
        by rewrite (find_tag_absent _ _ Hlack) in Hf.
      * unfold block_set in Hs.
        rewrite Hs, (find_tag_split _ _ _ _ Hpre Ht) in Hf.
        inversion Hf; subst. by rewrite Hl.
  - split; [|done]. intros _. left. by apply find_tag_lacks.
Qed.

Lemma in_mshr_no_entry C req :
  in_mshr C req = false <-> no_entry C (Request.addr req).
Proof.
  unfold in_mshr, hit_mshr, no_entry. rewrite bool_decide_eq_false. split.
  - intros H. destruct (find_mshr C (Request.addr req)) as [e|] eqn:Hf.
    + destruct H. eauto.
    + unfold find_mshr in Hf. by apply list_find_None in Hf.
  - intros H [e He]. by rewrite (find_mshr_absent _ _ H) in He.
Qed.

Lemma mshr_full_table_full C : mshr_full C = true <-> table_full C.
Proof. unfold mshr_full, table_full. apply Z.eqb_eq. Qed.

Lemma forallb_Forall {A} (f : A -> bool) (l : list A) :
  forallb f l = true <-> Forall (fun x => f x = true) l.
Proof.
  induction l as [|x l IH]; simpl.
  - split; [constructor|done].
  - rewrite andb_true_iff, Forall_cons, IH. done.
Qed.

Lemma set_locked_out_locked_out C req :
  set_locked_out C req = true <-> locked_out C (Request.addr req).
Proof.
  unfold set_locked_out, all_sets_locked, locked_out, set_full, set_of, block_set.
  rewrite andb_true_iff, negb_true_iff, Z.ltb_ge, forallb_Forall. done.
Qed.

Lemma victim_ok_evictable s C n : victim_ok s C n = true <-> evictable s C n.
Proof.
  unfold victim_ok, evictable.
  destruct (Cache.is_first_level (Cache.cfg C)); simpl.
  - rewrite negb_true_iff. split; [by intros ->|by intros [-> _]].
  - rewrite fold_left_andb, andb_true_iff, negb_true_iff, forallb_Forall.
    split; [by intros [-> ?]|]. intros [-> H]. split; [done|by apply H].
Qed.

Lemma find_victim_None s C lines :
  find_victim s C lines = None <-> Forall (fun n => ~ evictable s C n) lines.
Proof.
  unfold find_victim. induction lines as [|n lines IH]; simpl.
  - split; [constructor|done].
  - rewrite Forall_cons, <- IH, <- victim_ok_evictable.
    destruct (victim_ok s C n).
    + split; [done|]. intros [H _]. by destruct H.
    + split; [intros H; split; [done|exact H]|by intros [_ H]].
Qed.

Lemma first_victim_find s C a pre v post :
  first_victim s C a pre v post ->
  find_victim s C (block_set C a) = Some v.
Proof.
  intros (-> & _ & Hpre & Hv & _). unfold find_victim.
  induction Hpre as [|n pre Hn _ IH]; simpl.
  - by rewrite (proj2 (victim_ok_evictable _ _ _) Hv).
  - destruct (victim_ok s C n) eqn:E; [|done].
    by apply victim_ok_evictable in E.
Qed.

Lemma no_victim_victimless s C req :
  no_victim s C req = true <-> victimless s C (Request.addr req).
Proof.
  unfold no_victim, victimless, set_full, set_of, block_set.
  rewrite andb_true_iff, negb_true_iff, Z.ltb_ge, bool_decide_eq_true.
  by rewrite find_victim_None.
Qed.

Lemma refuses_refused s C req :
  refuses s C req = true <-> refused s C (Request.addr req).
Proof.
  unfold refuses, refused.
  rewrite !andb_true_iff, !orb_true_iff, !negb_true_iff.
  rewrite hits_misses, in_mshr_no_entry, mshr_full_table_full,
    set_locked_out_locked_out, no_victim_victimless. tauto.
Qed.

Lemma live_find_node C h : live C h -> is_Some (find_node h.2 (Cache.lines_at C h.1)).
Proof.
  unfold live, find_node. intros H.
  induction H as [n l Hn|n l _ IH]; simpl.
  - rewrite (proj2 (Nat.eqb_eq _ _) Hn). eauto.
  - destruct (Nat.eqb (node_id n) h.2); eauto.
Qed.

(** ** The steps of a fresh allocation *)

Section AnswerFacts.

Variable latency : CacheLevel -> Z.
Variable latency_each : CacheLevel -> Z.

Local Abbreviation send := (send latency latency_each).
Local Abbreviation send_miss := (send_miss latency latency_each).
Local Abbreviation allocate_line := (allocate_line latency latency_each).
Local Abbreviation evict := (evict latency latency_each).

Lemma allocate_line_room fuel s c C idx a :
  caches s !! c = Some C ->
  find_tag (Cache.get_tag C a) (Cache.lines_at C idx) = None ->
  size_ (Cache.lines_at C idx) < Cache.assoc (Cache.cfg C) ->
  allocate_line fuel c idx a s =
    Ok (Some (idx, Cache.next_node C),
        put_cache s c
          (Cache.with_next (S (Cache.next_node C))
             (set_lines idx
                (Cache.lines_at C idx ++
                 [mkNode (Cache.next_node C) (Line.new a (Cache.get_tag C a))])
                C))).
Proof.
  intros HC Ht Hroom. unfold allocate_line.
  rewrite (bind_eval _ _ _ _ _ (the_cache_eval _ _ _ HC)).
  rewrite (bind_eval _ _ _ _ _ (lines_of_eval _ _ _ _ HC)).
  unfold need_eviction. rewrite Ht.
  rewrite (bind_eval _ _ _ _ _ (ret_eval _ _)).
  rewrite (proj2 (Z.ltb_lt _ _) Hroom). simpl negb. cbv iota.
  rewrite (bind_eval _ _ _ _ _ (ret_eval _ _)).
  by rewrite (bind_eval _ _ _ _ _ (push_back_eval _ _ _ _ _ HC)).
Qed.

Lemma allocate_line_victim fuel s c C idx a v se Ce :
  caches s !! c = Some C ->
  find_tag (Cache.get_tag C a) (Cache.lines_at C idx) = None ->
  Cache.assoc (Cache.cfg C) <= size_ (Cache.lines_at C idx) ->
  find_victim s C (Cache.lines_at C idx) = Some v ->
  evict fuel c idx (node_id v) s = Ok (tt, se) ->
  caches se !! c = Some Ce ->
  allocate_line fuel c idx a s =
    Ok (Some (idx, Cache.next_node Ce),
        put_cache se c
          (Cache.with_next (S (Cache.next_node Ce))
             (set_lines idx
                (Cache.lines_at Ce idx ++
                 [mkNode (Cache.next_node Ce) (Line.new a (Cache.get_tag C a))])
                Ce))).
Proof.
  intros HC Ht Hfull Hv Hev HCe. unfold allocate_line.
  rewrite (bind_eval _ _ _ _ _ (the_cache_eval _ _ _ HC)).
  rewrite (bind_eval _ _ _ _ _ (lines_of_eval _ _ _ _ HC)).
  unfold need_eviction. rewrite Ht.
  rewrite (bind_eval _ _ _ _ _ (ret_eval _ _)).
  rewrite (proj2 (Z.ltb_ge _ _) Hfull). simpl negb. cbv iota.
  rewrite bind_assoc_eval, (bind_eval _ _ _ _ _ (get_sys_eval s)), Hv.
  erewrite (bind_eval (_ ≫= _)).
  2:{ rewrite (bind_eval _ _ _ _ _ Hev). apply ret_eval. }
  cbv beta iota.
  by rewrite (bind_eval _ _ _ _ _ (push_back_eval _ _ _ _ _ HCe)).
Qed.

Lemma allocate_line_victimless fuel s c C idx a :
  caches s !! c = Some C ->
  find_tag (Cache.get_tag C a) (Cache.lines_at C idx) = None ->
  Cache.assoc (Cache.cfg C) <= size_ (Cache.lines_at C idx) ->
  find_victim s C (Cache.lines_at C idx) = None ->
  allocate_line fuel c idx a s = Ok (None, s).
Proof.
  intros HC Ht Hfull Hv. unfold allocate_line.
  rewrite (bind_eval _ _ _ _ _ (the_cache_eval _ _ _ HC)).
  rewrite (bind_eval _ _ _ _ _ (lines_of_eval _ _ _ _ HC)).
  unfold need_eviction. rewrite Ht.
  rewrite (bind_eval _ _ _ _ _ (ret_eval _ _)).
  rewrite (proj2 (Z.ltb_ge _ _) Hfull). simpl negb. cbv iota.
  rewrite bind_assoc_eval, (bind_eval _ _ _ _ _ (get_sys_eval s)), Hv.
  by rewrite (bind_eval _ _ _ _ _ (ret_eval _ _)).
Qed.

(** The miss branch up to the allocation, for a request that finds no
    entry, room in the table, and a set that is not locked out. *)
Lemma send_miss_to_allocation fuel sl sm c M idx lines dirty req' :
  caches sm !! c = Some M ->
  find_mshr M (Request.addr req') = None ->
  (size_ (Cache.mshr_entries M) =? Cache.mshr_entry_num (Cache.cfg M)) = false ->
  all_sets_locked M lines = false ->
  send_miss fuel sl c idx lines dirty req' sm =
  (newline ← allocate_line fuel c idx (Request.addr req');
   match newline with
   | None => mret false
   | Some h =>
       assign c h (Line.set_dirty dirty);;
       modify_cache c (fun C => Cache.with_mshr
         (Cache.mshr_entries C ++ [(Request.addr req', h)]) C);;
       send_forward latency sl c M req';;
       mret true
   end) sm.
Proof.
  intros HM Hm Hfull Hlock. unfold send_miss.
  rewrite (bind_eval _ _ _ _ _ (the_cache_eval _ _ _ HM)).
  unfold hit_mshr. by rewrite Hm, Hfull, Hlock.
Qed.

(** On a last-level cache, whatever line was allocated, the request
    joins [wait_list] and [send] returns true. *)
Lemma send_miss_allocated_last fuel sl sm c M idx lines dirty req' h s1 :
  caches sm !! c = Some M ->
  find_mshr M (Request.addr req') = None ->
  (size_ (Cache.mshr_entries M) =? Cache.mshr_entry_num (Cache.cfg M)) = false ->
  all_sets_locked M lines = false ->
  Cache.is_last_level (Cache.cfg M) = true ->
  allocate_line fuel c idx (Request.addr req') sm = Ok (Some h, s1) ->
  exists s', send_miss fuel sl c idx lines dirty req' sm = Ok (true, s').
Proof.
  intros HM Hm Hfull Hlock Hlast Hal.
  rewrite (send_miss_to_allocation _ _ _ _ _ _ _ _ _ HM Hm Hfull Hlock).
  rewrite (bind_eval _ _ _ _ _ Hal).
  destruct (allocate_line_result _ _ _ _ _ _ _ _ _ _ HM Hal) as [_ Hh].
  destruct (Hh h eq_refl) as (C1 & HC1 & [n Hn]).
  rewrite (bind_eval _ _ _ _ _ (assign_eval _ _ _ _ _ _ HC1 Hn)).
  erewrite (bind_eval (modify_cache _ _)).
  2:{ apply modify_cache_eval. by eapply put_cache_lookup. }
  unfold send_forward. rewrite Hlast. simpl negb. cbv iota.
  rewrite bind_assoc_eval, (bind_eval _ _ _ _ _ (the_clk_eval _)).
  rewrite (bind_eval _ _ _ _ _ (push_wait_eval _ _)). eauto.
Qed.

(** Above a lower cache: the line and the entry are in place when the
    request goes down. *)
Lemma send_miss_allocated_forward fuel sl sm c M idx lines dirty req' se Ce Ce'
    kept tg lower :
  caches sm !! c = Some M ->
  find_mshr M (Request.addr req') = None ->
  (size_ (Cache.mshr_entries M) =? Cache.mshr_entry_num (Cache.cfg M)) = false ->
  all_sets_locked M lines = false ->
  Cache.is_last_level (Cache.cfg M) = false ->
  Cache.lower_cache (Cache.cfg M) = Some lower ->
  caches se !! c = Some Ce' ->
  Forall (fun n => node_id n <> Cache.next_node Ce) kept ->
  allocate_line fuel c idx (Request.addr req') sm =
    Ok (Some (idx, Cache.next_node Ce),
        put_cache se c
          (Cache.with_next (S (Cache.next_node Ce))
             (set_lines idx
                (kept ++ [mkNode (Cache.next_node Ce)
                            (Line.new (Request.addr req') tg)]) Ce))) ->
  send_miss fuel sl c idx lines dirty req' sm =
  (ok ← sl lower req';
   (if ok : bool then mret tt
    else modify_cache c
           (fun C => Cache.with_retry (Cache.retry_list C ++ [req']) C));;
   mret true)
    (put_cache se c
       (Cache.with_mshr
          (Cache.mshr_entries Ce ++ [(Request.addr req', (idx, Cache.next_node Ce))])
          (Cache.with_next (S (Cache.next_node Ce))
             (set_lines idx
                (kept ++ [mkNode (Cache.next_node Ce)
                            (Line.mk (Request.addr req') tg true dirty)]) Ce)))).
Proof.
  intros HM Hm Hfull Hlock Hlast Hlow HCe Hfresh Hal.
  rewrite (send_miss_to_allocation _ _ _ _ _ _ _ _ _ HM Hm Hfull Hlock).
  rewrite (bind_eval _ _ _ _ _ Hal).
  erewrite (bind_eval (assign _ _ _)).
  2:{ eapply assign_eval; [by eapply put_cache_lookup|].
      cbn [fst snd].
      change (Cache.lines_at (Cache.with_next ?n ?X) ?i) with (Cache.lines_at X i).
      rewrite lines_at_set_lines. by apply find_node_split. }
  rewrite put_cache_put_cache.
  erewrite (bind_eval (modify_cache _ _)).
  2:{ apply modify_cache_eval. by eapply put_cache_lookup. }
  rewrite put_cache_put_cache.
  unfold send_forward. rewrite Hlast, Hlow. simpl negb. cbv iota.
  cbn [fst snd].
  change (Cache.lines_at (Cache.with_next ?n ?X) ?i) with (Cache.lines_at X i).
  rewrite lines_at_set_lines.
  rewrite (update_node_split (Cache.next_node Ce) _ kept
             (mkNode (Cache.next_node Ce) (Line.new (Request.addr req') tg)) []
             Hfresh eq_refl).
  change (set_lines ?i ?l (Cache.with_next ?n ?X))
    with (Cache.with_next n (set_lines i l X)).
  rewrite set_lines_set_lines.
  rewrite !bind_assoc_eval. reflexivity.
Qed.

(** The miss branch of a request that finds no entry, room in the
    table, and a set that is not locked out. *)
Lemma send_miss_ready fuel s c C req :
  caches s !! c = Some C ->
  misses C (Request.addr req) -> no_entry C (Request.addr req) ->
  ~ table_full C -> ~ locked_out C (Request.addr req) ->
  send (S fuel) c req s =
    send_miss fuel (send fuel) c (Cache.get_index C (Request.addr req))
      (set_of C req) (is_write req) (Request.with_type req Request.READ)
      (put_cache s c (missed C req)) /\
  caches (put_cache s c (missed C req)) !! c = Some (missed C req) /\
  find_mshr (missed C req) (Request.addr (Request.with_type req Request.READ))
    = None /\
  (size_ (Cache.mshr_entries (missed C req)) =?
   Cache.mshr_entry_num (Cache.cfg (missed C req))) = false /\
  all_sets_locked (missed C req) (set_of C req) = false.
Proof.
  intros HC Hmiss Hno Hfull Hlock.
  destruct (same_contents_missed C req) as (Mc & Mm & Ml).
  split_and!.
  - apply (send_miss_branch latency latency_each fuel s c C req HC
             (proj2 (hits_misses C req) Hmiss)).
  - by eapply put_cache_lookup.
  - change (Request.addr (Request.with_type req Request.READ))
      with (Request.addr req).
    change (find_mshr (missed C req) (Request.addr req))
      with (hit_mshr (missed C req) (Request.addr req)).
    rewrite (hit_mshr_same C) by (by split).
    by apply find_mshr_absent.
  - rewrite Mc, Mm. apply Z.eqb_neq. exact Hfull.
  - destruct (all_sets_locked (missed C req) (set_of C req)) eqn:E; [|done].
    destruct Hlock. apply set_locked_out_locked_out.
    unfold set_locked_out. unfold all_sets_locked in *. by rewrite <- Mc.
Qed.

Lemma missed_lacks C req :
  lacks C (Request.addr req) ->
  find_tag (Cache.get_tag (missed C req) (Request.addr req))
    (Cache.lines_at (missed C req) (Cache.get_index C (Request.addr req))) = None.
Proof.
  intros Hlack. destruct (same_contents_missed C req) as (Mc & Mm & Ml).
  rewrite (get_tag_cfg C _ _ Mc), Ml. by apply find_tag_absent.
Qed.

Lemma missed_find_victim s c C req lines :
  caches s !! c = Some C ->
  find_victim (put_cache s c (missed C req)) (missed C req) lines
  = find_victim s C lines.
Proof.
  intros HC. destruct (same_contents_missed C req) as (Mc & Mm & Ml).
  by apply (find_victim_put_cache _ _ C (missed C req) C).
Qed.

Lemma allocated_eq B req idx kept l0 tg :
  idx = Cache.get_index B (Request.addr req) ->
  tg = Cache.get_tag B (Request.addr req) ->
  Cache.with_mshr
    (Cache.mshr_entries B ++ [(Request.addr req, (idx, Cache.next_node B))])
    (Cache.with_next (S (Cache.next_node B))
       (set_lines idx
          (kept ++ [mkNode (Cache.next_node B)
                      (Line.mk (Request.addr req) tg true (is_write req))])
          (set_lines idx l0 B)))
  = allocated B req kept.
Proof.
  intros -> ->. unfold allocated.
  by rewrite set_lines_set_lines.
Qed.

Lemma steady_lookup s s' c :
  steady s s' -> is_Some (caches s !! c) -> is_Some (caches s' !! c).
Proof.
  intros (Hcfg & _) H. apply lookup_lt_is_Some in H. apply lookup_lt_is_Some.
  assert (E : length (cfgs s') = length (cfgs s)) by (by rewrite Hcfg).
  unfold cfgs in E. rewrite !length_fmap in E. lia.
Qed.

(** Once the line and the entry are in place, the answer of the cache
    below decides nothing but the retry list. *)
Lemma forward_returns fuel c req' lower sm b s2 :
  is_Some (caches sm !! c) ->
  send fuel lower req' sm = Ok (b, s2) ->
  exists s',
    (ok ← send fuel lower req';
     (if ok : bool then mret tt
      else modify_cache c
             (fun C => Cache.with_retry (Cache.retry_list C ++ [req']) C));;
     mret true) sm = Ok (true, s').
Proof.
  intros Hc Hrun. rewrite (bind_eval _ _ _ _ _ Hrun).
  destruct b.
  - rewrite (bind_eval _ _ _ _ _ (ret_eval _ _)). eauto.
  - destruct (steady_lookup _ _ c (send_steady latency latency_each _ _ _ _ _ _ Hrun) Hc)
      as [C2 HC2].
    rewrite (bind_eval _ _ _ _ _ (modify_cache_eval _ _ _ _ HC2)). eauto.
Qed.

Lemma first_victim_not_locked_out s C a pre v post :
  first_victim s C a pre v post -> ~ locked_out C a.
Proof.
  intros (Hs & _ & _ & [Hv _] & _) [_ Hall]. rewrite Hs in Hall.
  apply Forall_app in Hall as [_ Hall]. apply Forall_cons in Hall as [Hl _].
  congruence.
Qed.

Lemma all_lack_put_cache_ne s c X hcs a :
  c ∉ hcs -> all_lack (put_cache s c X) hcs a <-> all_lack s hcs a.
Proof.
  intros Hc. unfold all_lack. rewrite !Forall_forall.
  split; intros Hall x Hx; destruct (Hall x Hx) as (Y & HY & Hl);
    exists Y; (split; [|done]); assert (c <> x) by (by intros ->).
  - by rewrite <- (put_cache_lookup_ne s c x X).
  - by rewrite put_cache_lookup_ne.
Qed.

Lemma looked_up_skip hc hcs a s :
  caches s !! hc = None -> looked_up (hc :: hcs) a s = looked_up hcs a s.
Proof. intros H. unfold looked_up. simpl. by rewrite H. Qed.

Lemma looked_up_put_cache hcs a c X : forall s,
  c ∉ hcs ->
  looked_up hcs a (put_cache s c X) = put_cache (looked_up hcs a s) c X.
Proof.
  induction hcs as [|hc hcs IH]; intros s Hc; [done|].
  apply not_elem_of_cons in Hc as [Hne Hc].
  assert (E : caches (put_cache s c X) !! hc = caches s !! hc)
    by (by apply put_cache_lookup_ne).
  destruct (caches s !! hc) as [H|] eqn:EH.
  - rewrite (looked_up_cons hc hcs a s H EH).
    rewrite (looked_up_cons hc hcs a _ H E).
    rewrite <- IH by done. f_equal.
    unfold put_cache. simpl. f_equal. by apply list_insert_insert_ne.
  - rewrite (looked_up_skip hc hcs a _ E), (looked_up_skip hc hcs a _ EH).
    by apply IH.
Qed.

(** Every request the specification's algorithm answers, [send]
    answers the same, given the fuel to go down. *)
Ltac same_addr :=
  change (Request.addr (Request.with_type ?r Request.READ))
    with (Request.addr r) in *.

Lemma answers_returns d s c req b :
  answers d s c req b ->
  forall fuel, (d < fuel)%nat -> exists s', send (S fuel) c req s = Ok (b, s').
Proof.
  induction 1 as
    [d s c C req HC Hhit
    |d s c C req before e after HC Hmiss Hent Hlive
    |d s c C req HC Hmiss Hno Hfull
    |d s c C req HC Hmiss Hno Hfull Hlock
    |d s c C req HC Hlack Hno Hfull Hvl
    |d s c C req HC Hlack Hno Hfull Hroom Hlast
    |d s c C req pre v post HC Hlack Hno Hfull Hvic Hlast Hc Hall
    |d s c C req lower b HC Hlack Hno Hfull Hroom Hfresh Hlast Hlow Hans IH
    |d s c C req pre v post lower L lp m lq b HC Hlack Hno Hfull Hvic Hfresh
       Hlast Hlow Hc Hlc Hne Hall HL Hholds Hidm Hans IH];
    intros fuel Hfuel;
    destruct (same_contents_missed C req) as (Mc & Mm & Ml);
    pose proof (next_node_missed C req) as Mn.
  - (* hit *)
    destruct (send_cases latency latency_each fuel s c C req HC) as (_ & Hh & _).
    apply Hh. by apply hits_unlocked_hit.
  - (* merge *)
    destruct (send_cases latency latency_each fuel s c C req HC)
      as (_ & _ & Hm & _).
    destruct e as [a0 h]. destruct Hent as (He1 & He2 & He3).
    apply (Hm (proj2 (hits_misses C req) Hmiss) (length before) a0 h).
    + unfold hit_mshr. by apply (find_mshr_split _ _ _ _ after).
    + by apply live_find_node.
  - (* the table is full *)
    destruct (send_cases latency latency_each fuel s c C req HC)
      as (_ & _ & _ & Hf & _).
    destruct Hf as (s' & C' & Hrun & _).
    + by apply hits_misses.
    + by apply in_mshr_no_entry.
    + by apply mshr_full_table_full.
    + eauto.
  - (* the set is locked out *)
    destruct (send_cases latency latency_each fuel s c C req HC)
      as (_ & _ & _ & _ & Hl & _).
    destruct Hl as (s' & C' & Hrun & _).
    + by apply hits_misses.
    + by apply in_mshr_no_entry.
    + destruct (mshr_full C) eqn:E; [|done].
      by apply mshr_full_table_full in E.
    + by apply set_locked_out_locked_out.
    + eauto.
  - (* no victim *)
    destruct (set_locked_out C req) eqn:E.
    { destruct (send_cases latency latency_each fuel s c C req HC)
        as (_ & _ & _ & _ & Hl & _).
      destruct Hl as (s' & C' & Hrun & _).
      + apply hits_misses. by left.
      + by apply in_mshr_no_entry.
      + destruct (mshr_full C) eqn:E'; [|done].
        by apply mshr_full_table_full in E'.
      + done.
      + eauto. }
    assert (Hlock : ~ locked_out C (Request.addr req)).
    { intros Hl. apply set_locked_out_locked_out in Hl. congruence. }
    destruct (send_miss_ready fuel s c C req HC (or_introl Hlack) Hno Hfull Hlock)
      as (Hrun & HM & Hm & Hf & Hl).
    rewrite Hrun, (send_miss_to_allocation _ _ _ _ _ _ _ _ _ HM Hm Hf Hl).
    same_addr.
    destruct Hvl as [Hsf Hnone].
    erewrite (bind_eval (allocate_line _ _ _ _)).
    2:{ apply (allocate_line_victimless _ _ _ (missed C req)).
        - exact HM.
        - by apply missed_lacks.
        - rewrite Mc, Ml. exact Hsf.
        - rewrite Ml, (missed_find_victim _ _ _ _ _ HC).
          by apply find_victim_None. }
    eauto.
  - (* room, last level *)
    assert (Hlock : ~ locked_out C (Request.addr req)) by (by intros [? _]).
    destruct (send_miss_ready fuel s c C req HC (or_introl Hlack) Hno Hfull Hlock)
      as (Hrun & HM & Hm & Hf & Hl).
    rewrite Hrun.
    eapply (send_miss_allocated_last _ _ _ _ _ _ _ _ _ _ _ HM Hm Hf Hl).
    + by rewrite Mc.
    + same_addr.
      apply (allocate_line_room _ _ _ (missed C req)); [exact HM|by apply missed_lacks|].
      rewrite Mc, Ml. unfold set_full, block_set in Hroom. lia.
  - (* a victim, last level *)
    destruct fuel as [|fuel]; [lia|].
    pose proof (first_victim_not_locked_out _ _ _ _ _ _ Hvic) as Hlock.
    destruct (send_miss_ready (S fuel) s c C req HC (or_introl Hlack) Hno Hfull
                Hlock) as (Hrun & HM & Hm & Hf & Hl).
    rewrite Hrun.
    pose proof (first_victim_find _ _ _ _ _ _ Hvic) as Hfind.
    destruct Hvic as (Hset & Hsf & _ & _ & Hid). unfold block_set in Hset.
    destruct (invalidate_all_lacking latency_each fuel
                (Cache.higher_cache (Cache.cfg (missed C req)))
                (Line.addr (line v))
                (put_cache (put_cache s c (missed C req)) c
                   (Cache.count cache_eviction (missed C req)))) as (rs & Hrs).
    { rewrite put_cache_put_cache, Mc. by apply all_lack_put_cache_ne. }
    pose proof (evict_last_eval latency latency_each (S fuel) _ c (missed C req)
                  (Cache.get_index C (Request.addr req)) pre v post rs _ HM
                  ltac:(by rewrite Ml) Hid ltac:(by rewrite Mc) Hrs
                  ltac:(by rewrite Mc)) as Hev.
    eapply (send_miss_allocated_last _ _ _ _ _ _ _ _ _ _ _ HM Hm Hf Hl).
    + by rewrite Mc.
    + same_addr. eapply (allocate_line_victim _ _ _ (missed C req)).
      * exact HM.
      * by apply missed_lacks.
      * rewrite Mc, Ml. exact Hsf.
      * rewrite Ml, (missed_find_victim _ _ _ _ _ HC). exact Hfind.
      * exact Hev.
      * cbn [caches]. apply list_lookup_insert_eq. apply lookup_lt_is_Some.
        rewrite looked_up_notin by (by rewrite Mc).
        eexists. by eapply put_cache_lookup.
  - (* room, above a lower cache *)
    destruct fuel as [|fuel]; [lia|].
    assert (Hlock : ~ locked_out C (Request.addr req)) by (by intros [? _]).
    destruct (send_miss_ready (S fuel) s c C req HC (or_introl Hlack) Hno Hfull
                Hlock) as (Hrun & HM & Hm & Hf & Hl).
    rewrite Hrun.
    rewrite (send_miss_allocated_forward (S fuel) _ _ c (missed C req) _ _ _ _
               (put_cache s c (missed C req)) (missed C req) (missed C req)
               (block_set C (Request.addr req))
               (Cache.get_tag (missed C req) (Request.addr req)) lower
               HM Hm Hf Hl).
    + rewrite put_cache_put_cache.
      same_addr.
      rewrite <- (set_lines_set_lines _ [] _ (missed C req)).
      rewrite (allocated_eq (missed C req) req _ _ []
                 (Cache.get_tag (missed C req) (Request.addr req))
                 (eq_sym (get_index_cfg C _ _ Mc)) eq_refl).
      destruct (IH fuel ltac:(lia)) as (s2 & Hs2).
      eapply forward_returns; [|exact Hs2].
      simpl. apply lookup_lt_is_Some. rewrite length_insert.
      by eapply lookup_lt_Some.
    + by rewrite Mc.
    + by rewrite Mc.
    + exact HM.
    + rewrite Mn. exact Hfresh.
    + same_addr.
      rewrite (allocate_line_room (S fuel) _ c (missed C req) _ _ HM).
      * unfold block_set. by rewrite Ml.
      * by apply missed_lacks.
      * rewrite Mc, Ml. unfold set_full, block_set in Hroom. lia.
  - (* a victim, above a lower cache *)
    destruct fuel as [|fuel]; [lia|].
    pose proof (first_victim_not_locked_out _ _ _ _ _ _ Hvic) as Hlock.
    destruct (send_miss_ready (S fuel) s c C req HC (or_introl Hlack) Hno Hfull
                Hlock) as (Hrun & HM & Hm & Hf & Hl).
    rewrite Hrun.
    pose proof (first_victim_find _ _ _ _ _ _ Hvic) as Hfind.
    destruct Hvic as (Hset & Hsf & _ & _ & Hid). unfold block_set in Hset.
    destruct (invalidate_all_lacking latency_each fuel
                (Cache.higher_cache (Cache.cfg (missed C req)))
                (Line.addr (line v))
                (put_cache (put_cache s c (missed C req)) c
                   (Cache.count cache_eviction (missed C req)))) as (rs & Hrs).
    { rewrite put_cache_put_cache, Mc. by apply all_lack_put_cache_ne. }
    destruct (invalidate_all_Ok_inv _ _ _ _ _ _ _ Hrs) as (_ & Hclean & _).
    pose proof (evict_upper_eval latency latency_each (S fuel) _ c (missed C req)
                  (Cache.get_index C (Request.addr req)) pre v post rs _
                  lower L lp m lq HM
                  ltac:(by rewrite Ml) Hid ltac:(by rewrite Mc) Hrs
                  ltac:(by rewrite Mc) ltac:(by rewrite Mc) Hne
                  ltac:(by rewrite Mc)
                  ltac:(by rewrite put_cache_lookup_ne) Hholds Hidm) as Hev.
    rewrite Hclean, orb_false_r in Hev.
    set (Cv := set_lines (Cache.get_index C (Request.addr req)) (pre ++ post)
                 (Cache.count cache_eviction (missed C req))) in *.
    set (se := mkSys _ _) in Hev.
    assert (HCe : caches se !! c = Some Cv).
    { unfold se. cbn [caches]. apply list_lookup_insert_eq.
      rewrite length_insert. apply lookup_lt_is_Some.
      rewrite looked_up_notin by (by rewrite Mc).
      eexists. by eapply put_cache_lookup. }
    rewrite (send_miss_allocated_forward (S fuel) _ _ c (missed C req) _ _ _ _
               se Cv Cv (pre ++ post)
               (Cache.get_tag (missed C req) (Request.addr req)) lower
               HM Hm Hf Hl).
    + same_addr.
      unfold Cv at 3.
      rewrite (allocated_eq (Cache.count cache_eviction (missed C req)) req _ _
                 (pre ++ post)
                 (Cache.get_tag (missed C req) (Request.addr req))
                 (eq_sym (get_index_cfg C _ _ Mc)) eq_refl).
      destruct (IH fuel ltac:(lia)) as (s2 & Hs2).
      eapply forward_returns; [|].
      * simpl. apply lookup_lt_is_Some. rewrite length_insert.
        by eapply lookup_lt_Some.
      * rewrite <- Hs2. f_equal. unfold se.
        rewrite Mc, put_cache_put_cache, looked_up_put_cache by done.
        unfold put_cache. cbn [cachesys caches].
        rewrite looked_up_cachesys. f_equal.
        rewrite list_insert_insert_eq.
        rewrite (list_insert_insert_ne _ lower c) by done.
        by rewrite list_insert_insert_eq.
    + by rewrite Mc.
    + by rewrite Mc.
    + exact HCe.
    + change (Cache.next_node Cv) with (Cache.next_node (missed C req)).
      rewrite Mn. unfold fresh_node, block_set in Hfresh. rewrite Hset in Hfresh.
      apply Forall_app in Hfresh as [H1 H2]. apply Forall_cons in H2 as [_ H2].
      by apply Forall_app.
    + same_addr.
      rewrite (allocate_line_victim (S fuel) _ c (missed C req) _ _ v se Cv HM).
      * replace (Cache.lines_at Cv (Cache.get_index C (Request.addr req)))
          with (pre ++ post) by (unfold Cv; by rewrite lines_at_set_lines).
        reflexivity.
      * by apply missed_lacks.
      * rewrite Mc, Ml. exact Hsf.
      * rewrite Ml, (missed_find_victim _ _ _ _ _ HC). exact Hfind.
      * exact Hev.
      * exact HCe.
Qed.

(** C1: a [send] that returns, returns false exactly when the request is
    refused: the block is not held unlocked and has no MSHR entry, and
    the MSHR table holds [mshr_entry_num] entries, or the set is full of
    locked lines, or the set is full and none of its lines is unlocked
    here and free in the caches above.  The refusal for a full MSHR table
    happens and adds one to [cache_mshr_unavailable] only, the refusal
    for a locked-out set happens and adds one to [cache_set_unavailable]
    only.  And [send] does return, with the answer [answers] gives it, in
    each of its cases, given fuel for the levels below: true on a hit on
    an unlocked line, on a merge into the MSHR entry of the block and on
    a fresh allocation, with or without a victim, on a last-level cache
    or forwarded to the lower cache, whatever that one answers; false on
    the three refusals. *)
Theorem send_refusal (fuel : nat) (s : Sys) (c : nat) (C : Cache.t)
    (req : Request.t) :
  caches s !! c = Some C ->
  (forall b s', send (S fuel) c req s = Ok (b, s') ->
     (b = false <-> refused s C (Request.addr req))) /\
  (misses C (Request.addr req) -> no_entry C (Request.addr req) ->
   table_full C ->
   exists s' C',
     send (S fuel) c req s = Ok (false, s') /\ caches s' !! c = Some C' /\
     Cache.stats C' cache_mshr_unavailable =
       Cache.stats C cache_mshr_unavailable + 1 /\
     Cache.stats C' cache_set_unavailable =
       Cache.stats C cache_set_unavailable) /\
  (misses C (Request.addr req) -> no_entry C (Request.addr req) ->
   ~ table_full C -> locked_out C (Request.addr req) ->
   exists s' C',
     send (S fuel) c req s = Ok (false, s') /\ caches s' !! c = Some C' /\
     Cache.stats C' cache_set_unavailable =
       Cache.stats C cache_set_unavailable + 1 /\
     Cache.stats C' cache_mshr_unavailable =
       Cache.stats C cache_mshr_unavailable) /\
  (forall d b, answers d s c req b -> (d < fuel)%nat ->
     exists s', send (S fuel) c req s = Ok (b, s')).
Proof.
  intros HC.
  destruct (send_cases latency latency_each fuel s c C req HC)
    as (Hval & _ & _ & Hfull & Hlock & _).
  split_and!.
  - intros b s' Hrun. rewrite (Hval b s' Hrun). apply refuses_refused.
  - intros Hmiss Hno Hf. apply Hfull.
    + by apply hits_misses.
    + by apply in_mshr_no_entry.
    + by apply mshr_full_table_full.
  - intros Hmiss Hno Hf Hl. apply Hlock.
    + by apply hits_misses.
    + by apply in_mshr_no_entry.
    + destruct (mshr_full C) eqn:E; [|done].
      by apply mshr_full_table_full in E.
    + by apply set_locked_out_locked_out.
  - intros d b Hans Hd. by apply (answers_returns d).
Qed.

End AnswerFacts.


(* ===================================================================== *)
(** * The answers of [send] in the scenarios *)
(* ===================================================================== *)

(** A closed inequality between numbers, by evaluation. *)
Ltac differs := let H := fresh in intros H; vm_compute in H; discriminate H.

(** A property of every element of a closed list, one element after the
    other. *)
Ltac each tac :=
  vm_compute; repeat (apply Forall_cons; split; [tac|]); apply Forall_nil_2.

(** A closed list of caches none of which holds the block. *)
Ltac none_holds :=
  each ltac:(eexists; split; [reflexivity|each differs]).

Ltac not_full := vm_compute; let H := fresh in intros H; discriminate H.
Ltac has_room := vm_compute; let H := fresh in intros H; apply H; reflexivity.
Ltac is_full := vm_compute; let H := fresh in intros H; discriminate H.
Ltac decided := apply (bool_decide_unpack _); vm_compute; exact I.

(** The lone cache holds block 0 unlocked: a read of it hits. *)
Lemma answers_read_hit :
  answers 0 Scenario.filled 0 (Scenario.read 0) true.
Proof.
  apply (answers_hit 0 Scenario.filled 0 (Scenario.cache_at 0 Scenario.filled)).
  - vm_compute; reflexivity.
  - exists [], (mkNode 0 (Line.mk 0 0 false false)),
      [mkNode 1 (Line.mk 64 1 false true)].
    split; [|reflexivity].
    split_and!; [vm_compute; reflexivity|apply Forall_nil_2|vm_compute; reflexivity].
Qed.

(** The lone cache has a read of block 0 outstanding: a write of the block
    merges. *)
Lemma answers_write_merge :
  answers 0 Scenario.one_read 0 (Scenario.write 0) true.
Proof.
  apply (answers_merge 0 Scenario.one_read 0 (Scenario.cache_at 0 Scenario.one_read)
           (Scenario.write 0) [] (0, (0, 0%nat)) []).
  - vm_compute; reflexivity.
  - right. exists [], (mkNode 0 (Line.mk 0 0 true false)), [].
    split; [|reflexivity].
    split_and!; [vm_compute; reflexivity|apply Forall_nil_2|vm_compute; reflexivity].
  - split_and!; [vm_compute; reflexivity|apply Forall_nil_2|vm_compute; reflexivity].
  - vm_compute. apply Exists_cons_hd. reflexivity.
Qed.

(** In the second level of the three, block 0 is unlocked but locked in the
    first level above, and block 128 is locked: a read of block 192 finds
    no victim. *)
Lemma answers_no_victim :
  answers 0 Scenario.three_level_held 2 (Scenario.read 192) false.
Proof.
  apply (answers_victimless 0 Scenario.three_level_held 2
           (Scenario.cache_at 2 Scenario.three_level_held)).
  - vm_compute; reflexivity.
  - each differs.
  - each differs.
  - unfold table_full. not_full.
  - split; [unfold set_full; is_full|].
    unfold block_set.
    replace (Cache.lines_at (Scenario.cache_at 2 Scenario.three_level_held)
               (Cache.get_index (Scenario.cache_at 2 Scenario.three_level_held)
                  (Request.addr (Scenario.read 192))))
      with [mkNode 4 (Line.mk 0 0 false false); mkNode 5 (Line.mk 128 2 true false)]
      by (vm_compute; reflexivity).
    apply Forall_cons. split; [|apply Forall_cons; split; [|apply Forall_nil_2]].
    + intros [_ H]. specialize (H ltac:(vm_compute; reflexivity)).
      vm_compute in H. apply Forall_cons in H as [H _]. discriminate H.
    + intros [H _]. discriminate H.
Qed.

(** The read of block 0 through the fresh two levels: the L2 has room,
    forwards, and the L3 has room. *)
Lemma answers_forwarded :
  answers 1 Scenario.two_level 0 (Scenario.read 0) true.
Proof.
  apply (answers_room_forward 0 Scenario.two_level 0
           (Scenario.cache_at 0 Scenario.two_level) (Scenario.read 0) 1 true).
  - vm_compute; reflexivity.
  - each differs.
  - each differs.
  - unfold table_full. not_full.
  - unfold set_full. has_room.
  - each differs.
  - vm_compute; reflexivity.
  - vm_compute; reflexivity.
  - apply (answers_room_last 0 _ 1 (Scenario.cache_at 1 Scenario.two_level)).
    + vm_compute; reflexivity.
    + each differs.
    + each differs.
    + unfold table_full. not_full.
    + unfold set_full. has_room.
    + vm_compute; reflexivity.
Qed.

(** The read of block 128 through the two levels when both MSHR entries of
    the L3 are taken: the L2 has room and forwards, the L3 refuses; the
    L2 answers true all the same. *)
Lemma answers_forwarded_refused :
  answers 1 Scenario.two_level_two_reads 0 (Scenario.read 128) true.
Proof.
  apply (answers_room_forward 0 Scenario.two_level_two_reads 0
           (Scenario.cache_at 0 Scenario.two_level_two_reads) (Scenario.read 128)
           1 false).
  - vm_compute; reflexivity.
  - each differs.
  - each differs.
  - unfold table_full. not_full.
  - unfold set_full. has_room.
  - each differs.
  - vm_compute; reflexivity.
  - vm_compute; reflexivity.
  - apply (answers_table_full 0 _ 1 (Scenario.cache_at 1 Scenario.two_level_two_reads)).
    + vm_compute; reflexivity.
    + left. each differs.
    + each differs.
    + vm_compute; reflexivity.
Qed.

(** The read of block 128 through the two small levels: the first level
    gives up block 64, which the last level refreshes, and forwards; the
    last level gives up block 0, which the first level no longer holds. *)
Lemma answers_evicting :
  answers 1 Scenario.small_filled 0 (Scenario.read 128) true.
Proof.
  apply (answers_victim_forward 0 Scenario.small_filled 0
           (Scenario.cache_at 0 Scenario.small_filled) (Scenario.read 128)
           [] (mkNode 1 (Line.mk 64 1 false false)) []
           1 (Scenario.cache_at 1 Scenario.small_filled)
           [mkNode 1 (Line.mk 0 0 false true)] (mkNode 2 (Line.mk 64 1 false false)) []
           true).
  - vm_compute; reflexivity.
  - each differs.
  - each differs.
  - unfold table_full. not_full.
  - split_and!.
    + vm_compute; reflexivity.
    + unfold set_full. is_full.
    + apply Forall_nil_2.
    + split; [reflexivity|]. intros H. vm_compute in H. discriminate H.
    + apply Forall_nil_2.
  - each differs.
  - vm_compute; reflexivity.
  - vm_compute; reflexivity.
  - decided.
  - decided.
  - discriminate.
  - vm_compute. apply Forall_nil_2.
  - vm_compute; reflexivity.
  - split_and!; [vm_compute; reflexivity|each differs|vm_compute; reflexivity].
  - each differs.
  - eapply (answers_victim_last 0 _ 1 _ _
              [] (mkNode 1 (Line.mk 0 0 false true))
              [mkNode 3 (Line.mk 64 1 false false)]).
    + vm_compute; reflexivity.
    + each differs.
    + each differs.
    + unfold table_full. not_full.
    + split_and!.
      * vm_compute; reflexivity.
      * unfold set_full. is_full.
      * apply Forall_nil_2.
      * split; [reflexivity|]. intros _. each ltac:(reflexivity).
      * apply Forall_nil_2.
    + vm_compute; reflexivity.
    + decided.
    + none_holds.
Qed.

(** C1, witnessed on every exit of [send]: a hit and a merge on the lone
    cache, the two counted refusals (table full on the lone cache, set
    locked in a first level of the three), the refusal for want of a victim
    in the second level of the three, a fresh allocation forwarded to the
    last level and absorbed there, one forwarded and refused there, and an
    allocation that evicts at both levels. *)
Lemma send_refusal_witness :
  (exists s', send Scenario.latency Scenario.latency_each 2 0 (Scenario.read 0) Scenario.filled = Ok (true, s')) /\
  (exists s', send Scenario.latency Scenario.latency_each 2 0 (Scenario.write 0) Scenario.one_read = Ok (true, s')) /\
  (exists s' C',
     send Scenario.latency Scenario.latency_each 1 0 (Scenario.read 128) Scenario.busy = Ok (false, s') /\
     caches s' !! 0%nat = Some C' /\
     Cache.stats C' cache_mshr_unavailable = 1 /\
     Cache.stats C' cache_set_unavailable = 0) /\
  (exists s' C',
     send Scenario.latency Scenario.latency_each 1 1 (Scenario.read 192) Scenario.three_level_held = Ok (false, s') /\
     caches s' !! 1%nat = Some C' /\
     Cache.stats C' cache_set_unavailable = 1 /\
     Cache.stats C' cache_mshr_unavailable = 0) /\
  (exists s', send Scenario.latency Scenario.latency_each 2 2 (Scenario.read 192) Scenario.three_level_held
              = Ok (false, s')) /\
  (exists s', send Scenario.latency Scenario.latency_each 3 0 (Scenario.read 0) Scenario.two_level = Ok (true, s')) /\
  (exists s', send Scenario.latency Scenario.latency_each 3 0 (Scenario.read 128) Scenario.two_level_two_reads
              = Ok (true, s')) /\
  (exists s', send Scenario.latency Scenario.latency_each 3 0 (Scenario.read 128) Scenario.small_filled
              = Ok (true, s')) /\
  (forall b s', send Scenario.latency Scenario.latency_each 2 2 (Scenario.read 192) Scenario.three_level_held
                = Ok (b, s') ->
     (b = false <->
      refused Scenario.three_level_held
        (Scenario.cache_at 2 Scenario.three_level_held) 192)).
Proof.
  split_and!.
  - destruct (send_refusal Scenario.latency Scenario.latency_each 1 Scenario.filled 0
             (Scenario.cache_at 0 Scenario.filled) (Scenario.read 0)
             ltac:(vm_compute; reflexivity)) as (_ & _ & _ & Hans).
    apply (Hans 0%nat true answers_read_hit). lia.
  - destruct (send_refusal Scenario.latency Scenario.latency_each 1 Scenario.one_read 0
             (Scenario.cache_at 0 Scenario.one_read) (Scenario.write 0)
             ltac:(vm_compute; reflexivity)) as (_ & _ & _ & Hans).
    apply (Hans 0%nat true answers_write_merge). lia.
  - destruct (send_refusal Scenario.latency Scenario.latency_each 0 Scenario.busy 0
                (Scenario.cache_at 0 Scenario.busy) (Scenario.read 128)
                ltac:(vm_compute; reflexivity)) as (_ & Hfull & _).
    apply Hfull.
    + left. each differs.
    + each differs.
    + vm_compute; reflexivity.
  - destruct (send_refusal Scenario.latency Scenario.latency_each 0 Scenario.three_level_held 1
                (Scenario.cache_at 1 Scenario.three_level_held) (Scenario.read 192)
                ltac:(vm_compute; reflexivity)) as (_ & _ & Hlock & _).
    apply Hlock.
    + left. each differs.
    + each differs.
    + unfold table_full. not_full.
    + split; [unfold set_full; is_full|]. each ltac:(reflexivity).
  - destruct (send_refusal Scenario.latency Scenario.latency_each 1 Scenario.three_level_held 2
             (Scenario.cache_at 2 Scenario.three_level_held) (Scenario.read 192)
             ltac:(vm_compute; reflexivity)) as (_ & _ & _ & Hans).
    apply (Hans 0%nat false answers_no_victim). lia.
  - destruct (send_refusal Scenario.latency Scenario.latency_each 2 Scenario.two_level 0
             (Scenario.cache_at 0 Scenario.two_level) (Scenario.read 0)
             ltac:(vm_compute; reflexivity)) as (_ & _ & _ & Hans).
    apply (Hans 1%nat true answers_forwarded). lia.
  - destruct (send_refusal Scenario.latency Scenario.latency_each 2 Scenario.two_level_two_reads 0
             (Scenario.cache_at 0 Scenario.two_level_two_reads) (Scenario.read 128)
             ltac:(vm_compute; reflexivity)) as (_ & _ & _ & Hans).
    apply (Hans 1%nat true answers_forwarded_refused). lia.
  - destruct (send_refusal Scenario.latency Scenario.latency_each 2 Scenario.small_filled 0
             (Scenario.cache_at 0 Scenario.small_filled) (Scenario.read 128)
             ltac:(vm_compute; reflexivity)) as (_ & _ & _ & Hans).
    apply (Hans 1%nat true answers_evicting). lia.
  - destruct (send_refusal Scenario.latency Scenario.latency_each 1
                Scenario.three_level_held 2
                (Scenario.cache_at 2 Scenario.three_level_held) (Scenario.read 192)
                ltac:(vm_compute; reflexivity)) as (Hval & _).
    exact Hval.
Defined.
